(** * moleculer-apollo-server: the schema composition and resolver engine

    A shallow embedding of [src/service.js] and the properties of its
    specification.

    Conventions of the embedding.
    - A JavaScript string is a [string]: its characters are the code units
      below 256, so the character classes of the regular expressions are the
      ones of that range.
    - A JavaScript object is an association list in property enumeration
      order; [Object.keys], [Object.values] and [Object.entries] read it left
      to right.
    - A number is an integer of [Z].
    - A value is a tree. What the code changes in place is threaded through
      the functions as the changed value; two places of a value share
      nothing, and a value carries no inherited property.
    - An [async] function is a function from the answers of its collaborators
      to an outcome ([Ok] for a fulfilled promise, [Err] for a rejected one)
      and a trace of the remote calls it made; the one place where the
      interleaving of demands matters, [prepareGraphQLSchema], is a step
      relation with one step per run between two suspension points.
    - The settings of the services are typed: a fragment setting is a string
      or an array of strings, a mapping of parameters maps strings to
      strings.
    - Of the collaborators, the remote calls, the loaders and
      [makeExecutableSchema] may fail; the logger, the pub/sub factory, the
      Apollo server and the broadcast are taken to succeed, and of their
      effects the model keeps the stop of a server, the broadcast of a
      schema and the error that is logged. *)

From Stdlib Require Import String Ascii List ZArith Bool Lia DecimalString
  DecimalZ.
From stdpp Require Import gmap strings.
Import ListNotations.

Local Open Scope string_scope.
Local Open Scope list_scope.
Set Warnings "-register-all".
#[local] Arguments String.append !s1 s2 : simpl nomatch.

(** ** JavaScript values *)

Module Js.

Inductive JsVal : Type :=
| VUndefined
| VNull
| VBool (b : bool)
| VNum (n : Z)
| VStr (s : string)
| VArr (items : list JsVal)
| VObj (props : list (string * JsVal))   (* a plain object *)
| VForeign (id : nat).                   (* a function or a class instance, opaque *)

(** A settled promise, or the completion of a synchronous call. *)
Inductive Result (A : Type) : Type :=
| Ok (a : A)
| Err (e : JsVal).
Arguments Ok {A} a.
Arguments Err {A} e.

Definition bind {A B : Type} (r : Result A) (k : A -> Result B) : Result B :=
  match r with
  | Ok a => k a
  | Err e => Err e
  end.

(** ToBoolean. *)
Definition truthy (v : JsVal) : bool :=
  match v with
  | VUndefined | VNull => false
  | VBool b => b
  | VNum n => negb (Z.eqb n 0)
  | VStr s => negb (String.eqb s "")
  | VArr _ | VObj _ | VForeign _ => true
  end.

(** [v == null]. *)
Definition nullish (v : JsVal) : bool :=
  match v with
  | VUndefined | VNull => true
  | _ => false
  end.

(** A non-empty string is truthy. *)
Definition truthyStr (s : string) : bool := negb (String.eqb s "").

Fixpoint assoc {A : Type} (k : string) (ps : list (string * A)) : option A :=
  match ps with
  | [] => None
  | (k', v) :: rest => if String.eqb k k' then Some v else assoc k rest
  end.

(** [o[k] = v] on the properties of an object: an existing key keeps its
    place, a new key goes last. *)
Fixpoint assign {A : Type} (k : string) (v : A) (ps : list (string * A))
  : list (string * A) :=
  match ps with
  | [] => [(k, v)]
  | (k', v') :: rest =>
      if String.eqb k k' then (k, v) :: rest else (k', v') :: assign k v rest
  end.

(** [delete o[k]]. *)
Fixpoint remove {A : Type} (k : string) (ps : list (string * A))
  : list (string * A) :=
  match ps with
  | [] => []
  | (k', v') :: rest =>
      if String.eqb k k' then remove k rest else (k', v') :: remove k rest
  end.

(** [list.reduce] and [list.forEach] with a callback that may throw: the
    first failure ends the loop. *)
Definition reduce {S X : Type} (f : S -> X -> Result S) (l : list X)
    (init : Result S) : Result S :=
  fold_left (fun acc x => bind acc (fun s => f s x)) l init.

Definition typeError (message : string) : JsVal :=
  VObj [("name", VStr "TypeError"); ("message", VStr message)].

Definition referenceError (message : string) : JsVal :=
  VObj [("name", VStr "ReferenceError"); ("message", VStr message)].

End Js.
Export Js.

(** ** Strings: the part of [String.prototype] and of the regular expressions
    that [getFieldName] uses *)

Module JsString.

Definition quote : ascii := "034"%char.
Definition newline : ascii := "010"%char.
Definition hash : ascii := "#"%char.

(** The class [\s] below 256: tab, line feed, vertical tab, form feed,
    carriage return, space and no-break space. *)
Definition isSpace (c : ascii) : bool :=
  let n := nat_of_ascii c in
  ((9 <=? n)%nat && (n <=? 13)%nat) || (n =? 32)%nat || (n =? 160)%nat.

(** The characters that [.] does not match and after which [^] matches
    under the [m] flag: line feed and carriage return. *)
Definition isLineTerminator (c : ascii) : bool :=
  let n := nat_of_ascii c in (n =? 10)%nat || (n =? 13)%nat.

(** [s.replace(re, "")] for a global [re] that never matches the empty
    string. [matchAt prev s] is the length of the match of [re] at the
    position whose remaining input is [s] and whose preceding character is
    [prev]. The scan resumes where a match ended; [skip] counts the
    characters of the current match still to be dropped. *)
Fixpoint replaceAll (matchAt : option ascii -> string -> option nat)
    (prev : option ascii) (skip : nat) (s : string) : string :=
  match s with
  | EmptyString => EmptyString
  | String c rest =>
      match skip with
      | S k => replaceAll matchAt (Some c) k rest
      | O =>
          match matchAt prev s with
          | Some (S k) => replaceAll matchAt (Some c) k rest
          | _ => String c (replaceAll matchAt (Some c) 0 rest)
          end
      end
  end.

(** Index of the first double quote. *)
Fixpoint indexOfQuote (s : string) : option nat :=
  match s with
  | EmptyString => None
  | String c rest =>
      if Ascii.eqb c quote then Some 0%nat
      else option_map S (indexOfQuote rest)
  end.

(** The regular expression ["([\s\S]*?)"]: an opening quote, then lazily
    anything up to the nearest closing quote. *)
Definition matchQuoted (prev : option ascii) (s : string) : option nat :=
  match s with
  | EmptyString => None
  | String c rest =>
      if Ascii.eqb c quote
      then option_map (fun k => S (S k)) (indexOfQuote rest)
      else None
  end.

(** [.*\n?]: the rest of the line and its line feed if there is one. *)
Fixpoint restOfLine (s : string) : nat :=
  match s with
  | EmptyString => 0%nat
  | String c rest =>
      if Ascii.eqb c newline then 1%nat
      else if isLineTerminator c then 0%nat
      else S (restOfLine rest)
  end.

(** [[\s]*?#.*\n?]: white space, lazily, up to a hash sign, then the rest of
    the line. *)
Fixpoint spacesThenHash (s : string) : option nat :=
  match s with
  | EmptyString => None
  | String c rest =>
      if Ascii.eqb c hash then Some (S (restOfLine rest))
      else if isSpace c then option_map S (spacesThenHash rest)
      else None
  end.

(** [^] under the [m] flag. *)
Definition atLineStart (prev : option ascii) : bool :=
  match prev with
  | None => true
  | Some c => isLineTerminator c
  end.

(** The regular expression [^[\s]*?#.*\n?] with the flags [gm]. *)
Definition matchComment (prev : option ascii) (s : string) : option nat :=
  if atLineStart prev then spacesThenHash s else None.

Fixpoint trimStart (s : string) : string :=
  match s with
  | EmptyString => EmptyString
  | String c rest => if isSpace c then trimStart rest else s
  end.

(** Drops the white space at the end: a white space character is kept when
    something that is kept follows it. *)
Fixpoint trimEnd (s : string) : string :=
  match s with
  | EmptyString => EmptyString
  | String c rest =>
      match trimEnd rest with
      | EmptyString => if isSpace c then EmptyString else String c EmptyString
      | kept => String c kept
      end
  end.

Definition trim (s : string) : string := trimEnd (trimStart s).

(** [s.split(re)] for a [re] that matches one character of the class
    [sep]: the first piece and the pieces after it. *)
Fixpoint split (sep : ascii -> bool) (s : string) : string * list string :=
  match s with
  | EmptyString => (EmptyString, [])
  | String c rest =>
      let '(piece, pieces) := split sep rest in
      if sep c then (EmptyString, piece :: pieces)
      else (String c piece, pieces)
  end.

Fixpoint contains (c : ascii) (s : string) : bool :=
  match s with
  | EmptyString => false
  | String c' rest => Ascii.eqb c c' || contains c rest
  end.

Fixpoint forallb (p : ascii -> bool) (s : string) : bool :=
  match s with
  | EmptyString => true
  | String c rest => p c && forallb p rest
  end.

Definition startsWithSpace (s : string) : bool :=
  match s with
  | EmptyString => false
  | String c _ => isSpace c
  end.

Fixpoint endsWithSpace (s : string) : bool :=
  match s with
  | EmptyString => false
  | String c EmptyString => isSpace c
  | String _ rest => endsWithSpace rest
  end.

End JsString.

(** ** [getFieldName] *)

(** The class [[(:]]. *)
Definition isFieldDelimiter (c : ascii) : bool :=
  Ascii.eqb c "("%char || Ascii.eqb c ":"%char.

(** A character that neither replacement can start at: not white space, not
    a double quote, not a hash sign. *)
Definition solid (c : ascii) : bool :=
  negb (JsString.isSpace c) && negb (Ascii.eqb c JsString.quote)
  && negb (Ascii.eqb c JsString.hash).

(** A character of a name: solid, and not one of the two delimiters. *)
Definition isNameChar (c : ascii) : bool :=
  solid c && negb (isFieldDelimiter c).

(** [declaration.replace(/"([\s\S]*?)"/g, "")]. *)
Definition removeDescriptions (declaration : string) : string :=
  JsString.replaceAll JsString.matchQuoted None 0 declaration.

(** [.replace(/^[\s]*?#.*\n?/gm, "")]. *)
Definition removeComments (declaration : string) : string :=
  JsString.replaceAll JsString.matchComment None 0 declaration.

(** [cleanedDeclaration]: the two replacements, then [.trim()]. *)
Definition cleanDeclaration (declaration : string) : string :=
  JsString.trim (removeComments (removeDescriptions declaration)).

(** [cleanedDeclaration.split(/[(:]/g)[0]]. *)
Definition getFieldName (declaration : string) : string :=
  let cleanedDeclaration := cleanDeclaration declaration in
  fst (JsString.split isFieldDelimiter cleanedDeclaration).

(** ** lodash: [_.get], [_.set], [_.unset] and [_.defaultsDeep]

    What lodash does to a value in place is written as a function that
    returns the updated value. A property read sees the own properties of a
    plain object, and the elements and the [length] of an array; the
    characters of a string and the properties of an opaque value are not
    seen, and a write to anything but a plain object or an element of an
    array leaves the value unchanged. A path string is cut at its dots; the
    bracket notation of lodash paths is not interpreted.

    So the functions below are those of lodash on a part of their inputs,
    which [plainName] and [tidy] delimit. lodash reads [object[key]]
    through the prototype of the object: a key that plain objects inherit,
    such as [toString], reads as the inherited function where the object
    has no such property of its own, and [_.defaultsDeep] then leaves the
    key as it is; [_.set] refuses some of these keys; and a path with
    brackets, such as [ids[0]], is cut at the brackets. The properties
    that state what these functions do to a key are stated for the plain
    names, read in plain objects. *)

Module Lodash.

Definition isObject (v : JsVal) : bool :=
  match v with
  | VArr _ | VObj _ | VForeign _ => true
  | _ => false
  end.

Definition isPlainObject (v : JsVal) : bool :=
  match v with
  | VObj _ => true
  | _ => false
  end.

Definition isUndefined (v : JsVal) : bool :=
  match v with
  | VUndefined => true
  | _ => false
  end.

(** The key of the array index [i]. *)
Definition indexKey (i : nat) : string :=
  NilEmpty.string_of_uint (Nat.to_uint i).

(** [isIndex]: the keys [0], [1], [2], ... without leading zeros. *)
Definition parseIndex (key : string) : option nat :=
  match NilEmpty.uint_of_string key with
  | Some d =>
      let i := Nat.of_uint d in
      if String.eqb (indexKey i) key then Some i else None
  | None => None
  end.

Definition isIndex (key : string) : bool :=
  match parseIndex key with
  | Some _ => true
  | None => false
  end.

(** [object[key]]. *)
Definition getProp (object : JsVal) (key : string) : JsVal :=
  match object with
  | VObj props =>
      match assoc key props with
      | Some v => v
      | None => VUndefined
      end
  | VArr items =>
      match parseIndex key with
      | Some i => nth i items VUndefined
      | None =>
          if String.eqb key "length"
          then VNum (Z.of_nat (length items))
          else VUndefined
      end
  | _ => VUndefined
  end.

(** [key in Object(object)]. *)
Definition hasKey (object : JsVal) (key : string) : bool :=
  match object with
  | VObj props =>
      match assoc key props with
      | Some _ => true
      | None => false
      end
  | VArr items =>
      match parseIndex key with
      | Some i => (i <? length items)%nat
      | None => String.eqb key "length"
      end
  | _ => false
  end.

(** [items[i] = v]; the array grows when [i] is past its end. *)
Fixpoint setNth (i : nat) (v : JsVal) (items : list JsVal) : list JsVal :=
  match i, items with
  | O, [] => [v]
  | O, _ :: rest => v :: rest
  | S k, [] => VUndefined :: setNth k v []
  | S k, x :: rest => x :: setNth k v rest
  end.

(** [object[key] = value]. *)
Definition assignProp (object : JsVal) (key : string) (value : JsVal)
  : JsVal :=
  match object with
  | VObj props => VObj (assign key value props)
  | VArr items =>
      match parseIndex key with
      | Some i => VArr (setNth i value items)
      | None => object
      end
  | _ => object
  end.

(** [delete object[key]]; a deleted element of an array leaves a hole,
    which reads as [undefined]. *)
Definition deleteProp (object : JsVal) (key : string) : JsVal :=
  match object with
  | VObj props => VObj (remove key props)
  | VArr items =>
      match parseIndex key with
      | Some i =>
          if (i <? length items)%nat then VArr (setNth i VUndefined items)
          else object
      | None => object
      end
  | _ => object
  end.

Definition isDot (c : ascii) : bool := Ascii.eqb c "."%char.

(** [stringToPath] on a string with dots. *)
Definition stringToPath (path : string) : list string :=
  let '(piece, pieces) := JsString.split isDot path in piece :: pieces.

(** [isKey]: a string without a dot is one key, and so is a string that is
    a property of the object. *)
Definition isKey (path : string) (object : JsVal) : bool :=
  negb (JsString.contains "."%char path) || hasKey object path.

Definition castPath (path : string) (object : JsVal) : list string :=
  if isKey path object then [path] else stringToPath path.

(** The names that a plain object inherits from [Object.prototype]. *)
Definition inheritedNames : list string :=
  ["constructor"; "__defineGetter__"; "__defineSetter__"; "hasOwnProperty";
   "__lookupGetter__"; "__lookupSetter__"; "isPrototypeOf";
   "propertyIsEnumerable"; "toString"; "valueOf"; "__proto__";
   "toLocaleString"].

Definition inheritedName (key : string) : bool :=
  existsb (String.eqb key) inheritedNames.

(** The class [\w]: a letter, a digit or an underscore. *)
Definition isWordChar (c : ascii) : bool :=
  let n := nat_of_ascii c in
  ((48 <=? n)%nat && (n <=? 57)%nat) || ((65 <=? n)%nat && (n <=? 90)%nat)
  || (n =? 95)%nat || ((97 <=? n)%nat && (n <=? 122)%nat).

(** A plain name: a string that matches [/^\w*$/], which [isKey] of lodash
    takes as one key whatever the object is, and that is neither a name
    that plain objects inherit nor [prototype], which [_.set] refuses as it
    refuses [constructor] and [__proto__]. *)
Definition plainName (key : string) : bool :=
  JsString.forallb isWordChar key
  && negb (inheritedName key) && negb (String.eqb key "prototype").

(** A tidy value: no plain object in it has a key that plain objects
    inherit. The copy that [_.defaultsDeep] makes of a tidy value is equal
    to it. *)
Fixpoint tidy (v : JsVal) : bool :=
  match v with
  | VArr items =>
      (fix all (xs : list JsVal) : bool :=
         match xs with
         | [] => true
         | x :: rest => tidy x && all rest
         end) items
  | VObj props =>
      (fix all (ps : list (string * JsVal)) : bool :=
         match ps with
         | [] => true
         | (key, x) :: rest => negb (inheritedName key) && tidy x && all rest
         end) props
  | _ => true
  end.

(** A value in which the model reads what lodash reads under a plain
    name: a plain object, or a value that the resolver does not read
    because it is falsy. *)
Definition plainSource (v : JsVal) : bool :=
  isPlainObject v || negb (truthy v).

Fixpoint baseGet (object : JsVal) (path : list string) : JsVal :=
  match path with
  | [] => object
  | key :: rest =>
      if nullish object then VUndefined
      else baseGet (getProp object key) rest
  end.

(** [_.get(object, path)]. *)
Definition get (object : JsVal) (path : string) : JsVal :=
  if nullish object then VUndefined
  else baseGet object (castPath path object).

Fixpoint baseSet (nested : JsVal) (path : list string) (value : JsVal)
  : JsVal :=
  match path with
  | [] => nested
  | [key] => assignProp nested key value
  | key :: (next :: _) as rest =>
      let objValue := getProp nested key in
      let newValue :=
        if isObject objValue then objValue
        else if isIndex next then VArr [] else VObj [] in
      assignProp nested key (baseSet newValue rest value)
  end.

(** [_.set(object, path, value)]: the object after the call. *)
Definition set (object : JsVal) (path : string) (value : JsVal) : JsVal :=
  if isObject object then baseSet object (castPath path object) value
  else object.

Fixpoint baseUnset (object : JsVal) (path : list string) : JsVal :=
  match path with
  | [] => object
  | [key] => deleteProp object key
  | key :: rest =>
      let child := getProp object key in
      if nullish child then object
      else assignProp object key (baseUnset child rest)
  end.

(** [_.unset(object, path)]: the object after the call. *)
Definition unset (object : JsVal) (path : string) : JsVal :=
  if nullish object then object
  else baseUnset object (castPath path object).

(** One property of a source of [_.defaultsDeep]: [customDefaultsMerge]
    followed by [assignMergeValue]. A destination value that is not
    [undefined] stays, and when it and the source value are both objects the
    source value is merged into it by [mergeInto]. A destination value that
    is [undefined] is replaced by (a copy of) the source value. *)
Definition defaultsAt (key : string) (srcValue : JsVal)
    (mergeInto : JsVal -> JsVal) (object : JsVal) : JsVal :=
  let objValue := getProp object key in
  if isUndefined objValue then
    if isUndefined srcValue && hasKey object key then object
    else assignProp object key srcValue
  else if isObject objValue && isObject srcValue
       then assignProp object key (mergeInto objValue)
       else object.

(** [baseMerge(object, source)] under the customizer of [_.defaultsDeep]:
    the object after the call. *)
Fixpoint baseMerge (source : JsVal) (object : JsVal) {struct source}
  : JsVal :=
  match source with
  | VObj props =>
      (fix each (ps : list (string * JsVal)) (object : JsVal) : JsVal :=
         match ps with
         | [] => object
         | (key, srcValue) :: rest =>
             each rest (defaultsAt key srcValue (baseMerge srcValue) object)
         end) props object
  | VArr items =>
      (fix each (i : nat) (xs : list JsVal) (object : JsVal) : JsVal :=
         match xs with
         | [] => object
         | srcValue :: rest =>
             each (S i) rest
               (defaultsAt (indexKey i) srcValue (baseMerge srcValue) object)
         end) 0%nat items object
  | _ => object
  end.

(** [Object(object)] for the destination of an assigner. *)
Definition toObject (object : JsVal) : JsVal :=
  if nullish object then VObj [] else object.

(** [_.defaultsDeep(object, ...sources)]: the object after the call, which
    is also what the call returns. A source that is falsy is skipped. *)
Definition defaultsDeep (object : JsVal) (sources : list JsVal) : JsVal :=
  fold_left
    (fun object source =>
       if truthy source then baseMerge source object else object)
    sources (toObject object).

End Lodash.

(** ** The data of a composition pass *)

(** A fragment setting ([query], [type], ...): absent, one string, or an
    array of strings. *)
Inductive Fragments : Type :=
| NoFragment
| OneFragment (text : string)
| ManyFragments (texts : list string).

(** [if (def.query)]: a non-empty string or an array. *)
Definition given (f : Fragments) : bool :=
  match f with
  | NoFragment => false
  | OneFragment text => truthyStr text
  | ManyFragments _ => true
  end.

(** [_.castArray]; [list.concat(f)] appends the same strings. *)
Definition castArray (f : Fragments) : list string :=
  match f with
  | NoFragment => []
  | OneFragment text => [text]
  | ManyFragments texts => texts
  end.

(** What [createActionResolver] reads in a resolver definition, with its
    defaults; a mapping is the list of the entries of its object. *)
Record ResolverDef : Type := {
  dataLoader : bool;
  nullIfError : bool;
  params : JsVal;
  argParams : list (string * string);
  rootParams : list (string * string);
  metaParams : list (string * string);
}.

(** [def = {}]. *)
Definition emptyDef : ResolverDef :=
  {| dataLoader := false; nullIfError := false; params := VObj [];
     argParams := []; rootParams := []; metaParams := [] |}.

(** A value under [settings.graphql.resolvers[type][field]]: a plain
    object, with its [action] when that is neither null nor undefined and with
    the fields that the resolver and the loaders read in it, or a value of
    another kind (an enum value, a function). *)
Inductive ResolverDecl : Type :=
| DeclObject (action : option string) (def : ResolverDef)
| DeclOther (value : JsVal).

(** An entry of the composed resolver map: the function that
    [createActionResolver] returns, the pair that
    [createAsyncIteratorResolver] returns, or a declared value taken as it
    is. *)
Inductive Resolver : Type :=
| ActionResolver (actionName : string) (def : ResolverDef)
| AsyncIteratorResolver (actionName : string) (tags : list string)
    (filter : option string)
| Passthrough (r : ResolverDecl).

(** Type name to field name to resolver. *)
Definition ResolverMap : Type := list (string * list (string * Resolver)).

(** A [graphql] setting, of a service or of an action. *)
Module GraphqlDef.
Record t : Type := {
  query : Fragments;
  mutation : Fragments;
  subscription : Fragments;
  type : Fragments;
  interface : Fragments;
  union : Fragments;
  enum : Fragments;
  input : Fragments;
  resolvers : option (list (string * list (string * ResolverDecl)));
  tags : option (list string);
  filter : option string;
}.

Definition empty : t :=
  {| query := NoFragment; mutation := NoFragment;
     subscription := NoFragment; type := NoFragment;
     interface := NoFragment; union := NoFragment; enum := NoFragment;
     input := NoFragment; resolvers := None; tags := None;
     filter := None |}.
End GraphqlDef.

(** An action of the registry: [name] is the full name of the action;
    [graphql] is there when the setting is an object. *)
Module Action.
Record t : Type := {
  name : string;
  graphql : option GraphqlDef.t;
}.
End Action.

Inductive Version : Type :=
| NoVersion
| NumberVersion (n : Z)
| StringVersion (s : string).

(** A service of the registry: [graphql] is [settings.graphql] when it is an
    object, [actions] is [Object.values(service.actions)]. *)
Module Service.
Record t : Type := {
  name : string;
  version : Version;
  fullName : option string;
  graphql : option GraphqlDef.t;
  actions : list Action.t;
}.
End Service.

(** The options of the mixin that the composer and the lifecycle read,
    as they are once the module has filled in its defaults. *)
Module MixinOptions.
Record t : Type := {
  typeDefs : Fragments;
  resolvers : option ResolverMap;
  schemaDirectives : option JsVal;
  onlyIncludeCurrentService : bool;
  serverOptions : JsVal;
}.
End MixinOptions.

(** ** Names *)

(** The text of a number, as ["v" + service.version] makes it: the decimal
    digits of the integer, after a minus sign when it is negative. That is
    how JavaScript prints the integers that a number holds exactly, those
    below 2^53 in size: [safeInteger]. A larger number may print its
    leading digits only, and from 10^21 on it prints with an exponent. *)
Definition numberToString (n : Z) : string :=
  NilEmpty.string_of_int (Z.to_int n).

Definition safeInteger (n : Z) : bool := (Z.abs n <? 2 ^ 53)%Z.

(** A version whose text the model gives as JavaScript does. *)
Definition printable (version : Version) : bool :=
  match version with
  | NumberVersion n => safeInteger n
  | _ => true
  end.

Definition getServiceName (service : Service.t) : string :=
  let versioned :=
    match Service.version service with
    | NumberVersion n =>
        ("v" +:+ numberToString n) +:+ "." +:+ Service.name service
    | StringVersion v => v +:+ "." +:+ Service.name service
    | NoVersion => Service.name service
    end in
  match Service.fullName service with
  | Some fullName => if truthyStr fullName then fullName else versioned
  | None => versioned
  end.

Definition getResolverActionName (service action : string) : string :=
  if negb (JsString.contains "."%char action)
  then service +:+ "." +:+ action
  else action.

(** ** The resolver of an action *)

(** What the evaluation of [context.loaders[name].load(key)] gives: it
    throws at once (no loader under the name, or a loader that refuses the
    key: the [load] of a DataLoader throws for a key that is null or
    undefined), or it gives a promise, which settles later. *)
Inductive Asked : Type :=
| Threw (err : JsVal)
| Promised (settled : Result JsVal).

(** The collaborators of one invocation: [meta] is [context.ctx.meta],
    [call] answers [context.ctx.call] and [loaders] answers the expression
    [context.loaders[name].load(key)] for an action name and a key. *)
Record Context : Type := {
  meta : JsVal;
  call : string -> JsVal -> Result JsVal;
  loaders : string -> JsVal -> Asked;
}.

(** A remote call that was made, and a key for which
    [context.loaders[name].load(key)] was evaluated. *)
Inductive Event : Type :=
| Called (actionName : string) (params : JsVal)
| Loaded (actionName : string) (key : JsVal).

(** What an invocation leaves: the settled promise, the [args] object as the
    invocation left it, and the calls made, in order. *)
Record Invocation : Type := {
  outcome : Result JsVal;
  argsAfter : JsVal;
  trace : list Event;
}.

(** [Promise.all]: the results in the order of the promises, or a
    failure. Where several promises fail, [Promise.all] fails with the
    failure that comes first in time; the model takes the first in the
    order of the promises, so the two agree where at most one fails. *)
Fixpoint promiseAll (settled : list (Result JsVal)) : Result (list JsVal) :=
  match settled with
  | [] => Ok []
  | Ok v :: rest => bind (promiseAll rest) (fun vs => Ok (v :: vs))
  | Err e :: _ => Err e
  end.

(** [rootKeys[0]] when it is truthy. *)
Definition firstRootKey (def : ResolverDef) : option string :=
  match map fst (rootParams def) with
  | key :: _ => if truthyStr key then Some key else None
  | [] => None
  end.

(** [value] of the batched branch: [root && _.get(root, firstRootKey)]. *)
Definition batchValue (def : ResolverDef) (root : JsVal) : JsVal :=
  match firstRootKey def with
  | Some key => if truthy root then Lodash.get root key else root
  | None => VUndefined
  end.

(** [value.map(item => context.loaders[actionName].load(item))]: the
    items for which the expression was evaluated, and what the map leaves:
    the promises, in the order of the items, or the error of the
    evaluation that threw, which ends the map. *)
Fixpoint askAll (ask : JsVal -> Asked) (items : list JsVal)
  : list JsVal * Result (list (Result JsVal)) :=
  match items with
  | [] => ([], Ok [])
  | item :: rest =>
      match ask item with
      | Threw err => ([item], Err err)
      | Promised settled =>
          let '(asked, promises) := askAll ask rest in
          (item :: asked, bind promises (fun ps => Ok (settled :: ps)))
      end
  end.

(** The batched branch of the [try] block. *)
Definition loadBatched (actionName : string) (def : ResolverDef)
    (root args : JsVal) (context : Context) : Invocation :=
  let value := batchValue def root in
  if nullish value then
    {| outcome := Ok VNull; argsAfter := args; trace := [] |}
  else
    match value with
    | VArr items =>
        let '(asked, promises) := askAll (loaders context actionName) items in
        {| outcome :=
             bind promises
               (fun ps => bind (promiseAll ps) (fun vs => Ok (VArr vs)));
           argsAfter := args;
           trace := map (Loaded actionName) asked |}
    | _ =>
        {| outcome :=
             match loaders context actionName value with
             | Threw err => Err err
             | Promised settled => settled
             end;
           argsAfter := args;
           trace := [Loaded actionName value] |}
    end.

(** [keys.forEach(k => _.set(p, mapping[k], _.get(source, k)))]. *)
Definition setMapped (mapping : list (string * string)) (source p : JsVal)
  : JsVal :=
  fold_left
    (fun p '(k, target) => Lodash.set p target (Lodash.get source k))
    mapping p.

(** The same for [argParams], where each key is also removed from [args]:
    the pair of [p] and [args] after the loop. *)
Definition moveMapped (mapping : list (string * string)) (p args : JsVal)
  : JsVal * JsVal :=
  fold_left
    (fun '(p, args) '(k, target) =>
       (Lodash.set p target (Lodash.get args k), Lodash.unset args k))
    mapping (p, args).

(** The object [p] and [args] when [context.ctx.call] is reached. *)
Definition mappedParams (def : ResolverDef) (root args meta : JsVal)
  : JsVal * JsVal :=
  let p := VObj [] in
  let p :=
    if truthy meta && (0 <? length (metaParams def))%nat
    then setMapped (metaParams def) meta p else p in
  let p :=
    if truthy root && (0 <? length (rootParams def))%nat
    then setMapped (rootParams def) root p else p in
  if (0 <? length (argParams def))%nat
  then moveMapped (argParams def) p args
  else (p, args).

(** The second argument of [context.ctx.call]:
    [_.defaultsDeep(args, p, params)]. *)
Definition callParams (def : ResolverDef) (root args meta : JsVal) : JsVal :=
  let '(p, args) := mappedParams def root args meta in
  Lodash.defaultsDeep args [p; params def].

(** The other branch of the [try] block. [_.defaultsDeep] fills [args]
    itself when [args] is an object. *)
Definition callDirect (actionName : string) (def : ResolverDef)
    (root args : JsVal) (context : Context) : Invocation :=
  let merged := callParams def root args (meta context) in
  {| outcome := call context actionName merged;
     argsAfter := if nullish args then args else merged;
     trace := [Called actionName merged] |}.

(** [if (err && err.ctx) err.ctx = null]. *)
Definition clearContext (err : JsVal) : JsVal :=
  if truthy err && truthy (Lodash.getProp err "ctx")
  then Lodash.assignProp err "ctx" VNull
  else err.

(** The function that [createActionResolver(actionName, def)] returns,
    applied to [(root, args, context)]. *)
Definition invokeActionResolver (actionName : string) (def : ResolverDef)
    (root args : JsVal) (context : Context) : Invocation :=
  let attempt :=
    if dataLoader def then loadBatched actionName def root args context
    else callDirect actionName def root args context in
  match outcome attempt with
  | Ok _ => attempt
  | Err err =>
      {| outcome := if nullIfError def then Ok VNull
                    else Err (clearContext err);
         argsAfter := argsAfter attempt;
         trace := trace attempt |}
  end.

(** *** The precedence of the parameters, stated on the keys

    [lastMapped mapping source x] is what the last entry of [mapping] with
    the target [x] reads in [source]; [mappedValue] is the value under [x] of
    the object of the mapped values when the targets are plain keys:
    that of the argument mappings if one has the target [x], else that of
    the root mappings, else that of the metadata mappings. *)

Definition simpleKey (key : string) : bool :=
  negb (JsString.contains "."%char key).

Fixpoint lastMapped (mapping : list (string * string)) (source : JsVal)
    (x : string) : option JsVal :=
  match mapping with
  | [] => None
  | (k, target) :: rest =>
      match lastMapped rest source x with
      | Some v => Some v
      | None =>
          if String.eqb target x then Some (Lodash.get source k) else None
      end
  end.

Definition mappedValue (def : ResolverDef) (root args meta : JsVal)
    (x : string) : JsVal :=
  match lastMapped (argParams def) args x with
  | Some v => v
  | None =>
      match (if truthy root then lastMapped (rootParams def) root x
             else None) with
      | Some v => v
      | None =>
          match (if truthy meta then lastMapped (metaParams def) meta x
                 else None) with
          | Some v => v
          | None => VUndefined
          end
      end
  end.

(** What is left under [x] in [args] once the keys of the argument mappings
    are removed. *)
Definition residualArg (def : ResolverDef) (args : JsVal) (x : string)
  : JsVal :=
  if existsb (String.eqb x) (map fst (argParams def)) then VUndefined
  else Lodash.getProp args x.

(** The first value that is not [undefined]. *)
Fixpoint firstDefined (values : list JsVal) : JsVal :=
  match values with
  | [] => VUndefined
  | v :: rest => if Lodash.isUndefined v then firstDefined rest else v
  end.

(** An object whose keys are distinct and whose value under [x] is
    [value]. *)
Definition holds (obj : JsVal) (x : string) (value : JsVal) : Prop :=
  exists props,
    obj = VObj props /\ List.NoDup (map fst props)
    /\ Lodash.getProp obj x = value.

(** The parameter object as the specification words it: the object of the
    mapped values (arguments over root over metadata) deep-defaulted against
    the static parameters, and nothing else. *)
Definition mappedParamsOnly (def : ResolverDef) (root args meta : JsVal)
  : JsVal :=
  Lodash.defaultsDeep (fst (mappedParams def root args meta)) [params def].

(** ** The resolver of a subscription *)

(** [{ ...params, payload }]. *)
Definition withPayload (params payload : JsVal) : JsVal :=
  match params with
  | VObj props => VObj (assign "payload" payload props)
  | _ => VObj [("payload", payload)]
  end.

(** The filter that [withFilter] applies to an event of the stream, with
    [brokerCall] answering [this.broker.call]: an event is forwarded when the
    filter function answers [true]; a failure counts as [false]. Without a
    filter every event of the stream is forwarded. *)
Definition forwards (filter : option string)
    (brokerCall : string -> JsVal -> Result JsVal) (payload params : JsVal)
  : bool :=
  match filter with
  | Some filterAction =>
      if truthyStr filterAction then
        if Lodash.isUndefined payload then false
        else
          match brokerCall filterAction (withPayload params payload) with
          | Ok (VBool true) => true
          | _ => false
          end
      else true
  | None => true
  end.


(** ** The loader registry *)

(** [new DataLoader(keys => ctx.call(resolverActionName, ...))]: what the
    batch function closes over. *)
Record Loader : Type := {
  loaderAction : string;
  actionParam : string;
  loaderParams : JsVal;
  loaderMetaParams : list (string * string);
}.

(** The parameters of the call that a batch of keys makes. *)
Definition batchParams (loader : Loader) (meta : JsVal) (keys : list JsVal)
  : JsVal :=
  Lodash.defaultsDeep (VObj [(actionParam loader, VArr keys)])
    [loaderParams loader;
     fold_left
       (fun acc '(k, v) => Lodash.set acc v (Lodash.get meta k))
       (loaderMetaParams loader) (VObj [])].

(** [{ ...a, ...b }]. *)
Definition spread {A : Type} (a b : list (string * A)) : list (string * A) :=
  fold_left (fun acc '(k, v) => assign k v acc) b a.

(** [Object.values(rootParams)[0]] when it is truthy. *)
Definition firstRootParam (def : ResolverDef) : option string :=
  match map snd (rootParams def) with
  | target :: _ => if truthyStr target then Some target else None
  | [] => None
  end.

(** The body of the reduction over the resolvers of one type. With
    [dataLoader] and a root parameter but no [action],
    [getResolverActionName] reads a property of [undefined]. *)
Definition fieldLoader (serviceName : string)
    (fieldAccum : list (string * Loader)) (resolver : ResolverDecl)
  : Result (list (string * Loader)) :=
  match resolver with
  | DeclObject action def =>
      match firstRootParam def with
      | Some param =>
          if dataLoader def then
            match action with
            | Some action =>
                let resolverActionName :=
                  getResolverActionName serviceName action in
                match assoc resolverActionName fieldAccum with
                | Some _ => Ok fieldAccum
                | None =>
                    Ok (assign resolverActionName
                          {| loaderAction := resolverActionName;
                             actionParam := param;
                             loaderParams := params def;
                             loaderMetaParams := metaParams def |}
                          fieldAccum)
                end
            | None =>
                Err (typeError "Cannot read property 'indexOf' of undefined")
            end
          else Ok fieldAccum
      | None => Ok fieldAccum
      end
  | DeclOther _ => Ok fieldAccum
  end.

Definition typeLoaders (serviceName : string)
    (resolverAccum : list (string * Loader))
    (type : list (string * ResolverDecl)) : Result (list (string * Loader)) :=
  bind (reduce (fieldLoader serviceName) (map snd type) (Ok []))
    (fun resolverLoaders => Ok (spread resolverAccum resolverLoaders)).

Definition serviceLoaders (serviceAccum : list (string * Loader))
    (service : Service.t) : Result (list (string * Loader)) :=
  let serviceName := getServiceName service in
  match Service.graphql service with
  | Some graphql =>
      match GraphqlDef.resolvers graphql with
      | Some resolvers =>
          bind (reduce (typeLoaders serviceName) (map snd resolvers) (Ok []))
            (fun loaders => Ok (spread serviceAccum loaders))
      | None => Ok serviceAccum
      end
  | None => Ok serviceAccum
  end.

(** [createLoaders(ctx, services)]: the loaders by action name. *)
Definition createLoaders (services : list Service.t)
  : Result (list (string * Loader)) :=
  reduce serviceLoaders services (Ok []).

(** What a composition reads of the loaders: the declarations of a
    service, the action for which a declaration asks a loader (a plain
    object with an action, with [dataLoader] and with a truthy first root
    parameter), and the declarations that [createLoaders] can read (not a
    plain object that asks a loader without an action). *)
Definition declaredResolvers (service : Service.t) : list ResolverDecl :=
  match Service.graphql service with
  | Some graphql =>
      match GraphqlDef.resolvers graphql with
      | Some resolvers => flat_map (fun type => map snd (snd type)) resolvers
      | None => []
      end
  | None => []
  end.

Definition asksLoader (def : ResolverDef) : bool :=
  dataLoader def
  && match firstRootParam def with Some _ => true | None => false end.

Definition loaderTarget (serviceName : string) (r : ResolverDecl)
  : option string :=
  match r with
  | DeclObject (Some action) def =>
      if asksLoader def
      then Some (getResolverActionName serviceName action)
      else None
  | _ => None
  end.

Definition targetOf (serviceName : string) (r : ResolverDecl) : list string :=
  match loaderTarget serviceName r with
  | Some target => [target]
  | None => []
  end.

Definition targetsOf (serviceName : string) (rs : list ResolverDecl)
  : list string :=
  flat_map (targetOf serviceName) rs.

Definition loaderTargets (services : list Service.t) : list string :=
  flat_map
    (fun service =>
       targetsOf (getServiceName service) (declaredResolvers service))
    services.

(** A registry in which the loader under a key calls the action of that
    key. *)
Definition keyed (registry : list (string * Loader)) : Prop :=
  forall k loader, In (k, loader) registry -> loaderAction loader = k.

Definition readable (r : ResolverDecl) : bool :=
  match r with
  | DeclObject None def => negb (asksLoader def)
  | _ => true
  end.

(** ** The composition pass *)

(** The lists that [generateGraphQLSchema] fills. *)
Record Lists : Type := {
  queries : list string;
  mutations : list string;
  subscriptions : list string;
  types : list string;
  interfaces : list string;
  unions : list string;
  enums : list string;
  inputs : list string;
}.

Definition noLists : Lists :=
  {| queries := []; mutations := []; subscriptions := []; types := [];
     interfaces := []; unions := []; enums := []; inputs := [] |}.

Inductive ListName : Type :=
| Queries | Mutations | Subscriptions | Types | Interfaces | Unions | Enums
| Inputs.

(** [list = list.concat(more)], and [list.push] for one string. *)
Definition concatTo (which : ListName) (more : list string) (l : Lists)
  : Lists :=
  match which with
  | Queries =>
      {| queries := queries l ++ more; mutations := mutations l;
         subscriptions := subscriptions l; types := types l;
         interfaces := interfaces l; unions := unions l; enums := enums l;
         inputs := inputs l |}
  | Mutations =>
      {| queries := queries l; mutations := mutations l ++ more;
         subscriptions := subscriptions l; types := types l;
         interfaces := interfaces l; unions := unions l; enums := enums l;
         inputs := inputs l |}
  | Subscriptions =>
      {| queries := queries l; mutations := mutations l;
         subscriptions := subscriptions l ++ more; types := types l;
         interfaces := interfaces l; unions := unions l; enums := enums l;
         inputs := inputs l |}
  | Types =>
      {| queries := queries l; mutations := mutations l;
         subscriptions := subscriptions l; types := types l ++ more;
         interfaces := interfaces l; unions := unions l; enums := enums l;
         inputs := inputs l |}
  | Interfaces =>
      {| queries := queries l; mutations := mutations l;
         subscriptions := subscriptions l; types := types l;
         interfaces := interfaces l ++ more; unions := unions l;
         enums := enums l; inputs := inputs l |}
  | Unions =>
      {| queries := queries l; mutations := mutations l;
         subscriptions := subscriptions l; types := types l;
         interfaces := interfaces l; unions := unions l ++ more;
         enums := enums l; inputs := inputs l |}
  | Enums =>
      {| queries := queries l; mutations := mutations l;
         subscriptions := subscriptions l; types := types l;
         interfaces := interfaces l; unions := unions l;
         enums := enums l ++ more; inputs := inputs l |}
  | Inputs =>
      {| queries := queries l; mutations := mutations l;
         subscriptions := subscriptions l; types := types l;
         interfaces := interfaces l; unions := unions l; enums := enums l;
         inputs := inputs l ++ more |}
  end.

(** [if (def.x) list = list.concat(def.x)]. *)
Definition concatGiven (which : ListName) (f : Fragments) (l : Lists)
  : Lists :=
  if given f then concatTo which (castArray f) l else l.

(** The variables of one pass: the lists, the resolver map and the set of
    the names of the services seen. *)
Record Pass : Type := {
  lists : Lists;
  resolvers : ResolverMap;
  processedServices : gset string;
}.

Definition tab : string := String "009"%char EmptyString.
Definition nl : string := String JsString.newline EmptyString.

Fixpoint tabs (n : nat) : string :=
  match n with
  | O => EmptyString
  | S k => tab +:+ tabs k
  end.

(** The template of a root type in the schema source. *)
Definition rootTypeSource (name : string) (declarations : list string)
  : string :=
  nl +:+ tabs 8 +:+ "type " +:+ name +:+ " {" +:+ nl +:+ tabs 9
     +:+ String.concat nl declarations +:+ nl +:+ tabs 8 +:+ "}" +:+ nl
     +:+ tabs 7.

(** The template of the other fragments. *)
Definition fragmentsSource (fragments : list string) : string :=
  nl +:+ tabs 8 +:+ String.concat nl fragments +:+ nl +:+ tabs 7.

Definition nonEmpty {A : Type} (l : list A) : bool := (0 <? length l)%nat.

(** The string [str] that is pushed to [typeDefs]. *)
Definition schemaSource (l : Lists) : string :=
  (if nonEmpty (queries l) then rootTypeSource "Query" (queries l) else "")
  +:+ (if nonEmpty (mutations l)
       then rootTypeSource "Mutation" (mutations l) else "")
  +:+ (if nonEmpty (subscriptions l)
       then rootTypeSource "Subscription" (subscriptions l) else "")
  +:+ (if nonEmpty (types l) then fragmentsSource (types l) else "")
  +:+ (if nonEmpty (interfaces l) then fragmentsSource (interfaces l) else "")
  +:+ (if nonEmpty (unions l) then fragmentsSource (unions l) else "")
  +:+ (if nonEmpty (enums l) then fragmentsSource (enums l) else "")
  +:+ (if nonEmpty (inputs l) then fragmentsSource (inputs l) else "").

Definition anyList (l : Lists) : bool :=
  nonEmpty (queries l) || nonEmpty (types l) || nonEmpty (mutations l)
  || nonEmpty (subscriptions l) || nonEmpty (interfaces l)
  || nonEmpty (unions l) || nonEmpty (enums l) || nonEmpty (inputs l).

Definition moleculerServerError (message : string) (code : Z)
    (type : string) (data : JsVal) : JsVal :=
  VObj [("name", VStr "MoleculerServerError"); ("message", VStr message);
        ("code", VNum code); ("type", VStr type); ("data", data)].

(** [createActionResolver(actionName, def)]: the function it returns is
    kept as its two free variables, and [invokeActionResolver] applies
    it. *)
Definition createActionResolver (actionName : string) (def : ResolverDef)
  : Resolver :=
  ActionResolver actionName def.

(** [createServiceResolvers]. *)
Definition createServiceResolvers (serviceName : string)
    (resolvers : list (string * ResolverDecl)) : list (string * Resolver) :=
  fold_left
    (fun acc '(name, r) =>
       match r with
       | DeclObject (Some action) def =>
           assign name
             (createActionResolver
                (getResolverActionName serviceName action) def)
             acc
       | _ => assign name (Passthrough r) acc
       end)
    resolvers [].

(** The collaborators of the composer and of the lifecycle: the compiled
    schema and [makeExecutableSchema] of graphql-tools; what [_.merge] makes
    of two resolvers under the same type and field; the properties of the
    global object beyond the standard ones; the options of the mixin; and the
    name of the service that hosts it. *)
Class Host : Type := {
  Schema : Type;
  makeExecutableSchema :
    list string -> ResolverMap -> option JsVal -> Result Schema;
  mergeLeaf : Resolver -> Resolver -> Resolver;
  globalObject : list (string * JsVal);
  mixinOptions : MixinOptions.t;
  thisName : string;
}.

Section Composer.

Context {host : Host}.

(** [_.merge(dest, src)] on the fields of one type. *)
Definition mergeFields (dest src : list (string * Resolver))
  : list (string * Resolver) :=
  fold_left
    (fun dest '(field, resolver) =>
       match assoc field dest with
       | Some old => assign field (mergeLeaf old resolver) dest
       | None => assign field resolver dest
       end)
    src dest.

(** [acc[name] = _.merge(acc[name] || {}, fields)]. *)
Definition mergeType (acc : ResolverMap) (name : string)
    (fields : list (string * Resolver)) : ResolverMap :=
  let old := match assoc name acc with Some o => o | None => [] end in
  assign name (mergeFields old fields) acc.

(** [_.merge(resolvers, resolver)]. *)
Definition mergeResolvers (dest src : ResolverMap) : ResolverMap :=
  fold_left (fun dest '(name, fields) => mergeType dest name fields)
    src dest.

(** [createAsyncIteratorResolver]. Its second statement reads the variable
    [params], which no scope of the module declares: the read is a read of
    the global object, and it throws when the global object has no such
    property. *)
Definition createAsyncIteratorResolver (actionName : string)
    (tags : option (list string)) (filter : option string)
  : Result Resolver :=
  match assoc "params" globalObject with
  | None => Err (referenceError "params is not defined")
  | Some _ =>
      Ok (AsyncIteratorResolver actionName
            (match tags with Some ts => ts | None => [] end) filter)
  end.

(** [if (!resolver[type]) resolver[type] = {}]. *)
Definition ensureType (type : string) (resolver : ResolverMap)
  : ResolverMap :=
  match assoc type resolver with
  | Some _ => resolver
  | None => assign type [] resolver
  end.

(** [resolver[type][name] = r]. *)
Definition setField (type name : string) (r : Resolver)
    (resolver : ResolverMap) : ResolverMap :=
  let fields := match assoc type resolver with Some f => f | None => [] end in
  assign type (assign name r fields) resolver.

(** One query, or one mutation, of an action: the body of
    [_.castArray(def.query).forEach]. *)
Definition compileCall (which : ListName) (type : string)
    (actionName : string) (st : Lists * ResolverMap) (declaration : string)
  : Lists * ResolverMap :=
  let name := getFieldName declaration in
  (concatTo which [declaration] (fst st),
   setField type name (createActionResolver actionName emptyDef) (snd st)).

(** The queries, and the mutations, of one action. *)
Definition compileCalls (which : ListName) (type : string)
    (actionName : string) (declarations : Fragments)
    (st : Lists * ResolverMap) : Lists * ResolverMap :=
  if given declarations then
    fold_left (compileCall which type actionName) (castArray declarations)
      (fst st, ensureType type (snd st))
  else st.

(** One subscription of an action. *)
Definition compileSubscription (actionName : string) (def : GraphqlDef.t)
    (st : Lists * ResolverMap) (subscription : string)
  : Result (Lists * ResolverMap) :=
  let name := getFieldName subscription in
  let l := concatTo Subscriptions [subscription] (fst st) in
  bind (createAsyncIteratorResolver actionName (GraphqlDef.tags def)
          (GraphqlDef.filter def))
    (fun r => Ok (l, setField "Subscription" name r (snd st))).

(** The subscriptions of one action. *)
Definition compileSubscriptions (actionName : string) (def : GraphqlDef.t)
    (st : Lists * ResolverMap) : Result (Lists * ResolverMap) :=
  if given (GraphqlDef.subscription def) then
    reduce (compileSubscription actionName def)
      (castArray (GraphqlDef.subscription def))
      (Ok (fst st, ensureType "Subscription" (snd st)))
  else Ok st.

(** The body of the loop over the actions of a service. *)
Definition compileAction (st : Lists * ResolverMap) (action : Action.t)
  : Result (Lists * ResolverMap) :=
  match Action.graphql action with
  | None => Ok st
  | Some def =>
      let st := compileCalls Queries "Query" (Action.name action)
                  (GraphqlDef.query def) st in
      let st := compileCalls Mutations "Mutation" (Action.name action)
                  (GraphqlDef.mutation def) st in
      bind (compileSubscriptions (Action.name action) def st)
        (fun '(l, resolver) =>
           let l := concatGiven Types (GraphqlDef.type def) l in
           let l := concatGiven Interfaces (GraphqlDef.interface def) l in
           let l := concatGiven Unions (GraphqlDef.union def) l in
           let l := concatGiven Enums (GraphqlDef.enum def) l in
           let l := concatGiven Inputs (GraphqlDef.input def) l in
           Ok (l, resolver))
  end.

(** The service level definitions. *)
Definition compileGlobal (serviceName : string) (globalDef : GraphqlDef.t)
    (l : Lists) (resolvers : ResolverMap) : Lists * ResolverMap :=
  let l := concatGiven Queries (GraphqlDef.query globalDef) l in
  let l := concatGiven Mutations (GraphqlDef.mutation globalDef) l in
  let l := concatGiven Subscriptions (GraphqlDef.subscription globalDef) l in
  let l := concatGiven Types (GraphqlDef.type globalDef) l in
  let l := concatGiven Interfaces (GraphqlDef.interface globalDef) l in
  let l := concatGiven Unions (GraphqlDef.union globalDef) l in
  let l := concatGiven Enums (GraphqlDef.enum globalDef) l in
  let l := concatGiven Inputs (GraphqlDef.input globalDef) l in
  match GraphqlDef.resolvers globalDef with
  | Some declared =>
      (l,
       fold_left
         (fun acc '(name, resolver) =>
            mergeType acc name (createServiceResolvers serviceName resolver))
         declared resolvers)
  | None => (l, resolvers)
  end.

(** What a service that is not skipped adds to the lists and to the
    resolver map. *)
Definition compileService (service : Service.t) (l : Lists)
    (resolvers : ResolverMap) : Result (Lists * ResolverMap) :=
  let serviceName := getServiceName service in
  let '(l, resolvers) :=
    match Service.graphql service with
    | Some globalDef => compileGlobal serviceName globalDef l resolvers
    | None => (l, resolvers)
    end in
  bind (reduce compileAction (Service.actions service) (Ok (l, [])))
    (fun '(l, resolver) =>
       if nonEmpty resolver
       then Ok (l, mergeResolvers resolvers resolver)
       else Ok (l, resolvers)).

(** The body of [services.forEach]. *)
Definition eachService (pass : Pass) (service : Service.t) : Result Pass :=
  let serviceName := getServiceName service in
  if bool_decide (serviceName ∈ processedServices pass) then Ok pass
  else
    bind (compileService service (lists pass) (resolvers pass))
      (fun '(l, r) =>
         Ok {| lists := l; resolvers := r;
               processedServices :=
                 {[serviceName]} ∪ processedServices pass |}).

Definition startOfPass : Pass :=
  {| lists := noLists;
     resolvers :=
       match MixinOptions.resolvers mixinOptions with
       | Some r => r
       | None => []
       end;
     processedServices := ∅ |}.

(** [services.forEach(...)] from any point of a pass. *)
Definition collectFrom (acc : Result Pass) (services : list Service.t)
  : Result Pass :=
  reduce eachService services acc.

(** The loop of a pass. *)
Definition collect (services : list Service.t) : Result Pass :=
  collectFrom (Ok startOfPass) services.

(** [typeDefs] when [makeExecutableSchema] is called. *)
Definition typeDefsOf (l : Lists) : list string :=
  let typeDefs :=
    if given (MixinOptions.typeDefs mixinOptions)
    then castArray (MixinOptions.typeDefs mixinOptions) else [] in
  if anyList l then typeDefs ++ [schemaSource l] else typeDefs.

(** The [try] block of [generateGraphQLSchema]. *)
Definition compose (services : list Service.t) : Result Schema :=
  bind (collect services)
    (fun pass =>
       makeExecutableSchema (typeDefsOf (lists pass)) (resolvers pass)
         (MixinOptions.schemaDirectives mixinOptions)).

Definition generateGraphQLSchema (services : list Service.t)
  : Result Schema :=
  match compose services with
  | Ok schema => Ok schema
  | Err err =>
      Err (moleculerServerError "Unable to compile GraphQL schema" 500
             "UNABLE_COMPILE_GRAPHQL_SCHEMA" (VObj [("err", err)]))
  end.

(** *** The schema lifecycle *)

(** A server that the rebuild block made, [new ApolloServer({ schema,
    ...settings })], kept as what differs from one rebuild to the next:
    [serverSchema] is the schema that the pass generated, which the block
    passes under [schema], and [serverServices] are the services of the
    pass, over which the context function of the module closes. The
    settings that are spread after the schema are the same at every
    rebuild: they are [serverSettings] below, and what the server makes of
    the schema and of the context function under them is [servedSchema]
    and [requestLoaders]. *)
Record ApolloServer : Type := {
  serverSchema : Schema;
  serverServices : list Service.t;
}.

Inductive Effect : Type :=
| Stopped (server : ApolloServer)
| Generated (services : list Service.t)
| Broadcast (schema : Schema)
| LoggedError (err : JsVal).

(** The fields of the service that the lifecycle reads and writes, the
    service list of the registry, and the effects so far, oldest first.
    [pubsub] counts the instances that [pubsubFactory] made: the current
    one is the last, and 0 stands for [null]. *)
Record World : Type := {
  apolloServer : option ApolloServer;
  graphqlHandler : option ApolloServer;
  graphqlSchema : option Schema;
  pubsub : nat;
  shouldUpdateGraphqlSchema : bool;
  registry : list Service.t;
  log : list Effect;
}.

(** [created()]. *)
Definition created (registry : list Service.t) : World :=
  {| apolloServer := None; graphqlHandler := None; graphqlSchema := None;
     pubsub := 0; shouldUpdateGraphqlSchema := true; registry := registry;
     log := [] |}.

Definition invalidateGraphQLSchema (w : World) : World :=
  {| apolloServer := apolloServer w; graphqlHandler := graphqlHandler w;
     graphqlSchema := graphqlSchema w; pubsub := pubsub w;
     shouldUpdateGraphqlSchema := true; registry := registry w;
     log := log w |}.

(** The loaders that the context function of the module builds for a
    request of the server: [this.createLoaders(ctx, services)]. *)
Definition contextLoaders (server : ApolloServer)
  : Result (list (string * Loader)) :=
  createLoaders (serverServices server).

(** A call of [prepareGraphQLSchema]: about to start, suspended at
    [await this.apolloServer.stop()], returned at once with the schema that
    was installed, returned after its own rebuild, or failed. *)
Inductive Demand : Type :=
| Entering
| AwaitingStop
| Served (observed : option Schema)
| Rebuilt (observed : Schema)
| Failed (err : JsVal).

(** The services of a pass. *)
Definition snapshot (w : World) : list Service.t :=
  if MixinOptions.onlyIncludeCurrentService mixinOptions
  then List.filter (fun s => String.eqb (Service.name s) thisName) (registry w)
  else registry w.

(** The [try] block of [prepareGraphQLSchema] and its [catch]. *)
Definition rebuild (w : World) : World * Demand :=
  let services := snapshot w in
  match generateGraphQLSchema services with
  | Ok schema =>
      let server :=
        {| serverSchema := schema; serverServices := services |} in
      ({| apolloServer := Some server; graphqlHandler := Some server;
          graphqlSchema := Some schema; pubsub := S (pubsub w);
          shouldUpdateGraphqlSchema := false; registry := registry w;
          log := log w ++ [Generated services; Broadcast schema] |},
       Rebuilt schema)
  | Err err =>
      ({| apolloServer := apolloServer w;
          graphqlHandler := graphqlHandler w;
          graphqlSchema := graphqlSchema w; pubsub := S (pubsub w);
          shouldUpdateGraphqlSchema := shouldUpdateGraphqlSchema w;
          registry := registry w;
          log := log w ++ [Generated services; LoggedError err] |},
       Failed err)
  end.

Definition isSome {A : Type} (o : option A) : bool :=
  match o with
  | Some _ => true
  | None => false
  end.

(** [prepareGraphQLSchema] from its call to its first suspension, or to its
    end when it does not suspend. *)
Definition enter (w : World) : World * Demand :=
  if negb (shouldUpdateGraphqlSchema w) && isSome (graphqlHandler w)
  then (w, Served (graphqlSchema w))
  else
    match apolloServer w with
    | Some server =>
        ({| apolloServer := apolloServer w;
            graphqlHandler := graphqlHandler w;
            graphqlSchema := graphqlSchema w; pubsub := pubsub w;
            shouldUpdateGraphqlSchema := shouldUpdateGraphqlSchema w;
            registry := registry w;
            log := log w ++ [Stopped server] |},
         AwaitingStop)
    | None => rebuild w
    end.

(** One run of one demand between two suspension points. *)
Definition advance (w : World) (d : Demand) : option (World * Demand) :=
  match d with
  | Entering => Some (enter w)
  | AwaitingStop => Some (rebuild w)
  | _ => None
  end.

(** The demands in flight share the world; the event loop runs one of
    them at a time. *)
Inductive step : World * list Demand -> World * list Demand -> Prop :=
| step_demand (w w' : World) (ds : list Demand) (i : nat) (d d' : Demand) :
    ds !! i = Some d ->
    advance w d = Some (w', d') ->
    step (w, ds) (w', <[i := d']> ds).

Inductive steps : World * list Demand -> World * list Demand -> Prop :=
| steps_refl (c : World * list Demand) : steps c c
| steps_step (c1 c2 c3 : World * list Demand) :
    step c1 c2 -> steps c2 c3 -> steps c1 c3.

(** The event loop under a schedule: the demands to run, in order. *)
Fixpoint run (schedule : list nat) (c : World * list Demand)
  : World * list Demand :=
  match schedule with
  | [] => c
  | i :: rest =>
      match snd c !! i with
      | Some d =>
          match advance (fst c) d with
          | Some (w', d') => run rest (w', <[i := d']> (snd c))
          | None => run rest c
          end
      | None => run rest c
      end
  end.

(** [prepareGraphQLSchema] run from its call to its end, with no other
    demand in between. *)
Definition prepareGraphQLSchema (w : World) : World * Demand :=
  match enter w with
  | (w', AwaitingStop) => rebuild w'
  | done => done
  end.

Definition isGenerated (e : Effect) : bool :=
  match e with
  | Generated _ => true
  | _ => false
  end.

(** The number of rebuild attempts so far. *)
Definition attempts (w : World) : nat :=
  length (List.filter isGenerated (log w)).

Definition finished (d : Demand) : bool :=
  match d with
  | Entering | AwaitingStop => false
  | _ => true
  end.

Definition stale (w : World) : bool :=
  shouldUpdateGraphqlSchema w || negb (isSome (graphqlHandler w)).

(** A demand that ran the rebuild block. *)
Definition ranRebuild (d : Demand) : bool :=
  match d with
  | Rebuilt _ | Failed _ => true
  | _ => false
  end.

Definition rebuildsRun (ds : list Demand) : nat :=
  length (List.filter ranRebuild ds).

(** A demand that ended with the outcome of the rebuild block run in the
    world [w]: rebuilt with the schema that the composition of the services
    of [w] gives, or failed with its error. *)
Definition outcomeOf (w : World) (d : Demand) : Prop :=
  match d with
  | Rebuilt schema => generateGraphQLSchema (snapshot w) = Ok schema
  | Failed err => generateGraphQLSchema (snapshot w) = Err err
  | _ => False
  end.

(** In an execution from [c] to [c'], the demand [i] ends as [d] by its
    own attempt: at some point of the execution the demand, which was
    waiting for the stop of the server or was entering a stale world
    without a server, ran the rebuild block itself, and [d] is the outcome
    of that run. *)
Definition ownAttempt (c c' : World * list Demand) (i : nat) (d : Demand)
  : Prop :=
  exists (w1 : World) (ds1 : list Demand),
    steps c (w1, ds1)
    /\ (ds1 !! i = Some AwaitingStop
        \/ (ds1 !! i = Some Entering
            /\ stale w1 = true /\ apolloServer w1 = None))
    /\ d = snd (rebuild w1)
    /\ outcomeOf w1 d
    /\ steps (fst (rebuild w1), <[i := d]> ds1) c'.

(** In an execution from [c] to [c'], the demand [i] was served the
    schema that was installed when it entered, in a world that was not
    stale. *)
Definition servedInstalled (c c' : World * list Demand) (i : nat) (d : Demand)
  : Prop :=
  exists (w1 : World) (ds1 : list Demand),
    steps c (w1, ds1)
    /\ ds1 !! i = Some Entering
    /\ stale w1 = false
    /\ d = Served (graphqlSchema w1)
    /\ steps (w1, <[i := d]> ds1) c'.

(** The error that [generateGraphQLSchema] throws for a cause. *)
Definition compositionError (cause : JsVal) : JsVal :=
  moleculerServerError "Unable to compile GraphQL schema" 500
    "UNABLE_COMPILE_GRAPHQL_SCHEMA" (VObj [("err", cause)]).

End Composer.

(** ** What a service declares

    The fragments of one kind that a service declares, in its settings and
    in its actions, and the fields for which it declares a resolver: those
    of its queries, mutations and subscriptions, and those of the resolvers
    of its settings. *)

Definition listOf (which : ListName) (l : Lists) : list string :=
  match which with
  | Queries => queries l
  | Mutations => mutations l
  | Subscriptions => subscriptions l
  | Types => types l
  | Interfaces => interfaces l
  | Unions => unions l
  | Enums => enums l
  | Inputs => inputs l
  end.

Definition fragmentOf (which : ListName) (def : GraphqlDef.t) : Fragments :=
  match which with
  | Queries => GraphqlDef.query def
  | Mutations => GraphqlDef.mutation def
  | Subscriptions => GraphqlDef.subscription def
  | Types => GraphqlDef.type def
  | Interfaces => GraphqlDef.interface def
  | Unions => GraphqlDef.union def
  | Enums => GraphqlDef.enum def
  | Inputs => GraphqlDef.input def
  end.

Definition declared (which : ListName) (def : GraphqlDef.t) : list string :=
  if given (fragmentOf which def) then castArray (fragmentOf which def)
  else [].

Definition declaredFragments (which : ListName) (service : Service.t)
  : list string :=
  match Service.graphql service with
  | Some globalDef => declared which globalDef
  | None => []
  end
  ++ flat_map
       (fun action =>
          match Action.graphql action with
          | Some def => declared which def
          | None => []
          end)
       (Service.actions service).

Definition fieldsOf (type : string) (declarations : list string)
  : list (string * string) :=
  map (fun declaration => (type, getFieldName declaration)) declarations.

Definition declaredFields (service : Service.t) : list (string * string) :=
  match Service.graphql service with
  | Some globalDef =>
      match GraphqlDef.resolvers globalDef with
      | Some resolvers =>
          flat_map
            (fun entry => map (fun field => (fst entry, fst field)) (snd entry))
            resolvers
      | None => []
      end
  | None => []
  end
  ++ flat_map
       (fun action =>
          match Action.graphql action with
          | Some def =>
              fieldsOf "Query" (declared Queries def)
              ++ fieldsOf "Mutation" (declared Mutations def)
              ++ fieldsOf "Subscription" (declared Subscriptions def)
          | None => []
          end)
       (Service.actions service).

(** The resolver map has an entry under a type and a field. *)
Definition hasField (type field : string) (resolvers : ResolverMap) : bool :=
  match assoc type resolvers with
  | Some fields =>
      match assoc field fields with
      | Some _ => true
      | None => false
      end
  | None => false
  end.

(** The lists and the resolver map of the second hold what the first
    holds. *)
Definition grows (l : Lists) (r : ResolverMap) (l' : Lists) (r' : ResolverMap)
  : Prop :=
  (forall which, incl (listOf which l) (listOf which l'))
  /\ (forall type field,
        hasField type field r = true -> hasField type field r' = true).

(** ** The options of the mixin, and the route

    The functions that the module defines are opaque values. *)

Module Options.

Definition pubsubFactory : JsVal := VForeign 101.
Definition rootHandler : JsVal := VForeign 102.
Definition healthHandler : JsVal := VForeign 103.

(** The second argument of the [_.defaultsDeep] that opens the module. *)
Definition defaults : JsVal :=
  VObj [("routeOptions", VObj [("path", VStr "/graphql")]);
        ("schema", VNull);
        ("serverOptions", VObj []);
        ("pubsubFactory", pubsubFactory);
        ("onlyIncludeCurrentService", VBool false);
        ("createAction", VBool true);
        ("subscriptionEventName", VStr "graphql.publish")].

(** [mixinOptions = _.defaultsDeep(mixinOptions, {...})]. *)
Definition withDefaults (mixinOptions : JsVal) : JsVal :=
  Lodash.defaultsDeep mixinOptions [defaults].

(** [if (mixinOptions.createAction)]: the service schema gets the action
    [graphql]. *)
Definition createsAction (mixinOptions : JsVal) : bool :=
  truthy (Lodash.getProp mixinOptions "createAction").

Definition healthPath : string := "/.well-known/apollo/server-health".

(** The second argument of the [_.defaultsDeep] of [created]. *)
Definition routeDefaults : JsVal :=
  VObj [("aliases", VObj [("/", rootHandler); (healthPath, healthHandler)]);
        ("mappingPolicy", VStr "restrict");
        ("bodyParsers",
         VObj [("json", VBool true);
               ("urlencoded", VObj [("extended", VBool true)])])].

(** [route] in [created], for the options of the module. *)
Definition route (mixinOptions : JsVal) : JsVal :=
  Lodash.defaultsDeep (Lodash.getProp mixinOptions "routeOptions")
    [routeDefaults].

(** [this.settings.routes.unshift(route)]. *)
Definition addRoute (mixinOptions : JsVal) (routes : list JsVal)
  : list JsVal :=
  route mixinOptions :: routes.

Definition contextFunction : JsVal := VForeign 104.
Definition onConnect : JsVal := VForeign 105.

(** The last argument of the [_.defaultsDeep] of [new ApolloServer]. *)
Definition serverDefaults : JsVal :=
  VObj [("context", contextFunction);
        ("subscriptions", VObj [("onConnect", onConnect)])].

(** What is spread after the schema in the argument of
    [new ApolloServer]:
    [_.defaultsDeep({}, mixinOptions.serverOptions, {...})]. *)
Definition serverSettings (serverOptions : JsVal) : JsVal :=
  Lodash.defaultsDeep (VObj []) [serverOptions; serverDefaults].

(** The argument of [new ApolloServer]:
    [{ schema, ..._.defaultsDeep({}, mixinOptions.serverOptions, {...}) }]. *)
Definition serverConfig (schema : JsVal) (mixinOptions : JsVal) : JsVal :=
  match serverSettings (Lodash.getProp mixinOptions "serverOptions") with
  | VObj settings => VObj (spread [("schema", schema)] settings)
  | _ => VObj [("schema", schema)]
  end.

(** What [_.defaultsDeep] leaves under a key of the destination, for the
    value that was there and the value that the source has there. *)
Definition defaulted (objValue : JsVal) (srcValue : option JsVal) : JsVal :=
  match srcValue with
  | None => objValue
  | Some srcValue =>
      if Lodash.isUndefined objValue then srcValue
      else if Lodash.isObject objValue && Lodash.isObject srcValue
           then Lodash.baseMerge srcValue objValue
           else objValue
  end.

End Options.

(** ** The requests and the events

    The aliases of the route, the action [graphql] and the two event
    handlers, each run with no other demand in between. *)

Section Gateway.

Context {host : Host}.

(** The registry of the broker changes. *)
Definition withRegistry (services : list Service.t) (w : World) : World :=
  {| apolloServer := apolloServer w; graphqlHandler := graphqlHandler w;
     graphqlSchema := graphqlSchema w; pubsub := pubsub w;
     shouldUpdateGraphqlSchema := shouldUpdateGraphqlSchema w;
     registry := services; log := log w |}.

(** The handler of [$services.changed]. *)
Definition servicesChanged (w : World) : World := invalidateGraphQLSchema w.

(** The handler of the event that [subscriptionEventName] names:
    [if (this.pubsub) this.pubsub.publish(event.tag, event.payload)]. What
    is published is the instance, the trigger and the payload. *)
Definition publishEvent (w : World) (tag payload : JsVal)
  : option (nat * JsVal * JsVal) :=
  if (0 <? pubsub w)%nat then Some (pubsub w, tag, payload) else None.

(** What a request gets: the handler of the server takes it, the error is
    sent, a response is sent with a status code, or the alias fails. *)
Inductive Response : Type :=
| Handled (handler : ApolloServer)
| SentError (err : JsVal)
| SentResponse (statusCode : Z) (data : JsVal) (responseType : string)
| Thrown (err : JsVal).

(** [this.graphqlHandler(req, res)]. *)
Definition callHandler (w : World) : Result ApolloServer :=
  match graphqlHandler w with
  | Some handler => Ok handler
  | None => Err (typeError "this.graphqlHandler is not a function")
  end.

(** The alias ["/"]: the call of the handler is inside the [try]. *)
Definition rootAlias (w : World) : World * Response :=
  let '(w', d) := prepareGraphQLSchema w in
  match d with
  | Failed err => (w', SentError err)
  | _ =>
      match callHandler w' with
      | Ok handler => (w', Handled handler)
      | Err err => (w', SentError err)
      end
  end.

Definition unhealthy : JsVal :=
  VObj [("status", VStr "fail"); ("schema", VBool false)].

(** The alias of the health check: the call of the handler is after the
    [try]. *)
Definition healthAlias (w : World) : World * Response :=
  let '(w', d) := prepareGraphQLSchema w in
  match d with
  | Failed _ => (w', SentResponse 503 unhealthy "application/health+json")
  | _ =>
      match callHandler w' with
      | Ok handler => (w', Handled handler)
      | Err err => (w', Thrown err)
      end
  end.

(** The action [graphql]: what [GraphQL.graphql] is given, or the failure
    of the preparation. *)
Inductive Execution : Type :=
| Executed (schema : option Schema) (query variables : JsVal)
| Rejected (err : JsVal).

Definition graphqlAction (w : World) (params : JsVal) : World * Execution :=
  let '(w', d) := prepareGraphQLSchema w in
  match d with
  | Failed err => (w', Rejected err)
  | _ =>
      (w', Executed (graphqlSchema w') (Lodash.getProp params "query")
             (Lodash.getProp params "variables"))
  end.

(** [stopped()]. *)
Definition stopped (w : World) : World :=
  match apolloServer w with
  | Some server =>
      {| apolloServer := apolloServer w; graphqlHandler := graphqlHandler w;
         graphqlSchema := graphqlSchema w; pubsub := pubsub w;
         shouldUpdateGraphqlSchema := shouldUpdateGraphqlSchema w;
         registry := registry w; log := log w ++ [Stopped server] |}
  | None => w
  end.

(** The settings of the servers of this host. *)
Definition serverSettings : JsVal :=
  Options.serverSettings (MixinOptions.serverOptions mixinOptions).

(** The schema on which a server executes its requests: the spread puts
    a [schema] of the settings over the schema that the pass generated. *)
Definition servedSchema (server : ApolloServer) : Schema + JsVal :=
  match serverSettings with
  | VObj settings =>
      match assoc "schema" settings with
      | Some given => inr given
      | None => inl (serverSchema server)
      end
  | _ => inl (serverSchema server)
  end.

(** The context function of the settings is the one of the module. *)
Definition ownContext : bool :=
  match Lodash.getProp serverSettings "context" with
  | VForeign id =>
      match Options.contextFunction with
      | VForeign own => Nat.eqb id own
      | _ => false
      end
  | _ => false
  end.

(** The loaders of the context of a request: the context function of
    the module builds them from the services of the pass. A [context] of
    the server options takes its place, and the module then builds no
    loaders. *)
Definition requestLoaders (server : ApolloServer)
  : option (Result (list (string * Loader))) :=
  if ownContext then Some (contextLoaders server) else None.

(** The server, the handler and the schema are installed together: none
    of them, or a server, the handler that it created and the schema of
    the pass that built it. *)
Definition installed (w : World) : Prop :=
  match apolloServer w, graphqlHandler w, graphqlSchema w with
  | None, None, None => True
  | Some server, Some handler, Some schema =>
      handler = server /\ schema = serverSchema server
  | _, _, _ => False
  end.

(** A demand that returned without an error. *)
Definition returned (d : Demand) : bool :=
  match d with
  | Served _ | Rebuilt _ => true
  | _ => false
  end.

Definition isBroadcast (e : Effect) : bool :=
  match e with
  | Broadcast _ => true
  | _ => false
  end.

Definition isLoggedError (e : Effect) : bool :=
  match e with
  | LoggedError _ => true
  | _ => false
  end.

Definition broadcasts (w : World) : nat :=
  length (List.filter isBroadcast (log w)).

Definition errorsLogged (w : World) : nat :=
  length (List.filter isLoggedError (log w)).

Definition isRebuilt (d : Demand) : bool :=
  match d with
  | Rebuilt _ => true
  | _ => false
  end.

Definition isFailed (d : Demand) : bool :=
  match d with
  | Failed _ => true
  | _ => false
  end.

Definition countOf (p : Demand -> bool) (ds : list Demand) : nat :=
  length (List.filter p ds).

End Gateway.

(** ** What a pass compiles *)

(** An action with a subscription to compile. *)
Definition subscribes (action : Action.t) : bool :=
  match Action.graphql action with
  | Some def =>
      given (GraphqlDef.subscription def)
      && nonEmpty (castArray (GraphqlDef.subscription def))
  | None => false
  end.

Definition declaresSubscription (service : Service.t) : bool :=
  existsb subscribes (Service.actions service).

(** The services that a pass does not skip: the first of each name. *)
Fixpoint compiled (seen : list string) (services : list Service.t)
  : list Service.t :=
  match services with
  | [] => []
  | service :: rest =>
      if existsb (String.eqb (getServiceName service)) seen
      then compiled seen rest
      else service :: compiled (getServiceName service :: seen) rest
  end.

(** The entry that [createServiceResolvers] makes of a declared value. *)
Definition resolverOf (serviceName : string) (r : ResolverDecl) : Resolver :=
  match r with
  | DeclObject (Some action) def =>
      createActionResolver (getResolverActionName serviceName action) def
  | _ => Passthrough r
  end.

(** The entry of a resolver map under a type and a field. *)
Definition fieldAt (type field : string) (resolvers : ResolverMap)
  : option Resolver :=
  match assoc type resolvers with
  | Some fields => assoc field fields
  | None => None
  end.

(** The fields for which the actions of a list declare a resolver, and
    those for which the settings of a service do. *)
Definition fieldsOfAction (action : Action.t) : list (string * string) :=
  match Action.graphql action with
  | Some def =>
      fieldsOf "Query" (declared Queries def)
      ++ fieldsOf "Mutation" (declared Mutations def)
      ++ fieldsOf "Subscription" (declared Subscriptions def)
  | None => []
  end.

Definition actionFields (actions : list Action.t) : list (string * string) :=
  flat_map fieldsOfAction actions.

Definition settingsFields (service : Service.t) : list (string * string) :=
  match Service.graphql service with
  | Some globalDef =>
      match GraphqlDef.resolvers globalDef with
      | Some resolvers =>
          flat_map
            (fun entry => map (fun field => (fst entry, fst field)) (snd entry))
            resolvers
      | None => []
      end
  | None => []
  end.

(** The keys of the loader registry as the specification words them: an
    action has a batching unit when some batched resolver of the composed
    resolver map targets it and declares a root key mapping that is not
    empty. *)
Definition batchedWithRootKey (resolvers : ResolverMap) (actionName : string)
  : bool :=
  existsb
    (fun type =>
       existsb
         (fun field =>
            match snd field with
            | ActionResolver target def =>
                String.eqb target actionName && dataLoader def
                && nonEmpty (rootParams def)
            | _ => false
            end)
         (snd type))
    resolvers.


(** The loader that a declaration asks for. *)
Definition loaderOf (serviceName : string) (r : ResolverDecl)
  : option Loader :=
  match r with
  | DeclObject (Some action) def =>
      match firstRootParam def with
      | Some param =>
          if dataLoader def then
            Some {| loaderAction := getResolverActionName serviceName action;
                    actionParam := param;
                    loaderParams := params def;
                    loaderMetaParams := metaParams def |}
          else None
      | None => None
      end
  | _ => None
  end.

(** The first declaration of a list that asks for the loader of an
    action. *)
Fixpoint firstAsking (serviceName actionName : string)
    (rs : list ResolverDecl) : option Loader :=
  match rs with
  | [] => None
  | r :: rest =>
      match loaderOf serviceName r with
      | Some loader =>
          if String.eqb (loaderAction loader) actionName then Some loader
          else firstAsking serviceName actionName rest
      | None => firstAsking serviceName actionName rest
      end
  end.

(** ** A small registry, for the examples *)

Module Sample.

(** A [graphql] setting with one query. *)
Definition queryDef (declaration : string) : GraphqlDef.t :=
  {| GraphqlDef.query := OneFragment declaration;
     GraphqlDef.mutation := NoFragment;
     GraphqlDef.subscription := NoFragment; GraphqlDef.type := NoFragment;
     GraphqlDef.interface := NoFragment; GraphqlDef.union := NoFragment;
     GraphqlDef.enum := NoFragment; GraphqlDef.input := NoFragment;
     GraphqlDef.resolvers := None; GraphqlDef.tags := None;
     GraphqlDef.filter := None |}.

(** A [graphql] setting with one subscription. *)
Definition subscriptionDef (declaration : string) (tags : list string)
  : GraphqlDef.t :=
  {| GraphqlDef.query := NoFragment; GraphqlDef.mutation := NoFragment;
     GraphqlDef.subscription := OneFragment declaration;
     GraphqlDef.type := NoFragment; GraphqlDef.interface := NoFragment;
     GraphqlDef.union := NoFragment; GraphqlDef.enum := NoFragment;
     GraphqlDef.input := NoFragment; GraphqlDef.resolvers := None;
     GraphqlDef.tags := Some tags; GraphqlDef.filter := None |}.

(** A [graphql] setting of a service, with a type and its resolvers. *)
Definition typeDef (source : string)
    (resolvers : list (string * list (string * ResolverDecl)))
  : GraphqlDef.t :=
  {| GraphqlDef.query := NoFragment; GraphqlDef.mutation := NoFragment;
     GraphqlDef.subscription := NoFragment;
     GraphqlDef.type := OneFragment source;
     GraphqlDef.interface := NoFragment; GraphqlDef.union := NoFragment;
     GraphqlDef.enum := NoFragment; GraphqlDef.input := NoFragment;
     GraphqlDef.resolvers := Some resolvers; GraphqlDef.tags := None;
     GraphqlDef.filter := None |}.

Definition greeter : Service.t :=
  {| Service.name := "greeter"; Service.version := NoVersion;
     Service.fullName := None; Service.graphql := None;
     Service.actions :=
       [{| Action.name := "greeter.hello";
           Action.graphql := Some (queryDef "hello: String") |}] |}.

(** Another instance under the name of [greeter], with another action. *)
Definition greeterTwin : Service.t :=
  {| Service.name := "greeter"; Service.version := NoVersion;
     Service.fullName := None; Service.graphql := None;
     Service.actions :=
       [{| Action.name := "greeter.bye";
           Action.graphql := Some (queryDef "bye: String") |}] |}.

(** A batched resolver with a root key, and one without. *)
Definition byAuthor : ResolverDef :=
  {| dataLoader := true; nullIfError := false; params := VObj [];
     argParams := []; rootParams := [("id", "authorIds")];
     metaParams := [] |}.

Definition countAll : ResolverDef :=
  {| dataLoader := true; nullIfError := false; params := VObj [];
     argParams := []; rootParams := []; metaParams := [] |}.

Definition posts : Service.t :=
  {| Service.name := "posts"; Service.version := NumberVersion 2;
     Service.fullName := None;
     Service.graphql :=
       Some (typeDef "type Author { posts: [String] count: Int }"
               [("Author",
                 [("posts", DeclObject (Some "byAuthor") byAuthor);
                  ("count", DeclObject (Some "count") countAll)])]);
     Service.actions :=
       [{| Action.name := "v2.posts.find";
           Action.graphql := Some (queryDef "posts(limit: Int): [String]") |}]
  |}.

Definition notifier : Service.t :=
  {| Service.name := "notifier"; Service.version := NoVersion;
     Service.fullName := None; Service.graphql := None;
     Service.actions :=
       [{| Action.name := "notifier.onEvent";
           Action.graphql :=
             Some (subscriptionDef "onEvent: String" ["EVENT"]) |}] |}.

Definition services : list Service.t := [greeter; greeterTwin; posts].

(** The collaborators: a schema is what [makeExecutableSchema] was given,
    a later resolver replaces an earlier one, the global object has no
    property of its own, and the mixin has its default options. *)
#[export] Instance host : Host :=
  {| Schema := (list string * ResolverMap)%type;
     makeExecutableSchema := fun typeDefs resolvers _ => Ok (typeDefs, resolvers);
     mergeLeaf := fun old new => new;
     globalObject := [];
     mixinOptions :=
       {| MixinOptions.typeDefs := NoFragment;
          MixinOptions.resolvers := None;
          MixinOptions.schemaDirectives := None;
          MixinOptions.onlyIncludeCurrentService := false;
          MixinOptions.serverOptions := VObj [] |};
     thisName := "api" |}.

(** The world after a first demand and a change of the services: stale,
    with a server installed. *)
Definition staleWorld : World :=
  invalidateGraphQLSchema (fst (prepareGraphQLSchema (created services))).

(** A direct resolver with the three mappings and static parameters, and
    an invocation of it. *)
Definition findPosts : ResolverDef :=
  {| dataLoader := false; nullIfError := false;
     params := VObj [("limit", VNum 10); ("x", VNum 0)];
     argParams := [("a", "x")]; rootParams := [("id", "author")];
     metaParams := [("user", "x")] |}.

Definition root : JsVal := VObj [("id", VNum 7)].

Definition args : JsVal :=
  VObj [("a", VNum 1); ("x", VNum 2); ("q", VStr "rocq")].

(** The errors of the sample: the one that its loader throws for a key
    that is null or undefined, and the one that its engine throws where
    [load] is read in a loader that is missing. *)
Definition noKey : JsVal :=
  typeError "The loader.load() function must be called with a value".

Definition noLoader : JsVal :=
  typeError "Cannot read properties of undefined (reading 'load')".

(** The loaders of a context that holds one DataLoader, for the action
    [loaded], whose batch function answers [batch]. *)
Definition loadersOf (loaded : string) (batch : JsVal -> Result JsVal)
    (actionName : string) (key : JsVal) : Asked :=
  if String.eqb actionName loaded then
    if nullish key then Threw noKey else Promised (batch key)
  else Threw noLoader.

Definition context : Context :=
  {| meta := VObj [("user", VStr "u1")];
     call := fun actionName params => Ok params;
     loaders := loadersOf "v2.posts.byAuthor" (fun key => Ok (VArr [key])) |}.

(** A context whose remote calls fail with an error that refers to the
    call context. *)
Definition failure : JsVal :=
  VObj [("message", VStr "not found"); ("ctx", VForeign 1)].

(** A direct resolver that answers null when its call fails. *)
Definition quiet : ResolverDef :=
  {| dataLoader := false; nullIfError := true; params := VObj [];
     argParams := []; rootParams := []; metaParams := [] |}.

Definition failing : Context :=
  {| meta := VObj []; call := fun _ _ => Err failure;
     loaders := fun _ _ => Threw noLoader |}.

End Sample.

(** ** More of the registry, for the examples *)

Module Scenario.

(** The batched resolver of a later instance of [posts]: static
    parameters, and the user of the metadata. *)
Definition byAuthorLimited : ResolverDef :=
  {| dataLoader := true; nullIfError := false;
     params := VObj [("limit", VNum 5); ("userId", VStr "nobody")];
     argParams := []; rootParams := [("id", "authorIds")];
     metaParams := [("user", "userId"); ("tenant", "tenantId")] |}.

(** The same service as [Sample.posts], as another node runs it. *)
Definition postsNext : Service.t :=
  {| Service.name := "posts"; Service.version := NumberVersion 2;
     Service.fullName := None;
     Service.graphql :=
       Some (Sample.typeDef "type Author { posts: [String] }"
               [("Author",
                 [("posts", DeclObject (Some "byAuthor") byAuthorLimited)])]);
     Service.actions := [] |}.

(** The loader that [postsNext] asks for. *)
Definition limitedLoader : Loader :=
  {| loaderAction := "v2.posts.byAuthor"; actionParam := "authorIds";
     loaderParams := params byAuthorLimited;
     loaderMetaParams := metaParams byAuthorLimited |}.

(** Another instance under the name of [Sample.posts], whose [count]
    has a root parameter. *)
Definition countByAuthor : ResolverDef :=
  {| dataLoader := true; nullIfError := false; params := VObj [];
     argParams := []; rootParams := [("id", "authorId")];
     metaParams := [] |}.

Definition countTwin : Service.t :=
  {| Service.name := "posts"; Service.version := NumberVersion 2;
     Service.fullName := None;
     Service.graphql :=
       Some (Sample.typeDef "type Author { count: Int }"
               [("Author",
                 [("count", DeclObject (Some "count") countByAuthor)])]);
     Service.actions := [] |}.

(** A batched resolver with a root key whose parameter is the empty
    string, and a service that declares it. *)
Definition blankRoot : ResolverDef :=
  {| dataLoader := true; nullIfError := false; params := VObj [];
     argParams := []; rootParams := [("id", "")]; metaParams := [] |}.

Definition drafts : Service.t :=
  {| Service.name := "drafts"; Service.version := NoVersion;
     Service.fullName := None;
     Service.graphql :=
       Some (Sample.typeDef "type Author { drafts: [String] }"
               [("Author",
                 [("drafts", DeclObject (Some "byAuthor") blankRoot)])]);
     Service.actions := [] |}.

(** A direct resolver whose root mapping and argument mapping have the
    same target. *)
Definition overwritten : ResolverDef :=
  {| dataLoader := false; nullIfError := false;
     params := VObj [("x", VNum 0)];
     argParams := [("a", "x")]; rootParams := [("id", "x")];
     metaParams := [] |}.

(** A context whose loader fails for the key 2. *)
Definition flaky : Context :=
  {| meta := VObj [];
     call := fun _ params => Ok params;
     loaders :=
       Sample.loadersOf "v2.posts.byAuthor"
         (fun key =>
            match key with
            | VNum 2 => Err Sample.failure
            | _ => Ok (VArr [key])
            end) |}.

(** A gateway whose mixin options bring a type definition and a
    resolver of their own, and server options with a schema and a context
    function of the caller. *)
Definition gateway : Host :=
  {| Schema := (list string * ResolverMap)%type;
     makeExecutableSchema :=
       fun typeDefs resolvers _ => Ok (typeDefs, resolvers);
     mergeLeaf := fun old new => new;
     globalObject := [];
     mixinOptions :=
       {| MixinOptions.typeDefs := OneFragment "scalar Date";
          MixinOptions.resolvers :=
            Some [("Date", [("serialize", Passthrough (DeclOther (VForeign 9)))])];
          MixinOptions.schemaDirectives := None;
          MixinOptions.onlyIncludeCurrentService := true;
          MixinOptions.serverOptions :=
            VObj [("tracing", VBool true); ("schema", VForeign 7);
                  ("context", VForeign 8)] |};
     thisName := "posts" |}.

End Scenario.

(** * Properties *)

Section FieldNames.

Import JsString.

Lemma append_assoc (a b c : string) : (a +:+ b) +:+ c = a +:+ (b +:+ c).
Proof. induction a as [|x a IH]; simpl; [reflexivity | now rewrite IH]. Qed.

Lemma split_first (sep : ascii -> bool) (s : string) :
  forallb (fun c => negb (sep c)) (fst (split sep s)) = true
  /\ exists rest,
       s = fst (split sep s) +:+ rest
       /\ (rest = "" \/ exists c rest', rest = String c rest' /\ sep c = true).
Proof.
  induction s as [|c s [IHfree [rest [IHeq IHrest]]]]; simpl.
  - split; [reflexivity | exists ""; split; [reflexivity | now left]].
  - destruct (split sep s) as [piece pieces] eqn:E; simpl in *.
    destruct (sep c) eqn:Hc; simpl.
    + split; [reflexivity |].
      exists (String c s). split; [reflexivity |].
      right. now exists c, s.
    + rewrite Hc. simpl. split; [exact IHfree |].
      exists rest. split; [now rewrite <- IHeq | exact IHrest].
Qed.

(** The scan for quoted text does not look behind. *)
Lemma replaceAll_quoted_prev (p1 p2 : option ascii) (s : string) (k : nat) :
  replaceAll matchQuoted p1 k s = replaceAll matchQuoted p2 k s.
Proof.
  destruct s as [|c s]; [reflexivity |].
  destruct k; reflexivity.
Qed.

(** The scan for comments looks behind only to know whether a line
    starts. *)
Lemma replaceAll_comment_prev (p1 p2 : option ascii) (s : string) (k : nat) :
  atLineStart p1 = atLineStart p2 ->
  replaceAll matchComment p1 k s = replaceAll matchComment p2 k s.
Proof.
  intros H. destruct s as [|c s]; [reflexivity |].
  destruct k; [|reflexivity].
  cbn [replaceAll]. unfold matchComment. now rewrite H.
Qed.

Lemma contains_cons (c d : ascii) (s : string) :
  contains c (String d s) = false ->
  Ascii.eqb d c = false /\ contains c s = false.
Proof.
  cbn [contains]. intros H. apply orb_false_iff in H as [Hc Hs].
  rewrite Ascii.eqb_sym in Hc. now split.
Qed.

Lemma indexOfQuote_literal (literal after : string) :
  contains quote literal = false ->
  indexOfQuote (literal +:+ String quote after)
  = Some (String.length literal).
Proof.
  induction literal as [|c l IH]; intros H.
  - cbn [append indexOfQuote]. now rewrite Ascii.eqb_refl.
  - apply contains_cons in H as [Hc Hl].
    cbn [append indexOfQuote]. rewrite Hc, (IH Hl). reflexivity.
Qed.

(** Dropping the rest of a quoted text. *)
Lemma replaceAll_drop_literal (literal after : string) (p : option ascii) :
  replaceAll matchQuoted p (S (String.length literal))
    (literal +:+ String quote after)
  = replaceAll matchQuoted None 0 after.
Proof.
  revert p. induction literal as [|c l IH]; intros p.
  - cbn [append String.length replaceAll]. apply replaceAll_quoted_prev.
  - cbn [append String.length replaceAll]. apply IH.
Qed.

Lemma removeDescriptions_literal (before literal after : string) :
  contains quote before = false ->
  contains quote literal = false ->
  removeDescriptions
    (before +:+ String quote (literal +:+ String quote after))
  = before +:+ removeDescriptions after.
Proof.
  intros Hb Hl. unfold removeDescriptions. generalize (@None ascii) at 1 as p.
  induction before as [|c b IH]; intros p.
  - cbn [append replaceAll matchQuoted]. rewrite Ascii.eqb_refl.
    rewrite (indexOfQuote_literal _ _ Hl). cbn [option_map].
    apply replaceAll_drop_literal.
  - apply contains_cons in Hb as [Hc Hb].
    cbn [append replaceAll matchQuoted]. rewrite Hc.
    now rewrite (IH Hb).
Qed.

Lemma restOfLine_body (body after : string) :
  forallb (fun c => negb (isLineTerminator c)) body = true ->
  restOfLine (body +:+ String newline after) = S (String.length body).
Proof.
  induction body as [|c b IH]; intros H.
  - cbn [append restOfLine]. now rewrite Ascii.eqb_refl.
  - cbn [forallb] in H. apply andb_true_iff in H as [Hc Hb].
    apply negb_true_iff in Hc.
    assert (Ascii.eqb c newline = false) as Hn.
    { destruct (Ascii.eqb_spec c newline) as [->|]; [discriminate | reflexivity]. }
    cbn [append restOfLine String.length].
    now rewrite Hn, Hc, (IH Hb).
Qed.

Lemma spacesThenHash_line (ws body after : string) :
  forallb isSpace ws = true ->
  forallb (fun c => negb (isLineTerminator c)) body = true ->
  spacesThenHash (ws +:+ String hash (body +:+ String newline after))
  = Some (String.length ws + S (S (String.length body)))%nat.
Proof.
  intros Hws Hbody. induction ws as [|c w IH].
  - cbn [append spacesThenHash String.length]. rewrite Ascii.eqb_refl.
    now rewrite (restOfLine_body _ _ Hbody).
  - cbn [forallb] in Hws. apply andb_true_iff in Hws as [Hc Hw].
    assert (Ascii.eqb c hash = false) as Hh.
    { destruct (Ascii.eqb_spec c hash) as [->|]; [discriminate | reflexivity]. }
    cbn [append spacesThenHash String.length].
    now rewrite Hh, Hc, (IH Hw).
Qed.

(** Dropping characters of which the last is a line feed leaves the scan
    at the start of a line. *)
Lemma replaceAll_drop_line (x after : string) (p : option ascii) :
  replaceAll matchComment p (S (String.length x))
    (x +:+ String newline after)
  = replaceAll matchComment None 0 after.
Proof.
  revert p. induction x as [|c x IH]; intros p.
  - cbn [append String.length replaceAll].
    now apply replaceAll_comment_prev.
  - cbn [append String.length replaceAll]. apply IH.
Qed.

Lemma length_append (a b : string) :
  String.length (a +:+ b) = (String.length a + String.length b)%nat.
Proof. induction a as [|c a IH]; simpl; [reflexivity | now rewrite IH]. Qed.

Lemma removeComments_line (ws body after : string) :
  forallb isSpace ws = true ->
  forallb (fun c => negb (isLineTerminator c)) body = true ->
  removeComments (ws +:+ String hash (body +:+ String newline after))
  = removeComments after.
Proof.
  intros Hws Hbody. unfold removeComments.
  pose proof (spacesThenHash_line ws body after Hws Hbody) as Hm.
  assert (ws +:+ String hash (body +:+ String newline after)
          = (ws +:+ String hash body) +:+ String newline after) as Hline.
  { now rewrite append_assoc. }
  assert (exists c x, ws +:+ String hash body = String c x) as (c & x & Ex).
  { destruct ws; cbn [append]; eauto. }
  assert (String.length (String c x)
          = (String.length ws + S (String.length body))%nat) as Hlen.
  { rewrite <- Ex. apply length_append. }
  rewrite Hline in *. rewrite Ex in *.
  cbn [append replaceAll]. cbn [append] in Hm.
  unfold matchComment at 1. cbn [atLineStart]. rewrite Hm.
  cbn [String.length] in Hlen.
  replace (String.length ws + S (S (String.length body)))%nat
    with (S (S (String.length x))) by lia.
  apply replaceAll_drop_line.
Qed.

Lemma trimStart_start (s : string) : startsWithSpace (trimStart s) = false.
Proof.
  induction s as [|c s IH]; [reflexivity |].
  cbn [trimStart]. destruct (isSpace c) eqn:E; [exact IH |].
  cbn [startsWithSpace]. exact E.
Qed.

Lemma trimEnd_start (s : string) :
  startsWithSpace s = false -> startsWithSpace (trimEnd s) = false.
Proof.
  destruct s as [|c s]; [reflexivity |].
  cbn [startsWithSpace trimEnd]. intros Hc.
  destruct (trimEnd s); [rewrite Hc |]; cbn [startsWithSpace]; assumption.
Qed.

Lemma trimEnd_end (s : string) : endsWithSpace (trimEnd s) = false.
Proof.
  induction s as [|c s IH]; [reflexivity |].
  cbn [trimEnd]. destruct (trimEnd s) as [|d kept] eqn:E.
  - destruct (isSpace c) eqn:Hc; [reflexivity |].
    cbn [endsWithSpace]. exact Hc.
  - exact IH.
Qed.

Lemma trim_ends (s : string) :
  startsWithSpace (trim s) = false /\ endsWithSpace (trim s) = false.
Proof.
  unfold trim. split.
  - apply trimEnd_start, trimStart_start.
  - apply trimEnd_end.
Qed.

Lemma solid_parts (c : ascii) :
  solid c = true ->
  isSpace c = false /\ Ascii.eqb c quote = false /\ Ascii.eqb c hash = false.
Proof.
  unfold solid. intros H.
  apply andb_true_iff in H as [H Hh]. apply andb_true_iff in H as [Hs Hq].
  now rewrite negb_true_iff in Hs, Hq, Hh.
Qed.

Lemma isNameChar_solid (c : ascii) :
  isNameChar c = true -> solid c = true /\ isFieldDelimiter c = false.
Proof.
  unfold isNameChar. intros H.
  apply andb_true_iff in H as [H Hd]. rewrite negb_true_iff in Hd.
  now split.
Qed.

Lemma isFieldDelimiter_solid (c : ascii) :
  isFieldDelimiter c = true -> solid c = true.
Proof.
  unfold isFieldDelimiter. intros H.
  apply orb_true_iff in H as [H | H]; apply Ascii.eqb_eq in H; now subst.
Qed.

Lemma isSpace_not_quote (c : ascii) :
  isSpace c = true -> Ascii.eqb c quote = false.
Proof.
  intros H. destruct (Ascii.eqb_spec c quote) as [->|]; [discriminate H |].
  reflexivity.
Qed.

Lemma isSpace_not_hash (c : ascii) :
  isSpace c = true -> Ascii.eqb c hash = false.
Proof.
  intros H. destruct (Ascii.eqb_spec c hash) as [->|]; [discriminate H |].
  reflexivity.
Qed.

Lemma isLineTerminator_isSpace (c : ascii) :
  isLineTerminator c = true -> isSpace c = true.
Proof.
  unfold isLineTerminator, isSpace. intros H.
  apply orb_true_iff in H as [H | H]; apply Nat.eqb_eq in H; now rewrite H.
Qed.

Lemma contains_append (c : ascii) (a b : string) :
  contains c (a +:+ b) = contains c a || contains c b.
Proof.
  induction a as [|x a IH]; [reflexivity |].
  cbn [append contains]. now rewrite IH, orb_assoc.
Qed.

Lemma spaces_no_quote (ws : string) :
  forallb isSpace ws = true -> contains quote ws = false.
Proof.
  induction ws as [|c ws IH]; [reflexivity |].
  cbn [forallb contains]. intros H. apply andb_true_iff in H as [Hc Hws].
  rewrite Ascii.eqb_sym, (isSpace_not_quote c Hc). now apply IH.
Qed.

Lemma solid_no_quote (s : string) :
  forallb solid s = true -> contains quote s = false.
Proof.
  induction s as [|c s IH]; [reflexivity |].
  cbn [forallb contains]. intros H. apply andb_true_iff in H as [Hc Hs].
  destruct (solid_parts c Hc) as (_ & Hq & _).
  rewrite Ascii.eqb_sym, Hq. now apply IH.
Qed.

(** Text without a quote stays where it is. *)
Lemma removeDescriptions_prefix (before after : string) :
  contains quote before = false ->
  removeDescriptions (before +:+ after) = before +:+ removeDescriptions after.
Proof.
  intros Hb. unfold removeDescriptions. generalize (@None ascii) at 1 as p.
  induction before as [|c b IH]; intros p.
  - cbn [append]. apply replaceAll_quoted_prev.
  - apply contains_cons in Hb as [Hc Hb].
    cbn [append replaceAll matchQuoted]. rewrite Hc. now rewrite (IH Hb).
Qed.

Lemma spacesThenHash_solid (ws : string) (c : ascii) (tail : string) :
  forallb isSpace ws = true ->
  solid c = true ->
  spacesThenHash (ws +:+ String c tail) = None.
Proof.
  intros Hws Hc. destruct (solid_parts c Hc) as (Hs & _ & Hh).
  induction ws as [|x ws IH].
  - cbn [append spacesThenHash]. now rewrite Hh, Hs.
  - cbn [forallb] in Hws. apply andb_true_iff in Hws as [Hx Hws].
    cbn [append spacesThenHash].
    now rewrite (isSpace_not_hash x Hx), Hx, (IH Hws).
Qed.

(** White space before a solid character is not the start of a comment. *)
Lemma removeComments_spaces (ws : string) (c : ascii) (tail : string)
    (prev : option ascii) :
  forallb isSpace ws = true ->
  solid c = true ->
  replaceAll matchComment prev 0 (ws +:+ String c tail)
  = ws +:+ String c (replaceAll matchComment (Some c) 0 tail).
Proof.
  intros Hws Hc. revert prev. induction ws as [|x ws IH]; intros prev.
  - cbn [append replaceAll]. unfold matchComment.
    pose proof (spacesThenHash_solid "" c tail eq_refl Hc) as Hnone.
    cbn [append] in Hnone. rewrite Hnone. now destruct (atLineStart prev).
  - pose proof (spacesThenHash_solid (String x ws) c tail Hws Hc) as Hnone.
    cbn [forallb] in Hws. apply andb_true_iff in Hws as [Hx Hws].
    cbn [append replaceAll]. unfold matchComment at 1.
    cbn [append] in Hnone. rewrite Hnone.
    destruct (atLineStart prev); now rewrite (IH Hws).
Qed.

(** Solid characters after a solid character are kept. *)
Lemma removeComments_solid (s : string) (c : ascii) (tail : string) :
  solid c = true ->
  forallb solid s = true ->
  exists tail',
    replaceAll matchComment (Some c) 0 (s +:+ tail) = s +:+ tail'.
Proof.
  revert c. induction s as [|x s IH]; intros c Hc Hs.
  - cbn [append]. eauto.
  - cbn [forallb] in Hs. apply andb_true_iff in Hs as [Hx Hs].
    destruct (IH x Hx Hs) as [tail' Htail].
    exists tail'. cbn [append replaceAll]. unfold matchComment at 1.
    cbn [atLineStart].
    assert (isLineTerminator c = false) as ->.
    { destruct (isLineTerminator c) eqn:E; [|reflexivity].
      apply isLineTerminator_isSpace in E.
      destruct (solid_parts c Hc) as (Hsp & _). congruence. }
    now rewrite Htail.
Qed.

Lemma trimStart_spaces (ws : string) (c : ascii) (tail : string) :
  forallb isSpace ws = true ->
  isSpace c = false ->
  trimStart (ws +:+ String c tail) = String c tail.
Proof.
  intros Hws Hc. induction ws as [|x ws IH].
  - cbn [append trimStart]. now rewrite Hc.
  - cbn [forallb] in Hws. apply andb_true_iff in Hws as [Hx Hws].
    cbn [append trimStart]. rewrite Hx. now apply IH.
Qed.

Lemma trimEnd_solid (s tail : string) :
  forallb solid s = true ->
  trimEnd (s +:+ tail) = s +:+ trimEnd tail.
Proof.
  induction s as [|c s IH]; [reflexivity |].
  cbn [forallb]. intros H. apply andb_true_iff in H as [Hc Hs].
  destruct (solid_parts c Hc) as (Hsp & _).
  cbn [append trimEnd]. rewrite (IH Hs), Hsp.
  now destruct (s +:+ trimEnd tail).
Qed.

Lemma split_name (name : string) (c : ascii) (tail : string) :
  forallb (fun x => negb (isFieldDelimiter x)) name = true ->
  isFieldDelimiter c = true ->
  fst (split isFieldDelimiter (name +:+ String c tail)) = name.
Proof.
  intros Hname Hc. induction name as [|x name IH].
  - cbn [append split]. destruct (split isFieldDelimiter tail).
    now rewrite Hc.
  - cbn [forallb] in Hname. apply andb_true_iff in Hname as [Hx Hname].
    apply negb_true_iff in Hx. specialize (IH Hname).
    cbn [append split].
    destruct (split isFieldDelimiter (name +:+ String c tail)) as [p ps].
    rewrite Hx. cbn [fst] in *. now rewrite IH.
Qed.

Lemma forallb_append (p : ascii -> bool) (a b : string) :
  forallb p (a +:+ b) = forallb p a && forallb p b.
Proof.
  induction a as [|x a IH]; [reflexivity |].
  cbn [append forallb]. now rewrite IH, andb_assoc.
Qed.

Lemma forallb_impl (p q : ascii -> bool) (s : string) :
  (forall c, p c = true -> q c = true) ->
  forallb p s = true -> forallb q s = true.
Proof.
  intros Himpl. induction s as [|c s IH]; [reflexivity |].
  cbn [forallb]. intros H. apply andb_true_iff in H as [Hc Hs].
  now rewrite (Himpl c Hc), (IH Hs).
Qed.

(** A name that its delimiter follows at once is the field name, whatever
    white space comes before it. *)
Lemma getFieldName_name (ws name : string) (c : ascii) (rest : string) :
  forallb isSpace ws = true ->
  forallb isNameChar name = true ->
  isFieldDelimiter c = true ->
  getFieldName (ws +:+ name +:+ String c rest) = name.
Proof.
  intros Hws Hname Hc.
  assert (forallb solid (name +:+ String c "") = true) as Hsolid.
  { rewrite forallb_append. cbn [forallb].
    rewrite (isFieldDelimiter_solid c Hc).
    apply andb_true_iff. split; [|reflexivity].
    apply (forallb_impl isNameChar); [|exact Hname].
    intros x Hx. now apply isNameChar_solid. }
  assert (forallb (fun x => negb (isFieldDelimiter x)) name = true) as Hfree.
  { apply (forallb_impl isNameChar); [|exact Hname].
    intros x Hx. apply negb_true_iff. now apply isNameChar_solid. }
  unfold getFieldName, cleanDeclaration.
  replace (ws +:+ name +:+ String c rest)
    with ((ws +:+ name +:+ String c "") +:+ rest)
    by (now rewrite !append_assoc).
  rewrite removeDescriptions_prefix.
  2:{ rewrite contains_append, (spaces_no_quote ws Hws).
      now rewrite (solid_no_quote _ Hsolid). }
  set (tail := removeDescriptions rest).
  assert (exists (x : ascii) (s : string),
            name +:+ String c "" = String x s) as (x & s & Ex).
  { destruct name; cbn [append]; eauto. }
  rewrite Ex in Hsolid. cbn [forallb] in Hsolid.
  apply andb_true_iff in Hsolid as [Hx Hs].
  unfold removeComments.
  replace ((ws +:+ name +:+ String c "") +:+ tail)
    with (ws +:+ String x (s +:+ tail))
    by (now rewrite !append_assoc, <- (append_assoc name), Ex).
  rewrite (removeComments_spaces ws x (s +:+ tail) None Hws Hx).
  destruct (removeComments_solid s x tail Hx Hs) as [tail' ->].
  unfold trim. destruct (solid_parts x Hx) as (Hsp & _).
  rewrite (trimStart_spaces ws x (s +:+ tail') Hws Hsp).
  change (String x (s +:+ tail')) with (String x s +:+ tail').
  rewrite <- Ex, trimEnd_solid.
  2:{ rewrite Ex. cbn [forallb]. now rewrite Hx, Hs. }
  rewrite append_assoc. cbn [append].
  now apply split_name.
Qed.

(** A quoted text does not change the field name. *)
Lemma getFieldName_description (before literal after : string) :
  contains quote before = false ->
  contains quote literal = false ->
  getFieldName (before +:+ String quote (literal +:+ String quote after))
  = getFieldName (before +:+ after).
Proof.
  intros Hb Hl. unfold getFieldName, cleanDeclaration.
  now rewrite (removeDescriptions_literal _ _ _ Hb Hl),
    (removeDescriptions_prefix _ _ Hb).
Qed.

(** Nor does a comment line at the start. *)
Lemma getFieldName_comment (ws body after : string) :
  forallb isSpace ws = true ->
  forallb (fun c => negb (isLineTerminator c)) body = true ->
  contains quote body = false ->
  getFieldName (ws +:+ String hash (body +:+ String newline after))
  = getFieldName after.
Proof.
  intros Hws Hbody Hq. unfold getFieldName, cleanDeclaration.
  replace (ws +:+ String hash (body +:+ String newline after))
    with ((ws +:+ String hash (body +:+ String newline "")) +:+ after)
    by (rewrite !append_assoc; cbn [append]; now rewrite !append_assoc).
  rewrite removeDescriptions_prefix.
  2:{ rewrite contains_append, (spaces_no_quote ws Hws). cbn [contains orb].
      rewrite contains_append, Hq. reflexivity. }
  replace ((ws +:+ String hash (body +:+ String newline ""))
           +:+ removeDescriptions after)
    with (ws +:+ String hash
                   (body +:+ String newline (removeDescriptions after)))
    by (rewrite !append_assoc; cbn [append]; now rewrite !append_assoc).
  now rewrite (removeComments_line _ _ _ Hws Hbody).
Qed.

(** Solid characters after a solid character are kept, and the scan goes
    on after a solid character. *)
Lemma removeComments_solid_last (s : string) (c : ascii) (tail : string) :
  solid c = true ->
  forallb solid s = true ->
  exists c' : ascii,
    solid c' = true
    /\ replaceAll matchComment (Some c) 0 (s +:+ tail)
       = s +:+ replaceAll matchComment (Some c') 0 tail.
Proof.
  revert c. induction s as [|x s IH]; intros c Hc Hs.
  - exists c. split; [exact Hc | reflexivity].
  - cbn [forallb] in Hs. apply andb_true_iff in Hs as [Hx Hs].
    destruct (IH x Hx Hs) as (c' & Hc' & Htail).
    exists c'. split; [exact Hc' |].
    cbn [append replaceAll]. unfold matchComment at 1. cbn [atLineStart].
    assert (isLineTerminator c = false) as ->.
    { destruct (isLineTerminator c) eqn:E; [|reflexivity].
      apply isLineTerminator_isSpace in E.
      destruct (solid_parts c Hc) as (Hsp & _). congruence. }
    now rewrite Htail.
Qed.

(** White space that something solid follows is not at the end. *)
Lemma trimEnd_kept (gap : string) (c : ascii) (tail : string) :
  isSpace c = false ->
  trimEnd (gap +:+ String c tail) = gap +:+ String c (trimEnd tail).
Proof.
  intros Hc. induction gap as [|g gap IH].
  - cbn [append trimEnd]. rewrite Hc. now destruct (trimEnd tail).
  - cbn [append trimEnd]. rewrite IH.
    now destruct gap.
Qed.

Lemma isSpace_not_delimiter (c : ascii) :
  isSpace c = true -> isFieldDelimiter c = false.
Proof.
  unfold isFieldDelimiter. intros H.
  destruct (Ascii.eqb_spec c "("%char) as [->|]; [discriminate H |].
  destruct (Ascii.eqb_spec c ":"%char) as [->|]; [discriminate H |].
  reflexivity.
Qed.

(** White space between a name and its delimiter stays in what
    [getFieldName] returns. *)
Lemma getFieldName_gap (ws name gap : string) (c : ascii) (rest : string) :
  forallb isSpace ws = true ->
  forallb isNameChar name = true ->
  name <> "" ->
  forallb isSpace gap = true ->
  isFieldDelimiter c = true ->
  getFieldName (ws +:+ name +:+ gap +:+ String c rest) = name +:+ gap.
Proof.
  intros Hws Hname Hne Hgap Hc.
  assert (forallb solid name = true) as Hsolid.
  { apply (forallb_impl isNameChar); [|exact Hname].
    intros x Hx. now apply isNameChar_solid. }
  assert (forallb (fun x => negb (isFieldDelimiter x)) (name +:+ gap) = true)
    as Hfree.
  { rewrite forallb_append. apply andb_true_iff. split.
    - apply (forallb_impl isNameChar); [|exact Hname].
      intros x Hx. apply negb_true_iff. now apply isNameChar_solid.
    - apply (forallb_impl isSpace); [|exact Hgap].
      intros x Hx. apply negb_true_iff. now apply isSpace_not_delimiter. }
  pose proof (isFieldDelimiter_solid c Hc) as Hcs.
  destruct (solid_parts c Hcs) as (Hcsp & _).
  unfold getFieldName, cleanDeclaration.
  replace (ws +:+ name +:+ gap +:+ String c rest)
    with ((ws +:+ name +:+ gap +:+ String c "") +:+ rest)
    by (now rewrite !append_assoc).
  rewrite removeDescriptions_prefix.
  2:{ rewrite !contains_append, (spaces_no_quote ws Hws),
        (solid_no_quote _ Hsolid), (spaces_no_quote gap Hgap).
      cbn [contains orb]. destruct (solid_parts c Hcs) as (_ & Hq & _).
      now rewrite Ascii.eqb_sym, Hq. }
  set (tail := removeDescriptions rest).
  destruct name as [|x s]; [now destruct Hne |].
  cbn [forallb] in Hsolid. apply andb_true_iff in Hsolid as [Hx Hs].
  destruct (solid_parts x Hx) as (Hxsp & _).
  unfold removeComments.
  replace ((ws +:+ String x s +:+ gap +:+ String c "") +:+ tail)
    with (ws +:+ String x (s +:+ (gap +:+ String c tail)))
    by (rewrite !append_assoc; cbn [append]; rewrite ?append_assoc;
        reflexivity).
  rewrite (removeComments_spaces ws x _ None Hws Hx).
  destruct (removeComments_solid_last s x (gap +:+ String c tail) Hx Hs)
    as (c' & Hc' & ->).
  rewrite (removeComments_spaces gap c tail (Some c') Hgap Hcs).
  unfold trim. rewrite (trimStart_spaces ws x _ Hws Hxsp).
  change (String x (s +:+ gap +:+ String c (replaceAll matchComment (Some c) 0 tail)))
    with (String x s +:+ (gap +:+ String c (replaceAll matchComment (Some c) 0 tail))).
  rewrite trimEnd_solid by (cbn [forallb]; now rewrite Hx, Hs).
  rewrite (trimEnd_kept gap c _ Hcsp).
  rewrite <- append_assoc.
  now apply split_name.
Qed.

End FieldNames.

(** X24. The field name that [getFieldName] derives where the delimiter
    follows the name. A name that its "(" or ":" follows at once is derived
    as it stands, whatever white space comes before it; a quoted text, with
    its quotes, and a leading comment line, up to its line feed, do not
    change the derived name. In every case what is derived is the text of
    the cleaned declaration before its first delimiter: it holds neither
    "(" nor ":", and what follows it in the cleaned declaration is nothing
    or starts with one of them; the cleaned declaration has no white space
    at either end. For the declaration ["desc" field(arg: Int): String] the
    field name is [field]. *)
Theorem getFieldName_derivation :
  (forall (ws name : string) (c : ascii) (rest : string),
     JsString.forallb JsString.isSpace ws = true ->
     JsString.forallb isNameChar name = true ->
     isFieldDelimiter c = true ->
     getFieldName (ws +:+ name +:+ String c rest) = name)
  /\ (forall before literal after : string,
        JsString.contains JsString.quote before = false ->
        JsString.contains JsString.quote literal = false ->
        removeDescriptions
          (before +:+ String JsString.quote
                        (literal +:+ String JsString.quote after))
        = before +:+ removeDescriptions after
        /\ getFieldName
             (before +:+ String JsString.quote
                           (literal +:+ String JsString.quote after))
           = getFieldName (before +:+ after))
  /\ (forall ws body after : string,
        JsString.forallb JsString.isSpace ws = true ->
        JsString.forallb (fun c => negb (JsString.isLineTerminator c)) body
        = true ->
        removeComments
          (ws +:+ String JsString.hash
                    (body +:+ String JsString.newline after))
        = removeComments after
        /\ (JsString.contains JsString.quote body = false ->
            getFieldName
              (ws +:+ String JsString.hash
                        (body +:+ String JsString.newline after))
            = getFieldName after))
  /\ (forall declaration : string,
        JsString.forallb (fun c => negb (isFieldDelimiter c))
          (getFieldName declaration) = true
        /\ JsString.startsWithSpace (cleanDeclaration declaration) = false
        /\ JsString.endsWithSpace (cleanDeclaration declaration) = false
        /\ exists rest : string,
             cleanDeclaration declaration = getFieldName declaration +:+ rest
             /\ (rest = ""
                 \/ exists c rest',
                      rest = String c rest' /\ isFieldDelimiter c = true))
  /\ getFieldName
       (String JsString.quote
          ("desc" +:+ String JsString.quote " field(arg: Int): String"))
     = "field".
Proof.
  split; [|split; [|split; [|split]]].
  - exact getFieldName_name.
  - intros before literal after Hb Hl. split.
    + now apply removeDescriptions_literal.
    + now apply getFieldName_description.
  - intros ws body after Hws Hbody. split.
    + now apply removeComments_line.
    + intros Hq. now apply getFieldName_comment.
  - intros declaration. unfold getFieldName.
    destruct (split_first isFieldDelimiter (cleanDeclaration declaration))
      as [Hfree Hrest].
    destruct (trim_ends (removeComments (removeDescriptions declaration)))
      as [Hs He].
    repeat split; assumption.
  - vm_compute. reflexivity.
Qed.

Lemma getFieldName_derivation_witness :
  getFieldName "  hello(name: String): String" = "hello"
  /\ getFieldName
       (String JsString.quote
          ("desc" +:+ String JsString.quote " field(arg: Int): String"))
     = getFieldName " field(arg: Int): String"
  /\ getFieldName
       ("  " +:+ String JsString.hash
                   (" the greeting" +:+ String JsString.newline "hello: String"))
     = getFieldName "hello: String".
Proof.
  destruct getFieldName_derivation as (Hname & Hquoted & Hcomment & _).
  split; [|split].
  - apply (Hname "  " "hello" "("%char "name: String): String");
      reflexivity.
  - apply (Hquoted "" "desc" " field(arg: Int): String"); reflexivity.
  - apply (Hcomment "  " " the greeting" "hello: String"); reflexivity.
Defined.

(** C4. [getFieldName] does not always return the name of the field. It
    trims the declaration before it cuts it at the first "(" or ":", and it
    does not trim the piece that it keeps: where white space stands between
    the name and the delimiter, as in [hello : String] or in
    [hello (name: String): String], what it returns is the name followed
    by that white space. *)
Theorem getFieldName_keeps_white_space :
  (forall (ws name gap : string) (c : ascii) (rest : string),
     JsString.forallb JsString.isSpace ws = true ->
     JsString.forallb isNameChar name = true ->
     name <> "" ->
     JsString.forallb JsString.isSpace gap = true ->
     isFieldDelimiter c = true ->
     getFieldName (ws +:+ name +:+ gap +:+ String c rest) = name +:+ gap)
  /\ getFieldName "hello : String" = "hello "
  /\ getFieldName "hello : String" <> "hello"
  /\ getFieldName "hello (name: String): String" = "hello ".
Proof.
  split; [exact getFieldName_gap |].
  split; [reflexivity | split; [discriminate | reflexivity]].
Qed.

Lemma getFieldName_keeps_white_space_witness :
  getFieldName "  hello : String" = "hello "
  /\ getFieldName ("field" +:+ String JsString.newline "(arg: Int): String")
     = "field" +:+ String JsString.newline "".
Proof.
  destruct getFieldName_keeps_white_space as (Hgap & _).
  split.
  - apply (Hgap "  " "hello" " " ":"%char " String");
      try reflexivity. discriminate.
  - apply (Hgap "" "field" (String JsString.newline "") "("%char
             "arg: Int): String");
      try reflexivity. discriminate.
Defined.

(** ** Objects as association lists *)

Section Objects.

Context {A : Type}.
Implicit Types (k : string) (v : A) (ps : list (string * A)).

Lemma assoc_assign_eq k v ps : assoc k (assign k v ps) = Some v.
Proof.
  induction ps as [|[k' v'] ps IH]; cbn [assign assoc].
  - now rewrite String.eqb_refl.
  - destruct (String.eqb_spec k k') as [->|Hne]; cbn [assoc].
    + now rewrite String.eqb_refl.
    + destruct (String.eqb_spec k k'); [contradiction | exact IH].
Qed.

Lemma assoc_assign_ne k k' v ps :
  k <> k' -> assoc k' (assign k v ps) = assoc k' ps.
Proof.
  intros Hne. induction ps as [|[k2 v2] ps IH]; cbn [assign assoc].
  - destruct (String.eqb_spec k' k); [congruence | reflexivity].
  - destruct (String.eqb_spec k k2) as [->|Hk]; cbn [assoc].
    + destruct (String.eqb_spec k' k2); [congruence | reflexivity].
    + destruct (String.eqb_spec k' k2); [reflexivity | exact IH].
Qed.

Lemma keys_assign k k' v ps :
  In k' (map fst (assign k v ps)) <-> k' = k \/ In k' (map fst ps).
Proof.
  induction ps as [|[k2 v2] ps IH]; cbn [assign map fst In].
  - intuition congruence.
  - destruct (String.eqb_spec k k2) as [->|Hk]; cbn [map fst In].
    + intuition congruence.
    + rewrite IH. intuition congruence.
Qed.

Lemma NoDup_keys_assign k v ps :
  List.NoDup (map fst ps) -> List.NoDup (map fst (assign k v ps)).
Proof.
  induction ps as [|[k2 v2] ps IH]; cbn [assign map fst]; intros Hnd.
  - constructor; [intros [] | constructor].
  - apply NoDup_cons_iff in Hnd as [Hnotin Hnd].
    destruct (String.eqb_spec k k2) as [->|Hk]; cbn [map fst].
    + now constructor.
    + constructor; [|now apply IH].
      rewrite keys_assign. intros [-> | Hin]; [congruence | contradiction].
Qed.

Lemma In_assign k k' v v' ps :
  In (k', v') (assign k v ps) -> (k', v') = (k, v) \/ In (k', v') ps.
Proof.
  induction ps as [|[k2 v2] ps IH]; cbn [assign In].
  - intuition.
  - destruct (String.eqb_spec k k2) as [->|Hk]; cbn [In]; intuition.
Qed.

Lemma assoc_Some_In k v ps : assoc k ps = Some v -> In (k, v) ps.
Proof.
  induction ps as [|[k2 v2] ps IH]; cbn [assoc In]; [discriminate |].
  destruct (String.eqb_spec k k2) as [->|Hk].
  - intros H. injection H as ->. now left.
  - intros H. right. now apply IH.
Qed.

Lemma assoc_None_keys k ps : assoc k ps = None <-> ~ In k (map fst ps).
Proof.
  induction ps as [|[k2 v2] ps IH]; cbn [assoc map fst In]; [tauto |].
  destruct (String.eqb_spec k k2) as [->|Hk].
  - split; [discriminate | intros H; exfalso; apply H; now left].
  - rewrite IH. intuition congruence.
Qed.

Lemma keys_spread (a b : list (string * A)) k :
  In k (map fst (spread a b)) <-> In k (map fst a) \/ In k (map fst b).
Proof.
  unfold spread. revert a.
  induction b as [|[k2 v2] b IH]; intros a; cbn [fold_left map fst In].
  - tauto.
  - rewrite IH, keys_assign. intuition congruence.
Qed.

Lemma NoDup_keys_spread (a b : list (string * A)) :
  List.NoDup (map fst a) -> List.NoDup (map fst (spread a b)).
Proof.
  unfold spread. revert a.
  induction b as [|[k2 v2] b IH]; intros a Hnd; cbn [fold_left].
  - exact Hnd.
  - apply IH. now apply NoDup_keys_assign.
Qed.

Lemma In_spread (a b : list (string * A)) k v :
  In (k, v) (spread a b) -> In (k, v) a \/ In (k, v) b.
Proof.
  unfold spread. revert a.
  induction b as [|[k2 v2] b IH]; intros a; cbn [fold_left In].
  - now left.
  - intros H. apply IH in H as [H | H]; [|now right; right].
    apply In_assign in H as [H | H]; [right; left; congruence | now left].
Qed.

End Objects.

(** ** Loops that a failure ends *)

Section Loops.

Context {S X : Type}.
Variable f : S -> X -> Result S.

Lemma reduce_err (e : JsVal) (l : list X) : reduce f l (Err e) = Err e.
Proof. induction l as [|x l IH]; [reflexivity | exact IH]. Qed.

Lemma reduce_cons (x : X) (l : list X) (s : S) :
  reduce f (x :: l) (Ok s) = reduce f l (f s x).
Proof. reflexivity. Qed.

Lemma reduce_app (a b : list X) (acc : Result S) :
  reduce f (a ++ b) acc = reduce f b (reduce f a acc).
Proof. apply fold_left_app. Qed.

(** A property of the state and of the elements seen holds at the end when
    it holds at the start and each turn keeps it. *)
Lemma reduce_invariant (Inv : list X -> S -> Prop) (l : list X) :
  forall (seen : list X) (s s' : S),
    Inv seen s ->
    (forall seen x s s', Inv seen s -> f s x = Ok s' -> Inv (seen ++ [x]) s') ->
    reduce f l (Ok s) = Ok s' ->
    Inv (seen ++ l) s'.
Proof.
  induction l as [|x l IH]; intros seen s s' Hinv Hstep Hloop.
  - injection Hloop as <-. now rewrite app_nil_r.
  - rewrite reduce_cons in Hloop. destruct (f s x) as [s1|e] eqn:E.
    + replace (seen ++ x :: l) with ((seen ++ [x]) ++ l)
        by now rewrite <- app_assoc.
      apply (IH _ s1); [eapply Hstep; eassumption | exact Hstep | exact Hloop].
    + rewrite reduce_err in Hloop. discriminate.
Qed.

Lemma reduce_total (l : list X) :
  (forall s x, In x l -> exists s', f s x = Ok s') ->
  forall s, exists s', reduce f l (Ok s) = Ok s'.
Proof.
  induction l as [|x l IH]; intros Hstep s.
  - now exists s.
  - destruct (Hstep s x (or_introl eq_refl)) as [s1 E].
    rewrite reduce_cons, E.
    apply IH. intros s2 y Hy. apply Hstep. now right.
Qed.

End Loops.

(** ** Services of the same name *)

Section Dedup.

Context {host : Host}.

Lemma eachService_processed (pass pass' : Pass) (s : Service.t) :
  eachService pass s = Ok pass' ->
  forall n : string,
    n ∈ processedServices pass' <->
    n ∈ processedServices pass \/ n = getServiceName s.
Proof.
  unfold eachService. case_bool_decide as Hin.
  - intros H n. injection H as <-.
    split; [now left | intros [H | ->]; assumption].
  - destruct (compileService s (lists pass) (resolvers pass)) as [[l r]|e];
      [|discriminate].
    cbn [bind]. intros H n. injection H as <-.
    cbn [processedServices]. rewrite elem_of_union, elem_of_singleton. tauto.
Qed.

(** The set of a pass holds the names of the services that the loop has
    seen. *)
Lemma collectFrom_processed (services : list Service.t) (pass pass' : Pass) :
  collectFrom (Ok pass) services = Ok pass' ->
  forall n : string,
    n ∈ processedServices pass' <->
    n ∈ processedServices pass \/ In n (map getServiceName services).
Proof.
  intros H.
  apply (reduce_invariant eachService
           (fun seen p =>
              forall n, n ∈ processedServices p <->
                        n ∈ processedServices pass
                        \/ In n (map getServiceName seen))
           services [] pass pass'); [| |exact H].
  - intros n. cbn [map In]. tauto.
  - intros seen s p p' Hinv E n.
    rewrite (eachService_processed _ _ _ E n), (Hinv n), map_app, in_app_iff.
    cbn [map In]. intuition congruence.
Qed.

Lemma collect_processed (services : list Service.t) (pass : Pass) :
  collect services = Ok pass ->
  forall n : string,
    n ∈ processedServices pass <-> In n (map getServiceName services).
Proof.
  intros H n.
  rewrite (collectFrom_processed services _ _ H n).
  cbn [startOfPass processedServices]. rewrite elem_of_empty. tauto.
Qed.

Lemma collect_later (a b : list Service.t) (s : Service.t) :
  In (getServiceName s) (map getServiceName a) ->
  collect (a ++ s :: b) = collect (a ++ b).
Proof.
  intros Hin.
  unfold collect.
  unfold collectFrom. rewrite !reduce_app.
  destruct (reduce eachService a (Ok startOfPass))
    as [pass|e] eqn:E.
  - rewrite reduce_cons.
    apply (collect_processed a pass E) in Hin.
    unfold eachService at 2. rewrite bool_decide_eq_true_2 by exact Hin.
    reflexivity.
  - now rewrite !reduce_err.
Qed.

Lemma collect_first (a : list Service.t) (s : Service.t) :
  ~ In (getServiceName s) (map getServiceName a) ->
  collect (a ++ [s])
  = bind (collect a) (fun pass =>
      bind (compileService s (lists pass) (resolvers pass))
        (fun '(l, r) =>
           Ok {| lists := l; resolvers := r;
                 processedServices :=
                   {[getServiceName s]} ∪ processedServices pass |})).
Proof.
  intros Hnew.
  unfold collect.
  unfold collectFrom. rewrite reduce_app.
  destruct (reduce eachService a (Ok startOfPass))
    as [pass|e] eqn:E; [|reflexivity].
  rewrite reduce_cons. cbn [reduce fold_left]. unfold eachService.
  rewrite bool_decide_eq_false_2; [reflexivity |].
  intros Hin. apply Hnew. now apply (collect_processed a pass E).
Qed.

End Dedup.

(** ** What a pass keeps *)

Section Contributions.

Context {host : Host}.

Lemma grows_refl (l : Lists) (r : ResolverMap) : grows l r l r.
Proof. split; [intros which; apply incl_refl | auto]. Qed.

Lemma grows_trans (l1 l2 l3 : Lists) (r1 r2 r3 : ResolverMap) :
  grows l1 r1 l2 r2 -> grows l2 r2 l3 r3 -> grows l1 r1 l3 r3.
Proof.
  intros [Hl Hr] [Hl' Hr']. split.
  - intros which. eapply incl_tran; [apply Hl | apply Hl'].
  - auto.
Qed.

Lemma concatTo_keeps (which which' : ListName) (more : list string)
    (l : Lists) :
  incl (listOf which' l) (listOf which' (concatTo which more l)).
Proof.
  destruct which, which'; cbn [listOf concatTo queries mutations subscriptions
    types interfaces unions enums inputs];
    (apply incl_refl || apply incl_appl, incl_refl).
Qed.

Lemma concatTo_adds (which : ListName) (more : list string) (l : Lists) :
  incl more (listOf which (concatTo which more l)).
Proof.
  destruct which; cbn [listOf concatTo queries mutations subscriptions
    types interfaces unions enums inputs];
    apply incl_appr, incl_refl.
Qed.

Lemma concatGiven_keeps (which which' : ListName) (f : Fragments)
    (l : Lists) :
  incl (listOf which' l) (listOf which' (concatGiven which f l)).
Proof.
  unfold concatGiven. destruct (given f);
    [apply concatTo_keeps | apply incl_refl].
Qed.

Lemma concatGiven_adds (which : ListName) (def : GraphqlDef.t) (l : Lists) :
  incl (declared which def)
    (listOf which (concatGiven which (fragmentOf which def) l)).
Proof.
  unfold concatGiven, declared. destruct (given (fragmentOf which def)).
  - apply concatTo_adds.
  - intros x [].
Qed.

(** *** The entries of a resolver map *)

Lemma hasField_iff (type field : string) (r : ResolverMap) :
  hasField type field r = true <->
  exists fields, assoc type r = Some fields /\ In field (map fst fields).
Proof.
  unfold hasField. destruct (assoc type r) as [fields|].
  - destruct (assoc field fields) as [x|] eqn:E.
    + split; [|reflexivity]. intros _. exists fields. split; [reflexivity |].
      apply assoc_Some_In in E. now apply (in_map fst) in E.
    + split; [discriminate |]. intros (fields' & H & Hin).
      injection H as <-. now apply assoc_None_keys in E.
  - split; [discriminate | intros (fields & H & _); discriminate H].
Qed.

Lemma hasField_assign_same (type field : string)
    (fields : list (string * Resolver)) (r : ResolverMap) :
  In field (map fst fields) -> hasField type field (assign type fields r) = true.
Proof.
  intros Hin. apply hasField_iff. exists fields.
  split; [apply assoc_assign_eq | exact Hin].
Qed.

Lemma hasField_assign_keeps (type type' field : string)
    (fields : list (string * Resolver)) (r : ResolverMap) :
  (forall old,
     assoc type r = Some old ->
     forall f, In f (map fst old) -> In f (map fst fields)) ->
  hasField type' field r = true ->
  hasField type' field (assign type fields r) = true.
Proof.
  intros Hkeeps H. apply hasField_iff in H as (fields' & Hsome & Hin).
  apply hasField_iff. destruct (String.eqb_spec type type') as [->|Hne].
  - exists fields. split; [apply assoc_assign_eq |].
    now apply (Hkeeps fields' Hsome).
  - exists fields'. split; [now rewrite assoc_assign_ne | exact Hin].
Qed.

Lemma mergeFields_keys (dest src : list (string * Resolver)) (f : string) :
  In f (map fst (mergeFields dest src)) <->
  In f (map fst dest) \/ In f (map fst src).
Proof.
  unfold mergeFields. revert dest.
  induction src as [|[k v] src IH]; intros dest; cbn [fold_left map fst In].
  - tauto.
  - rewrite IH.
    destruct (assoc k dest); rewrite keys_assign; intuition congruence.
Qed.

Lemma mergeType_keeps (acc : ResolverMap) (name : string)
    (fields : list (string * Resolver)) (type field : string) :
  hasField type field acc = true ->
  hasField type field (mergeType acc name fields) = true.
Proof.
  unfold mergeType. apply hasField_assign_keeps.
  intros old -> f Hin. apply mergeFields_keys. now left.
Qed.

Lemma mergeType_adds (acc : ResolverMap) (name : string)
    (fields : list (string * Resolver)) (field : string) :
  In field (map fst fields) ->
  hasField name field (mergeType acc name fields) = true.
Proof.
  intros Hin. unfold mergeType. apply hasField_assign_same.
  apply mergeFields_keys. now right.
Qed.

Lemma mergeResolvers_keeps (src dest : ResolverMap) (type field : string) :
  hasField type field dest = true ->
  hasField type field (mergeResolvers dest src) = true.
Proof.
  unfold mergeResolvers. revert dest.
  induction src as [|[name fields] src IH]; intros dest H; [exact H |].
  cbn [fold_left]. apply IH. now apply mergeType_keeps.
Qed.

Lemma mergeResolvers_adds (src dest : ResolverMap) (type field : string) :
  hasField type field src = true ->
  hasField type field (mergeResolvers dest src) = true.
Proof.
  unfold mergeResolvers. revert dest.
  induction src as [|[name fields] src IH]; intros dest H; [discriminate H |].
  cbn [fold_left]. unfold hasField in H. cbn [assoc] in H.
  destruct (String.eqb_spec type name) as [->|Hne].
  - apply mergeResolvers_keeps. apply mergeType_adds.
    destruct (assoc field fields) as [x|] eqn:E; [|discriminate H].
    apply assoc_Some_In in E. now apply (in_map fst) in E.
  - apply IH. exact H.
Qed.

Lemma setField_keeps (type name : string) (x : Resolver) (r : ResolverMap)
    (type' field : string) :
  hasField type' field r = true ->
  hasField type' field (setField type name x r) = true.
Proof.
  unfold setField. apply hasField_assign_keeps.
  intros old -> f Hin. apply keys_assign. now right.
Qed.

Lemma setField_adds (type name : string) (x : Resolver) (r : ResolverMap) :
  hasField type name (setField type name x r) = true.
Proof.
  unfold setField. apply hasField_assign_same. apply keys_assign. now left.
Qed.

Lemma ensureType_keeps (type : string) (r : ResolverMap)
    (type' field : string) :
  hasField type' field r = true ->
  hasField type' field (ensureType type r) = true.
Proof.
  unfold ensureType. destruct (assoc type r) eqn:E; [auto |].
  apply hasField_assign_keeps. intros old H. congruence.
Qed.

Lemma createServiceResolvers_keys (serviceName : string)
    (decls : list (string * ResolverDecl)) (field : string) :
  In field (map fst decls) ->
  In field (map fst (createServiceResolvers serviceName decls)).
Proof.
  unfold createServiceResolvers.
  assert (forall acc : list (string * Resolver),
            In field (map fst acc) \/ In field (map fst decls) ->
            In field
              (map fst
                 (fold_left
                    (fun acc '(name, r) =>
                       match r with
                       | DeclObject (Some action) def =>
                           assign name
                             (createActionResolver
                                (getResolverActionName serviceName action) def)
                             acc
                       | _ => assign name (Passthrough r) acc
                       end)
                    decls acc))) as H.
  { induction decls as [|[name r] decls IH]; intros acc Hin.
    - destruct Hin as [Hin | []]. exact Hin.
    - cbn [fold_left]. apply IH. cbn [map fst In] in Hin.
      assert (forall x : Resolver,
                In field (map fst (assign name x acc))
                \/ In field (map fst decls)) as Hx.
      { intros x. rewrite keys_assign. intuition congruence. }
      destruct r as [[action|] def|value]; apply Hx. }
  intros Hin. apply H. now right.
Qed.

(** *** The steps of a pass *)

Lemma compileCall_grows (which : ListName) (type actionName : string)
    (l : Lists) (r : ResolverMap) (d : string) :
  grows l r (fst (compileCall which type actionName (l, r) d))
    (snd (compileCall which type actionName (l, r) d)).
Proof.
  split.
  - intros w. apply concatTo_keeps.
  - intros t f. apply setField_keeps.
Qed.

Lemma compileCall_fold (which : ListName) (type actionName : string)
    (ds : list string) :
  forall (l : Lists) (r : ResolverMap),
    grows l r
      (fst (fold_left (compileCall which type actionName) ds (l, r)))
      (snd (fold_left (compileCall which type actionName) ds (l, r)))
    /\ forall d,
         In d ds ->
         In d (listOf which
                 (fst (fold_left (compileCall which type actionName) ds
                         (l, r))))
         /\ hasField type (getFieldName d)
              (snd (fold_left (compileCall which type actionName) ds (l, r)))
            = true.
Proof.
  induction ds as [|d ds IH]; intros l r.
  - split; [apply grows_refl | intros d []].
  - cbn [fold_left].
    pose proof (compileCall_grows which type actionName l r d) as Hstep.
    destruct (compileCall which type actionName (l, r) d) as [l1 r1] eqn:E.
    cbn [fst snd] in Hstep.
    destruct (IH l1 r1) as [[Hl Hr] Hin].
    split; [eapply grows_trans; [exact Hstep | now split] |].
    intros d' [<- | Hd']; [|now apply Hin].
    unfold compileCall in E. cbn [fst snd] in E. injection E as <- <-.
    split.
    + apply Hl. apply concatTo_adds. now left.
    + apply Hr. apply setField_adds.
Qed.

Lemma compileCalls_grows (which : ListName) (type actionName : string)
    (declarations : Fragments) (l : Lists) (r : ResolverMap) :
  grows l r (fst (compileCalls which type actionName declarations (l, r)))
    (snd (compileCalls which type actionName declarations (l, r)))
  /\ forall d,
       In d (if given declarations then castArray declarations else []) ->
       In d (listOf which
               (fst (compileCalls which type actionName declarations (l, r))))
       /\ hasField type (getFieldName d)
            (snd (compileCalls which type actionName declarations (l, r)))
          = true.
Proof.
  unfold compileCalls. destruct (given declarations); cbn [fst snd];
    [|split; [apply grows_refl | intros d []]].
  destruct (compileCall_fold which type actionName (castArray declarations)
              l (ensureType type r)) as [Hgrows Hin].
  split; [|exact Hin].
  eapply grows_trans; [|exact Hgrows].
  split; [intros w; apply incl_refl | apply ensureType_keeps].
Qed.

Lemma compileSubscription_grows (actionName : string) (def : GraphqlDef.t)
    (l l' : Lists) (r r' : ResolverMap) (d : string) :
  compileSubscription actionName def (l, r) d = Ok (l', r') ->
  grows l r l' r'
  /\ In d (subscriptions l')
  /\ hasField "Subscription" (getFieldName d) r' = true.
Proof.
  unfold compileSubscription. cbn [fst snd].
  destruct (createAsyncIteratorResolver actionName _ _) as [x|e];
    [|discriminate].
  cbn [bind]. intros H. injection H as <- <-. split; [split |split].
  - intros w. apply (concatTo_keeps Subscriptions w [d] l).
  - intros t f. apply setField_keeps.
  - apply (concatTo_adds Subscriptions [d] l). now left.
  - apply setField_adds.
Qed.

Lemma compileSubscriptions_grows (actionName : string) (def : GraphqlDef.t)
    (l l' : Lists) (r r' : ResolverMap) :
  compileSubscriptions actionName def (l, r) = Ok (l', r') ->
  grows l r l' r'
  /\ forall d,
       In d (declared Subscriptions def) ->
       In d (subscriptions l')
       /\ hasField "Subscription" (getFieldName d) r' = true.
Proof.
  unfold compileSubscriptions, declared. cbn [fragmentOf fst snd].
  destruct (given (GraphqlDef.subscription def)).
  - intros H.
    pose proof (reduce_invariant (compileSubscription actionName def)
                  (fun seen st =>
                     grows l r (fst st) (snd st)
                     /\ forall d,
                          In d seen ->
                          In d (subscriptions (fst st))
                          /\ hasField "Subscription" (getFieldName d) (snd st)
                             = true)
                  (castArray (GraphqlDef.subscription def)) []
                  (l, ensureType "Subscription" r) (l', r')) as Hinv.
    cbn [fst snd app] in Hinv. apply Hinv; [| |exact H].
    + split; [|intros d []].
      split; [intros w; apply incl_refl | apply ensureType_keeps].
    + intros seen d [l1 r1] [l2 r2] [Hgrows Hseen] Hstep. cbn [fst snd] in *.
      destruct (compileSubscription_grows _ _ _ _ _ _ _ Hstep)
        as ([Hl Hr] & Hd & Hf).
      split; [eapply grows_trans; [exact Hgrows | now split] |].
      intros d' Hin. apply in_app_iff in Hin as [Hin | [<- | []]].
      * destruct (Hseen d' Hin) as [Hd' Hf']. split.
        -- now apply (Hl Subscriptions).
        -- now apply Hr.
      * now split.
  - intros H. injection H as <- <-. split; [apply grows_refl | intros d []].
Qed.

Lemma compileAction_grows (action : Action.t) (l l' : Lists)
    (r r' : ResolverMap) :
  compileAction (l, r) action = Ok (l', r') ->
  grows l r l' r'
  /\ match Action.graphql action with
     | Some def =>
         (forall which, incl (declared which def) (listOf which l'))
         /\ (forall type field,
               In (type, field)
                  (fieldsOf "Query" (declared Queries def)
                   ++ fieldsOf "Mutation" (declared Mutations def)
                   ++ fieldsOf "Subscription" (declared Subscriptions def)) ->
               hasField type field r' = true)
     | None => True
     end.
Proof.
  unfold compileAction. destruct (Action.graphql action) as [def|];
    [|intros H; injection H as <- <-; split; [apply grows_refl | exact I]].
  destruct (compileCalls_grows Queries "Query" (Action.name action)
              (GraphqlDef.query def) l r) as [Hg1 Hq].
  destruct (compileCalls Queries "Query" (Action.name action)
              (GraphqlDef.query def) (l, r)) as [l1 r1].
  destruct (compileCalls_grows Mutations "Mutation" (Action.name action)
              (GraphqlDef.mutation def) l1 r1) as [Hg2 Hm].
  destruct (compileCalls Mutations "Mutation" (Action.name action)
              (GraphqlDef.mutation def) (l1, r1)) as [l2 r2].
  cbn [fst snd] in *.
  destruct (compileSubscriptions (Action.name action) def (l2, r2))
    as [[l3 r3]|e] eqn:Esub; [|discriminate].
  destruct (compileSubscriptions_grows _ _ _ _ _ _ Esub) as [Hg3 Hs].
  cbn [bind]. intros H. injection H as <- <-.
  set (l4 := concatGiven Types (GraphqlDef.type def) l3).
  set (l5 := concatGiven Interfaces (GraphqlDef.interface def) l4).
  set (l6 := concatGiven Unions (GraphqlDef.union def) l5).
  set (l7 := concatGiven Enums (GraphqlDef.enum def) l6).
  set (l8 := concatGiven Inputs (GraphqlDef.input def) l7).
  assert (forall w, incl (listOf w l3) (listOf w l4)) as H34
    by (intros w; apply concatGiven_keeps).
  assert (forall w, incl (listOf w l4) (listOf w l5)) as H45
    by (intros w; apply concatGiven_keeps).
  assert (forall w, incl (listOf w l5) (listOf w l6)) as H56
    by (intros w; apply concatGiven_keeps).
  assert (forall w, incl (listOf w l6) (listOf w l7)) as H67
    by (intros w; apply concatGiven_keeps).
  assert (forall w, incl (listOf w l7) (listOf w l8)) as H78
    by (intros w; apply concatGiven_keeps).
  assert (grows l r l3 r3) as [Hl Hr].
  { eapply grows_trans; [exact Hg1 |].
    eapply grows_trans; [exact Hg2 | exact Hg3]. }
  split; [|split].
  - split; [|exact Hr].
    intros w x Hx. apply H78, H67, H56, H45, H34, Hl, Hx.
  - intros which d Hd. destruct which.
    + apply H78, H67, H56, H45, H34. apply (proj1 Hg3 Queries).
      apply (proj1 Hg2 Queries). now apply Hq.
    + apply H78, H67, H56, H45, H34. apply (proj1 Hg3 Mutations).
      now apply Hm.
    + apply H78, H67, H56, H45, H34. now apply Hs.
    + apply H78, H67, H56, H45. now apply (concatGiven_adds Types def l3).
    + apply H78, H67, H56.
      now apply (concatGiven_adds Interfaces def l4).
    + apply H78, H67. now apply (concatGiven_adds Unions def l5).
    + apply H78. now apply (concatGiven_adds Enums def l6).
    + now apply (concatGiven_adds Inputs def l7).
  - intros type field Hin. unfold fieldsOf in Hin.
    rewrite !in_app_iff, !in_map_iff in Hin.
    destruct Hin as [(d & E & Hd) | [(d & E & Hd) | (d & E & Hd)]];
      injection E as <- <-.
    + apply (proj2 Hg3). apply (proj2 Hg2). now apply Hq.
    + apply (proj2 Hg3). now apply Hm.
    + now apply Hs.
Qed.

Lemma actions_grows (actions : list Action.t) (l l' : Lists)
    (r r' : ResolverMap) :
  reduce compileAction actions (Ok (l, r)) = Ok (l', r') ->
  grows l r l' r'
  /\ forall action def,
       In action actions ->
       Action.graphql action = Some def ->
       (forall which, incl (declared which def) (listOf which l'))
       /\ (forall type field,
             In (type, field)
                (fieldsOf "Query" (declared Queries def)
                 ++ fieldsOf "Mutation" (declared Mutations def)
                 ++ fieldsOf "Subscription" (declared Subscriptions def)) ->
             hasField type field r' = true).
Proof.
  intros H.
  pose proof (reduce_invariant compileAction
                (fun seen st =>
                   grows l r (fst st) (snd st)
                   /\ forall action def,
                        In action seen ->
                        Action.graphql action = Some def ->
                        (forall which,
                           incl (declared which def) (listOf which (fst st)))
                        /\ (forall type field,
                              In (type, field)
                                 (fieldsOf "Query" (declared Queries def)
                                  ++ fieldsOf "Mutation"
                                       (declared Mutations def)
                                  ++ fieldsOf "Subscription"
                                       (declared Subscriptions def)) ->
                              hasField type field (snd st) = true))
                actions [] (l, r) (l', r')) as Hinv.
  cbn [fst snd app] in Hinv. apply Hinv; [| |exact H]; clear Hinv H.
  - split; [apply grows_refl | intros action def []].
  - intros seen action [l1 r1] [l2 r2] [Hgrows Hseen] Hstep.
    cbn [fst snd] in *.
    destruct (compileAction_grows _ _ _ _ _ Hstep) as [[Hl Hr] Hnew].
    split; [eapply grows_trans; [exact Hgrows | now split] |].
    intros action' def Hin Hdef.
    apply in_app_iff in Hin as [Hin | [<- | []]].
    + destruct (Hseen action' def Hin Hdef) as [Hfr Hfi]. split.
      * intros which x Hx. apply Hl. now apply (Hfr which).
      * intros type field Hf. apply Hr. now apply Hfi.
    + rewrite Hdef in Hnew. exact Hnew.
Qed.

Lemma globalResolvers_grows (serviceName : string)
    (declared : list (string * list (string * ResolverDecl))) :
  forall r : ResolverMap,
    (forall type field,
       hasField type field r = true ->
       hasField type field
         (fold_left
            (fun acc '(name, resolver) =>
               mergeType acc name
                 (createServiceResolvers serviceName resolver))
            declared r) = true)
    /\ forall entry field,
         In entry declared ->
         In field (snd entry) ->
         hasField (fst entry) (fst field)
           (fold_left
              (fun acc '(name, resolver) =>
                 mergeType acc name
                   (createServiceResolvers serviceName resolver))
              declared r) = true.
Proof.
  induction declared as [|[name fields] rest IH]; intros r.
  - split; [auto | intros entry field []].
  - cbn [fold_left].
    destruct (IH (mergeType r name
                    (createServiceResolvers serviceName fields)))
      as [Hkeeps Hadds].
    split.
    + intros type field H. apply Hkeeps. now apply mergeType_keeps.
    + intros entry field [<- | Hin] Hfield; [|now apply Hadds].
      cbn [fst snd] in *. apply Hkeeps. apply mergeType_adds.
      apply createServiceResolvers_keys. now apply in_map.
Qed.

Lemma compileGlobal_grows (serviceName : string) (globalDef : GraphqlDef.t)
    (l : Lists) (r : ResolverMap) :
  grows l r (fst (compileGlobal serviceName globalDef l r))
    (snd (compileGlobal serviceName globalDef l r))
  /\ (forall which,
        incl (declared which globalDef)
          (listOf which (fst (compileGlobal serviceName globalDef l r))))
  /\ forall resolvers entry field,
       GraphqlDef.resolvers globalDef = Some resolvers ->
       In entry resolvers ->
       In field (snd entry) ->
       hasField (fst entry) (fst field)
         (snd (compileGlobal serviceName globalDef l r)) = true.
Proof.
  unfold compileGlobal.
  set (l1 := concatGiven Queries (GraphqlDef.query globalDef) l).
  set (l2 := concatGiven Mutations (GraphqlDef.mutation globalDef) l1).
  set (l3 := concatGiven Subscriptions (GraphqlDef.subscription globalDef) l2).
  set (l4 := concatGiven Types (GraphqlDef.type globalDef) l3).
  set (l5 := concatGiven Interfaces (GraphqlDef.interface globalDef) l4).
  set (l6 := concatGiven Unions (GraphqlDef.union globalDef) l5).
  set (l7 := concatGiven Enums (GraphqlDef.enum globalDef) l6).
  set (l8 := concatGiven Inputs (GraphqlDef.input globalDef) l7).
  assert (forall w, incl (listOf w l) (listOf w l1)) as H01
    by (intros w; apply concatGiven_keeps).
  assert (forall w, incl (listOf w l1) (listOf w l2)) as H12
    by (intros w; apply concatGiven_keeps).
  assert (forall w, incl (listOf w l2) (listOf w l3)) as H23
    by (intros w; apply concatGiven_keeps).
  assert (forall w, incl (listOf w l3) (listOf w l4)) as H34
    by (intros w; apply concatGiven_keeps).
  assert (forall w, incl (listOf w l4) (listOf w l5)) as H45
    by (intros w; apply concatGiven_keeps).
  assert (forall w, incl (listOf w l5) (listOf w l6)) as H56
    by (intros w; apply concatGiven_keeps).
  assert (forall w, incl (listOf w l6) (listOf w l7)) as H67
    by (intros w; apply concatGiven_keeps).
  assert (forall w, incl (listOf w l7) (listOf w l8)) as H78
    by (intros w; apply concatGiven_keeps).
  assert (forall which, incl (declared which globalDef) (listOf which l8))
    as Hdeclared.
  { intros which d Hd. destruct which.
    - apply H78, H67, H56, H45, H34, H23, H12.
      now apply (concatGiven_adds Queries globalDef l).
    - apply H78, H67, H56, H45, H34, H23.
      now apply (concatGiven_adds Mutations globalDef l1).
    - apply H78, H67, H56, H45, H34.
      now apply (concatGiven_adds Subscriptions globalDef l2).
    - apply H78, H67, H56, H45.
      now apply (concatGiven_adds Types globalDef l3).
    - apply H78, H67, H56.
      now apply (concatGiven_adds Interfaces globalDef l4).
    - apply H78, H67. now apply (concatGiven_adds Unions globalDef l5).
    - apply H78. now apply (concatGiven_adds Enums globalDef l6).
    - now apply (concatGiven_adds Inputs globalDef l7). }
  assert (forall w, incl (listOf w l) (listOf w l8)) as Hlists.
  { intros w x Hx. apply H78, H67, H56, H45, H34, H23, H12, H01, Hx. }
  destruct (GraphqlDef.resolvers globalDef) as [declared|]; cbn [fst snd].
  - destruct (globalResolvers_grows serviceName declared r) as [Hkeeps Hadds].
    split; [now split | split; [exact Hdeclared |]].
    intros resolvers entry field H. injection H as <-. apply Hadds.
  - split; [split; [exact Hlists | auto] | split; [exact Hdeclared |]].
    intros resolvers entry field H. discriminate H.
Qed.

Lemma hasField_nil (type field : string) : hasField type field [] = false.
Proof. reflexivity. Qed.

Lemma compileService_grows (service : Service.t) (l l' : Lists)
    (r r' : ResolverMap) :
  compileService service l r = Ok (l', r') ->
  grows l r l' r'
  /\ (forall which, incl (declaredFragments which service) (listOf which l'))
  /\ forall type field,
       In (type, field) (declaredFields service) ->
       hasField type field r' = true.
Proof.
  unfold compileService, declaredFragments, declaredFields.
  assert (exists l1 r1,
            match Service.graphql service with
            | Some globalDef =>
                compileGlobal (getServiceName service) globalDef l r
            | None => (l, r)
            end = (l1, r1)
            /\ grows l r l1 r1
            /\ (forall which,
                  incl match Service.graphql service with
                       | Some globalDef => declared which globalDef
                       | None => []
                       end (listOf which l1))
            /\ forall type field,
                 In (type, field)
                    match Service.graphql service with
                    | Some globalDef =>
                        match GraphqlDef.resolvers globalDef with
                        | Some resolvers =>
                            flat_map
                              (fun entry =>
                                 map (fun field => (fst entry, fst field))
                                   (snd entry))
                              resolvers
                        | None => []
                        end
                    | None => []
                    end ->
                 hasField type field r1 = true)
    as (l1 & r1 & -> & Hg1 & Hfr1 & Hfi1).
  { destruct (Service.graphql service) as [globalDef|].
    - destruct (compileGlobal_grows (getServiceName service) globalDef l r)
        as (Hg & Hfr & Hfi).
      destruct (compileGlobal _ globalDef l r) as [l1 r1].
      exists l1, r1. cbn [fst snd] in *.
      split; [reflexivity | split; [exact Hg | split; [exact Hfr |]]].
      intros type field Hin.
      destruct (GraphqlDef.resolvers globalDef) as [resolvers|];
        [|destruct Hin].
      apply in_flat_map in Hin as (entry & Hentry & Hin).
      apply in_map_iff in Hin as (f & E & Hf). injection E as <- <-.
      now apply (Hfi resolvers).
    - exists l, r. split; [reflexivity | split; [apply grows_refl |]].
      split; [intros which x [] | intros type field []]. }
  destruct (reduce compileAction (Service.actions service) (Ok (l1, [])))
    as [[l2 resolver]|e] eqn:Eactions; [|discriminate].
  destruct (actions_grows _ _ _ _ _ Eactions) as [[Hl2 _] Hactions].
  cbn [bind].
  assert (forall type field,
            hasField type field r1 = true ->
            hasField type field
              (if nonEmpty resolver then mergeResolvers r1 resolver else r1)
            = true) as Hkeeps.
  { intros type field H. destruct (nonEmpty resolver); [|exact H].
    now apply mergeResolvers_keeps. }
  assert (forall type field,
            hasField type field resolver = true ->
            hasField type field
              (if nonEmpty resolver then mergeResolvers r1 resolver else r1)
            = true) as Hadds.
  { intros type field H. destruct resolver as [|entry rest];
      [discriminate H |].
    cbn [nonEmpty length Nat.ltb Nat.leb]. now apply mergeResolvers_adds. }
  intros H.
  assert (l' = l2
          /\ r' = if nonEmpty resolver then mergeResolvers r1 resolver
                  else r1) as [-> ->].
  { destruct (nonEmpty resolver); injection H as <- <-; now split. }
  clear H. destruct Hg1 as [Hl1 Hr1]. split; [split |split].
  - intros w x Hx. apply Hl2, Hl1, Hx.
  - intros type field H. now apply Hkeeps, Hr1.
  - intros which x Hx. apply in_app_iff in Hx as [Hx | Hx].
    + apply Hl2. now apply (Hfr1 which).
    + apply in_flat_map in Hx as (action & Haction & Hx).
      destruct (Action.graphql action) as [def|] eqn:Edef; [|destruct Hx].
      now apply (proj1 (Hactions action def Haction Edef) which).
  - intros type field Hin. apply in_app_iff in Hin as [Hin | Hin].
    + now apply Hkeeps, Hfi1.
    + apply in_flat_map in Hin as (action & Haction & Hin).
      destruct (Action.graphql action) as [def|] eqn:Edef; [|destruct Hin].
      apply Hadds.
      now apply (proj2 (Hactions action def Haction Edef)).
Qed.

Lemma eachService_grows (pass pass' : Pass) (service : Service.t) :
  eachService pass service = Ok pass' ->
  grows (lists pass) (resolvers pass) (lists pass') (resolvers pass').
Proof.
  unfold eachService. case_bool_decide as Hseen.
  - intros H. injection H as <-. apply grows_refl.
  - destruct (compileService service (lists pass) (resolvers pass))
      as [[l r]|e] eqn:E; [|discriminate].
    cbn [bind]. intros H. injection H as <-. cbn [lists resolvers].
    now destruct (compileService_grows _ _ _ _ _ E).
Qed.

Lemma collectFrom_grows (services : list Service.t) (pass pass' : Pass) :
  collectFrom (Ok pass) services = Ok pass' ->
  grows (lists pass) (resolvers pass) (lists pass') (resolvers pass').
Proof.
  intros H.
  apply (reduce_invariant eachService
           (fun _ p =>
              grows (lists pass) (resolvers pass) (lists p) (resolvers p))
           services [] pass pass'); [apply grows_refl | |exact H].
  intros seen s p p' Hgrows E.
  eapply grows_trans; [exact Hgrows | now apply (eachService_grows _ _ s)].
Qed.

(** What a service with a new name declares is in the lists and in the
    resolver map at the end of the pass. *)
Lemma collect_contributes (a b : list Service.t) (s : Service.t)
    (pass : Pass) :
  ~ In (getServiceName s) (map getServiceName a) ->
  collect (a ++ s :: b) = Ok pass ->
  (forall which,
     incl (declaredFragments which s) (listOf which (lists pass)))
  /\ forall type field,
       In (type, field) (declaredFields s) ->
       hasField type field (resolvers pass) = true.
Proof.
  intros Hnew. unfold collect, collectFrom. rewrite reduce_app.
  destruct (reduce eachService a (Ok startOfPass)) as [pa|e] eqn:Ea;
    [|now rewrite reduce_err].
  rewrite reduce_cons.
  destruct (eachService pa s) as [ps|e] eqn:Es; [|now rewrite reduce_err].
  intros Hb. apply collectFrom_grows in Hb as [Hl Hr].
  unfold eachService in Es.
  rewrite bool_decide_eq_false_2 in Es.
  - destruct (compileService s (lists pa) (resolvers pa)) as [[l r]|e] eqn:E;
      [|discriminate Es].
    cbn [bind] in Es. injection Es as <-. cbn [lists resolvers] in *.
    destruct (compileService_grows _ _ _ _ _ E) as (_ & Hfr & Hfi).
    split.
    + intros which x Hx. apply Hl. now apply (Hfr which).
    + intros type field Hin. apply Hr. now apply Hfi.
  - intros Hin. apply Hnew. now apply (collect_processed a pa Ea).
Qed.

End Contributions.

(** C2. In a service list, a descriptor whose composed name is the name of
    an earlier descriptor contributes nothing to a composition pass: the
    pass, and the schema it builds, are those of the list without it. A
    descriptor whose name is new is processed: the pass continues with what
    [compileService] adds for it, and at the end of the pass the lists hold
    the fragments that it declares and the resolver map has an entry for
    each field for which it declares a resolver. *)
Theorem same_name_first_wins {host : Host} :
  forall (a b : list Service.t) (s : Service.t),
    (In (getServiceName s) (map getServiceName a) ->
     collect (a ++ s :: b) = collect (a ++ b)
     /\ generateGraphQLSchema (a ++ s :: b) = generateGraphQLSchema (a ++ b))
    /\ (~ In (getServiceName s) (map getServiceName a) ->
        collect (a ++ [s])
        = bind (collect a) (fun pass =>
            bind (compileService s (lists pass) (resolvers pass))
              (fun '(l, r) =>
                 Ok {| lists := l; resolvers := r;
                       processedServices :=
                         {[getServiceName s]} ∪ processedServices pass |}))
        /\ forall pass : Pass,
             collect (a ++ s :: b) = Ok pass ->
             (forall which : ListName,
                incl (declaredFragments which s)
                  (listOf which (lists pass)))
             /\ forall type field : string,
                  In (type, field) (declaredFields s) ->
                  hasField type field (resolvers pass) = true).
Proof.
  intros a b s. split.
  - intros Hin. pose proof (collect_later a b s Hin) as H.
    split; [exact H |].
    unfold generateGraphQLSchema, compose. now rewrite H.
  - intros Hnew. split; [now apply collect_first |].
    intros pass. now apply collect_contributes.
Qed.

(** ** The loader registry *)

Section LoaderRegistry.

Implicit Types (registry : list (string * Loader)) (r : ResolverDecl).

Lemma fieldLoader_keys serviceName registry registry' r :
  fieldLoader serviceName registry r = Ok registry' ->
  (forall k, In k (map fst registry') <->
             In k (map fst registry) \/ In k (targetOf serviceName r))
  /\ (List.NoDup (map fst registry) -> List.NoDup (map fst registry'))
  /\ (keyed registry -> keyed registry').
Proof.
  unfold fieldLoader, targetOf, loaderTarget, asksLoader.
  assert (forall reg : list (string * Loader),
            (forall k, In k (map fst reg) <-> In k (map fst reg) \/ In k [])
            /\ (List.NoDup (map fst reg) -> List.NoDup (map fst reg))
            /\ (keyed reg -> keyed reg)) as Hsame.
  { intros reg. cbn [In]. tauto. }
  destruct r as [action def|value].
  - destruct (firstRootParam def) as [param|] eqn:Eparam.
    + destruct (dataLoader def) eqn:Edl; cbn [andb].
      * destruct action as [action|]; [|discriminate].
        destruct (assoc _ registry) as [old|] eqn:Eold;
          intros H; injection H as <-.
        -- split; [|tauto]. intros k. cbn [In].
           split; [tauto | intros [H | [<- | []]]; [exact H |]].
           apply assoc_Some_In in Eold. now apply (in_map fst) in Eold.
        -- split; [|split].
           ++ intros k. rewrite keys_assign. cbn [In]. intuition congruence.
           ++ apply NoDup_keys_assign.
           ++ intros Hk k loader Hin.
              apply In_assign in Hin as [Hin | Hin]; [|now apply Hk].
              injection Hin as -> ->. reflexivity.
      * intros H. injection H as <-. destruct action; apply Hsame.
    + rewrite andb_false_r.
      intros H. injection H as <-. destruct action; apply Hsame.
  - intros H. injection H as <-. apply Hsame.
Qed.

Lemma fieldLoader_total serviceName registry r :
  readable r = true -> exists registry', fieldLoader serviceName registry r = Ok registry'.
Proof.
  unfold readable, fieldLoader, asksLoader.
  destruct r as [action def|value]; [|eauto].
  destruct (firstRootParam def) as [param|]; [|eauto].
  destruct (dataLoader def); [|eauto].
  destruct action as [action|]; [|discriminate].
  destruct (assoc _ registry); eauto.
Qed.

Lemma fields_keys serviceName (rs : list ResolverDecl) registry :
  reduce (fieldLoader serviceName) rs (Ok []) = Ok registry ->
  (forall k, In k (map fst registry) <-> In k (targetsOf serviceName rs))
  /\ List.NoDup (map fst registry)
  /\ keyed registry.
Proof.
  intros H.
  apply (reduce_invariant (fieldLoader serviceName)
           (fun seen reg =>
              (forall k, In k (map fst reg) <-> In k (targetsOf serviceName seen))
              /\ List.NoDup (map fst reg) /\ keyed reg)
           rs [] [] registry); [| |exact H].
  - repeat split; try tauto; [constructor | intros k l []].
  - intros seen r reg reg' (Hkeys & Hnd & Hk) E.
    destruct (fieldLoader_keys _ _ _ _ E) as (Hkeys' & Hnd' & Hk').
    repeat split; auto.
    + intros Hin. apply Hkeys' in Hin. unfold targetsOf.
      rewrite flat_map_app, in_app_iff. cbn [flat_map]. rewrite app_nil_r.
      rewrite <- Hkeys. exact Hin.
    + intros Hin. apply Hkeys'. unfold targetsOf in Hin.
      rewrite flat_map_app, in_app_iff in Hin. cbn [flat_map] in Hin.
      rewrite app_nil_r in Hin. rewrite Hkeys. exact Hin.
Qed.

Lemma keyed_spread (a b : list (string * Loader)) :
  keyed a -> keyed b -> keyed (spread a b).
Proof.
  intros Ha Hb k loader Hin.
  apply In_spread in Hin as [Hin | Hin]; [now apply Ha | now apply Hb].
Qed.

Lemma typeLoaders_keys serviceName registry registry'
    (type : list (string * ResolverDecl)) :
  typeLoaders serviceName registry type = Ok registry' ->
  (forall k, In k (map fst registry') <->
             In k (map fst registry)
             \/ In k (targetsOf serviceName (map snd type)))
  /\ (List.NoDup (map fst registry) -> List.NoDup (map fst registry'))
  /\ (keyed registry -> keyed registry').
Proof.
  unfold typeLoaders.
  destruct (reduce (fieldLoader serviceName) (map snd type) (Ok []))
    as [loaders|e] eqn:E; [|discriminate].
  destruct (fields_keys _ _ _ E) as (Hkeys & Hnd & Hk).
  cbn [bind]. intros H. injection H as <-. repeat split.
  - rewrite keys_spread, Hkeys. tauto.
  - rewrite keys_spread, Hkeys. tauto.
  - apply NoDup_keys_spread.
  - intros Hreg. now apply keyed_spread.
Qed.

Lemma types_keys serviceName
    (resolvers : list (list (string * ResolverDecl))) registry :
  reduce (typeLoaders serviceName) resolvers (Ok []) = Ok registry ->
  (forall k, In k (map fst registry) <->
             In k (targetsOf serviceName (flat_map (map snd) resolvers)))
  /\ List.NoDup (map fst registry)
  /\ keyed registry.
Proof.
  intros H.
  apply (reduce_invariant (typeLoaders serviceName)
           (fun seen reg =>
              (forall k, In k (map fst reg) <->
                         In k (targetsOf serviceName (flat_map (map snd) seen)))
              /\ List.NoDup (map fst reg) /\ keyed reg)
           resolvers [] [] registry); [| |exact H].
  - repeat split; try tauto; [constructor | intros k l []].
  - intros seen type reg reg' (Hkeys & Hnd & Hk) E.
    destruct (typeLoaders_keys _ _ _ _ E) as (Hkeys' & Hnd' & Hk').
    repeat split; auto.
    + intros Hin. apply Hkeys' in Hin. unfold targetsOf.
      rewrite !flat_map_app, !in_app_iff. cbn [flat_map].
      rewrite !app_nil_r. rewrite <- Hkeys. exact Hin.
    + intros Hin. apply Hkeys'. unfold targetsOf in Hin.
      rewrite !flat_map_app, !in_app_iff in Hin. cbn [flat_map] in Hin.
      rewrite !app_nil_r in Hin. rewrite Hkeys. exact Hin.
Qed.

Lemma declaredResolvers_flat (service : Service.t)
    (graphql : GraphqlDef.t)
    (resolvers : list (string * list (string * ResolverDecl))) :
  Service.graphql service = Some graphql ->
  GraphqlDef.resolvers graphql = Some resolvers ->
  declaredResolvers service = flat_map (map snd) (map snd resolvers).
Proof.
  intros Eg Er. unfold declaredResolvers. rewrite Eg, Er. clear Er.
  induction resolvers as [|[name fields] rest IH]; [reflexivity |].
  cbn [flat_map map snd]. now rewrite IH.
Qed.

Lemma serviceLoaders_keys registry registry' (service : Service.t) :
  serviceLoaders registry service = Ok registry' ->
  (forall k, In k (map fst registry') <->
             In k (map fst registry) \/ In k (loaderTargets [service]))
  /\ (List.NoDup (map fst registry) -> List.NoDup (map fst registry'))
  /\ (keyed registry -> keyed registry').
Proof.
  unfold serviceLoaders, loaderTargets. cbn [flat_map]. rewrite app_nil_r.
  destruct (Service.graphql service) as [graphql|] eqn:Eg.
  - destruct (GraphqlDef.resolvers graphql) as [resolvers|] eqn:Er.
    + rewrite (declaredResolvers_flat _ _ _ Eg Er).
      destruct (reduce _ (map snd resolvers) (Ok [])) as [loaders|e] eqn:E;
        [|discriminate].
      destruct (types_keys _ _ _ E) as (Hkeys & Hnd & Hk).
      cbn [bind]. intros H. injection H as <-. repeat split.
      * rewrite keys_spread, Hkeys. tauto.
      * rewrite keys_spread, Hkeys. tauto.
      * apply NoDup_keys_spread.
      * intros Hreg. now apply keyed_spread.
    + unfold declaredResolvers. rewrite Eg, Er.
      intros H. injection H as <-. cbn. tauto.
  - unfold declaredResolvers. rewrite Eg.
    intros H. injection H as <-. cbn. tauto.
Qed.

Lemma loaderTargets_app (a b : list Service.t) :
  loaderTargets (a ++ b) = loaderTargets a ++ loaderTargets b.
Proof. apply flat_map_app. Qed.

Lemma createLoaders_keys (services : list Service.t) registry :
  createLoaders services = Ok registry ->
  (forall k, In k (map fst registry) <-> In k (loaderTargets services))
  /\ List.NoDup (map fst registry)
  /\ keyed registry.
Proof.
  intros H.
  apply (reduce_invariant serviceLoaders
           (fun seen reg =>
              (forall k, In k (map fst reg) <-> In k (loaderTargets seen))
              /\ List.NoDup (map fst reg) /\ keyed reg)
           services [] [] registry); [| |exact H].
  - repeat split; try tauto; [constructor | intros k l []].
  - intros seen service reg reg' (Hkeys & Hnd & Hk) E.
    destruct (serviceLoaders_keys _ _ _ E) as (Hkeys' & Hnd' & Hk').
    repeat split; auto.
    + intros Hin. apply Hkeys' in Hin.
      rewrite loaderTargets_app, in_app_iff, <- Hkeys. exact Hin.
    + intros Hin. apply Hkeys'.
      rewrite loaderTargets_app, in_app_iff, <- Hkeys in Hin. exact Hin.
Qed.

Lemma createLoaders_total (services : list Service.t) :
  forallb (fun service => forallb readable (declaredResolvers service))
    services = true ->
  exists registry, createLoaders services = Ok registry.
Proof.
  intros Hall. apply reduce_total. intros registry service Hin.
  rewrite forallb_forall in Hall. specialize (Hall service Hin).
  unfold serviceLoaders.
  destruct (Service.graphql service) as [graphql|] eqn:Eg; [|eauto].
  destruct (GraphqlDef.resolvers graphql) as [resolvers|] eqn:Er; [|eauto].
  rewrite (declaredResolvers_flat _ _ _ Eg Er) in Hall.
  rewrite forallb_forall in Hall.
  destruct (reduce_total (typeLoaders (getServiceName service))
              (map snd resolvers)) with (s := @nil (string * Loader))
    as [loaders E].
  - intros reg type Htype. unfold typeLoaders.
    destruct (reduce_total (fieldLoader (getServiceName service))
                (map snd type)) with (s := @nil (string * Loader))
      as [fields Ef].
    + intros reg' r Hr. apply fieldLoader_total. apply Hall.
      apply in_flat_map. exists type. split; assumption.
    + rewrite Ef. cbn [bind]. eauto.
  - rewrite E. cbn [bind]. eauto.
Qed.

(** The first root parameter, on the entries of the mapping. *)
Lemma firstRootParam_Some (def : ResolverDef) (param : string) :
  firstRootParam def = Some param <->
  exists (key : string) (rest : list (string * string)),
    rootParams def = (key, param) :: rest /\ param <> "".
Proof.
  unfold firstRootParam, truthyStr.
  destruct (rootParams def) as [|[key target] rest]; cbn [map snd].
  - split; [discriminate | intros (k & r & H & _); discriminate H].
  - destruct (String.eqb_spec target "") as [->|Hne]; cbn [negb].
    + split; [discriminate |].
      intros (k & r & H & Hp). injection H as _ <- _. now destruct Hp.
    + split.
      * intros H. injection H as <-. eauto.
      * intros (k & r & H & _). now injection H as _ <- _.
Qed.

Lemma firstRootParam_None (def : ResolverDef) :
  firstRootParam def = None <->
  rootParams def = []
  \/ exists (key : string) (rest : list (string * string)),
       rootParams def = (key, "") :: rest.
Proof.
  unfold firstRootParam, truthyStr.
  destruct (rootParams def) as [|[key target] rest]; cbn [map snd].
  - split; [now left | reflexivity].
  - destruct (String.eqb_spec target "") as [->|Hne]; cbn [negb].
    + split; [right; eauto | reflexivity].
    + split; [discriminate |].
      intros [H | (k & r & H)]; [discriminate H |].
      injection H as _ -> _. now destruct Hne.
Qed.

(** The names under which the loaders are made, on the declarations. *)
Lemma loaderTargets_declared (services : list Service.t)
    (actionName : string) :
  In actionName (loaderTargets services) <->
  exists (service : Service.t) (action : string) (def : ResolverDef)
         (key param : string) (rest : list (string * string)),
    In service services
    /\ In (DeclObject (Some action) def) (declaredResolvers service)
    /\ getResolverActionName (getServiceName service) action = actionName
    /\ dataLoader def = true
    /\ rootParams def = (key, param) :: rest
    /\ param <> "".
Proof.
  unfold loaderTargets, targetsOf. rewrite in_flat_map. split.
  - intros (service & Hs & Hin). rewrite in_flat_map in Hin.
    destruct Hin as (r & Hr & Hin).
    unfold targetOf, loaderTarget, asksLoader in Hin.
    destruct r as [[action|] def|value]; try contradiction.
    destruct (dataLoader def) eqn:Edl; [|contradiction].
    destruct (firstRootParam def) as [param|] eqn:Ep; [|contradiction].
    cbn [andb In] in Hin. destruct Hin as [Hin | []].
    apply firstRootParam_Some in Ep as (key & rest & Hroot & Hparam).
    exists service, action, def, key, param, rest. auto 7.
  - intros (service & action & def & key & param & rest
            & Hs & Hr & Hname & Hdl & Hroot & Hparam).
    exists service. split; [exact Hs |]. rewrite in_flat_map.
    exists (DeclObject (Some action) def). split; [exact Hr |].
    unfold targetOf, loaderTarget, asksLoader. rewrite Hdl.
    assert (firstRootParam def = Some param) as ->
      by (apply firstRootParam_Some; eauto).
    cbn [andb In]. now left.
Qed.

End LoaderRegistry.

(** C9. The loader registry of a context has one loader under each action
    name that asks for one, and none under any other name. Its keys are
    distinct, and an action name is a key exactly when some resolver that
    a service of the list declares in its settings is a plain object with
    that target action, with [dataLoader] set and with a first root
    parameter - the value of the first entry of [rootParams] - that is not
    the empty string; the loader under a key calls that action. The
    services are those of the list that [createLoaders] is given: a service
    that the composition pass skips for its name counts as the others do.
    So an action whose batched resolvers all lack a root parameter, or
    have an empty one first, has no loader. [createLoaders] returns such
    a registry whenever no plain object asks for a loader without naming an
    action. *)
Theorem loader_registry_keys :
  forall services : list Service.t,
    ((forall (service : Service.t) (def : ResolverDef),
        In service services ->
        In (DeclObject None def) (declaredResolvers service) ->
        dataLoader def = true ->
        rootParams def = []
        \/ exists (key : string) (rest : list (string * string)),
             rootParams def = (key, "") :: rest) ->
     exists registry, createLoaders services = Ok registry)
    /\ forall registry : list (string * Loader),
         createLoaders services = Ok registry ->
         List.NoDup (map fst registry)
         /\ (forall actionName : string,
               In actionName (map fst registry) <->
               exists (service : Service.t) (action : string)
                      (def : ResolverDef) (key param : string)
                      (rest : list (string * string)),
                 In service services
                 /\ In (DeclObject (Some action) def)
                      (declaredResolvers service)
                 /\ getResolverActionName (getServiceName service) action
                    = actionName
                 /\ dataLoader def = true
                 /\ rootParams def = (key, param) :: rest
                 /\ param <> "")
         /\ (forall (actionName : string) (loader : Loader),
               assoc actionName registry = Some loader ->
               loaderAction loader = actionName)
         /\ (forall actionName : string,
               (forall (service : Service.t) (action : string)
                       (def : ResolverDef),
                  In service services ->
                  In (DeclObject (Some action) def)
                     (declaredResolvers service) ->
                  getResolverActionName (getServiceName service) action
                  = actionName ->
                  dataLoader def = true ->
                  rootParams def = []
                  \/ exists (key : string) (rest : list (string * string)),
                       rootParams def = (key, "") :: rest) ->
               assoc actionName registry = None).
Proof.
  intros services. split.
  - intros Hreadable. apply createLoaders_total.
    apply forallb_forall. intros service Hs.
    apply forallb_forall. intros r Hr.
    destruct r as [[action|] def|value]; try reflexivity.
    unfold readable, asksLoader.
    destruct (dataLoader def) eqn:Edl; [|reflexivity].
    pose proof (Hreadable service def Hs Hr Edl) as Hnone.
    apply firstRootParam_None in Hnone. now rewrite Hnone.
  - intros registry H.
    destruct (createLoaders_keys services registry H) as (Hkeys & Hnd & Hk).
    split; [exact Hnd | split; [|split]].
    + intros actionName. rewrite Hkeys. apply loaderTargets_declared.
    + intros actionName loader Hl. apply Hk. now apply assoc_Some_In.
    + intros actionName Hnone. apply assoc_None_keys.
      rewrite Hkeys, loaderTargets_declared.
      intros (service & action & def & key & param & rest
              & Hs & Hr & Hname & Hdl & Hroot & Hparam).
      destruct (Hnone service action def Hs Hr Hname Hdl)
        as [Hempty | (k & r & Hblank)].
      * rewrite Hempty in Hroot. discriminate Hroot.
      * rewrite Hblank in Hroot. injection Hroot as _ <- _.
        now destruct Hparam.
Qed.

(** ** The resolver of an action *)

Section ActionResolver.

Lemma promiseAll_ok (results : list JsVal) :
  promiseAll (map Ok results) = Ok results.
Proof.
  induction results as [|v vs IH]; [reflexivity |].
  cbn [map promiseAll]. now rewrite IH.
Qed.

Lemma getProp_assignProp_eq (props : list (string * JsVal)) (key : string)
    (value : JsVal) :
  Lodash.getProp (Lodash.assignProp (VObj props) key value) key = value.
Proof. cbn [Lodash.assignProp Lodash.getProp]. now rewrite assoc_assign_eq. Qed.

Lemma getProp_assignProp_ne (props : list (string * JsVal)) (key key' : string)
    (value : JsVal) :
  key <> key' ->
  Lodash.getProp (Lodash.assignProp (VObj props) key value) key'
  = Lodash.getProp (VObj props) key'.
Proof.
  intros Hne. cbn [Lodash.assignProp Lodash.getProp].
  now rewrite assoc_assign_ne.
Qed.

(** Where every evaluation gives a promise, every item is asked for. *)
Lemma askAll_promised (ask : JsVal -> Asked) (items : list JsVal)
    (settled : list (Result JsVal)) :
  map ask items = map Promised settled ->
  askAll ask items = (items, Ok settled).
Proof.
  revert settled. induction items as [|item items IH]; intros settled H.
  - destruct settled; [reflexivity | discriminate H].
  - destruct settled as [|r settled]; [discriminate H |].
    cbn [map] in H. injection H as Hitem Hrest.
    cbn [askAll]. rewrite Hitem, (IH settled Hrest). reflexivity.
Qed.

(** After [clearContext] the error has no context, and its other
    properties are those it had. *)
Lemma clearContext_cleared (err : JsVal) :
  truthy (Lodash.getProp (clearContext err) "ctx") = false
  /\ forall key : string,
       key <> "ctx" ->
       Lodash.getProp (clearContext err) key = Lodash.getProp err key.
Proof.
  unfold clearContext.
  destruct (truthy err && truthy (Lodash.getProp err "ctx")) eqn:E.
  - apply andb_true_iff in E as [_ E].
    destruct err as [| | | | |items|props|]; try discriminate E.
    split; [now rewrite getProp_assignProp_eq |].
    intros key Hne. apply getProp_assignProp_ne. congruence.
  - split; [|reflexivity].
    apply andb_false_iff in E as [E | E]; [|exact E].
    destruct err; try discriminate E; reflexivity.
Qed.

End ActionResolver.

(** C10. A resolver made with [dataLoader] set and with no root parameter
    resolves to null whatever the root, the arguments and the context are:
    it consults no loader, makes no remote call and leaves the arguments as
    they were. *)
Theorem batched_without_root_key :
  forall (actionName : string) (def : ResolverDef) (root args : JsVal)
         (context : Context),
    dataLoader def = true ->
    rootParams def = [] ->
    invokeActionResolver actionName def root args context
    = {| outcome := Ok VNull; argsAfter := args; trace := [] |}.
Proof.
  intros actionName def root args context Hdl Hroot.
  unfold invokeActionResolver, loadBatched, batchValue, firstRootKey.
  now rewrite Hdl, Hroot.
Qed.

(** C5. A batched resolver with a first root key takes as its value what
    [_.get] reads under that key in a root that is truthy, and the root
    itself when the root is falsy. So it resolves to null, and asks for
    nothing, when the root is null or undefined and when a truthy root holds
    nothing, or null, under the key. When a truthy root holds an array under
    the key, the resolver asks the loader of its action for each element,
    in order, and resolves to the array of the results in the order of the
    elements. When it holds anything else, the resolver asks the loader for
    that value and resolves to its result. A root that is falsy without
    being null or undefined - zero, the empty string, false - holds nothing
    under the key and yet is not answered with null: the resolver asks the
    loader for the root itself. *)
Theorem batched_resolution :
  forall (actionName : string) (def : ResolverDef) (root args : JsVal)
         (context : Context) (key : string),
    dataLoader def = true ->
    firstRootKey def = Some key ->
    (nullish root = true
     \/ (truthy root = true /\ nullish (Lodash.get root key) = true) ->
     invokeActionResolver actionName def root args context
     = {| outcome := Ok VNull; argsAfter := args; trace := [] |})
    /\ (forall items results : list JsVal,
          truthy root = true ->
          Lodash.get root key = VArr items ->
          map (loaders context actionName) items
          = map (fun result => Promised (Ok result)) results ->
          invokeActionResolver actionName def root args context
          = {| outcome := Ok (VArr results); argsAfter := args;
               trace := map (Loaded actionName) items |})
    /\ (forall loaded : JsVal,
          truthy root = true ->
          nullish (Lodash.get root key) = false ->
          (forall items, Lodash.get root key <> VArr items) ->
          loaders context actionName (Lodash.get root key)
          = Promised (Ok loaded) ->
          invokeActionResolver actionName def root args context
          = {| outcome := Ok loaded; argsAfter := args;
               trace := [Loaded actionName (Lodash.get root key)] |})
    /\ (forall loaded : JsVal,
          truthy root = false ->
          nullish root = false ->
          loaders context actionName root = Promised (Ok loaded) ->
          invokeActionResolver actionName def root args context
          = {| outcome := Ok loaded; argsAfter := args;
               trace := [Loaded actionName root] |}).
Proof.
  intros actionName def root args context key Hdl Hkey.
  unfold invokeActionResolver, loadBatched, batchValue.
  rewrite Hdl, Hkey.
  split; [|split; [|split]].
  - intros [Hnull | [Htruthy Hnull]].
    + destruct root; try discriminate Hnull; reflexivity.
    + rewrite Htruthy. now rewrite Hnull.
  - intros items results Htruthy Hitems Hresults.
    rewrite Htruthy, Hitems. cbn [nullish].
    rewrite (askAll_promised _ _ (map Ok results)).
    + cbn [bind outcome]. now rewrite promiseAll_ok.
    + now rewrite Hresults, map_map.
  - intros loaded Htruthy Hnull Hnot Hload.
    rewrite Htruthy, Hnull.
    destruct (Lodash.get root key) eqn:E;
      try (now rewrite Hload).
    now destruct (Hnot items).
  - intros loaded Hfalsy Hnull Hload.
    rewrite Hfalsy, Hnull.
    destruct root; try discriminate Hfalsy; try discriminate Hnull;
      now rewrite Hload.
Qed.

(** C6. When the remote call of a direct resolver fails, the resolver
    resolves to null if [nullIfError] is set, and the failure goes no
    further; if it is not set, the resolver fails with the error of the
    call, in which the reference to the call context has been cleared: the
    error that the resolver throws has no truthy [ctx], and its other
    properties are those of the error of the call. Either way the remote
    call was made once. *)
Theorem direct_call_failure :
  forall (actionName : string) (def : ResolverDef) (root args : JsVal)
         (context : Context) (err : JsVal),
    dataLoader def = false ->
    call context actionName (callParams def root args (meta context))
    = Err err ->
    trace (invokeActionResolver actionName def root args context)
    = [Called actionName (callParams def root args (meta context))]
    /\ (nullIfError def = true ->
        outcome (invokeActionResolver actionName def root args context)
        = Ok VNull)
    /\ (nullIfError def = false ->
        outcome (invokeActionResolver actionName def root args context)
        = Err (clearContext err)
        /\ truthy (Lodash.getProp (clearContext err) "ctx") = false
        /\ forall key : string,
             key <> "ctx" ->
             Lodash.getProp (clearContext err) key = Lodash.getProp err key).
Proof.
  intros actionName def root args context err Hdl Hcall.
  unfold invokeActionResolver, callDirect.
  rewrite Hdl. cbn [outcome]. rewrite Hcall. cbn [outcome trace].
  split; [reflexivity | split].
  - intros ->. reflexivity.
  - intros ->. split; [reflexivity | apply clearContext_cleared].
Qed.

(** ** The parameters of a direct call *)

Section DirectCallParams.

Import Lodash.

Implicit Types (props ps : list (string * JsVal)) (x key : string).

(** A plain name has no dot: it is one key of a path. *)
Lemma isWordChar_not_dot (c : ascii) :
  isWordChar c = true -> Ascii.eqb "."%char c = false.
Proof.
  intros H. destruct (Ascii.eqb_spec "."%char c) as [<-|]; [|reflexivity].
  discriminate H.
Qed.

Lemma plainName_simple key : plainName key = true -> simpleKey key = true.
Proof.
  unfold plainName, simpleKey. intros H.
  apply andb_true_iff in H as [H _]. apply andb_true_iff in H as [H _].
  apply negb_true_iff.
  induction key as [|c key IH]; [reflexivity |].
  cbn [JsString.forallb] in H. apply andb_true_iff in H as [Hc Hkey].
  cbn [JsString.contains]. now rewrite (isWordChar_not_dot c Hc), (IH Hkey).
Qed.

Lemma plainNames_simple (keys : list string) :
  forallb plainName keys = true -> forallb simpleKey keys = true.
Proof.
  induction keys as [|key keys IH]; [reflexivity |].
  cbn [forallb]. intros H. apply andb_true_iff in H as [Hk Hks].
  now rewrite (plainName_simple key Hk), (IH Hks).
Qed.

Lemma set_simple props (target : string) (value : JsVal) :
  simpleKey target = true ->
  set (VObj props) target value = VObj (assign target value props).
Proof.
  intros Hs. unfold set, castPath, isKey. cbn [isObject].
  unfold simpleKey in Hs. now rewrite Hs.
Qed.

Lemma get_simple props key :
  simpleKey key = true -> get (VObj props) key = getProp (VObj props) key.
Proof.
  intros Hs. unfold get, castPath, isKey. cbn [nullish].
  unfold simpleKey in Hs. now rewrite Hs.
Qed.

Lemma unset_simple props key :
  simpleKey key = true -> unset (VObj props) key = VObj (remove key props).
Proof.
  intros Hs. unfold unset, castPath, isKey. cbn [nullish].
  unfold simpleKey in Hs. now rewrite Hs.
Qed.

Lemma assoc_remove_eq props key : assoc key (remove key props) = None.
Proof.
  induction props as [|[k v] props IH]; [reflexivity |].
  cbn [remove]. destruct (String.eqb_spec key k) as [->|Hne]; [exact IH |].
  cbn [assoc]. destruct (String.eqb_spec key k); [contradiction | exact IH].
Qed.

Lemma assoc_remove_ne props key key' :
  key <> key' -> assoc key' (remove key props) = assoc key' props.
Proof.
  intros Hne. induction props as [|[k v] props IH]; [reflexivity |].
  cbn [remove assoc]. destruct (String.eqb_spec key k) as [->|Hk].
  - destruct (String.eqb_spec key' k); [congruence | exact IH].
  - cbn [assoc]. now rewrite IH.
Qed.

(** *** The object of the mapped values *)

Lemma lastMapped_cons (k target : string) (rest : list (string * string))
    (source : JsVal) x :
  lastMapped ((k, target) :: rest) source x
  = match lastMapped rest source x with
    | Some v => Some v
    | None => if String.eqb target x then Some (get source k) else None
    end.
Proof. reflexivity. Qed.

Lemma setMapped_holds (mapping : list (string * string)) (source : JsVal) x :
  forallb simpleKey (map snd mapping) = true ->
  forall (p : JsVal) (old : JsVal),
    holds p x old ->
    holds (setMapped mapping source p) x
      (match lastMapped mapping source x with
       | Some v => v
       | None => old
       end).
Proof.
  unfold setMapped.
  induction mapping as [|[k target] rest IH]; intros Hs p old Hp.
  - exact Hp.
  - cbn [map snd forallb] in Hs. apply andb_true_iff in Hs as [Ht Hs].
    cbn [fold_left]. rewrite lastMapped_cons.
    destruct Hp as (props & -> & Hnd & Hold).
    rewrite (set_simple _ _ _ Ht).
    assert (holds (VObj (assign target (get source k) props)) x
              (if String.eqb target x then get source k else old)) as Hp'.
    { exists (assign target (get source k) props).
      split; [reflexivity | split; [now apply NoDup_keys_assign |]].
      cbn [getProp]. destruct (String.eqb_spec target x) as [->|Hne].
      - now rewrite assoc_assign_eq.
      - rewrite (assoc_assign_ne _ _ _ _ Hne). exact Hold. }
    specialize (IH Hs _ _ Hp').
    destruct (lastMapped rest source x); [exact IH |].
    destruct (String.eqb target x); exact IH.
Qed.

Lemma lastMapped_ext (mapping : list (string * string)) (s1 s2 : JsVal) x :
  (forall k, In k (map fst mapping) -> get s1 k = get s2 k) ->
  lastMapped mapping s1 x = lastMapped mapping s2 x.
Proof.
  induction mapping as [|[k target] rest IH]; intros Hext; [reflexivity |].
  rewrite !lastMapped_cons, IH.
  - now rewrite (Hext k (or_introl eq_refl)).
  - intros k' Hin. apply Hext. now right.
Qed.

Lemma moveMapped_holds (mapping : list (string * string)) x :
  forallb simpleKey (map snd mapping) = true ->
  forallb simpleKey (map fst mapping) = true ->
  List.NoDup (map fst mapping) ->
  forall (p : JsVal) (old : JsVal) (aprops : list (string * JsVal)),
    holds p x old ->
    exists aprops',
      snd (moveMapped mapping p (VObj aprops)) = VObj aprops'
      /\ (forall y,
            getProp (VObj aprops') y
            = if existsb (String.eqb y) (map fst mapping) then VUndefined
              else getProp (VObj aprops) y)
      /\ holds (fst (moveMapped mapping p (VObj aprops))) x
           (match lastMapped mapping (VObj aprops) x with
            | Some v => v
            | None => old
            end).
Proof.
  unfold moveMapped.
  induction mapping as [|[k target] rest IH];
    intros Ht Hk Hnd p old aprops Hp.
  - exists aprops. cbn [fold_left fst snd map existsb lastMapped]. auto.
  - cbn [map snd fst forallb] in Ht, Hk.
    apply andb_true_iff in Ht as [Ht Hts].
    apply andb_true_iff in Hk as [Hk Hks].
    cbn [map fst] in Hnd. apply NoDup_cons_iff in Hnd as [Hnew Hnd].
    cbn [fold_left]. rewrite lastMapped_cons.
    destruct Hp as (props & -> & Hpnd & Hold).
    rewrite (set_simple _ _ _ Ht), (unset_simple _ _ Hk).
    assert (holds (VObj (assign target (get (VObj aprops) k) props)) x
              (if String.eqb target x then get (VObj aprops) k else old))
      as Hp'.
    { exists (assign target (get (VObj aprops) k) props).
      split; [reflexivity | split; [now apply NoDup_keys_assign |]].
      cbn [getProp]. destruct (String.eqb_spec target x) as [->|Hne].
      - now rewrite assoc_assign_eq.
      - rewrite (assoc_assign_ne _ _ _ _ Hne). exact Hold. }
    destruct (IH Hts Hks Hnd _ _ (remove k aprops) Hp')
      as (aprops' & Hargs & Hleft & Hheld).
    exists aprops'. split; [exact Hargs | split].
    + intros y. rewrite Hleft. cbn [map fst existsb getProp].
      destruct (String.eqb_spec y k) as [->|Hy]; cbn [orb].
      * destruct (existsb _ _); [reflexivity |].
        now rewrite assoc_remove_eq.
      * destruct (existsb _ _); [reflexivity |].
        rewrite assoc_remove_ne by congruence. reflexivity.
    + rewrite (lastMapped_ext rest (VObj aprops) (VObj (remove k aprops))).
      * destruct (lastMapped rest (VObj (remove k aprops)) x); [exact Hheld |].
        destruct (String.eqb target x); exact Hheld.
      * intros k' Hin.
        assert (simpleKey k' = true) as Hk'.
        { rewrite forallb_forall in Hks. now apply Hks. }
        rewrite !(get_simple _ _ Hk'). cbn [getProp].
        rewrite assoc_remove_ne; [reflexivity |].
        intros ->. contradiction.
Qed.

(** *** [_.defaultsDeep] on one key *)

Lemma baseMerge_object ps (obj : JsVal) :
  baseMerge (VObj ps) obj
  = fold_left (fun o '(k, v) => defaultsAt k v (baseMerge v) o) ps obj.
Proof.
  revert obj. induction ps as [|[k v] ps IH]; intros obj; [reflexivity |].
  cbn [fold_left]. rewrite <- IH. reflexivity.
Qed.

(** A property of another key leaves the value under [x]. *)
Lemma defaultsAt_other (k x : string) (v : JsVal) (f : JsVal -> JsVal) props :
  k <> x ->
  exists props',
    defaultsAt k v f (VObj props) = VObj props'
    /\ getProp (VObj props') x = getProp (VObj props) x.
Proof.
  intros Hne. unfold defaultsAt.
  destruct (isUndefined (getProp (VObj props) k)).
  - destruct (isUndefined v && hasKey (VObj props) k); [eauto |].
    eexists. split; [reflexivity |]. now apply getProp_assignProp_ne.
  - destruct (isObject (getProp (VObj props) k) && isObject v); [|eauto].
    eexists. split; [reflexivity |]. now apply getProp_assignProp_ne.
Qed.

(** A value that is neither [undefined] nor an object stays. *)
Lemma defaultsAt_scalar (k x : string) (v : JsVal) (f : JsVal -> JsVal)
    props :
  isUndefined (getProp (VObj props) x) = false ->
  isObject (getProp (VObj props) x) = false ->
  exists props',
    defaultsAt k v f (VObj props) = VObj props'
    /\ getProp (VObj props') x = getProp (VObj props) x.
Proof.
  intros Hdef Hscalar. destruct (String.eqb_spec k x) as [->|Hne].
  - unfold defaultsAt. rewrite Hdef, Hscalar. cbn [andb]. eauto.
  - now apply defaultsAt_other.
Qed.

Lemma baseMerge_scalar ps x props :
  isUndefined (getProp (VObj props) x) = false ->
  isObject (getProp (VObj props) x) = false ->
  exists props',
    baseMerge (VObj ps) (VObj props) = VObj props'
    /\ getProp (VObj props') x = getProp (VObj props) x.
Proof.
  rewrite baseMerge_object. revert props.
  induction ps as [|[k v] ps IH]; intros props Hdef Hscalar; [eauto |].
  cbn [fold_left].
  destruct (defaultsAt_scalar k x v (baseMerge v) props Hdef Hscalar)
    as (props1 & -> & H1).
  rewrite <- H1 in Hdef, Hscalar.
  destruct (IH props1 Hdef Hscalar) as (props' & -> & H').
  exists props'. split; [reflexivity | congruence].
Qed.

Lemma baseMerge_absent ps x props :
  ~ In x (map fst ps) ->
  exists props',
    baseMerge (VObj ps) (VObj props) = VObj props'
    /\ getProp (VObj props') x = getProp (VObj props) x.
Proof.
  rewrite baseMerge_object. revert props.
  induction ps as [|[k v] ps IH]; intros props Hnot; [eauto |].
  cbn [fold_left]. cbn [map fst In] in Hnot.
  destruct (defaultsAt_other k x v (baseMerge v) props) as (props1 & -> & H1);
    [tauto |].
  destruct (IH props1) as (props' & -> & H'); [tauto |].
  exists props'. split; [reflexivity | congruence].
Qed.

(** A key that the destination lacks takes the value of the source. *)
Lemma baseMerge_undefined ps x props :
  List.NoDup (map fst ps) ->
  getProp (VObj props) x = VUndefined ->
  exists props',
    baseMerge (VObj ps) (VObj props) = VObj props'
    /\ getProp (VObj props') x = getProp (VObj ps) x.
Proof.
  revert props.
  induction ps as [|[k v] ps IH]; intros props Hnd Hundef.
  - exists props. split; [reflexivity | exact Hundef].
  - cbn [map fst] in Hnd. apply NoDup_cons_iff in Hnd as [Hnew Hnd].
    rewrite baseMerge_object. cbn [fold_left]. rewrite <- baseMerge_object.
    destruct (String.eqb_spec k x) as [->|Hne].
    + assert (exists props1,
                defaultsAt x v (baseMerge v) (VObj props) = VObj props1
                /\ getProp (VObj props1) x = v) as (props1 & -> & H1).
      { unfold defaultsAt. rewrite Hundef. cbn [isUndefined].
        destruct (isUndefined v && hasKey (VObj props) x) eqn:E.
        - exists props. split; [reflexivity |].
          apply andb_true_iff in E as [E _].
          destruct v; try discriminate E. exact Hundef.
        - eexists. split; [reflexivity |]. apply getProp_assignProp_eq. }
      destruct (baseMerge_absent ps x props1 Hnew) as (props' & -> & H').
      exists props'. split; [reflexivity |].
      rewrite H', H1. cbn [getProp assoc]. now rewrite String.eqb_refl.
    + destruct (defaultsAt_other k x v (baseMerge v) props Hne)
        as (props1 & -> & H1).
      rewrite <- H1 in Hundef.
      destruct (IH props1 Hnd Hundef) as (props' & -> & H').
      exists props'. split; [reflexivity |].
      rewrite H'. cbn [getProp assoc].
      destruct (String.eqb_spec x k); [congruence | reflexivity].
Qed.

Lemma defaultsDeep_two (aprops pprops sprops : list (string * JsVal)) x :
  List.NoDup (map fst pprops) ->
  List.NoDup (map fst sprops) ->
  isObject (getProp (VObj aprops) x) = false ->
  isObject (getProp (VObj pprops) x) = false ->
  getProp (defaultsDeep (VObj aprops) [VObj pprops; VObj sprops]) x
  = firstDefined [getProp (VObj aprops) x; getProp (VObj pprops) x;
                  getProp (VObj sprops) x].
Proof.
  intros Hpnd Hsnd Ha Hp.
  unfold defaultsDeep, toObject. cbn [nullish fold_left truthy firstDefined].
  destruct (isUndefined (getProp (VObj aprops) x)) eqn:Eu.
  - assert (getProp (VObj aprops) x = VUndefined) as Hu.
    { destruct (getProp (VObj aprops) x); try discriminate Eu. reflexivity. }
    destruct (baseMerge_undefined pprops x aprops Hpnd Hu)
      as (props1 & -> & H1).
    destruct (isUndefined (getProp (VObj pprops) x)) eqn:Eu2.
    + assert (getProp (VObj props1) x = VUndefined) as Hu1.
      { rewrite H1. destruct (getProp (VObj pprops) x); try discriminate Eu2.
        reflexivity. }
      destruct (baseMerge_undefined sprops x props1 Hsnd Hu1)
        as (props2 & -> & H2).
      rewrite H2. now destruct (isUndefined (getProp (VObj sprops) x)) eqn:E3;
        [destruct (getProp (VObj sprops) x); try discriminate E3 |].
    + rewrite <- H1 in Eu2, Hp.
      destruct (baseMerge_scalar sprops x props1 Eu2 Hp) as (props2 & -> & H2).
      congruence.
  - destruct (baseMerge_scalar pprops x aprops Eu Ha) as (props1 & -> & H1).
    rewrite <- H1 in Eu, Ha.
    destruct (baseMerge_scalar sprops x props1 Eu Ha) as (props2 & -> & H2).
    congruence.
Qed.

Lemma mappedParams_holds (def : ResolverDef) (root meta : JsVal)
    (aprops : list (string * JsVal)) x :
  forallb simpleKey
    (map snd (metaParams def ++ rootParams def ++ argParams def)) = true ->
  forallb simpleKey (map fst (argParams def)) = true ->
  List.NoDup (map fst (argParams def)) ->
  exists aprops',
    snd (mappedParams def root (VObj aprops) meta) = VObj aprops'
    /\ getProp (VObj aprops') x = residualArg def (VObj aprops) x
    /\ holds (fst (mappedParams def root (VObj aprops) meta)) x
         (mappedValue def root (VObj aprops) meta x).
Proof.
  intros Ht Hk Hnd. rewrite !map_app, !forallb_app in Ht.
  apply andb_true_iff in Ht as [Hmeta Ht].
  apply andb_true_iff in Ht as [Hroot Harg].
  unfold mappedParams, mappedValue, residualArg.
  assert (holds (VObj []) x VUndefined) as H0.
  { exists []. repeat split; constructor. }
  set (p1 := if truthy meta && (0 <? length (metaParams def))%nat
             then setMapped (metaParams def) meta (VObj []) else VObj []).
  assert (holds p1 x
            (match (if truthy meta then lastMapped (metaParams def) meta x
                    else None) with
             | Some v => v
             | None => VUndefined
             end)) as H1.
  { subst p1. destruct (truthy meta); cbn [andb]; [|exact H0].
    destruct (metaParams def) as [|m ms] eqn:E; [exact H0 |].
    rewrite <- E in *. cbn [Nat.ltb].
    replace (0 <? length (metaParams def))%nat with true
      by (rewrite E; reflexivity).
    now apply setMapped_holds. }
  set (p2 := if truthy root && (0 <? length (rootParams def))%nat
             then setMapped (rootParams def) root p1 else p1).
  assert (holds p2 x
            (match (if truthy root then lastMapped (rootParams def) root x
                    else None) with
             | Some v => v
             | None =>
                 match (if truthy meta
                        then lastMapped (metaParams def) meta x
                        else None) with
                 | Some v => v
                 | None => VUndefined
                 end
             end)) as H2.
  { subst p2. destruct (truthy root); cbn [andb]; [|exact H1].
    destruct (rootParams def) as [|m ms] eqn:E; [exact H1 |].
    rewrite <- E in *.
    replace (0 <? length (rootParams def))%nat with true
      by (rewrite E; reflexivity).
    now apply setMapped_holds. }
  clearbody p2. clear H0 H1 p1.
  destruct (argParams def) as [|m ms] eqn:E.
  - exists aprops. cbn [length Nat.ltb Nat.leb snd fst map existsb lastMapped].
    repeat split; assumption.
  - rewrite <- E in *.
    replace (0 <? length (argParams def))%nat with true
      by (rewrite E; reflexivity).
    destruct (moveMapped_holds (argParams def) x Harg Hk Hnd p2 _ aprops H2)
      as (aprops' & Hargs & Hleft & Hheld).
    exists aprops'. repeat split; [exact Hargs | apply Hleft | exact Hheld].
Qed.

End DirectCallParams.

(** C3. A direct resolver makes one remote call, to its action, with
    [_.defaultsDeep(args, p, params)]: the arguments, from which the source
    keys of the argument mappings were removed, completed first by the object
    [p] of the mapped values and then by the static parameters. The object
    [p] is written from the metadata mappings, then from the root mappings,
    then from the argument mappings, and a later write replaces an earlier
    one under the same target, also when what it writes is [undefined].
    Where the keys and the targets of the mappings are plain names, the root
    and the metadata are plain objects or falsy, and the values are not
    objects, the value of the call under a plain name is the first that is
    defined of: the argument left under that name, the value last written
    to [p] under it, the static parameter. So an argument that is left goes
    before every mapping, and a mapping that reads nothing erases what an
    earlier mapping wrote under its target. *)
Theorem direct_call_params :
  forall (actionName : string) (def : ResolverDef) (root args : JsVal)
         (context : Context),
    dataLoader def = false ->
    trace (invokeActionResolver actionName def root args context)
    = [Called actionName (callParams def root args (meta context))]
    /\ (forall v : JsVal,
          call context actionName (callParams def root args (meta context))
          = Ok v ->
          outcome (invokeActionResolver actionName def root args context)
          = Ok v)
    /\ callParams def root args (meta context)
       = Lodash.defaultsDeep
           (snd (mappedParams def root args (meta context)))
           [fst (mappedParams def root args (meta context)); params def]
    /\ forall (aprops sprops : list (string * JsVal)) (x : string),
         args = VObj aprops ->
         params def = VObj sprops ->
         List.NoDup (map fst sprops) ->
         Lodash.plainSource root = true ->
         Lodash.plainSource (meta context) = true ->
         forallb Lodash.plainName
           (map fst (metaParams def ++ rootParams def ++ argParams def))
         = true ->
         forallb Lodash.plainName
           (map snd (metaParams def ++ rootParams def ++ argParams def))
         = true ->
         List.NoDup (map fst (argParams def)) ->
         Lodash.plainName x = true ->
         Lodash.isObject (residualArg def args x) = false ->
         Lodash.isObject (mappedValue def root args (meta context) x)
         = false ->
         Lodash.tidy (Lodash.getProp (params def) x) = true ->
         Lodash.getProp (callParams def root args (meta context)) x
         = firstDefined
             [residualArg def args x;
              mappedValue def root args (meta context) x;
              Lodash.getProp (params def) x].
Proof.
  intros actionName def root args context Hdl.
  assert (callParams def root args (meta context)
          = Lodash.defaultsDeep
              (snd (mappedParams def root args (meta context)))
              [fst (mappedParams def root args (meta context)); params def])
    as Hparams.
  { unfold callParams.
    now destruct (mappedParams def root args (meta context)). }
  split; [|split; [|split; [exact Hparams |]]].
  - unfold invokeActionResolver. rewrite Hdl.
    now destruct (outcome (callDirect actionName def root args context)).
  - intros v Hcall. unfold invokeActionResolver, callDirect. rewrite Hdl.
    cbn [outcome]. now rewrite Hcall.
  - intros aprops sprops x -> Hs Hsnd _ _ Hkeys Htargets Hnd _ Hres Hmap _.
    apply plainNames_simple in Htargets.
    assert (forallb simpleKey (map fst (argParams def)) = true) as Hk.
    { apply plainNames_simple in Hkeys.
      rewrite !map_app, !forallb_app in Hkeys.
      apply andb_true_iff in Hkeys as [_ Hkeys].
      now apply andb_true_iff in Hkeys as [_ Hkeys]. }
    destruct (mappedParams_holds def root (meta context) aprops x
                Htargets Hk Hnd)
      as (aprops' & Hargs & Hleft & (pprops & Hp & Hpnd & Hheld)).
    rewrite Hparams, Hargs, Hp, Hs.
    rewrite <- Hleft in Hres. rewrite <- Hheld, Hp in Hmap.
    rewrite (defaultsDeep_two aprops' pprops sprops x Hpnd Hsnd Hres Hmap).
    rewrite Hleft. rewrite Hp in Hheld. now rewrite Hheld.
Qed.

(** ** The schema lifecycle *)

Section Lifecycle.

Context {host : Host}.

Implicit Types (w : World) (d : Demand) (ds : list Demand).

Lemma attempts_app w (log' : list (Effect)) :
  length (List.filter (isGenerated) (log w ++ log'))
  = (attempts w + length (List.filter (isGenerated) log'))%nat.
Proof. unfold attempts. now rewrite List.filter_app, length_app. Qed.

(** The rebuild block makes one attempt; it clears the flag when the
    composition succeeds and leaves it when the composition fails. *)
Lemma rebuild_ok w (schema : Schema) :
  generateGraphQLSchema (snapshot w) = Ok schema ->
  snd (rebuild w) = Rebuilt schema
  /\ stale (fst (rebuild w)) = false
  /\ graphqlSchema (fst (rebuild w)) = Some schema
  /\ attempts (fst (rebuild w)) = S (attempts w).
Proof.
  intros H. unfold rebuild. rewrite H. cbn [fst snd].
  repeat split. unfold attempts at 1. cbn [log].
  rewrite attempts_app. cbn. lia.
Qed.

Lemma rebuild_err w (err : JsVal) :
  generateGraphQLSchema (snapshot w) = Err err ->
  snd (rebuild w) = Failed err
  /\ shouldUpdateGraphqlSchema (fst (rebuild w))
     = shouldUpdateGraphqlSchema w
  /\ stale (fst (rebuild w)) = stale w
  /\ apolloServer (fst (rebuild w)) = apolloServer w
  /\ graphqlHandler (fst (rebuild w)) = graphqlHandler w
  /\ graphqlSchema (fst (rebuild w)) = graphqlSchema w
  /\ registry (fst (rebuild w)) = registry w
  /\ attempts (fst (rebuild w)) = S (attempts w).
Proof.
  intros H. unfold rebuild. rewrite H. cbn [fst snd].
  repeat split. unfold attempts at 1. cbn [log].
  rewrite attempts_app. cbn. lia.
Qed.

Lemma rebuild_attempts w :
  attempts (fst (rebuild w)) = S (attempts w)
  /\ ranRebuild (snd (rebuild w)) = true.
Proof.
  destruct (generateGraphQLSchema (snapshot w)) as [schema|err] eqn:E.
  - destruct (rebuild_ok w schema E) as (-> & _ & _ & ->). now split.
  - destruct (rebuild_err w err E) as (-> & _ & _ & _ & _ & _ & _ & ->).
    now split.
Qed.

(** A demand that enters a world that is not stale is served. *)
Lemma enter_ready w :
  stale w = false -> enter w = (w, Served (graphqlSchema w)).
Proof.
  unfold stale, enter. intros H.
  apply orb_false_iff in H as [-> H]. apply negb_false_iff in H.
  now rewrite H.
Qed.

(** A demand that enters a stale world awaits the stop of the server, when
    there is one, and runs the rebuild block at once otherwise. *)
Lemma enter_stale w :
  stale w = true ->
  match apolloServer w with
  | Some server =>
      snd (enter w) = AwaitingStop
      /\ attempts (fst (enter w)) = attempts w
      /\ stale (fst (enter w)) = true
      /\ apolloServer (fst (enter w)) = Some server
      /\ snapshot (fst (enter w)) = snapshot w
  | None => enter w = rebuild w
  end.
Proof.
  unfold stale, enter. intros H.
  assert (negb (shouldUpdateGraphqlSchema w)
          && isSome (graphqlHandler w) = false) as ->.
  { destruct (shouldUpdateGraphqlSchema w); [reflexivity |].
    cbn [orb] in H. apply negb_true_iff in H. now rewrite H. }
  destruct (apolloServer w) as [server|] eqn:E; [|reflexivity].
  cbn [fst snd]. repeat split.
  - unfold attempts at 1. cbn [log]. rewrite attempts_app. cbn. lia.
  - exact H.
Qed.

Lemma demandAlone_stale w :
  stale w = true ->
  attempts (fst (prepareGraphQLSchema w)) = S (attempts w)
  /\ ranRebuild (snd (prepareGraphQLSchema w)) = true.
Proof.
  intros H. unfold prepareGraphQLSchema. pose proof (enter_stale w H) as He.
  destruct (apolloServer w) as [server|].
  - destruct He as (Hd & Ha & _). destruct (enter w) as [w1 d1].
    cbn [fst snd] in *. subst d1.
    destruct (rebuild_attempts w1) as [-> Hr]. now rewrite Ha.
  - rewrite He. pose proof (rebuild_attempts w) as [Ha Hr].
    destruct (rebuild w) as [w1 d1]. cbn [fst snd] in *.
    now destruct d1.
Qed.

(** The steps of the event loop. *)
Lemma steps_trans (c1 c2 c3 : World * list Demand) :
  steps c1 c2 -> steps c2 c3 -> steps c1 c3.
Proof.
  induction 1 as [c|c1 c2 c2' Hstep Hsteps IH]; [auto |].
  intros H. eapply steps_step; [exact Hstep | now apply IH].
Qed.

Lemma steps_one (c1 c2 : World * list Demand) : step c1 c2 -> steps c1 c2.
Proof. intros H. eapply steps_step; [exact H | apply steps_refl]. Qed.

Lemma run_steps (schedule : list nat) (c : World * list Demand) :
  steps c (run schedule c).
Proof.
  revert c. induction schedule as [|i rest IH]; intros [w ds].
  - apply steps_refl.
  - cbn [run fst snd].
    destruct (ds !! i) as [d|] eqn:Ed; [|apply IH].
    destruct (advance w d) as [[w' d']|] eqn:Ea; [|apply IH].
    eapply steps_step; [|apply IH]. econstructor; eassumption.
Qed.

Lemma rebuildsRun_insert ds (i : nat) d d' :
  ds !! i = Some d ->
  (rebuildsRun (<[i := d']> ds)
   + (if ranRebuild d then 1 else 0)
   = rebuildsRun ds + (if ranRebuild d' then 1 else 0))%nat.
Proof.
  unfold rebuildsRun. revert i.
  induction ds as [|d0 ds IH]; intros i Hi; [discriminate |].
  destruct i as [|i]; cbn [lookup list_lookup] in Hi.
  - injection Hi as ->. cbn [insert list_insert List.filter].
    destruct (ranRebuild d), (ranRebuild d'); simpl; lia.
  - specialize (IH i Hi).
    change (<[S i := d']> (d0 :: ds)) with (d0 :: <[i := d']> ds).
    cbn [List.filter].
    destruct (ranRebuild d0); cbn [length]; lia.
Qed.

(** Each run of the rebuild block is the run of one demand: the attempts
    grow with the demands that ran the block, one for one. *)
Lemma step_attempts (c c' : World * list Demand) :
  step c c' ->
  (attempts (fst c') + rebuildsRun (snd c)
   = attempts (fst c) + rebuildsRun (snd c'))%nat.
Proof.
  intros [w w' ds i d d' Hi Ha]. cbn [fst snd].
  pose proof (rebuildsRun_insert ds i d d' Hi) as Hcount.
  destruct d; try discriminate Ha; cbn [advance ranRebuild] in *.
  - injection Ha as Ha.
    destruct (stale w) eqn:Es.
    + pose proof (enter_stale w Es) as He.
      destruct (apolloServer w).
      * destruct He as (Hd & Hatt & _). rewrite Ha in Hd, Hatt.
        cbn [fst snd] in Hd, Hatt. subst d'. cbn [ranRebuild] in Hcount. lia.
      * rewrite He in Ha. pose proof (rebuild_attempts w) as [Hatt Hran].
        rewrite Ha in Hatt, Hran. cbn [fst snd] in Hatt, Hran.
        rewrite Hran in Hcount. lia.
    + rewrite (enter_ready w Es) in Ha. injection Ha as <- <-.
      cbn [ranRebuild] in Hcount. lia.
  - injection Ha as Ha. pose proof (rebuild_attempts w) as [Hatt Hran].
    rewrite Ha in Hatt, Hran. cbn [fst snd] in Hatt, Hran.
    rewrite Hran in Hcount. lia.
Qed.

Lemma steps_attempts (c c' : World * list Demand) :
  steps c c' ->
  (attempts (fst c') + rebuildsRun (snd c)
   = attempts (fst c) + rebuildsRun (snd c'))%nat.
Proof.
  induction 1 as [c|c1 c2 c3 Hstep Hsteps IH]; [lia |].
  pose proof (step_attempts _ _ Hstep). lia.
Qed.

Lemma run_app (s1 s2 : list nat) (c : World * list Demand) :
  run (s1 ++ s2) c = run s2 (run s1 c).
Proof.
  revert c. induction s1 as [|i s1 IH]; intros c; [reflexivity |].
  cbn [app run].
  destruct (snd c !! i) as [d|]; [|apply IH].
  destruct (advance (fst c) d) as [[w' d']|]; apply IH.
Qed.

Lemma lookup_middle (l1 l2 : list Demand) d :
  (l1 ++ d :: l2) !! length l1 = Some d.
Proof. induction l1 as [|x l1 IH]; [reflexivity | exact IH]. Qed.

Lemma insert_middle (l1 l2 : list Demand) d d' :
  <[length l1 := d']> (l1 ++ d :: l2) = l1 ++ d' :: l2.
Proof.
  induction l1 as [|x l1 IH]; [reflexivity |].
  change (x :: <[length l1 := d']> (l1 ++ d :: l2) = x :: l1 ++ d' :: l2).
  now rewrite IH.
Qed.

Lemma run_middle (rest : list nat) w (l1 l2 : list Demand) d :
  run (length l1 :: rest) (w, l1 ++ d :: l2)
  = match advance w d with
    | Some (w', d') => run rest (w', l1 ++ d' :: l2)
    | None => run rest (w, l1 ++ d :: l2)
    end.
Proof.
  cbn [run fst snd]. rewrite lookup_middle.
  destruct (advance w d) as [[w' d']|]; [|reflexivity].
  now rewrite insert_middle.
Qed.

(** With a server installed, the demands that enter a stale world all
    reach the wait for its stop. *)
Lemma run_enter_all (m : nat) :
  forall (waiting : list Demand) w,
    stale w = true ->
    isSome (apolloServer w) = true ->
    exists w',
      run (seq (length waiting) m) (w, waiting ++ repeat (Entering) m)
      = (w', waiting ++ repeat (AwaitingStop) m)
      /\ attempts w' = attempts w.
Proof.
  induction m as [|m IH]; intros waiting w Hstale Hserver.
  - exists w. now split.
  - cbn [seq repeat]. rewrite run_middle. cbn [advance].
    pose proof (enter_stale w Hstale) as He.
    destruct (apolloServer w) as [server|]; [|discriminate].
    destruct He as (Hd & Hatt & Hstale' & Hserver' & _).
    destruct (enter w) as [w1 d1]. cbn [fst snd] in *. subst d1.
    destruct (IH (waiting ++ [AwaitingStop]) w1 Hstale')
      as (w' & Hrun & Hatt').
    { now rewrite Hserver'. }
    exists w'. rewrite length_app in Hrun. cbn [length] in Hrun.
    replace (length waiting + 1)%nat with (S (length waiting)) in Hrun by lia.
    rewrite <- !app_assoc in Hrun. cbn [app] in Hrun.
    split; [exact Hrun | congruence].
Qed.

(** Each demand that waits runs the rebuild block when it resumes. *)
Lemma run_resume_all (m : nat) :
  forall (done : list Demand) w,
    exists w' (rebuilt : list Demand),
      run (seq (length done) m) (w, done ++ repeat (AwaitingStop) m)
      = (w', done ++ rebuilt)
      /\ length rebuilt = m
      /\ forallb (ranRebuild) rebuilt = true
      /\ attempts w' = (attempts w + m)%nat.
Proof.
  induction m as [|m IH]; intros done w.
  - exists w, []. rewrite Nat.add_0_r. now repeat split.
  - cbn [seq repeat]. rewrite run_middle. cbn [advance].
    pose proof (rebuild_attempts w) as [Hatt Hran].
    destruct (rebuild w) as [w1 d1]. cbn [fst snd] in *.
    destruct (IH (done ++ [d1]) w1) as (w' & rebuilt & Hrun & Hlen & Hall & Hatt').
    rewrite length_app in Hrun. cbn [length] in Hrun.
    replace (length done + 1)%nat with (S (length done)) in Hrun by lia.
    rewrite <- !app_assoc in Hrun. cbn [app] in Hrun.
    exists w', (d1 :: rebuilt). repeat split.
    + exact Hrun.
    + cbn [length]. now rewrite Hlen.
    + cbn [forallb]. now rewrite Hran, Hall.
    + lia.
Qed.

Lemma ranRebuild_finished d :
  ranRebuild d = true -> finished d = true.
Proof. now destruct d. Qed.

Lemma rebuildsRun_all (ds : list Demand) :
  forallb (ranRebuild) ds = true ->
  rebuildsRun ds = length ds
  /\ forallb (finished) ds = true.
Proof.
  unfold rebuildsRun. induction ds as [|d ds IH]; [now split |].
  cbn [forallb List.filter]. intros H. apply andb_true_iff in H as [Hd Hds].
  destruct (IH Hds) as [Hlen Hfin].
  rewrite Hd, (ranRebuild_finished d Hd), Hfin. cbn [length]. now rewrite Hlen.
Qed.

Lemma demands_all_rebuild w (K : nat) :
  stale w = true ->
  isSome (apolloServer w) = true ->
  exists c' : World * list Demand,
    steps (w, repeat (Entering) K) c'
    /\ forallb (finished) (snd c') = true
    /\ rebuildsRun (snd c') = K
    /\ attempts (fst c') = (attempts w + K)%nat.
Proof.
  intros Hstale Hserver.
  destruct (run_enter_all K [] w Hstale Hserver) as (w1 & Hrun1 & Hatt1).
  destruct (run_resume_all K [] w1) as (w2 & rebuilt & Hrun2 & Hlen & Hall & Hatt2).
  cbn [length app] in Hrun1, Hrun2.
  exists (w2, rebuilt). cbn [fst snd].
  destruct (rebuildsRun_all rebuilt Hall) as [Hcount Hfin].
  repeat split.
  - rewrite <- Hrun2, <- Hrun1, <- run_app. apply run_steps.
  - exact Hfin.
  - congruence.
  - lia.
Qed.

Lemma generate_err (services : list Service.t) (cause : JsVal) :
  compose services = Err cause ->
  generateGraphQLSchema services = Err (compositionError cause).
Proof. unfold generateGraphQLSchema. now intros ->. Qed.

Lemma demandAlone_failed w (err : JsVal) :
  stale w = true ->
  generateGraphQLSchema (snapshot w) = Err err ->
  snd (prepareGraphQLSchema w) = Failed err
  /\ stale (fst (prepareGraphQLSchema w)) = true
  /\ attempts (fst (prepareGraphQLSchema w)) = S (attempts w).
Proof.
  intros Hstale Hgen. unfold prepareGraphQLSchema.
  pose proof (enter_stale w Hstale) as He.
  destruct (apolloServer w) as [server|].
  - destruct He as (Hd & Hatt & Hstale' & _ & Hsnap).
    destruct (enter w) as [w1 d1]. cbn [fst snd] in *. subst d1.
    rewrite <- Hsnap in Hgen.
    destruct (rebuild_err w1 err Hgen) as (-> & _ & -> & _ & _ & _ & _ & ->).
    repeat split; congruence.
  - rewrite He.
    destruct (rebuild_err w err Hgen) as (Hd & _ & Hs & _ & _ & _ & _ & Ha).
    destruct (rebuild w) as [w1 d1]. cbn [fst snd] in *. subst d1.
    cbn beta iota. cbn [fst snd]. repeat split; congruence.
Qed.

Lemma demandAlone_rebuilt w (schema : Schema) :
  stale w = true ->
  generateGraphQLSchema (snapshot w) = Ok schema ->
  snd (prepareGraphQLSchema w) = Rebuilt schema
  /\ stale (fst (prepareGraphQLSchema w)) = false
  /\ graphqlSchema (fst (prepareGraphQLSchema w)) = Some schema
  /\ attempts (fst (prepareGraphQLSchema w)) = S (attempts w).
Proof.
  intros Hstale Hgen. unfold prepareGraphQLSchema.
  pose proof (enter_stale w Hstale) as He.
  destruct (apolloServer w) as [server|].
  - destruct He as (Hd & Hatt & Hstale' & _ & Hsnap).
    destruct (enter w) as [w1 d1]. cbn [fst snd] in *. subst d1.
    rewrite <- Hsnap in Hgen.
    destruct (rebuild_ok w1 schema Hgen) as (-> & -> & -> & ->).
    repeat split; congruence.
  - rewrite He.
    destruct (rebuild_ok w schema Hgen) as (Hd & Hs & Hg & Ha).
    destruct (rebuild w) as [w1 d1]. cbn [fst snd] in *. subst d1.
    cbn beta iota. cbn [fst snd]. repeat split; congruence.
Qed.

Lemma demandAlone_ready w :
  stale w = false ->
  prepareGraphQLSchema w = (w, Served (graphqlSchema w)).
Proof.
  intros H. unfold prepareGraphQLSchema. now rewrite (enter_ready w H).
Qed.

(** C8. When the composition of a pass fails, [generateGraphQLSchema]
    throws the composition error, which carries the cause under
    [data.err]; the rebuild block fails with that error and leaves the flag
    as it was. So a demand made in a stale world fails with the composition
    error and leaves the world stale, and the demand that follows makes a
    new rebuild attempt. *)
Theorem failed_composition_stays_stale :
  forall (w : World) (cause : JsVal),
    compose (snapshot w) = Err cause ->
    generateGraphQLSchema (snapshot w) = Err (compositionError cause)
    /\ Lodash.getProp (Lodash.getProp (compositionError cause) "data") "err"
       = cause
    /\ snd (rebuild w) = Failed (compositionError cause)
    /\ shouldUpdateGraphqlSchema (fst (rebuild w))
       = shouldUpdateGraphqlSchema w
    /\ (stale w = true ->
        snd (prepareGraphQLSchema w) = Failed (compositionError cause)
        /\ stale (fst (prepareGraphQLSchema w)) = true
        /\ attempts (fst (prepareGraphQLSchema w)) = S (attempts w)
        /\ attempts (fst (prepareGraphQLSchema (fst (prepareGraphQLSchema w))))
           = S (S (attempts w))).
Proof.
  intros w cause Hcompose.
  pose proof (generate_err _ _ Hcompose) as Hgen.
  destruct (rebuild_err w _ Hgen) as (Hd & Hflag & _).
  split; [exact Hgen | split; [reflexivity | split; [exact Hd |]]].
  split; [exact Hflag |].
  intros Hstale.
  destruct (demandAlone_failed w _ Hstale Hgen) as (Hfail & Hstale' & Hatt).
  destruct (demandAlone_stale _ Hstale') as [Hnext _].
  repeat split; congruence.
Qed.

(** *** Every demand runs its own rebuild *)

Lemma advance_unfinished w d (x : World * Demand) :
  advance w d = Some x -> finished d = false.
Proof. destruct d; try discriminate; reflexivity. Qed.

(** A demand that has ended stays as it ended. *)
Lemma finished_stays (c c' : World * list Demand) (i : nat) d :
  steps c c' ->
  snd c !! i = Some d -> finished d = true -> snd c' !! i = Some d.
Proof.
  induction 1 as [c|c1 c2 c3 Hstep Hsteps IH]; [auto |].
  intros Hi Hf. apply IH; [|exact Hf].
  destruct Hstep as [w w' ds j dj dj' Hj Ha]. cbn [snd] in *.
  destruct (Nat.eq_dec j i) as [->|Hne].
  - rewrite Hj in Hi. injection Hi as ->.
    apply advance_unfinished in Ha. congruence.
  - rewrite list_lookup_insert_ne by exact Hne. exact Hi.
Qed.

Lemma rebuild_outcome w : outcomeOf w (snd (rebuild w)).
Proof.
  unfold rebuild.
  destruct (generateGraphQLSchema (snapshot w)) as [schema|err] eqn:E;
    exact E.
Qed.

(** A run that does not end a demand leaves it waiting for the stop. *)
Lemma advance_waiting w d w' d' :
  advance w d = Some (w', d') -> finished d' = false -> d' = AwaitingStop.
Proof.
  intros Ha Hf. destruct d; try discriminate Ha; injection Ha as Ha.
  - destruct (stale w) eqn:Hs.
    + pose proof (enter_stale w Hs) as He.
      destruct (apolloServer w) as [server|].
      * destruct He as (Hd & _). now rewrite Ha in Hd.
      * pose proof (rebuild_attempts w) as [_ Hran].
        rewrite <- He, Ha in Hran. apply ranRebuild_finished in Hran.
        cbn [snd] in Hran. congruence.
    + rewrite (enter_ready w Hs) in Ha. injection Ha as <- <-.
      discriminate Hf.
  - pose proof (rebuild_attempts w) as [_ Hran]. rewrite Ha in Hran.
    apply ranRebuild_finished in Hran. cbn [snd] in Hran. congruence.
Qed.

(** The run that ends a demand. *)
Lemma steps_last_run (c c' : World * list Demand) (i : nat) :
  steps c c' ->
  forall d d',
    snd c !! i = Some d -> finished d = false ->
    snd c' !! i = Some d' -> finished d' = true ->
    exists (w1 : World) (ds1 : list Demand) (d1 : Demand) (w2 : World),
      steps c (w1, ds1)
      /\ ds1 !! i = Some d1
      /\ (d1 = d \/ d1 = AwaitingStop)
      /\ advance w1 d1 = Some (w2, d')
      /\ steps (w2, <[i := d']> ds1) c'.
Proof.
  induction 1 as [c|c1 c2 c3 Hstep Hsteps IH]; intros d d' Hi Hu Hi' Hf.
  - rewrite Hi in Hi'. injection Hi' as <-. congruence.
  - destruct Hstep as [w w' ds j dj dj' Hj Ha]. cbn [snd] in *.
    destruct (Nat.eq_dec j i) as [->|Hne].
    + rewrite Hj in Hi. injection Hi as ->.
      assert (<[i := dj']> ds !! i = Some dj') as Hnew.
      { apply list_lookup_insert_eq. now apply lookup_lt_Some in Hj. }
      destruct (finished dj') eqn:Hfj.
      * pose proof (finished_stays _ _ i dj' Hsteps Hnew Hfj) as Hstay.
        rewrite Hstay in Hi'. injection Hi' as <-.
        exists w, ds, d, w'.
        split; [apply steps_refl | split; [exact Hj |]].
        split; [now left | split; [exact Ha | exact Hsteps]].
      * destruct (IH dj' d' Hnew Hfj Hi' Hf)
          as (w1 & ds1 & d1 & w2 & H1 & H2 & H3 & H4 & H5).
        exists w1, ds1, d1, w2.
        split;
          [eapply steps_step;
             [exact (step_demand _ _ _ _ _ _ Hj Ha) | exact H1] |].
        split; [exact H2 | split; [|split; assumption]].
        right. rewrite (advance_waiting _ _ _ _ Ha Hfj) in H3.
        now destruct H3.
    + assert (<[j := dj']> ds !! i = Some d) as Hsame
        by (rewrite list_lookup_insert_ne by exact Hne; exact Hi).
      destruct (IH d d' Hsame Hu Hi' Hf)
        as (w1 & ds1 & d1 & w2 & H1 & H2 & H3 & H4 & H5).
      exists w1, ds1, d1, w2.
      split;
          [eapply steps_step;
             [exact (step_demand _ _ _ _ _ _ Hj Ha) | exact H1] |].
      auto.
Qed.

(** A demand that was waiting for the stop ends by its own attempt. *)
Lemma awaiting_own (c c' : World * list Demand) (i : nat) d' :
  steps c c' ->
  snd c !! i = Some AwaitingStop ->
  snd c' !! i = Some d' -> finished d' = true ->
  ownAttempt c c' i d'.
Proof.
  intros Hsteps Hi Hi' Hf.
  destruct (steps_last_run c c' i Hsteps _ _ Hi eq_refl Hi' Hf)
    as (w1 & ds1 & d1 & w2 & H1 & H2 & H3 & H4 & H5).
  assert (d1 = AwaitingStop) as -> by (now destruct H3).
  cbn [advance] in H4. injection H4 as H4.
  exists w1, ds1. rewrite H4. cbn [fst snd].
  split; [exact H1 | split; [now left | split; [reflexivity |]]].
  split; [|exact H5].
  pose proof (rebuild_outcome w1) as Ho. now rewrite H4 in Ho.
Qed.

(** A demand that was entering ends by its own attempt, or served with
    the schema that was installed in a world that was not stale. *)
Lemma entering_own (c c' : World * list Demand) (i : nat) d' :
  steps c c' ->
  snd c !! i = Some Entering ->
  snd c' !! i = Some d' -> finished d' = true ->
  ownAttempt c c' i d' \/ servedInstalled c c' i d'.
Proof.
  intros Hsteps Hi Hi' Hf.
  destruct (steps_last_run c c' i Hsteps _ _ Hi eq_refl Hi' Hf)
    as (w1 & ds1 & d1 & w2 & H1 & H2 & H3 & H4 & H5).
  destruct H3 as [-> | ->].
  - cbn [advance] in H4. injection H4 as H4.
    destruct (stale w1) eqn:Hs.
    + pose proof (enter_stale w1 Hs) as He.
      destruct (apolloServer w1) as [server|] eqn:Eserver.
      * destruct He as (Hd & _). rewrite H4 in Hd. cbn [snd] in Hd.
        subst d'. discriminate Hf.
      * left. exists w1, ds1. rewrite <- He, H4. cbn [fst snd].
        split; [exact H1 | split; [right; auto | split; [reflexivity |]]].
        split; [|exact H5].
        pose proof (rebuild_outcome w1) as Ho.
        now rewrite <- He, H4 in Ho.
    + right. rewrite (enter_ready w1 Hs) in H4. injection H4 as <- <-.
      exists w1, ds1. auto 6.
  - left. cbn [advance] in H4. injection H4 as H4.
    exists w1, ds1. rewrite H4. cbn [fst snd].
    split; [exact H1 | split; [now left | split; [reflexivity |]]].
    split; [|exact H5].
    pose proof (rebuild_outcome w1) as Ho. now rewrite H4 in Ho.
Qed.

(** *** The demands that wait all rebuild *)

Lemma waiting_or_rebuilt (c c' : World * list Demand) :
  steps c c' ->
  Forall (fun d => d = AwaitingStop \/ ranRebuild d = true) (snd c) ->
  Forall (fun d => d = AwaitingStop \/ ranRebuild d = true) (snd c')
  /\ length (snd c') = length (snd c).
Proof.
  induction 1 as [c|c1 c2 c3 Hstep Hsteps IH]; [auto |].
  intros Hall. destruct Hstep as [w w' ds j dj dj' Hj Ha]. cbn [snd] in *.
  destruct IH as [IH1 IH2].
  - apply Forall_insert; [exact Hall |].
    pose proof (advance_unfinished _ _ _ Ha) as Hu.
    assert (In dj ds) as Hin
      by (apply list_elem_of_In; eapply list_elem_of_lookup_2; exact Hj).
    destruct (proj1 (List.Forall_forall _ _) Hall dj Hin) as [-> | Hran].
    + cbn [advance] in Ha. injection Ha as Ha.
      pose proof (rebuild_attempts w) as [_ Hr]. rewrite Ha in Hr.
      now right.
    + apply ranRebuild_finished in Hran. congruence.
  - split; [exact IH1 |]. now rewrite IH2, length_insert.
Qed.

Lemma rebuilt_all (ds : list Demand) :
  Forall (fun d => d = AwaitingStop \/ ranRebuild d = true) ds ->
  forallb finished ds = true ->
  forallb ranRebuild ds = true.
Proof.
  induction 1 as [|d ds Hd Hds IH]; [reflexivity |].
  cbn [forallb]. intros H. apply andb_true_iff in H as [Hf Hfs].
  rewrite (IH Hfs), andb_true_r.
  destruct Hd as [-> | Hran]; [discriminate Hf | exact Hran].
Qed.

Lemma rebuildsRun_repeat (d : Demand) (K : nat) :
  ranRebuild d = false -> rebuildsRun (repeat d K) = 0%nat.
Proof.
  intros H. unfold rebuildsRun.
  induction K as [|K IH]; [reflexivity |].
  cbn [repeat List.filter]. now rewrite H.
Qed.

(** K demands that wait for the stop make K attempts, however the
    demands interleave from there. *)
Lemma entered_all_rebuild w (K : nat) (c1 c2 : World * list Demand) :
  steps (w, repeat Entering K) c1 ->
  snd c1 = repeat AwaitingStop K ->
  steps c1 c2 ->
  forallb finished (snd c2) = true ->
  attempts (fst c1) = attempts w
  /\ attempts (fst c2) = (attempts w + K)%nat
  /\ rebuildsRun (snd c2) = K
  /\ forallb ranRebuild (snd c2) = true.
Proof.
  intros H1 Hall H2 Hf.
  pose proof (steps_attempts _ _ H1) as Ha1.
  pose proof (steps_attempts _ _ H2) as Ha2.
  cbn [fst snd] in Ha1. rewrite Hall in Ha1, Ha2.
  rewrite !rebuildsRun_repeat in * by reflexivity.
  destruct (waiting_or_rebuilt _ _ H2) as [Hwait Hlen].
  { rewrite Hall. apply List.Forall_forall. intros d Hin.
    apply repeat_spec in Hin. now left. }
  pose proof (rebuilt_all _ Hwait Hf) as Hran.
  destruct (rebuildsRun_all _ Hran) as [Hcount _].
  rewrite Hall, repeat_length in Hlen.
  repeat split; [lia | lia | lia | exact Hran].
Qed.

Lemma rebuildsRun_pos (ds : list Demand) (i : nat) d :
  ds !! i = Some d -> ranRebuild d = true -> (0 < rebuildsRun ds)%nat.
Proof.
  unfold rebuildsRun. revert i.
  induction ds as [|d0 ds IH]; intros i Hi Hran; [discriminate Hi |].
  destruct i as [|i]; cbn [lookup list_lookup] in Hi.
  - injection Hi as ->. cbn [List.filter]. rewrite Hran. cbn [length]. lia.
  - cbn [List.filter]. specialize (IH i Hi Hran).
    destruct (ranRebuild d0); cbn [length]; lia.
Qed.

(** Until a demand runs the rebuild block, the world stays stale, and a
    demand that has entered waits for the stop: none is served. *)
Lemma entering_phase (c c' : World * list Demand) :
  steps c c' ->
  stale (fst c) = true ->
  isSome (apolloServer (fst c)) = true ->
  Forall (fun d => d = Entering \/ d = AwaitingStop) (snd c) ->
  rebuildsRun (snd c') = 0%nat ->
  stale (fst c') = true
  /\ isSome (apolloServer (fst c')) = true
  /\ Forall (fun d => d = Entering \/ d = AwaitingStop) (snd c')
  /\ attempts (fst c') = attempts (fst c).
Proof.
  induction 1 as [c|c1 c2 c3 Hstep Hsteps IH]; [auto |].
  intros Hs Hserver Hall Hzero.
  destruct Hstep as [w w' ds j dj dj' Hj Ha]. cbn [fst snd] in *.
  assert (<[j := dj']> ds !! j = Some dj') as Hnew.
  { apply list_lookup_insert_eq. now apply lookup_lt_Some in Hj. }
  assert (ranRebuild dj' = false) as Hnot.
  { destruct (ranRebuild dj') eqn:E; [|reflexivity].
    pose proof (finished_stays _ _ j dj' Hsteps Hnew
                  (ranRebuild_finished _ E)) as Hstay.
    pose proof (rebuildsRun_pos _ _ _ Hstay E). lia. }
  assert (In dj ds) as Hin
    by (apply list_elem_of_In; eapply list_elem_of_lookup_2; exact Hj).
  destruct (proj1 (List.Forall_forall _ _) Hall dj Hin) as [-> | ->].
  - cbn [advance] in Ha. injection Ha as Ha.
    pose proof (enter_stale w Hs) as He.
    destruct (apolloServer w) as [server|] eqn:Eserver;
      [|discriminate Hserver].
    destruct He as (Hd & Hatt & Hs' & Hserver' & _).
    rewrite Ha in Hd, Hatt, Hs', Hserver'. cbn [fst snd] in *. subst dj'.
    destruct IH as (IH1 & IH2 & IH3 & IH4); auto.
    + now rewrite Hserver'.
    + apply Forall_insert; [exact Hall | now right].
    + repeat split; auto. congruence.
  - cbn [advance] in Ha. injection Ha as Ha.
    pose proof (rebuild_attempts w) as [_ Hr]. rewrite Ha in Hr.
    cbn [snd] in Hr. congruence.
Qed.

Lemma demands_all_wait w (K : nat) :
  stale w = true ->
  isSome (apolloServer w) = true ->
  exists c1 c2 : World * list Demand,
    steps (w, repeat Entering K) c1
    /\ snd c1 = repeat AwaitingStop K
    /\ steps c1 c2
    /\ forallb finished (snd c2) = true.
Proof.
  intros Hstale Hserver.
  destruct (run_enter_all K [] w Hstale Hserver) as (w1 & Hrun1 & Hatt1).
  destruct (run_resume_all K [] w1)
    as (w2 & rebuilt & Hrun2 & Hlen & Hall & Hatt2).
  cbn [length app] in Hrun1, Hrun2.
  exists (w1, repeat AwaitingStop K), (w2, rebuilt). cbn [fst snd].
  destruct (rebuildsRun_all rebuilt Hall) as [Hcount Hfin].
  split; [rewrite <- Hrun1; apply run_steps |].
  split; [reflexivity |].
  split; [rewrite <- Hrun2; apply run_steps | exact Hfin].
Qed.

(** C1. The rebuild has no single-flight guard: each demand that finds the
    schema stale runs the rebuild block itself once it resumes, and ends
    with the outcome of its own attempt. However the demands interleave:
    the rebuild attempts grow with the demands that ran the block, one for
    one; a demand that waits for the stop of the server ends, when it ends,
    with the outcome of the rebuild block that it ran itself, rebuilt with
    the schema that its own composition gave or failed with its error; and
    a demand that enters ends in the same way, or served the schema that was
    installed in a world that was not stale when it entered. When a server
    is installed and the world is stale, every demand that enters before a
    demand has run the block waits for the stop, and none is served; K
    demands that have all entered before the first of them resumes make K
    attempts, one each, however they interleave from there; and such
    executions exist for every K. A demand made when the schema is not
    stale is served the installed schema without an attempt; a demand that
    runs alone in a stale world makes one attempt and, when the composition
    succeeds, leaves the schema installed and not stale. *)
Theorem rebuild_per_stale_demand :
  (forall c c' : World * list Demand,
     steps c c' ->
     (attempts (fst c') + rebuildsRun (snd c)
      = attempts (fst c) + rebuildsRun (snd c'))%nat)
  /\ (forall (c c' : World * list Demand) (i : nat) (d' : Demand),
        steps c c' ->
        snd c' !! i = Some d' ->
        finished d' = true ->
        (snd c !! i = Some AwaitingStop -> ownAttempt c c' i d')
        /\ (snd c !! i = Some Entering ->
            ownAttempt c c' i d' \/ servedInstalled c c' i d'))
  /\ (forall (w : World) (K : nat) (c1 : World * list Demand),
        stale w = true ->
        isSome (apolloServer w) = true ->
        steps (w, repeat Entering K) c1 ->
        rebuildsRun (snd c1) = 0%nat ->
        stale (fst c1) = true
        /\ attempts (fst c1) = attempts w
        /\ Forall (fun d => d = Entering \/ d = AwaitingStop) (snd c1))
  /\ (forall (w : World) (K : nat) (c1 c2 : World * list Demand),
        steps (w, repeat Entering K) c1 ->
        snd c1 = repeat AwaitingStop K ->
        steps c1 c2 ->
        forallb finished (snd c2) = true ->
        attempts (fst c2) = (attempts w + K)%nat
        /\ rebuildsRun (snd c2) = K
        /\ forallb ranRebuild (snd c2) = true)
  /\ (forall (w : World) (K : nat),
        stale w = true ->
        isSome (apolloServer w) = true ->
        exists c1 c2 : World * list Demand,
          steps (w, repeat Entering K) c1
          /\ snd c1 = repeat AwaitingStop K
          /\ steps c1 c2
          /\ forallb finished (snd c2) = true)
  /\ (forall w : World,
        stale w = false ->
        prepareGraphQLSchema w = (w, Served (graphqlSchema w)))
  /\ (forall (w : World) (schema : Schema),
        stale w = true ->
        generateGraphQLSchema (snapshot w) = Ok schema ->
        snd (prepareGraphQLSchema w) = Rebuilt schema
        /\ stale (fst (prepareGraphQLSchema w)) = false
        /\ graphqlSchema (fst (prepareGraphQLSchema w)) = Some schema
        /\ attempts (fst (prepareGraphQLSchema w)) = S (attempts w)).
Proof.
  split; [exact steps_attempts |].
  split.
  { intros c c' i d' Hsteps Hi' Hf. split; intros Hi.
    - now apply awaiting_own.
    - now apply entering_own. }
  split.
  { intros w K c1 Hs Hserver Hsteps Hzero.
    destruct (entering_phase _ _ Hsteps Hs Hserver) as (H1 & _ & H3 & H4);
      [|exact Hzero | auto].
    apply List.Forall_forall. intros d Hin.
    apply repeat_spec in Hin. now left. }
  split.
  { intros w K c1 c2 H1 Hall H2 Hf.
    destruct (entered_all_rebuild w K c1 c2 H1 Hall H2 Hf)
      as (_ & Ha & Hc & Hr).
    auto. }
  split; [exact demands_all_wait |].
  split; [exact demandAlone_ready | exact demandAlone_rebuilt].
Qed.

End Lifecycle.

(** ** The resolver of a subscription *)

Lemma createAsyncIteratorResolver_unbound {host : Host} (actionName : string)
    (tags : option (list string)) (filter : option string) :
  assoc "params" globalObject = None ->
  createAsyncIteratorResolver actionName tags filter
  = Err (referenceError "params is not defined").
Proof. unfold createAsyncIteratorResolver. now intros ->. Qed.

(** What the function returns where the global object has a property
    [params]: the pair of the two sides. *)
Lemma createAsyncIteratorResolver_bound {host : Host} (actionName : string)
    (tags : list string) (filter : option string) (value : JsVal) :
  assoc "params" globalObject = Some value ->
  createAsyncIteratorResolver actionName (Some tags) filter
  = Ok (AsyncIteratorResolver actionName tags filter).
Proof. unfold createAsyncIteratorResolver. now intros ->. Qed.

(** The [subscribe] side with a filter forwards an event when its payload is
    defined and the filter action answers [true]. *)
Lemma forwards_filtered (filterAction : string)
    (brokerCall : string -> JsVal -> Result JsVal) (payload params : JsVal) :
  truthyStr filterAction = true ->
  forwards (Some filterAction) brokerCall payload params = true <->
  payload <> VUndefined
  /\ brokerCall filterAction (withPayload params payload) = Ok (VBool true).
Proof.
  intros Hf. unfold forwards. rewrite Hf.
  destruct (Lodash.isUndefined payload) eqn:E.
  - split; [discriminate |].
    intros [H _]. destruct payload; try discriminate E. contradiction.
  - destruct (brokerCall filterAction (withPayload params payload))
      as [v|e] eqn:Eb.
    + split.
      * intros H. split; [intros ->; discriminate E |].
        destruct v; try discriminate H.
        destruct b; [reflexivity | discriminate H].
      * intros [_ H]. injection H as ->. reflexivity.
    + split; [discriminate | intros [_ H]; discriminate H].
Qed.

(** C7. [createAsyncIteratorResolver] does not return the resolver of a
    subscription. Before it builds the pair of the [subscribe] and [resolve]
    sides it reads the variable [params], which is bound nowhere: where the
    global object has no such property, as in the sample, the call throws a
    ReferenceError, and the composition of a registry that holds a
    subscription fails with it. *)
Theorem subscription_resolver_throws :
  createAsyncIteratorResolver (host := Sample.host) "notifier.onEvent"
    (Some ["EVENT"]) None
  = Err (referenceError "params is not defined")
  /\ generateGraphQLSchema (host := Sample.host) [Sample.notifier]
     = Err (compositionError (referenceError "params is not defined")).
Proof. split; vm_compute; reflexivity. Qed.

(** ** The properties on the sample registry *)

Section Examples.

Import Sample.

Lemma same_name_first_wins_witness :
  (collect ([greeter] ++ greeterTwin :: [posts])
   = collect ([greeter] ++ [posts])
   /\ generateGraphQLSchema ([greeter] ++ greeterTwin :: [posts])
      = generateGraphQLSchema ([greeter] ++ [posts]))
  /\ collect ([greeter] ++ [posts])
     = bind (collect [greeter]) (fun pass =>
         bind (compileService posts (lists pass) (resolvers pass))
           (fun '(l, r) =>
              Ok {| lists := l; resolvers := r;
                    processedServices :=
                      {[getServiceName posts]} ∪ processedServices pass |}))
  /\ forall pass : Pass,
       collect ([] ++ greeter :: [greeterTwin; posts]) = Ok pass ->
       In "hello: String" (queries (lists pass))
       /\ hasField "Query" "hello" (resolvers pass) = true.
Proof.
  split; [|split].
  - apply (proj1 (same_name_first_wins [greeter] [posts] greeterTwin)).
    left. reflexivity.
  - apply (proj2 (same_name_first_wins [greeter] [] posts)).
    intros [H | []]. discriminate H.
  - intros pass H.
    destruct (proj2 (proj2 (same_name_first_wins [] [greeterTwin; posts]
                              greeter)
                       (fun H => H)) pass H) as [Hfragments Hfields].
    split.
    + apply (Hfragments Queries). left. reflexivity.
    + apply Hfields. left. reflexivity.
Defined.

Lemma loader_registry_keys_witness :
  (exists registry : list (string * Loader),
     createLoaders services = Ok registry
     /\ List.NoDup (map fst registry)
     /\ In "v2.posts.byAuthor" (map fst registry)
     /\ assoc "v2.posts.count" registry = None)
  /\ forall registry : list (string * Loader),
       createLoaders [Scenario.drafts] = Ok registry ->
       assoc "drafts.byAuthor" registry = None.
Proof.
  split.
  - destruct (loader_registry_keys services) as [Htotal Hkeys].
    destruct Htotal as [registry H].
    { intros service def Hin Hdecl.
      destruct Hin as [<- | [<- | [<- | []]]]; cbn in Hdecl;
        try contradiction.
      destruct Hdecl as [Hdecl | [Hdecl | []]]; discriminate Hdecl. }
    exists registry. split; [exact H |].
    destruct (Hkeys registry H) as (Hnd & Hin & _ & Hnone).
    split; [exact Hnd | split].
    + apply Hin.
      exists posts, "byAuthor", byAuthor, "id", "authorIds", [].
      repeat split; try reflexivity.
      * right. right. left. reflexivity.
      * left. reflexivity.
      * discriminate.
    + apply Hnone. intros service action def Hs Hdecl Hname Hdl.
      destruct Hs as [<- | [<- | [<- | []]]]; cbn in Hdecl;
        try contradiction.
      destruct Hdecl as [Hdecl | [Hdecl | []]];
        injection Hdecl as <- <-; [discriminate Hname | now left].
  - intros registry H.
    destruct (loader_registry_keys [Scenario.drafts]) as [_ Hkeys].
    destruct (Hkeys registry H) as (_ & _ & _ & Hnone).
    apply Hnone. intros service action def Hs Hdecl Hname Hdl.
    destruct Hs as [<- | []]. cbn in Hdecl.
    destruct Hdecl as [Hdecl | []]. injection Hdecl as <- <-.
    right. exists "id", []. reflexivity.
Defined.

(** The registry does not follow the composed resolver map. A service
    that the pass skips for its name still gives its loaders: here the only
    resolver of the composed map that targets [v2.posts.count] has no root
    key, and the registry has a loader under that name. And a resolver
    with a root key whose parameter is empty has no loader. *)
Lemma loader_registry_keys_counterexample :
  (exists (pass : Pass) (registry : list (string * Loader)),
     collect [posts; Scenario.countTwin] = Ok pass
     /\ createLoaders [posts; Scenario.countTwin] = Ok registry
     /\ batchedWithRootKey (resolvers pass) "v2.posts.count" = false
     /\ assoc "v2.posts.count" registry
        = Some {| loaderAction := "v2.posts.count";
                  actionParam := "authorId";
                  loaderParams := VObj [];
                  loaderMetaParams := [] |})
  /\ (exists (pass : Pass) (registry : list (string * Loader)),
        collect [Scenario.drafts] = Ok pass
        /\ createLoaders [Scenario.drafts] = Ok registry
        /\ batchedWithRootKey (resolvers pass) "drafts.byAuthor" = true
        /\ assoc "drafts.byAuthor" registry = None)
  /\ ~ (forall (services : list Service.t) (pass : Pass)
               (registry : list (string * Loader)) (actionName : string),
          collect services = Ok pass ->
          createLoaders services = Ok registry ->
          (batchedWithRootKey (resolvers pass) actionName = true <->
           assoc actionName registry <> None)).
Proof.
  assert (exists (pass : Pass) (registry : list (string * Loader)),
            collect [posts; Scenario.countTwin] = Ok pass
            /\ createLoaders [posts; Scenario.countTwin] = Ok registry
            /\ batchedWithRootKey (resolvers pass) "v2.posts.count" = false
            /\ assoc "v2.posts.count" registry
               = Some {| loaderAction := "v2.posts.count";
                         actionParam := "authorId";
                         loaderParams := VObj [];
                         loaderMetaParams := [] |}) as Htwin.
  { destruct (collect [posts; Scenario.countTwin]) as [pass|e] eqn:Ec;
      [|vm_compute in Ec; discriminate Ec].
    destruct (createLoaders [posts; Scenario.countTwin])
      as [registry|e] eqn:El; [|vm_compute in El; discriminate El].
    exists pass, registry.
    split; [reflexivity | split; [reflexivity |]].
    vm_compute in Ec. injection Ec as <-.
    vm_compute in El. injection El as <-.
    split; reflexivity. }
  split; [exact Htwin | split].
  - destruct (collect [Scenario.drafts]) as [pass|e] eqn:Ec;
      [|vm_compute in Ec; discriminate Ec].
    destruct (createLoaders [Scenario.drafts])
      as [registry|e] eqn:El; [|vm_compute in El; discriminate El].
    exists pass, registry.
    split; [reflexivity | split; [reflexivity |]].
    vm_compute in Ec. injection Ec as <-.
    vm_compute in El. injection El as <-.
    split; reflexivity.
  - intros Hclaim.
    destruct Htwin as (pass & registry & Hc & Hl & Hno & Hloader).
    destruct (Hclaim _ pass registry "v2.posts.count" Hc Hl) as [_ Hback].
    rewrite Hno in Hback. rewrite Hloader in Hback.
    discriminate Hback. discriminate.
Qed.

Lemma batched_without_root_key_witness :
  invokeActionResolver "v2.posts.count" countAll root args context
  = {| outcome := Ok VNull; argsAfter := args; trace := [] |}.
Proof.
  apply batched_without_root_key; reflexivity.
Defined.

Lemma batched_resolution_witness :
  invokeActionResolver "v2.posts.byAuthor" byAuthor
    (VObj [("id", VArr [VNum 1; VNum 2])]) args context
  = {| outcome := Ok (VArr [VArr [VNum 1]; VArr [VNum 2]]);
       argsAfter := args;
       trace := [Loaded "v2.posts.byAuthor" (VNum 1);
                 Loaded "v2.posts.byAuthor" (VNum 2)] |}
  /\ invokeActionResolver "v2.posts.byAuthor" byAuthor
       (VObj [("name", VStr "x")]) args context
     = {| outcome := Ok VNull; argsAfter := args; trace := [] |}
  /\ invokeActionResolver "v2.posts.byAuthor" byAuthor VNull args context
     = {| outcome := Ok VNull; argsAfter := args; trace := [] |}
  /\ invokeActionResolver "v2.posts.byAuthor" byAuthor root args context
     = {| outcome := Ok (VArr [VNum 7]); argsAfter := args;
          trace := [Loaded "v2.posts.byAuthor" (VNum 7)] |}
  /\ invokeActionResolver "v2.posts.byAuthor" byAuthor (VStr "") args context
     = {| outcome := Ok (VArr [VStr ""]); argsAfter := args;
          trace := [Loaded "v2.posts.byAuthor" (VStr "")] |}.
Proof.
  split; [|split; [|split; [|split]]].
  - apply (proj1 (proj2 (batched_resolution "v2.posts.byAuthor" byAuthor
                           (VObj [("id", VArr [VNum 1; VNum 2])])
                           args context "id" eq_refl eq_refl))
             [VNum 1; VNum 2] [VArr [VNum 1]; VArr [VNum 2]]);
      reflexivity.
  - apply (proj1 (batched_resolution "v2.posts.byAuthor" byAuthor
                    (VObj [("name", VStr "x")]) args context "id"
                    eq_refl eq_refl)).
    right. split; reflexivity.
  - apply (proj1 (batched_resolution "v2.posts.byAuthor" byAuthor
                    VNull args context "id" eq_refl eq_refl)).
    left. reflexivity.
  - apply (proj1 (proj2 (proj2 (batched_resolution "v2.posts.byAuthor"
                                  byAuthor root args context "id"
                                  eq_refl eq_refl)))
             (VArr [VNum 7]));
      try reflexivity.
    intros items. discriminate.
  - apply (proj2 (proj2 (proj2 (batched_resolution "v2.posts.byAuthor"
                                  byAuthor (VStr "") args context "id"
                                  eq_refl eq_refl)))
             (VArr [VStr ""]));
      reflexivity.
Defined.

(** A root that is zero holds nothing under the root key, and the resolver
    does not resolve to null: it asks the loader for the root. *)
Lemma batched_resolution_counterexample :
  nullish (Lodash.get (VNum 0) "id") = true
  /\ invokeActionResolver "v2.posts.byAuthor" byAuthor (VNum 0) args context
     = {| outcome := Ok (VArr [VNum 0]); argsAfter := args;
          trace := [Loaded "v2.posts.byAuthor" (VNum 0)] |}
  /\ ~ (forall root : JsVal,
          nullish (Lodash.get root "id") = true ->
          invokeActionResolver "v2.posts.byAuthor" byAuthor root args context
          = {| outcome := Ok VNull; argsAfter := args; trace := [] |}).
Proof.
  split; [reflexivity | split; [reflexivity |]].
  intros Hclaim. specialize (Hclaim (VNum 0) eq_refl).
  vm_compute in Hclaim. discriminate Hclaim.
Qed.

Lemma direct_call_failure_witness :
  outcome (invokeActionResolver "greeter.hello" emptyDef VNull (VObj [])
             failing)
  = Err (VObj [("message", VStr "not found"); ("ctx", VNull)])
  /\ outcome (invokeActionResolver "greeter.hello" quiet VNull (VObj [])
                failing)
     = Ok VNull.
Proof.
  split.
  - apply (proj1 (proj2 (proj2 (direct_call_failure "greeter.hello" emptyDef
                                  VNull (VObj []) failing failure
                                  eq_refl eq_refl))
                   eq_refl)).
  - apply (proj1 (proj2 (direct_call_failure "greeter.hello" quiet VNull
                           (VObj []) failing failure eq_refl eq_refl))).
    reflexivity.
Defined.

Lemma NoDup_two (a b : string) : a <> b -> List.NoDup [a; b].
Proof.
  intros H. constructor; [intros [E | []]; congruence |].
  constructor; [intros [] | constructor].
Qed.

Lemma direct_call_params_witness :
  Lodash.getProp (callParams findPosts root args (meta context)) "x" = VNum 2
  /\ Lodash.getProp (callParams findPosts root args (meta context)) "author"
     = VNum 7
  /\ Lodash.getProp
       (callParams Scenario.overwritten root (VObj []) (meta context)) "x"
     = VNum 0.
Proof.
  split; [|split].
  - rewrite (proj2 (proj2 (proj2 (direct_call_params "v2.posts.find"
                                    findPosts root args context eq_refl)))
               [("a", VNum 1); ("x", VNum 2); ("q", VStr "rocq")]
               [("limit", VNum 10); ("x", VNum 0)] "x"
               eq_refl eq_refl);
      try reflexivity.
    + apply NoDup_two. discriminate.
    + constructor; [intros [] | constructor].
  - rewrite (proj2 (proj2 (proj2 (direct_call_params "v2.posts.find"
                                    findPosts root args context eq_refl)))
               [("a", VNum 1); ("x", VNum 2); ("q", VStr "rocq")]
               [("limit", VNum 10); ("x", VNum 0)] "author"
               eq_refl eq_refl);
      try reflexivity.
    + apply NoDup_two. discriminate.
    + constructor; [intros [] | constructor].
  - rewrite (proj2 (proj2 (proj2 (direct_call_params "v2.posts.find"
                                    Scenario.overwritten root (VObj [])
                                    context eq_refl)))
               [] [("x", VNum 0)] "x" eq_refl eq_refl);
      try reflexivity.
    + constructor; [intros [] | constructor].
    + constructor; [intros [] | constructor].
Defined.

(** The remote call does not receive the object of the mapped values and
    of the static parameters alone: an argument that is left in [args]
    comes first, here over the argument mapping of the same target. *)
Lemma direct_call_params_counterexample :
  trace (invokeActionResolver "v2.posts.find" findPosts root args context)
  <> [Called "v2.posts.find"
        (mappedParamsOnly findPosts root args (meta context))]
  /\ Lodash.getProp (callParams findPosts root args (meta context)) "x"
     = VNum 2
  /\ Lodash.getProp (mappedParamsOnly findPosts root args (meta context)) "x"
     = VNum 1.
Proof.
  split; [|split; reflexivity].
  intros H. vm_compute in H. discriminate H.
Qed.

Lemma failed_composition_stays_stale_witness :
  snd (prepareGraphQLSchema (created [notifier]))
  = Failed (compositionError (referenceError "params is not defined"))
  /\ stale (fst (prepareGraphQLSchema (created [notifier]))) = true
  /\ attempts (fst (prepareGraphQLSchema (created [notifier]))) = 1%nat
  /\ attempts
       (fst (prepareGraphQLSchema (fst (prepareGraphQLSchema (created [notifier])))))
     = 2%nat.
Proof.
  assert (compose (snapshot (created [notifier]))
          = Err (referenceError "params is not defined")) as Hfails
    by reflexivity.
  apply (proj2 (proj2 (proj2 (proj2
           (failed_composition_stays_stale (created [notifier]) _ Hfails))))).
  reflexivity.
Defined.

Lemma rebuild_per_stale_demand_witness :
  (exists c1 c2 : World * list Demand,
     steps (staleWorld, repeat Entering 3) c1
     /\ snd c1 = repeat AwaitingStop 3
     /\ steps c1 c2
     /\ forallb finished (snd c2) = true
     /\ attempts (fst c2) = (attempts staleWorld + 3)%nat
     /\ rebuildsRun (snd c2) = 3%nat)
  /\ (exists d' : Demand,
        snd (run [0; 1; 0; 1]%nat (staleWorld, repeat Entering 2)) !! 1%nat
        = Some d'
        /\ (ownAttempt (staleWorld, repeat Entering 2)
              (run [0; 1; 0; 1]%nat (staleWorld, repeat Entering 2)) 1 d'
            \/ servedInstalled (staleWorld, repeat Entering 2)
                 (run [0; 1; 0; 1]%nat (staleWorld, repeat Entering 2)) 1 d'))
  /\ (stale (fst (run [0; 1]%nat (staleWorld, repeat Entering 2))) = true
      /\ attempts (fst (run [0; 1]%nat (staleWorld, repeat Entering 2)))
         = attempts staleWorld)
  /\ prepareGraphQLSchema (fst (prepareGraphQLSchema staleWorld))
     = (fst (prepareGraphQLSchema staleWorld),
        Served (graphqlSchema (fst (prepareGraphQLSchema staleWorld))))
  /\ attempts (fst (prepareGraphQLSchema staleWorld))
     = S (attempts staleWorld).
Proof.
  destruct rebuild_per_stale_demand
    as (_ & Hown & Hphase & Hall & Hexists & Hready & Halone).
  split; [|split; [|split; [|split]]].
  - destruct (Hexists staleWorld 3%nat eq_refl eq_refl)
      as (c1 & c2 & H1 & Hwait & H2 & Hf).
    destruct (Hall staleWorld 3%nat c1 c2 H1 Hwait H2 Hf) as (Ha & Hr & _).
    exists c1, c2. auto 7.
  - assert (match
              snd (run [0; 1; 0; 1]%nat (staleWorld, repeat Entering 2))
              !! 1%nat
            with
            | Some d => finished d
            | None => false
            end = true) as Hf by (vm_compute; reflexivity).
    destruct (snd (run [0; 1; 0; 1]%nat (staleWorld, repeat Entering 2))
              !! 1%nat) as [d'|] eqn:E; [|discriminate Hf].
    exists d'. split; [reflexivity |].
    apply (proj2 (Hown (staleWorld, repeat Entering 2)
                    (run [0; 1; 0; 1]%nat (staleWorld, repeat Entering 2))
                    1%nat d' (run_steps _ _) E Hf)).
    reflexivity.
  - destruct (Hphase staleWorld 2%nat
                (run [0; 1]%nat (staleWorld, repeat Entering 2))
                eq_refl eq_refl (run_steps _ _)) as (Hs & Ha & _).
    + vm_compute. reflexivity.
    + split; [exact Hs | exact Ha].
  - apply Hready. reflexivity.
  - destruct (generateGraphQLSchema (snapshot staleWorld))
      as [schema|err] eqn:Hgen; [|discriminate Hgen].
    apply (Halone staleWorld schema eq_refl Hgen).
Defined.

(** Two demands made while the schema is stale and a server is installed
    both rebuild: the rebuild runs twice, not once. *)
Lemma single_flight_counterexample :
  ~ (forall (K : nat) (c' : World * list Demand),
       (0 < K)%nat ->
       steps (staleWorld, repeat Entering K) c' ->
       forallb finished (snd c') = true ->
       attempts (fst c') = S (attempts staleWorld)).
Proof.
  intros Hclaim.
  specialize (Hclaim 2%nat
                (run [0; 1; 0; 1]%nat
                   (staleWorld, repeat Entering 2))).
  assert (attempts
            (fst (run [0; 1; 0; 1]%nat
                    (staleWorld, repeat Entering 2)))
          = 3%nat) as Hthree by (vm_compute; reflexivity).
  assert (attempts staleWorld = 1%nat) as Hone
    by (vm_compute; reflexivity).
  rewrite Hthree, Hone in Hclaim.
  discriminate Hclaim.
  - lia.
  - apply run_steps.
  - vm_compute. reflexivity.
Qed.

End Examples.

(** ** The options of the mixin and the route *)

Section OptionDefaults.

Import Lodash Options.

Implicit Types (props ps : list (string * JsVal)) (x key : string).

Lemma baseMerge_props ps props :
  exists props', baseMerge (VObj ps) (VObj props) = VObj props'.
Proof.
  rewrite baseMerge_object. revert props.
  induction ps as [|[k v] ps IH]; intros props; [eauto |].
  cbn [fold_left].
  assert (exists props1, defaultsAt k v (baseMerge v) (VObj props)
                         = VObj props1) as [props1 ->].
  { unfold defaultsAt. cbn [assignProp].
    repeat match goal with |- context [if ?b then _ else _] => destruct b end;
      eauto. }
  apply IH.
Qed.

(** One property of the source, on its own key. *)
Lemma defaultsAt_same key (v : JsVal) props :
  getProp (defaultsAt key v (baseMerge v) (VObj props)) key
  = defaulted (getProp (VObj props) key) (Some v).
Proof.
  unfold defaultsAt, defaulted.
  destruct (isUndefined (getProp (VObj props) key)) eqn:Eu.
  - destruct (isUndefined v && hasKey (VObj props) key) eqn:E.
    + apply andb_true_iff in E as [E _].
      destruct v; try discriminate E.
      destruct (getProp (VObj props) key); try discriminate Eu. reflexivity.
    + apply getProp_assignProp_eq.
  - destruct (isObject (getProp (VObj props) key) && isObject v);
      [apply getProp_assignProp_eq | reflexivity].
Qed.

(** [_.defaultsDeep] with one source, key by key. *)
Lemma baseMerge_key ps props x :
  List.NoDup (map fst ps) ->
  getProp (baseMerge (VObj ps) (VObj props)) x
  = defaulted (getProp (VObj props) x) (assoc x ps).
Proof.
  revert props. induction ps as [|[k v] ps IH]; intros props Hnd.
  - reflexivity.
  - cbn [map fst] in Hnd. apply NoDup_cons_iff in Hnd as [Hnew Hnd].
    rewrite baseMerge_object. cbn [fold_left]. rewrite <- baseMerge_object.
    cbn [assoc]. destruct (String.eqb_spec x k) as [->|Hne].
    + pose proof (defaultsAt_same k v props) as Hsame.
      destruct (baseMerge_props [(k, v)] props) as [props1 E1].
      rewrite baseMerge_object in E1. cbn [fold_left] in E1.
      rewrite E1 in Hsame |- *.
      destruct (baseMerge_absent ps k props1 Hnew) as (props' & -> & H').
      now rewrite H'.
    + destruct (defaultsAt_other k x v (baseMerge v) props) as (props1 & -> & H1);
        [congruence |].
      now rewrite (IH props1 Hnd), H1.
Qed.

Lemma defaultsDeep_key ps props x :
  List.NoDup (map fst ps) ->
  getProp (defaultsDeep (VObj props) [VObj ps]) x
  = defaulted (getProp (VObj props) x) (assoc x ps).
Proof.
  intros Hnd. unfold defaultsDeep, toObject.
  cbn [nullish fold_left truthy]. now apply baseMerge_key.
Qed.

Lemma firstDefined_pair (u v : JsVal) :
  firstDefined [u; v] = if isUndefined u then v else u.
Proof.
  cbn [firstDefined]. destruct (isUndefined u); [|reflexivity].
  now destruct v.
Qed.

Lemma NoDup_defaults :
  List.NoDup
    (map fst
       [("routeOptions", VObj [("path", VStr "/graphql")]); ("schema", VNull);
        ("serverOptions", VObj []); ("pubsubFactory", pubsubFactory);
        ("onlyIncludeCurrentService", VBool false);
        ("createAction", VBool true);
        ("subscriptionEventName", VStr "graphql.publish")]).
Proof.
  cbn [map fst].
  repeat (constructor; [cbn [In]; intuition discriminate |]).
  constructor.
Qed.

(** The options but [routeOptions]: what the caller gave, and the default
    where the caller gave nothing. *)
Lemma withDefaults_key props key :
  key <> "routeOptions" ->
  getProp (withDefaults (VObj props)) key
  = firstDefined [getProp (VObj props) key; getProp defaults key].
Proof.
  intros Hne. unfold withDefaults, defaults.
  rewrite (defaultsDeep_key _ props key NoDup_defaults), firstDefined_pair.
  generalize (getProp (VObj props) key) as u. intros u.
  cbn [assoc getProp].
  destruct (String.eqb_spec key "routeOptions"); [contradiction |].
  repeat match goal with
         | |- context [String.eqb key ?s] => destruct (String.eqb key s)
         end;
    cbn [defaulted isObject pubsubFactory];
    destruct (isUndefined u) eqn:Eu; try reflexivity;
    try (destruct u; try discriminate Eu; reflexivity).
  all: rewrite andb_comm; cbn [andb]; try reflexivity.
  all: destruct (isObject u); reflexivity.
Qed.

Lemma withDefaults_routeOptions props :
  getProp (withDefaults (VObj props)) "routeOptions"
  = defaulted (getProp (VObj props) "routeOptions")
      (Some (VObj [("path", VStr "/graphql")])).
Proof.
  unfold withDefaults, defaults.
  now rewrite (defaultsDeep_key _ props "routeOptions" NoDup_defaults).
Qed.

Lemma NoDup_one (k : string) : List.NoDup [k].
Proof. constructor; [intros [] | constructor]. Qed.

Lemma NoDup_routeDefaults :
  List.NoDup
    (map fst
       [("aliases", VObj [("/", rootHandler); (healthPath, healthHandler)]);
        ("mappingPolicy", VStr "restrict");
        ("bodyParsers",
         VObj [("json", VBool true);
               ("urlencoded", VObj [("extended", VBool true)])])]).
Proof.
  cbn [map fst].
  repeat (constructor; [cbn [In]; intuition discriminate |]).
  constructor.
Qed.

Lemma NoDup_aliases :
  List.NoDup (map fst [("/", rootHandler); (healthPath, healthHandler)]).
Proof.
  cbn [map fst].
  repeat (constructor; [cbn [In]; intuition discriminate |]).
  constructor.
Qed.

(** The route options of the caller, with the default path. *)
Lemma withDefaults_path props (r : list (string * JsVal)) :
  getProp (VObj props) "routeOptions" = VObj r ->
  exists r',
    getProp (withDefaults (VObj props)) "routeOptions" = VObj r'
    /\ forall key,
         getProp (VObj r') key
         = if String.eqb key "path"
           then firstDefined [getProp (VObj r) "path"; VStr "/graphql"]
           else getProp (VObj r) key.
Proof.
  intros Hr. rewrite withDefaults_routeOptions, Hr.
  cbn [defaulted isUndefined isObject andb].
  destruct (baseMerge_props [("path", VStr "/graphql")] r) as [r' Er].
  exists r'. split; [exact Er |].
  intros key.
  rewrite <- Er, (baseMerge_key [("path", VStr "/graphql")] r key
                    (NoDup_one "path")).
  cbn [assoc]. destruct (String.eqb_spec key "path") as [->|Hne].
  - rewrite firstDefined_pair. cbn [defaulted isObject].
    rewrite andb_comm. reflexivity.
  - reflexivity.
Qed.

End OptionDefaults.

(** X1. The options of the module are the options of the caller, filled
    from the defaults key by key: under every key but [routeOptions] the
    value of the caller stays when it is not [undefined], whatever it is
    ([false], [null], an empty string), and the default comes where the
    caller gave nothing. Under [routeOptions] an object of the caller
    keeps its properties and gets the path [/graphql] when it has no path,
    a value that is neither [undefined] nor an object stays, and the default
    object comes where the caller gave nothing. So the action [graphql] is
    made unless the caller gave a falsy [createAction] other than
    [undefined]. With no options at all the options are the defaults. *)
Theorem options_defaults :
  (forall (props : list (string * JsVal)) (key : string),
     key <> "routeOptions" ->
     Lodash.getProp (Options.withDefaults (VObj props)) key
     = firstDefined [Lodash.getProp (VObj props) key;
                     Lodash.getProp Options.defaults key])
  /\ (forall props : list (string * JsVal),
        Lodash.getProp (VObj props) "routeOptions" = VUndefined ->
        Lodash.getProp (Options.withDefaults (VObj props)) "routeOptions"
        = VObj [("path", VStr "/graphql")])
  /\ (forall props r : list (string * JsVal),
        Lodash.getProp (VObj props) "routeOptions" = VObj r ->
        exists r',
          Lodash.getProp (Options.withDefaults (VObj props)) "routeOptions"
          = VObj r'
          /\ forall key : string,
               Lodash.getProp (VObj r') key
               = if String.eqb key "path"
                 then firstDefined [Lodash.getProp (VObj r) "path";
                                    VStr "/graphql"]
                 else Lodash.getProp (VObj r) key)
  /\ (forall props : list (string * JsVal),
        Lodash.isUndefined (Lodash.getProp (VObj props) "routeOptions")
        = false ->
        Lodash.isObject (Lodash.getProp (VObj props) "routeOptions")
        = false ->
        Lodash.getProp (Options.withDefaults (VObj props)) "routeOptions"
        = Lodash.getProp (VObj props) "routeOptions")
  /\ (forall props : list (string * JsVal),
        Options.createsAction (Options.withDefaults (VObj props))
        = Lodash.isUndefined (Lodash.getProp (VObj props) "createAction")
          || truthy (Lodash.getProp (VObj props) "createAction"))
  /\ Options.withDefaults VUndefined = Options.defaults.
Proof.
  split; [exact withDefaults_key |].
  split.
  { intros props Hu. rewrite withDefaults_routeOptions, Hu. reflexivity. }
  split; [exact withDefaults_path |].
  split.
  { intros props Hu Ho. rewrite withDefaults_routeOptions.
    cbn [Options.defaulted]. now rewrite Hu, Ho. }
  split; [|vm_compute; reflexivity].
  intros props. unfold Options.createsAction.
  rewrite withDefaults_key by discriminate.
  rewrite firstDefined_pair.
  destruct (Lodash.isUndefined (Lodash.getProp (VObj props) "createAction"));
    reflexivity.
Qed.

(** X2. The route that [created] adds is the route options of the module
    filled from the defaults of the route. When the caller gave route
    options, the path and the mapping policy of the caller stay, and
    [/graphql] and [restrict] come where the caller gave none; an alias of
    the caller stays, also under the two paths of the module, whose
    handlers come only where the caller has no alias; every other route
    option of the caller passes unchanged. When the caller gave no route
    options the route is the default one, with the path [/graphql]. The
    route goes before the routes that the service had. *)
Theorem route_defaults :
  (forall props r : list (string * JsVal),
     Lodash.getProp (VObj props) "routeOptions" = VObj r ->
     exists route : list (string * JsVal),
       Options.route (Options.withDefaults (VObj props)) = VObj route
       /\ Lodash.getProp (VObj route) "path"
          = firstDefined [Lodash.getProp (VObj r) "path"; VStr "/graphql"]
       /\ Lodash.getProp (VObj route) "mappingPolicy"
          = firstDefined [Lodash.getProp (VObj r) "mappingPolicy";
                          VStr "restrict"]
       /\ (Lodash.getProp (VObj r) "aliases" = VUndefined ->
           Lodash.getProp (VObj route) "aliases"
           = VObj [("/", Options.rootHandler);
                   (Options.healthPath, Options.healthHandler)])
       /\ (forall (a : list (string * JsVal)) (path : string),
             Lodash.getProp (VObj r) "aliases" = VObj a ->
             Lodash.getProp (Lodash.getProp (VObj route) "aliases") path
             = firstDefined
                 [Lodash.getProp (VObj a) path;
                  Lodash.getProp
                    (VObj [("/", Options.rootHandler);
                           (Options.healthPath, Options.healthHandler)])
                    path])
       /\ (forall key : string,
             ~ In key ["path"; "aliases"; "mappingPolicy"; "bodyParsers"] ->
             Lodash.getProp (VObj route) key = Lodash.getProp (VObj r) key))
  /\ (forall props : list (string * JsVal),
        Lodash.getProp (VObj props) "routeOptions" = VUndefined ->
        Options.route (Options.withDefaults (VObj props))
        = VObj [("path", VStr "/graphql");
                ("aliases",
                 VObj [("/", Options.rootHandler);
                       (Options.healthPath, Options.healthHandler)]);
                ("mappingPolicy", VStr "restrict");
                ("bodyParsers",
                 VObj [("json", VBool true);
                       ("urlencoded", VObj [("extended", VBool true)])])])
  /\ (forall (mixinOptions : JsVal) (routes : list JsVal),
        Options.addRoute mixinOptions routes
        = Options.route mixinOptions :: routes).
Proof.
  split; [|split; [|reflexivity]].
  - intros props r Hr.
    destruct (withDefaults_path props r Hr) as (r1 & E1 & H1).
    unfold Options.route, Options.routeDefaults. rewrite E1.
    unfold Lodash.defaultsDeep, Lodash.toObject.
    cbn [nullish fold_left truthy].
    destruct (baseMerge_props
                [("aliases",
                  VObj [("/", Options.rootHandler);
                        (Options.healthPath, Options.healthHandler)]);
                 ("mappingPolicy", VStr "restrict");
                 ("bodyParsers",
                  VObj [("json", VBool true);
                        ("urlencoded", VObj [("extended", VBool true)])])]
                r1) as [route Eroute].
    exists route. split; [exact Eroute |].
    assert (forall key,
              Lodash.getProp (VObj route) key
              = Options.defaulted (Lodash.getProp (VObj r1) key)
                  (assoc key
                     [("aliases",
                       VObj [("/", Options.rootHandler);
                             (Options.healthPath, Options.healthHandler)]);
                      ("mappingPolicy", VStr "restrict");
                      ("bodyParsers",
                       VObj [("json", VBool true);
                             ("urlencoded",
                              VObj [("extended", VBool true)])])]))
      as Hkey.
    { intros key. rewrite <- Eroute.
      apply baseMerge_key, NoDup_routeDefaults. }
    split; [|split; [|split; [|split]]].
    + rewrite Hkey, H1. reflexivity.
    + rewrite Hkey, H1, firstDefined_pair. cbn [String.eqb Ascii.eqb
        Bool.eqb assoc Options.defaulted Lodash.isObject].
      now rewrite andb_comm.
    + intros Hu. rewrite Hkey, H1. cbn [String.eqb Ascii.eqb Bool.eqb assoc].
      rewrite Hu. reflexivity.
    + intros a path Ha. rewrite Hkey, H1.
      cbn [String.eqb Ascii.eqb Bool.eqb assoc]. rewrite Ha.
      cbn [Options.defaulted Lodash.isUndefined Lodash.isObject andb].
      rewrite (baseMerge_key _ a path NoDup_aliases), firstDefined_pair.
      generalize (Lodash.getProp (VObj a) path) as u. intros u.
      cbn [assoc Lodash.getProp].
      destruct (String.eqb path "/");
        [|destruct (String.eqb path Options.healthPath)];
        cbn [Options.defaulted Options.rootHandler Options.healthHandler
             Lodash.isObject Lodash.baseMerge];
        destruct (Lodash.isUndefined u) eqn:Eu; try reflexivity;
        try (destruct u; try discriminate Eu; reflexivity).
      all: rewrite andb_comm; cbn [andb]; destruct (Lodash.isObject u);
        reflexivity.
    + intros key Hnot. rewrite Hkey, H1. cbn [In] in Hnot.
      cbn [assoc].
      destruct (String.eqb_spec key "path"); [subst; intuition |].
      destruct (String.eqb_spec key "aliases"); [subst; intuition |].
      destruct (String.eqb_spec key "mappingPolicy"); [subst; intuition |].
      destruct (String.eqb_spec key "bodyParsers"); [subst; intuition |].
      reflexivity.
  - intros props Hu. unfold Options.route.
    rewrite withDefaults_routeOptions, Hu. vm_compute. reflexivity.
Qed.

Lemma options_defaults_witness :
  Lodash.getProp
    (Options.withDefaults
       (VObj [("createAction", VBool false);
              ("routeOptions", VObj [("cors", VBool true)])]))
    "createAction"
  = firstDefined [VBool false; VBool true]
  /\ exists r',
       Lodash.getProp
         (Options.withDefaults
            (VObj [("createAction", VBool false);
                   ("routeOptions", VObj [("cors", VBool true)])]))
         "routeOptions"
       = VObj r'
       /\ forall key : string,
            Lodash.getProp (VObj r') key
            = if String.eqb key "path"
              then firstDefined
                     [Lodash.getProp (VObj [("cors", VBool true)]) "path";
                      VStr "/graphql"]
              else Lodash.getProp (VObj [("cors", VBool true)]) key.
Proof.
  destruct options_defaults as (Hkey & _ & Hroute & _).
  split.
  - apply (Hkey [("createAction", VBool false);
                 ("routeOptions", VObj [("cors", VBool true)])]
             "createAction").
    discriminate.
  - apply (Hroute [("createAction", VBool false);
                   ("routeOptions", VObj [("cors", VBool true)])]
             [("cors", VBool true)]).
    reflexivity.
Defined.

Lemma route_defaults_witness :
  exists route : list (string * JsVal),
    Options.route
      (Options.withDefaults
         (VObj [("routeOptions",
                 VObj [("path", VStr "/api");
                       ("aliases", VObj [("/", VForeign 7)])])]))
    = VObj route
    /\ Lodash.getProp (VObj route) "path"
       = firstDefined [VStr "/api"; VStr "/graphql"]
    /\ Lodash.getProp (Lodash.getProp (VObj route) "aliases") "/"
       = firstDefined [VForeign 7; Options.rootHandler].
Proof.
  destruct route_defaults as (Hgiven & _).
  destruct (Hgiven
              [("routeOptions",
                VObj [("path", VStr "/api");
                      ("aliases", VObj [("/", VForeign 7)])])]
              [("path", VStr "/api"); ("aliases", VObj [("/", VForeign 7)])]
              eq_refl)
    as (route & Eroute & Hpath & _ & _ & Haliases & _).
  exists route. split; [exact Eroute | split; [exact Hpath |]].
  apply (Haliases [("/", VForeign 7)] "/"). reflexivity.
Defined.

(** ** The requests and the events *)

Section Requests.

Context {host : Host}.

Implicit Types (w : World) (d : Demand) (ds : list Demand).

(** A demand in a stale world runs the rebuild block, in the world it
    found or in that world with the stop of its server logged. *)
Lemma prepare_stale w :
  stale w = true ->
  exists w1,
    prepareGraphQLSchema w = rebuild w1
    /\ snapshot w1 = snapshot w
    /\ apolloServer w1 = apolloServer w
    /\ graphqlHandler w1 = graphqlHandler w
    /\ graphqlSchema w1 = graphqlSchema w
    /\ shouldUpdateGraphqlSchema w1 = shouldUpdateGraphqlSchema w
    /\ pubsub w1 = pubsub w
    /\ (log w1 = log w
        \/ exists server,
             apolloServer w = Some server
             /\ log w1 = log w ++ [Stopped server]).
Proof.
  intros Hs. unfold prepareGraphQLSchema, enter.
  assert (negb (shouldUpdateGraphqlSchema w)
          && isSome (graphqlHandler w) = false) as ->.
  { unfold stale in Hs. destruct (shouldUpdateGraphqlSchema w);
      [reflexivity |].
    cbn [orb] in Hs. apply negb_true_iff in Hs. now rewrite Hs. }
  destruct (apolloServer w) as [server|] eqn:E.
  - eexists. split; [reflexivity |]. cbn [apolloServer graphqlHandler
      graphqlSchema shouldUpdateGraphqlSchema pubsub log].
    repeat split; eauto.
  - exists w. split.
    + destruct (rebuild w) as [w' d] eqn:Er.
      unfold rebuild in Er.
      destruct (generateGraphQLSchema (snapshot w));
        injection Er as <- <-; reflexivity.
    + repeat split; auto.
Qed.

Lemma prepare_ready w :
  stale w = false -> prepareGraphQLSchema w = (w, Served (graphqlSchema w)).
Proof.
  intros Hs. unfold prepareGraphQLSchema. now rewrite (enter_ready w Hs).
Qed.

Lemma stale_handler w :
  stale w = false -> exists handler, graphqlHandler w = Some handler.
Proof.
  unfold stale. intros H. apply orb_false_iff in H as [_ H].
  apply negb_false_iff in H. destruct (graphqlHandler w); [eauto |].
  discriminate H.
Qed.

(** What the rebuild block leaves installed. *)
Lemma rebuild_server w (schema : Schema) :
  generateGraphQLSchema (snapshot w) = Ok schema ->
  rebuild w
  = ({| apolloServer :=
          Some {| serverSchema := schema; serverServices := snapshot w |};
        graphqlHandler :=
          Some {| serverSchema := schema; serverServices := snapshot w |};
        graphqlSchema := Some schema; pubsub := S (pubsub w);
        shouldUpdateGraphqlSchema := false; registry := registry w;
        log := log w ++ [Generated (snapshot w); Broadcast schema] |},
     Rebuilt schema).
Proof. intros H. unfold rebuild. now rewrite H. Qed.

Lemma rebuild_failure w (err : JsVal) :
  generateGraphQLSchema (snapshot w) = Err err ->
  rebuild w
  = ({| apolloServer := apolloServer w; graphqlHandler := graphqlHandler w;
        graphqlSchema := graphqlSchema w; pubsub := S (pubsub w);
        shouldUpdateGraphqlSchema := shouldUpdateGraphqlSchema w;
        registry := registry w;
        log := log w ++ [Generated (snapshot w); LoggedError err] |},
     Failed err).
Proof. intros H. unfold rebuild. now rewrite H. Qed.

Lemma generate_cases (services : list Service.t) :
  (exists schema, generateGraphQLSchema services = Ok schema)
  \/ (exists cause,
        compose services = Err cause
        /\ generateGraphQLSchema services = Err (compositionError cause)).
Proof.
  unfold generateGraphQLSchema, compositionError.
  destruct (compose services) as [schema|cause]; eauto.
Qed.

(** *** The three fields are installed together *)

Lemma rebuild_installed w : installed w -> installed (fst (rebuild w)).
Proof.
  intros H. unfold rebuild.
  destruct (generateGraphQLSchema (snapshot w)) as [schema|err].
  - cbn [fst]. unfold installed. cbn [apolloServer graphqlHandler
      graphqlSchema serverSchema]. now split.
  - exact H.
Qed.

Lemma enter_installed w : installed w -> installed (fst (enter w)).
Proof.
  intros H. unfold enter.
  destruct (negb (shouldUpdateGraphqlSchema w) && isSome (graphqlHandler w));
    [exact H |].
  destruct (apolloServer w) eqn:E; [|now apply rebuild_installed].
  cbn [fst]. unfold installed in *.
  cbn [apolloServer graphqlHandler graphqlSchema]. now rewrite E in *.
Qed.

Lemma advance_installed w d w' d' :
  advance w d = Some (w', d') -> installed w -> installed w'.
Proof.
  intros Ha H. destruct d; try discriminate Ha; injection Ha as Ha.
  - pose proof (enter_installed w H) as H'. now rewrite Ha in H'.
  - pose proof (rebuild_installed w H) as H'. now rewrite Ha in H'.
Qed.

Lemma rebuild_handler w :
  (isSome (graphqlHandler w) = true ->
   isSome (graphqlHandler (fst (rebuild w))) = true)
  /\ (returned (snd (rebuild w)) = true ->
      isSome (graphqlHandler (fst (rebuild w))) = true).
Proof.
  unfold rebuild.
  destruct (generateGraphQLSchema (snapshot w)) as [schema|err];
    cbn [fst snd graphqlHandler isSome returned]; split; auto.
  discriminate.
Qed.

Lemma enter_handler w :
  (isSome (graphqlHandler w) = true ->
   isSome (graphqlHandler (fst (enter w))) = true)
  /\ (returned (snd (enter w)) = true ->
      isSome (graphqlHandler (fst (enter w))) = true).
Proof.
  unfold enter.
  destruct (negb (shouldUpdateGraphqlSchema w) && isSome (graphqlHandler w))
    eqn:E.
  - apply andb_true_iff in E as [_ E]. cbn [fst snd]. now split.
  - destruct (apolloServer w); [|apply rebuild_handler].
    cbn [fst snd graphqlHandler returned]. split; [auto | discriminate].
Qed.

Lemma advance_handler w d w' d' :
  advance w d = Some (w', d') ->
  (isSome (graphqlHandler w) = true -> isSome (graphqlHandler w') = true)
  /\ (returned d' = true -> isSome (graphqlHandler w') = true)
  /\ returned d = false.
Proof.
  intros Ha. destruct d; try discriminate Ha; injection Ha as Ha.
  - pose proof (enter_handler w) as H. rewrite Ha in H. cbn [fst snd] in H.
    destruct H. now repeat split.
  - pose proof (rebuild_handler w) as H. rewrite Ha in H. cbn [fst snd] in H.
    destruct H. now repeat split.
Qed.

Lemma In_insert ds (i : nat) d d' :
  In d (<[i := d']> ds) -> d = d' \/ In d ds.
Proof.
  revert i. induction ds as [|d0 ds IH]; intros i H; [contradiction |].
  destruct i as [|i].
  - cbn [insert list_insert In] in H. cbn [In].
    destruct H as [H | H]; [left; congruence | tauto].
  - change (<[S i := d']> (d0 :: ds)) with (d0 :: <[i := d']> ds) in H.
    cbn [In] in *. destruct H as [H | H]; [tauto |].
    destruct (IH i H); tauto.
Qed.

Lemma steps_installed (c c' : World * list Demand) :
  steps c c' ->
  (installed (fst c) -> installed (fst c'))
  /\ (isSome (graphqlHandler (fst c)) = true ->
      isSome (graphqlHandler (fst c')) = true)
  /\ ((forall d, In d (snd c) -> returned d = true ->
                 isSome (graphqlHandler (fst c)) = true) ->
      forall d, In d (snd c') -> returned d = true ->
                isSome (graphqlHandler (fst c')) = true).
Proof.
  induction 1 as [c|c1 c2 c3 Hstep Hsteps IH]; [tauto |].
  destruct IH as (IH1 & IH2 & IH3).
  destruct Hstep as [w w' ds i d d' Hi Ha]. cbn [fst snd] in *.
  destruct (advance_handler w d w' d' Ha) as (Hh & Hr & _).
  split; [|split].
  - intros H. apply IH1. eapply advance_installed; eassumption.
  - auto.
  - intros Hall. apply IH3. intros d0 Hin Hret.
    apply In_insert in Hin as [-> | Hin]; [auto |].
    apply Hh. now apply (Hall d0).
Qed.

(** *** The responses *)

Lemma callHandler_some w (handler : ApolloServer) :
  graphqlHandler w = Some handler -> callHandler w = Ok handler.
Proof. unfold callHandler. now intros ->. Qed.

Lemma aliases_ready w (handler : ApolloServer) :
  stale w = false ->
  graphqlHandler w = Some handler ->
  rootAlias w = (w, Handled handler) /\ healthAlias w = (w, Handled handler).
Proof.
  intros Hs Hh. unfold rootAlias, healthAlias.
  rewrite (prepare_ready w Hs), (callHandler_some w handler Hh). now split.
Qed.

Lemma aliases_rebuilt w (schema : Schema) :
  stale w = true ->
  generateGraphQLSchema (snapshot w) = Ok schema ->
  snd (rootAlias w)
  = Handled {| serverSchema := schema; serverServices := snapshot w |}
  /\ snd (healthAlias w)
     = Handled {| serverSchema := schema; serverServices := snapshot w |}
  /\ fst (rootAlias w) = fst (prepareGraphQLSchema w)
  /\ fst (healthAlias w) = fst (prepareGraphQLSchema w)
  /\ graphqlHandler (fst (prepareGraphQLSchema w))
     = Some {| serverSchema := schema; serverServices := snapshot w |}.
Proof.
  intros Hs Hg. unfold rootAlias, healthAlias.
  destruct (prepare_stale w Hs) as (w1 & -> & Hsnap & _).
  rewrite <- Hsnap in Hg. rewrite (rebuild_server w1 schema Hg).
  unfold callHandler. cbn [graphqlHandler fst snd]. rewrite Hsnap.
  now repeat split.
Qed.

Lemma aliases_failed w (err : JsVal) :
  stale w = true ->
  generateGraphQLSchema (snapshot w) = Err err ->
  snd (rootAlias w) = SentError err
  /\ snd (healthAlias w)
     = SentResponse 503 unhealthy "application/health+json"
  /\ fst (rootAlias w) = fst (prepareGraphQLSchema w)
  /\ fst (healthAlias w) = fst (prepareGraphQLSchema w)
  /\ graphqlHandler (fst (prepareGraphQLSchema w)) = graphqlHandler w
  /\ stale (fst (prepareGraphQLSchema w)) = true.
Proof.
  intros Hs Hg. unfold rootAlias, healthAlias.
  destruct (prepare_stale w Hs) as (w1 & -> & Hsnap & _ & Hh & _ & Hf & _).
  rewrite <- Hsnap in Hg. rewrite (rebuild_failure w1 err Hg).
  cbn [graphqlHandler fst snd]. repeat split; try assumption.
  unfold stale in *. cbn [shouldUpdateGraphqlSchema graphqlHandler].
  now rewrite Hf, Hh.
Qed.

Lemma compositionError_not_typeError (cause : JsVal) (message : string) :
  compositionError cause <> typeError message.
Proof. unfold compositionError, moleculerServerError, typeError. congruence. Qed.

(** *** The counts *)

Lemma countOf_insert (p : Demand -> bool) ds (i : nat) d d' :
  ds !! i = Some d ->
  (countOf p (<[i := d']> ds) + (if p d then 1 else 0)
   = countOf p ds + (if p d' then 1 else 0))%nat.
Proof.
  unfold countOf. revert i.
  induction ds as [|d0 ds IH]; intros i Hi; [discriminate |].
  destruct i as [|i]; cbn [lookup list_lookup] in Hi.
  - injection Hi as ->. cbn [insert list_insert List.filter].
    destruct (p d), (p d'); simpl; lia.
  - specialize (IH i Hi).
    change (<[S i := d']> (d0 :: ds)) with (d0 :: <[i := d']> ds).
    cbn [List.filter].
    destruct (p d0); cbn [length]; lia.
Qed.

Lemma rebuild_accounts w :
  (broadcasts (fst (rebuild w))
   = broadcasts w + (if isRebuilt (snd (rebuild w)) then 1 else 0))%nat
  /\ (errorsLogged (fst (rebuild w))
      = errorsLogged w + (if isFailed (snd (rebuild w)) then 1 else 0))%nat
  /\ pubsub (fst (rebuild w)) = S (pubsub w)
  /\ attempts (fst (rebuild w)) = S (attempts w).
Proof.
  unfold rebuild, broadcasts, errorsLogged, attempts.
  destruct (generateGraphQLSchema (snapshot w)) as [schema|err];
    cbn [fst snd log pubsub isRebuilt isFailed];
    rewrite !List.filter_app, !length_app; cbn; repeat split; lia.
Qed.

Lemma enter_accounts w :
  (broadcasts (fst (enter w))
   = broadcasts w + (if isRebuilt (snd (enter w)) then 1 else 0))%nat
  /\ (errorsLogged (fst (enter w))
      = errorsLogged w + (if isFailed (snd (enter w)) then 1 else 0))%nat
  /\ (pubsub (fst (enter w)) + attempts w
      = pubsub w + attempts (fst (enter w)))%nat.
Proof.
  unfold enter.
  destruct (negb (shouldUpdateGraphqlSchema w) && isSome (graphqlHandler w)).
  - cbn [fst snd isRebuilt isFailed]. repeat split; lia.
  - destruct (apolloServer w).
    + unfold broadcasts, errorsLogged, attempts.
      cbn [fst snd log pubsub isRebuilt isFailed].
      rewrite !List.filter_app, !length_app. cbn. repeat split; lia.
    + destruct (rebuild_accounts w) as (-> & -> & -> & ->).
      repeat split; lia.
Qed.

Lemma step_accounts (c c' : World * list Demand) :
  step c c' ->
  (broadcasts (fst c') + countOf isRebuilt (snd c)
   = broadcasts (fst c) + countOf isRebuilt (snd c'))%nat
  /\ (errorsLogged (fst c') + countOf isFailed (snd c)
      = errorsLogged (fst c) + countOf isFailed (snd c'))%nat
  /\ (pubsub (fst c') + attempts (fst c)
      = pubsub (fst c) + attempts (fst c'))%nat.
Proof.
  intros [w w' ds i d d' Hi Ha]. cbn [fst snd].
  pose proof (countOf_insert isRebuilt ds i d d' Hi) as Hr.
  pose proof (countOf_insert isFailed ds i d d' Hi) as Hf.
  destruct d; try discriminate Ha; injection Ha as Ha;
    cbn [isRebuilt isFailed] in Hr, Hf.
  - destruct (enter_accounts w) as (Hb & He & Hp). rewrite Ha in Hb, He, Hp.
    cbn [fst snd] in Hb, He, Hp. repeat split; lia.
  - destruct (rebuild_accounts w) as (Hb & He & Hp & Hat).
    rewrite Ha in Hb, He, Hp, Hat. cbn [fst snd] in Hb, He, Hp, Hat.
    repeat split; lia.
Qed.

Lemma steps_accounts (c c' : World * list Demand) :
  steps c c' ->
  (broadcasts (fst c') + countOf isRebuilt (snd c)
   = broadcasts (fst c) + countOf isRebuilt (snd c'))%nat
  /\ (errorsLogged (fst c') + countOf isFailed (snd c)
      = errorsLogged (fst c) + countOf isFailed (snd c'))%nat
  /\ (pubsub (fst c') + attempts (fst c)
      = pubsub (fst c) + attempts (fst c'))%nat.
Proof.
  induction 1 as [c|c1 c2 c3 Hstep Hsteps IH]; [repeat split; lia |].
  pose proof (step_accounts _ _ Hstep). repeat split; lia.
Qed.

(** X4. The two aliases of the route, for a request that runs alone. When
    the schema is not stale the handler that is installed takes the
    request and nothing is rebuilt. When it is stale and the composition
    succeeds, the handler of the server just built takes the request. When
    the composition fails, the alias ["/"] sends the composition error and
    the health alias answers 503 with the body [{status: "fail", schema:
    false}]; the handler of an earlier build stays installed but is not
    called, and the world stays stale. No request ever calls a handler
    that is missing. *)
Theorem route_aliases :
  forall w : World,
    (forall handler : ApolloServer,
       stale w = false ->
       graphqlHandler w = Some handler ->
       rootAlias w = (w, Handled handler)
       /\ healthAlias w = (w, Handled handler))
    /\ (forall schema : Schema,
          stale w = true ->
          generateGraphQLSchema (snapshot w) = Ok schema ->
          snd (rootAlias w)
          = Handled {| serverSchema := schema; serverServices := snapshot w |}
          /\ snd (healthAlias w)
             = Handled {| serverSchema := schema;
                          serverServices := snapshot w |}
          /\ graphqlHandler (fst (rootAlias w))
             = Some {| serverSchema := schema; serverServices := snapshot w |})
    /\ (forall cause : JsVal,
          stale w = true ->
          compose (snapshot w) = Err cause ->
          snd (rootAlias w) = SentError (compositionError cause)
          /\ snd (healthAlias w)
             = SentResponse 503 unhealthy "application/health+json"
          /\ graphqlHandler (fst (rootAlias w)) = graphqlHandler w
          /\ graphqlHandler (fst (healthAlias w)) = graphqlHandler w
          /\ stale (fst (rootAlias w)) = true
          /\ stale (fst (healthAlias w)) = true)
    /\ snd (rootAlias w)
       <> SentError (typeError "this.graphqlHandler is not a function")
    /\ (forall err : JsVal, snd (healthAlias w) <> Thrown err).
Proof.
  intros w.
  split; [intros handler Hs Hh; now apply aliases_ready |].
  split.
  { intros schema Hs Hg.
    destruct (aliases_rebuilt w schema Hs Hg) as (Hr & Hh & Hf & _ & Hi).
    rewrite Hf. now repeat split. }
  split.
  { intros cause Hs Hc. pose proof (generate_err _ _ Hc) as Hg.
    destruct (aliases_failed w _ Hs Hg) as (Hr & Hh & Hf & Hf' & Hi & Hst).
    rewrite Hf, Hf'. now repeat split. }
  destruct (stale w) eqn:Hs.
  - destruct (generate_cases (snapshot w)) as [[schema Hg] | (cause & _ & Hg)].
    + destruct (aliases_rebuilt w schema Hs Hg) as (-> & -> & _).
      split; [discriminate | intros err; discriminate].
    + destruct (aliases_failed w _ Hs Hg) as (-> & -> & _).
      split; [|intros err; discriminate].
      intros H.
      apply (compositionError_not_typeError cause
               "this.graphqlHandler is not a function").
      congruence.
  - destruct (stale_handler w Hs) as [handler Hh].
    destruct (aliases_ready w handler Hs Hh) as [-> ->].
    split; [discriminate | intros err; discriminate].
Qed.

(** X6. The effects of the rebuilds, however the demands interleave: the
    schema is broadcast once for each demand that ends rebuilt, an error
    is logged once for each demand that ends failed, and a new pub/sub
    instance is made at each rebuild attempt, successful or not. So, after
    [created], an event to publish is dropped until the first attempt, and
    from then on it goes to the instance that the latest attempt made. *)
Theorem rebuild_effects :
  (forall c c' : World * list Demand,
     steps c c' ->
     (broadcasts (fst c') + countOf isRebuilt (snd c)
      = broadcasts (fst c) + countOf isRebuilt (snd c'))%nat
     /\ (errorsLogged (fst c') + countOf isFailed (snd c)
         = errorsLogged (fst c) + countOf isFailed (snd c'))%nat
     /\ (pubsub (fst c') + attempts (fst c)
         = pubsub (fst c) + attempts (fst c'))%nat)
  /\ (forall (registry : list Service.t) (ds : list Demand)
             (c' : World * list Demand) (tag payload : JsVal),
        steps (created registry, ds) c' ->
        publishEvent (fst c') tag payload
        = if (attempts (fst c') =? 0)%nat then None
          else Some (attempts (fst c'), tag, payload)).
Proof.
  split; [exact steps_accounts |].
  intros registry ds c' tag payload Hsteps.
  destruct (steps_accounts _ _ Hsteps) as (_ & _ & Hp).
  cbn [fst pubsub created] in Hp.
  assert (attempts (created registry) = 0%nat) as Hzero by reflexivity.
  rewrite Hzero in Hp. unfold publishEvent.
  replace (pubsub (fst c')) with (attempts (fst c')) by lia.
  destruct (attempts (fst c')); reflexivity.
Qed.

End Requests.

Section RequestExamples.

Import Sample.

Lemma route_aliases_witness :
  snd (rootAlias (created [notifier]))
  = SentError (compositionError (referenceError "params is not defined"))
  /\ snd (healthAlias (created [notifier]))
     = SentResponse 503 unhealthy "application/health+json"
  /\ exists handler : ApolloServer,
       rootAlias
         (fst (prepareGraphQLSchema (created services)))
       = (fst (prepareGraphQLSchema (created services)),
          Handled handler).
Proof.
  destruct (route_aliases (created [notifier]))
    as (_ & _ & Hfails & _).
  assert (stale (created [notifier]) = true) as Hstale
    by reflexivity.
  assert (compose (snapshot (created [notifier]))
          = Err (referenceError "params is not defined")) as Hcause
    by reflexivity.
  destruct (Hfails _ Hstale Hcause) as (Hroot & Hhealth & _).
  destruct (route_aliases
              (fst (prepareGraphQLSchema (created services))))
    as (Hready & _).
  split; [exact Hroot | split; [exact Hhealth |]].
  eexists. apply Hready; reflexivity.
Defined.

Lemma rebuild_effects_witness :
  publishEvent
    (fst (run [0; 1; 0; 1]%nat (created services, repeat Entering 2)))
    (VStr "EVENT") (VNum 1)
  = Some (1%nat, VStr "EVENT", VNum 1)
  /\ broadcasts
       (fst (run [0; 1; 0; 1]%nat (staleWorld, repeat Entering 2)))
     = 3%nat.
Proof.
  destruct (rebuild_effects) as (Hcount & Hpublish).
  split.
  - rewrite (Hpublish services (repeat Entering 2) _ (VStr "EVENT")
               (VNum 1) (run_steps [0; 1; 0; 1]%nat _)).
    reflexivity.
  - destruct (Hcount _ _
                (run_steps [0; 1; 0; 1]%nat
                   (staleWorld, repeat Entering 2)))
      as (Hb & _).
    vm_compute in Hb. vm_compute. lia.
Defined.

End RequestExamples.

(** ** The resolvers that a pass makes *)

Section QueryResolvers.

(** [_.defaultsDeep(args, {}, {})] leaves an object as it is. *)
Lemma callParams_empty (root meta : JsVal) (props : list (string * JsVal)) :
  callParams emptyDef root (VObj props) meta = VObj props.
Proof.
  unfold callParams, mappedParams. cbn [metaParams rootParams argParams
    emptyDef length Nat.ltb Nat.leb andb params].
  rewrite !andb_false_r. reflexivity.
Qed.

Lemma setField_fieldAt (type name : string) (r : Resolver)
    (resolver : ResolverMap) :
  fieldAt type name (setField type name r resolver) = Some r.
Proof.
  unfold fieldAt, setField. now rewrite !assoc_assign_eq.
Qed.

End QueryResolvers.

(** X7. The resolver that a pass makes for a query or a mutation of an
    action is the resolver of that action with no definition: the pass
    appends the declaration to its list and puts the resolver under the
    field name of the declaration. Invoked with an arguments object, that
    resolver calls the action once with the arguments as they are,
    whatever the root and the metadata hold, and leaves the arguments
    unchanged; it resolves to the answer of the call, and fails with the
    error of the call, cleared of its reference to the call context. *)
Theorem query_resolver_forwards :
  (forall (which : ListName) (type actionName : string)
          (st : Lists * ResolverMap) (declaration : string),
     fieldAt type (getFieldName declaration)
       (snd (compileCall which type actionName st declaration))
     = Some (createActionResolver actionName emptyDef)
     /\ listOf which (fst (compileCall which type actionName st declaration))
        = listOf which (fst st) ++ [declaration])
  /\ (forall (actionName : string) (root : JsVal)
             (props : list (string * JsVal)) (context : Context),
        invokeActionResolver actionName emptyDef root (VObj props) context
        = {| outcome :=
               match call context actionName (VObj props) with
               | Ok answer => Ok answer
               | Err err => Err (clearContext err)
               end;
             argsAfter := VObj props;
             trace := [Called actionName (VObj props)] |}).
Proof.
  split.
  - intros which type actionName st declaration. unfold compileCall.
    cbn [fst snd]. split; [apply setField_fieldAt |].
    destruct which; reflexivity.
  - intros actionName root props context.
    unfold invokeActionResolver, callDirect.
    cbn [dataLoader nullIfError emptyDef outcome argsAfter trace nullish].
    rewrite callParams_empty.
    destruct (call context actionName (VObj props)); reflexivity.
Qed.

(** ** Subscriptions and the composition *)

Section SubscriptionsBlock.

Context {host : Host}.

Lemma compileSubscriptions_bound (value : JsVal) (actionName : string)
    (def : GraphqlDef.t) (st : Lists * ResolverMap) :
  assoc "params" globalObject = Some value ->
  exists st', compileSubscriptions actionName def st = Ok st'.
Proof.
  intros Hb. unfold compileSubscriptions.
  destruct (given (GraphqlDef.subscription def)); [|eauto].
  apply reduce_total. intros s x _. unfold compileSubscription.
  unfold createAsyncIteratorResolver. rewrite Hb. cbn [bind]. eauto.
Qed.

Lemma compileSubscriptions_unbound (actionName : string)
    (def : GraphqlDef.t) (st : Lists * ResolverMap) :
  assoc "params" globalObject = None ->
  if given (GraphqlDef.subscription def)
     && nonEmpty (castArray (GraphqlDef.subscription def))
  then compileSubscriptions actionName def st
       = Err (referenceError "params is not defined")
  else exists st', compileSubscriptions actionName def st = Ok st'.
Proof.
  intros Hu. unfold compileSubscriptions.
  destruct (given (GraphqlDef.subscription def)); cbn [andb]; [|eauto].
  destruct (castArray (GraphqlDef.subscription def)) as [|x l];
    cbn [nonEmpty length Nat.ltb Nat.leb]; [cbn; eauto |].
  rewrite reduce_cons. unfold compileSubscription at 2.
  unfold createAsyncIteratorResolver. rewrite Hu. cbn [bind].
  apply reduce_err.
Qed.

Lemma compileAction_bound (value : JsVal) (st : Lists * ResolverMap)
    (action : Action.t) :
  assoc "params" globalObject = Some value ->
  exists st', compileAction st action = Ok st'.
Proof.
  intros Hb. unfold compileAction.
  destruct (Action.graphql action) as [def|]; [|eauto].
  match goal with
  | |- context [compileSubscriptions ?a ?d ?s] =>
      destruct (compileSubscriptions_bound value a d s Hb) as [[l r] ->]
  end.
  cbn [bind]. eauto.
Qed.

Lemma compileAction_unbound (st : Lists * ResolverMap) (action : Action.t) :
  assoc "params" globalObject = None ->
  if subscribes action
  then compileAction st action = Err (referenceError "params is not defined")
  else exists st', compileAction st action = Ok st'.
Proof.
  intros Hu. unfold compileAction, subscribes.
  destruct (Action.graphql action) as [def|]; [|eauto].
  match goal with
  | |- context [compileSubscriptions ?a ?d ?s] =>
      pose proof (compileSubscriptions_unbound a d s Hu) as H
  end.
  destruct (given (GraphqlDef.subscription def)
            && nonEmpty (castArray (GraphqlDef.subscription def))).
  - now rewrite H.
  - destruct H as [[l r] ->]. cbn [bind]. eauto.
Qed.

Lemma actions_unbound (actions : list Action.t) (st : Lists * ResolverMap) :
  assoc "params" globalObject = None ->
  if existsb subscribes actions
  then reduce compileAction actions (Ok st)
       = Err (referenceError "params is not defined")
  else exists st', reduce compileAction actions (Ok st) = Ok st'.
Proof.
  intros Hu. revert st. induction actions as [|a actions IH]; intros st.
  - cbn. eauto.
  - cbn [existsb]. rewrite reduce_cons.
    pose proof (compileAction_unbound st a Hu) as Ha.
    destruct (subscribes a); cbn [orb].
    + rewrite Ha. apply reduce_err.
    + destruct Ha as [st' ->]. apply IH.
Qed.

Lemma compileService_bound (value : JsVal) (service : Service.t) (l : Lists)
    (r : ResolverMap) :
  assoc "params" globalObject = Some value ->
  exists st', compileService service l r = Ok st'.
Proof.
  intros Hb. unfold compileService. cbv zeta.
  destruct (match Service.graphql service with
            | Some globalDef =>
                compileGlobal (getServiceName service) globalDef l r
            | None => (l, r)
            end) as [l1 r1].
  cbn beta iota.
  match goal with
  | |- context [bind ?loop _] =>
      assert (exists st, loop = Ok st) as [[l2 r2] ->]
        by (apply reduce_total; intros s a _;
            now apply (compileAction_bound value))
  end.
  cbn [bind]. destruct (nonEmpty r2); eauto.
Qed.

Lemma compileService_unbound (service : Service.t) (l : Lists)
    (r : ResolverMap) :
  assoc "params" globalObject = None ->
  if declaresSubscription service
  then compileService service l r
       = Err (referenceError "params is not defined")
  else exists st', compileService service l r = Ok st'.
Proof.
  intros Hu. unfold compileService, declaresSubscription. cbv zeta.
  destruct (match Service.graphql service with
            | Some globalDef =>
                compileGlobal (getServiceName service) globalDef l r
            | None => (l, r)
            end) as [l1 r1].
  cbn beta iota.
  pose proof (actions_unbound (Service.actions service) (l1, []) Hu) as H.
  destruct (existsb subscribes (Service.actions service)).
  - match goal with
    | |- bind ?loop _ = _ =>
        assert (loop = Err (referenceError "params is not defined")) as ->
          by exact H
    end.
    reflexivity.
  - match goal with
    | |- context [bind ?loop _] =>
        assert (exists st, loop = Ok st) as [[l2 r2] ->] by exact H
    end.
    cbn [bind]. destruct (nonEmpty r2); eauto.
Qed.

Lemma seen_decide (pass : Pass) (seen : list string) (name : string) :
  (forall n, n ∈ processedServices pass <-> In n seen) ->
  bool_decide (name ∈ processedServices pass)
  = existsb (String.eqb name) seen.
Proof.
  intros Hseen. case_bool_decide as Hin.
  - symmetry. apply existsb_exists. exists name.
    split; [now apply Hseen | apply String.eqb_refl].
  - symmetry. apply not_true_is_false. intros H.
    apply existsb_exists in H as (n & Hn & E).
    apply String.eqb_eq in E. subst n. now apply Hin, Hseen.
Qed.

Lemma collectFrom_bound (value : JsVal) (services : list Service.t)
    (pass : Pass) :
  assoc "params" globalObject = Some value ->
  exists pass', collectFrom (Ok pass) services = Ok pass'.
Proof.
  intros Hb. apply reduce_total. intros p s _. unfold eachService.
  case_bool_decide as Hin; [eauto |].
  destruct (compileService_bound value s (lists p) (resolvers p) Hb)
    as [[l r] ->].
  cbn [bind]. eauto.
Qed.

Lemma collectFrom_unbound (services : list Service.t) (pass : Pass)
    (seen : list string) :
  assoc "params" globalObject = None ->
  (forall n, n ∈ processedServices pass <-> In n seen) ->
  if existsb declaresSubscription (compiled seen services)
  then collectFrom (Ok pass) services
       = Err (referenceError "params is not defined")
  else exists pass', collectFrom (Ok pass) services = Ok pass'.
Proof.
  intros Hu. revert pass seen.
  induction services as [|s services IH]; intros pass seen Hseen.
  - cbn. eauto.
  - unfold collectFrom. rewrite reduce_cons. fold (collectFrom).
    unfold eachService. rewrite (seen_decide pass seen _ Hseen).
    cbn [compiled].
    destruct (existsb (String.eqb (getServiceName s)) seen).
    + apply (IH pass seen Hseen).
    + cbn [existsb].
      pose proof (compileService_unbound s (lists pass) (resolvers pass) Hu)
        as Hs.
      destruct (declaresSubscription s); cbn [orb].
      * rewrite Hs. cbn [bind]. apply reduce_err.
      * destruct Hs as [[l r] ->]. cbn [bind].
        apply (IH _ (getServiceName s :: seen)).
        intros n. cbn [processedServices In].
        rewrite elem_of_union, elem_of_singleton, (Hseen n).
        intuition congruence.
Qed.

(** X8. Where the global object has no property [params], a pass fails
    exactly when a service that it does not skip has an action with a
    subscription to compile: the loop then ends with the ReferenceError of
    [createAsyncIteratorResolver], and [generateGraphQLSchema] throws the
    composition error that carries it; with no such service the loop
    reaches its end. A subscription of a service that is skipped for its
    name does no harm. Where the global object has that property, the loop
    always reaches its end. *)
Theorem subscription_blocks_composition :
  forall services : list Service.t,
    (assoc "params" globalObject = None ->
     (existsb declaresSubscription (compiled [] services) = true ->
      collect services = Err (referenceError "params is not defined")
      /\ generateGraphQLSchema services
         = Err (compositionError (referenceError "params is not defined")))
     /\ (existsb declaresSubscription (compiled [] services) = false ->
         exists pass : Pass, collect services = Ok pass))
    /\ (forall value : JsVal,
          assoc "params" globalObject = Some value ->
          exists pass : Pass, collect services = Ok pass).
Proof.
  intros services. split.
  - intros Hu.
    pose proof (collectFrom_unbound services startOfPass [] Hu) as H.
    assert (forall n, n ∈ processedServices startOfPass <-> In n []) as Hseen.
    { intros n. cbn [startOfPass processedServices In].
      rewrite elem_of_empty. tauto. }
    specialize (H Hseen). fold (collect services) in H.
    destruct (existsb declaresSubscription (compiled [] services)).
    + split; [|discriminate]. intros _. split; [exact H |].
      unfold generateGraphQLSchema, compose. now rewrite H.
    + split; [discriminate | intros _; exact H].
  - intros value Hb. apply (collectFrom_bound value), Hb.
Qed.

End SubscriptionsBlock.

Section CompositionExamples.

Import Sample.

Lemma subscription_blocks_composition_witness :
  (collect [greeter; notifier; posts]
   = Err (referenceError "params is not defined")
   /\ generateGraphQLSchema [greeter; notifier; posts]
      = Err (compositionError (referenceError "params is not defined")))
  /\ exists pass : Pass, collect [greeter; greeterTwin; posts] = Ok pass.
Proof.
  split.
  - apply (subscription_blocks_composition [greeter; notifier; posts]);
      reflexivity.
  - apply (subscription_blocks_composition [greeter; greeterTwin; posts]);
      reflexivity.
Defined.

End CompositionExamples.

(** ** The resolvers of the settings *)

Section ServiceResolvers.

Lemma assign_fresh {A : Type} (k : string) (v : A) (ps : list (string * A)) :
  ~ In k (map fst ps) -> assign k v ps = ps ++ [(k, v)].
Proof.
  induction ps as [|[k' v'] ps IH]; intros Hnot; [reflexivity |].
  cbn [map fst In] in Hnot. cbn [assign app].
  destruct (String.eqb_spec k k') as [->|Hne]; [tauto |].
  rewrite IH; [reflexivity | tauto].
Qed.

Lemma createServiceResolvers_step (serviceName : string)
    (rs : list (string * ResolverDecl)) (acc : list (string * Resolver)) :
  List.NoDup (map fst acc ++ map fst rs) ->
  fold_left
    (fun acc '(name, r) =>
       match r with
       | DeclObject (Some action) def =>
           assign name
             (createActionResolver
                (getResolverActionName serviceName action) def)
             acc
       | _ => assign name (Passthrough r) acc
       end)
    rs acc
  = acc ++ map (fun entry => (fst entry, resolverOf serviceName (snd entry)))
             rs.
Proof.
  revert acc. induction rs as [|[name r] rs IH]; intros acc Hnd.
  - cbn. now rewrite app_nil_r.
  - cbn [fold_left map fst snd].
    assert (~ In name (map fst acc)) as Hfresh.
    { cbn [map fst] in Hnd. apply NoDup_remove_2 in Hnd.
      intros Hin. apply Hnd, in_or_app. now left. }
    assert (match r with
            | DeclObject (Some action) def =>
                assign name
                  (createActionResolver
                     (getResolverActionName serviceName action) def)
                  acc
            | _ => assign name (Passthrough r) acc
            end = acc ++ [(name, resolverOf serviceName r)]) as ->.
    { rewrite <- (assign_fresh name _ acc Hfresh).
      destruct r as [[action|] def|value]; reflexivity. }
    rewrite IH.
    + now rewrite <- app_assoc.
    + rewrite map_app, <- app_assoc. exact Hnd.
Qed.

End ServiceResolvers.

(** X9. [createServiceResolvers] makes one entry of each declared field,
    under the name of the field and in the order of the declaration: a
    plain object with an action becomes the resolver of that action, named
    in full, with the object as its definition; every other value, a plain
    object without an action among them, is taken as it is. *)
Theorem service_resolvers_entries :
  forall (serviceName : string) (resolvers : list (string * ResolverDecl)),
    List.NoDup (map fst resolvers) ->
    createServiceResolvers serviceName resolvers
    = map (fun entry => (fst entry, resolverOf serviceName (snd entry)))
        resolvers
    /\ forall (name : string) (r : ResolverDecl),
         In (name, r) resolvers ->
         assoc name (createServiceResolvers serviceName resolvers)
         = Some match r with
                | DeclObject (Some action) def =>
                    ActionResolver
                      (getResolverActionName serviceName action) def
                | _ => Passthrough r
                end.
Proof.
  intros serviceName resolvers Hnd.
  assert (createServiceResolvers serviceName resolvers
          = map (fun entry => (fst entry, resolverOf serviceName (snd entry)))
              resolvers) as Hmap.
  { unfold createServiceResolvers.
    now rewrite (createServiceResolvers_step serviceName resolvers []). }
  split; [exact Hmap |].
  intros name r Hin. rewrite Hmap. clear Hmap.
  induction resolvers as [|[k v] resolvers IH]; [destruct Hin |].
  cbn [map fst] in Hnd. apply NoDup_cons_iff in Hnd as [Hnew Hnd].
  cbn [map fst snd assoc]. destruct Hin as [E | Hin].
  - injection E as -> ->. rewrite String.eqb_refl.
    destruct r as [[action|] def|value]; reflexivity.
  - destruct (String.eqb_spec name k) as [->|Hne].
    + exfalso. apply Hnew. apply in_map_iff. now exists (k, r).
    + now apply IH.
Qed.

Lemma service_resolvers_entries_witness :
  createServiceResolvers "v2.posts"
    [("posts", DeclObject (Some "byAuthor") Sample.byAuthor);
     ("kind", DeclOther (VStr "POST"))]
  = [("posts", ActionResolver "v2.posts.byAuthor" Sample.byAuthor);
     ("kind", Passthrough (DeclOther (VStr "POST")))].
Proof.
  apply (service_resolvers_entries "v2.posts"
           [("posts", DeclObject (Some "byAuthor") Sample.byAuthor);
            ("kind", DeclOther (VStr "POST"))]).
  repeat (constructor; [cbn [In]; intuition discriminate |]).
  constructor.
Defined.

(** ** The source of the schema *)

Section SchemaSource.











End SchemaSource.



(** ** The names of services and of actions *)

Section Names.

Lemma append_length (a b : string) :
  String.length (a +:+ b) = (String.length a + String.length b)%nat.
Proof.
  induction a as [|c a IH]; [reflexivity |].
  cbn [append String.length]. now rewrite IH.
Qed.

(** Two texts before the same text are equal when the wholes are. *)
Lemma append_cancel_r (a b t : string) : a +:+ t = b +:+ t -> a = b.
Proof.
  revert b. induction a as [|c a IH]; intros [|d b] H.
  - reflexivity.
  - apply (f_equal String.length) in H.
    cbn [append] in H. cbn [String.length] in H.
    rewrite append_length in H. lia.
  - apply (f_equal String.length) in H.
    cbn [append] in H. cbn [String.length] in H.
    rewrite append_length in H. lia.
  - cbn [append] in H. injection H as -> H. f_equal. now apply IH.
Qed.

Lemma numberToString_inj (n m : Z) :
  numberToString n = numberToString m -> n = m.
Proof.
  unfold numberToString. intros H.
  apply to_int_inj.
  pose proof (NilEmpty.isi (Z.to_int n)) as Hn.
  rewrite H, NilEmpty.isi in Hn. now injection Hn.
Qed.

(** The text that a version puts before the name. *)
Lemma getServiceName_versioned (service : Service.t) :
  Service.fullName service = None ->
  getServiceName service
  = match Service.version service with
    | NumberVersion n =>
        ("v" +:+ numberToString n) +:+ "." +:+ Service.name service
    | StringVersion v => v +:+ "." +:+ Service.name service
    | NoVersion => Service.name service
    end.
Proof. unfold getServiceName. now intros ->. Qed.

Lemma contains_dot_qualified (service action : string) :
  JsString.contains "."%char (service +:+ "." +:+ action) = true.
Proof.
  rewrite contains_append. cbn [append JsString.contains Ascii.eqb Bool.eqb].
  now rewrite orb_true_r.
Qed.

End Names.

(** X11. The name under which a resolver calls an action: an action name
    with a dot is used as it is, whatever the service, so a resolver can
    name an action of another service; an action name without a dot gets
    the name of the service and a dot before it. Either way the result
    has a dot, and naming it again changes nothing. *)
Theorem resolver_action_name :
  forall service action : string,
    JsString.contains "."%char (getResolverActionName service action) = true
    /\ getResolverActionName service (getResolverActionName service action)
       = getResolverActionName service action
    /\ (JsString.contains "."%char action = true ->
        forall other : string, getResolverActionName other action = action)
    /\ (JsString.contains "."%char action = false ->
        getResolverActionName service action = service +:+ "." +:+ action).
Proof.
  intros service action.
  assert (JsString.contains "."%char (getResolverActionName service action)
          = true) as Hdot.
  { unfold getResolverActionName.
    destruct (JsString.contains "."%char action) eqn:E; cbn [negb];
      [exact E | apply contains_dot_qualified]. }
  split; [exact Hdot | split; [|split]].
  - unfold getResolverActionName at 1. now rewrite Hdot.
  - intros E other. unfold getResolverActionName. now rewrite E.
  - intros E. unfold getResolverActionName. now rewrite E.
Qed.

Lemma resolver_action_name_witness :
  getResolverActionName "posts" "users.find" = "users.find"
  /\ getResolverActionName "v2.posts" "find" = "v2.posts.find".
Proof.
  split.
  - apply (resolver_action_name "v2.posts" "users.find"). reflexivity.
  - apply (resolver_action_name "v2.posts" "find"). reflexivity.
Defined.

(** X12. The name of a service in a pass. A non-empty [fullName] is the
    name. Without one, the name is the name of the service, after [v] and
    the number of a numeric version or after a version that is a string,
    with a dot between. So two services of the same name and without
    [fullName], whose numeric versions are integers below 2^53 in size,
    have the same name in a pass exactly when their versions read the
    same: two different numbers never do, a number [n] and the string of
    [v] and the decimal digits of [n] do, and a service with a version
    never has the name of the one without. *)
Theorem service_name_versions :
  (forall (service : Service.t) (fullName : string),
     Service.fullName service = Some fullName ->
     truthyStr fullName = true ->
     getServiceName service = fullName)
  /\ (forall s1 s2 : Service.t,
        Service.fullName s1 = None ->
        Service.fullName s2 = None ->
        Service.name s1 = Service.name s2 ->
        printable (Service.version s1) = true ->
        printable (Service.version s2) = true ->
        (getServiceName s1 = getServiceName s2 <->
         match Service.version s1, Service.version s2 with
         | NoVersion, NoVersion => True
         | NoVersion, _ | _, NoVersion => False
         | NumberVersion n, NumberVersion m => n = m
         | NumberVersion n, StringVersion v
         | StringVersion v, NumberVersion n => v = "v" +:+ numberToString n
         | StringVersion v, StringVersion v' => v = v'
         end)).
Proof.
  split.
  - intros service fullName Hf Ht. unfold getServiceName.
    now rewrite Hf, Ht.
  - intros s1 s2 H1 H2 Hname _ _.
    rewrite (getServiceName_versioned s1 H1), (getServiceName_versioned s2 H2).
    rewrite Hname. generalize (Service.name s2) as name. intros name.
    assert (forall v : string, name <> v +:+ "." +:+ name) as Hshort.
    { intros v H. apply (f_equal String.length) in H.
      rewrite append_length in H. cbn [append String.length] in H. lia. }
    assert (forall a b : string,
              a +:+ "." +:+ name = b +:+ "." +:+ name <-> a = b) as Hcancel.
    { intros a b. split; [apply append_cancel_r | now intros ->]. }
    destruct (Service.version s1) as [|n|v], (Service.version s2) as [|m|v'].
    + tauto.
    + split; [intros H; now apply Hshort in H | tauto].
    + split; [intros H; now apply Hshort in H | tauto].
    + split; [intros H; symmetry in H; now apply Hshort in H | tauto].
    + rewrite Hcancel. split.
      * intros H. injection H as H. now apply numberToString_inj.
      * now intros ->.
    + rewrite Hcancel. split; intros H; now rewrite H.
    + split; [intros H; symmetry in H; now apply Hshort in H | tauto].
    + rewrite Hcancel. tauto.
    + apply Hcancel.
Qed.

Lemma service_name_versions_witness :
  getServiceName Sample.posts
  = getServiceName
      {| Service.name := "posts"; Service.version := StringVersion "v2";
         Service.fullName := None; Service.graphql := None;
         Service.actions := [] |}
  /\ getServiceName Sample.posts
     <> getServiceName
          {| Service.name := "posts"; Service.version := NumberVersion 3;
             Service.fullName := None; Service.graphql := None;
             Service.actions := [] |}.
Proof.
  destruct service_name_versions as (_ & Hsame).
  split.
  - apply (Hsame Sample.posts
             {| Service.name := "posts"; Service.version := StringVersion "v2";
                Service.fullName := None; Service.graphql := None;
                Service.actions := [] |}); reflexivity.
  - intros H.
    apply (Hsame Sample.posts
             {| Service.name := "posts"; Service.version := NumberVersion 3;
                Service.fullName := None; Service.graphql := None;
                Service.actions := [] |}) in H;
      [discriminate H | reflexivity..].
Defined.

(** ** The loaders: whose parameters, and what a batch sends *)

Section LoaderProvenance.

Implicit Types (registry : list (string * Loader)) (r : ResolverDecl).

Lemma assoc_spread {A : Type} (a b : list (string * A)) (k : string) :
  List.NoDup (map fst b) ->
  assoc k (spread a b)
  = match assoc k b with
    | Some v => Some v
    | None => assoc k a
    end.
Proof.
  unfold spread. revert a.
  induction b as [|[k2 v2] b IH]; intros a Hnd; [reflexivity |].
  cbn [map fst] in Hnd. apply NoDup_cons_iff in Hnd as [Hnew Hnd].
  cbn [fold_left assoc]. rewrite (IH _ Hnd).
  destruct (String.eqb_spec k k2) as [->|Hne].
  - apply assoc_None_keys in Hnew. rewrite Hnew. apply assoc_assign_eq.
  - rewrite assoc_assign_ne by congruence. reflexivity.
Qed.

Lemma fieldLoader_step serviceName registry registry' r :
  fieldLoader serviceName registry r = Ok registry' ->
  forall k,
    assoc k registry'
    = match assoc k registry with
      | Some loader => Some loader
      | None =>
          match loaderOf serviceName r with
          | Some loader =>
              if String.eqb (loaderAction loader) k then Some loader
              else None
          | None => None
          end
      end.
Proof.
  unfold fieldLoader, loaderOf.
  assert (forall (reg : list (string * Loader)) k,
            assoc k reg
            = match assoc k reg with
              | Some loader => Some loader
              | None => None
              end) as Hsame.
  { intros reg k. now destruct (assoc k reg). }
  destruct r as [action def|value].
  - destruct (firstRootParam def) as [param|].
    + destruct (dataLoader def).
      * destruct action as [action|]; [|discriminate].
        cbn [loaderAction].
        destruct (assoc (getResolverActionName serviceName action) registry)
          as [old|] eqn:Eold; intros H k; injection H as <-.
        -- destruct (String.eqb_spec
                       (getResolverActionName serviceName action) k)
             as [<-|Hne]; [now rewrite Eold | apply Hsame].
        -- destruct (String.eqb_spec
                       (getResolverActionName serviceName action) k)
             as [<-|Hne].
           ++ now rewrite assoc_assign_eq, Eold.
           ++ rewrite assoc_assign_ne by exact Hne. apply Hsame.
      * intros H k. injection H as <-. destruct action; apply Hsame.
    + intros H k. injection H as <-. destruct action; apply Hsame.
  - intros H k. injection H as <-. apply Hsame.
Qed.

Lemma fields_first serviceName (rs : list ResolverDecl) registry registry' :
  reduce (fieldLoader serviceName) rs (Ok registry) = Ok registry' ->
  forall k,
    assoc k registry'
    = match assoc k registry with
      | Some loader => Some loader
      | None => firstAsking serviceName k rs
      end.
Proof.
  revert registry. induction rs as [|r rs IH]; intros registry H k.
  - injection H as <-. now destruct (assoc k registry).
  - rewrite reduce_cons in H.
    destruct (fieldLoader serviceName registry r) as [registry1|e] eqn:E;
      [|rewrite reduce_err in H; discriminate H].
    rewrite (IH _ H k), (fieldLoader_step _ _ _ _ E k). cbn [firstAsking].
    destruct (assoc k registry); [reflexivity |].
    destruct (loaderOf serviceName r) as [loader|]; [|reflexivity].
    now destruct (String.eqb (loaderAction loader) k).
Qed.

Lemma typeLoaders_first serviceName registry registry'
    (type : list (string * ResolverDecl)) :
  typeLoaders serviceName registry type = Ok registry' ->
  forall k,
    assoc k registry'
    = match firstAsking serviceName k (map snd type) with
      | Some loader => Some loader
      | None => assoc k registry
      end.
Proof.
  unfold typeLoaders.
  destruct (reduce (fieldLoader serviceName) (map snd type) (Ok []))
    as [loaders|e] eqn:E; [|discriminate].
  destruct (fields_keys _ _ _ E) as (_ & Hnd & _).
  cbn [bind]. intros H k. injection H as <-.
  rewrite (assoc_spread _ _ k Hnd), (fields_first _ _ _ _ E k).
  reflexivity.
Qed.

Lemma spread_nil {A : Type} (b : list (string * A)) :
  List.NoDup (map fst b) -> forall k, assoc k (spread [] b) = assoc k b.
Proof.
  intros Hnd k. rewrite (assoc_spread [] b k Hnd).
  now destruct (assoc k b).
Qed.

Lemma serviceLoaders_last registry (service : Service.t)
    (own : list (string * Loader)) :
  serviceLoaders [] service = Ok own ->
  exists registry',
    serviceLoaders registry service = Ok registry'
    /\ forall k,
         assoc k registry'
         = match assoc k own with
           | Some loader => Some loader
           | None => assoc k registry
           end.
Proof.
  unfold serviceLoaders.
  destruct (Service.graphql service) as [graphql|].
  - destruct (GraphqlDef.resolvers graphql) as [resolvers|].
    + destruct (reduce _ (map snd resolvers) (Ok [])) as [loaders|e] eqn:E;
        [|discriminate].
      destruct (types_keys _ _ _ E) as (_ & Hnd & _).
      cbn [bind]. intros H. injection H as <-.
      eexists. split; [reflexivity |]. intros k.
      now rewrite (assoc_spread _ _ k Hnd), (spread_nil _ Hnd k).
    + intros H. injection H as <-. eexists. split; [reflexivity |].
      intros k. reflexivity.
  - intros H. injection H as <-. eexists. split; [reflexivity |].
    intros k. reflexivity.
Qed.

End LoaderProvenance.

(** X13. Whose parameters a loader has. Among the fields of one type, the
    first declaration that asks for the loader of an action makes it; the
    later ones of that type find it made. Between the types of a service
    the later type replaces the loader of an earlier one, and between the
    services the later service replaces the loader of an earlier one: the
    loader of an action in the registry is that of the last service that
    asks for it. No service is skipped for its name. *)
Theorem loader_provenance :
  (forall (serviceName : string) (rs : list ResolverDecl)
          (registry : list (string * Loader)),
     reduce (fieldLoader serviceName) rs (Ok []) = Ok registry ->
     forall actionName : string,
       assoc actionName registry = firstAsking serviceName actionName rs)
  /\ (forall (serviceName : string) (before registry : list (string * Loader))
             (type : list (string * ResolverDecl)),
        typeLoaders serviceName before type = Ok registry ->
        forall actionName : string,
          assoc actionName registry
          = match firstAsking serviceName actionName (map snd type) with
            | Some loader => Some loader
            | None => assoc actionName before
            end)
  /\ (forall (services : list Service.t) (service : Service.t)
             (before own : list (string * Loader)),
        createLoaders services = Ok before ->
        createLoaders [service] = Ok own ->
        exists registry : list (string * Loader),
          createLoaders (services ++ [service]) = Ok registry
          /\ forall actionName : string,
               assoc actionName registry
               = match assoc actionName own with
                 | Some loader => Some loader
                 | None => assoc actionName before
                 end).
Proof.
  split; [|split].
  - intros serviceName rs registry H actionName.
    now rewrite (fields_first _ _ _ _ H actionName).
  - intros serviceName before registry type H actionName.
    now apply typeLoaders_first.
  - intros services service before own Hb Ho.
    unfold createLoaders in *. rewrite reduce_app, Hb.
    rewrite reduce_cons in Ho |- *. cbn [reduce fold_left] in Ho |- *.
    destruct (serviceLoaders [] service) as [own'|e] eqn:E;
      [|discriminate Ho].
    cbn [bind] in Ho. injection Ho as <-.
    destruct (serviceLoaders_last before service own' E)
      as (registry & -> & Hr).
    exists registry. split; [reflexivity | exact Hr].
Qed.

Lemma loader_provenance_witness :
  exists registry : list (string * Loader),
    createLoaders ([Sample.posts] ++ [Scenario.postsNext]) = Ok registry
    /\ forall actionName : string,
         assoc actionName registry
         = match assoc actionName
                   [("v2.posts.byAuthor", Scenario.limitedLoader)] with
           | Some loader => Some loader
           | None =>
               assoc actionName
                 [("v2.posts.byAuthor",
                   {| loaderAction := "v2.posts.byAuthor";
                      actionParam := "authorIds";
                      loaderParams := VObj [];
                      loaderMetaParams := [] |})]
           end.
Proof.
  destruct loader_provenance as (_ & _ & Hlast).
  apply (Hlast [Sample.posts] Scenario.postsNext); reflexivity.
Defined.

(** ** The parameters of a batch *)

Section BatchParams.

Import Lodash.

Lemma defaulted_scalar (objValue : JsVal) (srcValue : option JsVal) :
  isUndefined objValue = false ->
  isObject (match srcValue with Some v => v | None => VUndefined end)
  = false ->
  Options.defaulted objValue srcValue = objValue.
Proof.
  intros Hu Ho. unfold Options.defaulted.
  destruct srcValue as [v|]; [|reflexivity].
  rewrite Hu, Ho, andb_false_r. reflexivity.
Qed.

Lemma getProp_assoc (props : list (string * JsVal)) (x : string) :
  getProp (VObj props) x
  = match assoc x props with Some v => v | None => VUndefined end.
Proof. reflexivity. Qed.

End BatchParams.

(** X14. The call that a loader makes for a batch of keys: its
    parameters are [_.defaultsDeep({[actionParam]: keys}, params,
    mapped)], where [mapped] holds the metadata under the targets of the
    metadata mappings. Where the root parameter, the keys and the targets of
    the metadata mappings are plain names and the metadata are a plain
    object, or null or undefined: the keys of the batch are sent under the
    root parameter of the loader when neither the static parameters nor
    the mapped metadata hold an object there; under any other plain name
    the call has the static parameter when it is defined and not an object,
    and the mapped metadata otherwise. So here the static parameters go
    before the metadata. *)
Theorem loader_batch_params :
  forall (loader : Loader) (meta : JsVal) (keys : list JsVal)
         (pprops : list (string * JsVal)),
    loaderParams loader = VObj pprops ->
    List.NoDup (map fst pprops) ->
    Lodash.isPlainObject meta || nullish meta = true ->
    Lodash.plainName (actionParam loader) = true ->
    forallb Lodash.plainName (map fst (loaderMetaParams loader)) = true ->
    forallb Lodash.plainName (map snd (loaderMetaParams loader)) = true ->
    batchParams loader meta keys
    = Lodash.defaultsDeep (VObj [(actionParam loader, VArr keys)])
        [VObj pprops; setMapped (loaderMetaParams loader) meta (VObj [])]
    /\ (Lodash.isObject (Lodash.getProp (VObj pprops) (actionParam loader))
        = false ->
        Lodash.isObject
          (match lastMapped (loaderMetaParams loader) meta
                   (actionParam loader) with
           | Some v => v
           | None => VUndefined
           end) = false ->
        Lodash.getProp (batchParams loader meta keys) (actionParam loader)
        = VArr keys)
    /\ (forall x : string,
          x <> actionParam loader ->
          Lodash.plainName x = true ->
          Lodash.isObject (Lodash.getProp (VObj pprops) x) = false ->
          Lodash.tidy
            (match lastMapped (loaderMetaParams loader) meta x with
             | Some v => v
             | None => VUndefined
             end) = true ->
          Lodash.getProp (batchParams loader meta keys) x
          = firstDefined
              [Lodash.getProp (VObj pprops) x;
               match lastMapped (loaderMetaParams loader) meta x with
               | Some v => v
               | None => VUndefined
               end]).
Proof.
  intros loader meta keys pprops Hp Hnd _ _ _ Hplain.
  pose proof (plainNames_simple _ Hplain) as Hsimple.
  assert (batchParams loader meta keys
          = Lodash.defaultsDeep (VObj [(actionParam loader, VArr keys)])
              [VObj pprops;
               setMapped (loaderMetaParams loader) meta (VObj [])]) as Hcall.
  { unfold batchParams, setMapped. now rewrite Hp. }
  split; [exact Hcall |].
  assert (forall x,
            holds (setMapped (loaderMetaParams loader) meta (VObj [])) x
              (match lastMapped (loaderMetaParams loader) meta x with
               | Some v => v
               | None => VUndefined
               end)) as Hmapped.
  { intros x. apply setMapped_holds; [exact Hsimple |].
    exists []. repeat split; constructor. }
  split.
  - intros Hstatic Hmeta.
    destruct (Hmapped (actionParam loader)) as (mprops & Em & Hmnd & Hm).
    rewrite Hcall, Em. unfold Lodash.defaultsDeep, Lodash.toObject.
    cbn [nullish fold_left truthy].
    destruct (baseMerge_props pprops [(actionParam loader, VArr keys)])
      as [props1 E1].
    rewrite E1. rewrite (baseMerge_key mprops props1 _ Hmnd).
    rewrite <- E1, (baseMerge_key pprops _ _ Hnd).
    cbn [Lodash.getProp assoc]. rewrite String.eqb_refl.
    rewrite getProp_assoc in Hstatic.
    rewrite (defaulted_scalar (VArr keys) _ eq_refl Hstatic).
    rewrite <- Hm, Em, getProp_assoc in Hmeta.
    now rewrite (defaulted_scalar (VArr keys) _ eq_refl Hmeta).
  - intros x Hne _ Hstatic _.
    destruct (Hmapped x) as (mprops & Em & Hmnd & Hm).
    rewrite Hcall, Em.
    rewrite (defaultsDeep_two [(actionParam loader, VArr keys)] pprops
               mprops x Hnd Hmnd).
    + rewrite Em in Hm. rewrite Hm. cbn [Lodash.getProp assoc].
      destruct (String.eqb_spec x (actionParam loader)); [contradiction |].
      reflexivity.
    + cbn [Lodash.getProp assoc].
      destruct (String.eqb_spec x (actionParam loader)); [contradiction |].
      reflexivity.
    + exact Hstatic.
Qed.

Lemma loader_batch_params_witness :
  Lodash.getProp
    (batchParams Scenario.limitedLoader
       (VObj [("user", VStr "u1"); ("tenant", VStr "t1")])
       [VNum 1; VNum 2])
    "authorIds"
  = VArr [VNum 1; VNum 2]
  /\ Lodash.getProp
       (batchParams Scenario.limitedLoader
          (VObj [("user", VStr "u1"); ("tenant", VStr "t1")])
          [VNum 1; VNum 2])
       "userId"
     = firstDefined [VStr "nobody"; VStr "u1"]
  /\ Lodash.getProp
       (batchParams Scenario.limitedLoader
          (VObj [("user", VStr "u1"); ("tenant", VStr "t1")])
          [VNum 1; VNum 2])
       "tenantId"
     = firstDefined [VUndefined; VStr "t1"].
Proof.
  destruct (loader_batch_params Scenario.limitedLoader
              (VObj [("user", VStr "u1"); ("tenant", VStr "t1")])
              [VNum 1; VNum 2]
              [("limit", VNum 5); ("userId", VStr "nobody")] eq_refl)
    as (_ & Hkeys & Hother); try reflexivity.
  - repeat (constructor; [cbn [In]; intuition discriminate |]). constructor.
  - split; [|split].
    + apply Hkeys; reflexivity.
    + apply (Hother "userId"); [discriminate | reflexivity..].
    + apply (Hother "tenantId"); [discriminate | reflexivity..].
Defined.

(** ** A batched resolver whose loader fails *)

Section BatchedFailure.

(** One promise fails and the others are fulfilled. *)
Lemma promiseAll_failure (loaded : list JsVal) (err : JsVal)
    (rest : list (Result JsVal)) :
  promiseAll (map Ok loaded ++ Err err :: rest) = Err err.
Proof.
  induction loaded as [|v loaded IH]; [reflexivity |].
  cbn [map app promiseAll]. now rewrite IH.
Qed.

(** An evaluation that throws ends the map: the items after it are not
    asked for. *)
Lemma askAll_threw (ask : JsVal -> Asked) (before after : list JsVal)
    (failing err : JsVal) (settled : list (Result JsVal)) :
  map ask before = map Promised settled ->
  ask failing = Threw err ->
  askAll ask (before ++ failing :: after) = (before ++ [failing], Err err).
Proof.
  revert settled. induction before as [|item before IH]; intros settled Hb Hf.
  - cbn [app askAll]. now rewrite Hf.
  - destruct settled as [|r settled]; [discriminate Hb |].
    cbn [map] in Hb. injection Hb as Hitem Hb.
    cbn [app askAll]. rewrite Hitem, (IH settled Hb Hf). reflexivity.
Qed.

End BatchedFailure.

(** X15. A batched resolver whose loader fails, for a root that is truthy.
    When the root holds an array under the root key and the promise of one
    element is rejected while those of the others are fulfilled, every
    element was asked for, in order, and the resolver fails with the error
    of that promise, cleared of its reference to the call context, or
    resolves to null under [nullIfError]. When the evaluation of
    [context.loaders[actionName].load(item)] throws for an element - there
    is no loader under the name, or the loader refuses the element, as a
    DataLoader refuses null and undefined - the map ends there: the
    elements after it are never asked for, whatever the promises of the
    elements before it settle to, and the resolver fails with what was
    thrown, cleared in the same way, or resolves to null under
    [nullIfError]. A single value that is rejected or refused fails the
    resolver in the same way. The arguments are never touched. *)
Theorem batched_failure :
  forall (actionName : string) (def : ResolverDef) (root args : JsVal)
         (context : Context) (key : string),
    dataLoader def = true ->
    firstRootKey def = Some key ->
    truthy root = true ->
    (forall (before after loaded loaded' : list JsVal) (failing err : JsVal),
       Lodash.get root key = VArr (before ++ failing :: after) ->
       map (loaders context actionName) before
       = map (fun v => Promised (Ok v)) loaded ->
       map (loaders context actionName) after
       = map (fun v => Promised (Ok v)) loaded' ->
       loaders context actionName failing = Promised (Err err) ->
       invokeActionResolver actionName def root args context
       = {| outcome := if nullIfError def then Ok VNull
                       else Err (clearContext err);
            argsAfter := args;
            trace := map (Loaded actionName) (before ++ failing :: after) |})
    /\ (forall (before after : list JsVal) (settled : list (Result JsVal))
               (failing err : JsVal),
          Lodash.get root key = VArr (before ++ failing :: after) ->
          map (loaders context actionName) before = map Promised settled ->
          loaders context actionName failing = Threw err ->
          invokeActionResolver actionName def root args context
          = {| outcome := if nullIfError def then Ok VNull
                          else Err (clearContext err);
               argsAfter := args;
               trace := map (Loaded actionName) (before ++ [failing]) |})
    /\ (forall err : JsVal,
          nullish (Lodash.get root key) = false ->
          (forall items, Lodash.get root key <> VArr items) ->
          loaders context actionName (Lodash.get root key)
          = Promised (Err err)
          \/ loaders context actionName (Lodash.get root key) = Threw err ->
          invokeActionResolver actionName def root args context
          = {| outcome := if nullIfError def then Ok VNull
                          else Err (clearContext err);
               argsAfter := args;
               trace := [Loaded actionName (Lodash.get root key)] |}).
Proof.
  intros actionName def root args context key Hdl Hkey Htruthy.
  unfold invokeActionResolver, loadBatched, batchValue.
  rewrite Hdl, Hkey, Htruthy.
  generalize (Lodash.get root key) as value. intros value.
  split; [|split].
  - intros before after loaded loaded' failing err -> Hb Ha Hf.
    cbn [nullish].
    rewrite (askAll_promised _ _
               (map Ok loaded ++ Err err :: map Ok loaded')).
    + cbn [bind outcome]. rewrite promiseAll_failure. reflexivity.
    + rewrite !map_app. cbn [map]. rewrite Hb, Ha, Hf, !map_map.
      reflexivity.
  - intros before after settled failing err -> Hb Hf.
    cbn [nullish]. rewrite (askAll_threw _ _ _ _ _ settled Hb Hf).
    reflexivity.
  - intros err Hnull Hnot Hload. rewrite Hnull.
    destruct value; try (now destruct Hload as [-> | ->]).
    now destruct (Hnot items).
Qed.

Lemma batched_failure_witness :
  invokeActionResolver "v2.posts.byAuthor" Sample.byAuthor
    (VObj [("id", VArr [VNum 1; VNum 2; VNum 3])]) (VObj []) Scenario.flaky
  = {| outcome :=
         Err (VObj [("message", VStr "not found"); ("ctx", VNull)]);
       argsAfter := VObj [];
       trace := map (Loaded "v2.posts.byAuthor") [VNum 1; VNum 2; VNum 3] |}
  /\ invokeActionResolver "v2.posts.byAuthor" Sample.byAuthor
       (VObj [("id", VArr [VNum 1; VNull; VNum 3])]) (VObj []) Scenario.flaky
     = {| outcome := Err Sample.noKey;
          argsAfter := VObj [];
          trace := map (Loaded "v2.posts.byAuthor") [VNum 1; VNull] |}
  /\ invokeActionResolver "v2.posts.byAuthor" Sample.byAuthor
       (VObj [("id", VNum 1)]) (VObj []) Sample.failing
     = {| outcome := Err Sample.noLoader;
          argsAfter := VObj [];
          trace := [Loaded "v2.posts.byAuthor" (VNum 1)] |}.
Proof.
  split; [|split].
  - destruct (batched_failure "v2.posts.byAuthor" Sample.byAuthor
                (VObj [("id", VArr [VNum 1; VNum 2; VNum 3])]) (VObj [])
                Scenario.flaky "id" eq_refl eq_refl eq_refl)
      as (Harray & _).
    apply (Harray [VNum 1] [VNum 3] [VArr [VNum 1]] [VArr [VNum 3]] (VNum 2)
             Sample.failure); reflexivity.
  - destruct (batched_failure "v2.posts.byAuthor" Sample.byAuthor
                (VObj [("id", VArr [VNum 1; VNull; VNum 3])]) (VObj [])
                Scenario.flaky "id" eq_refl eq_refl eq_refl)
      as (_ & Hthrew & _).
    apply (Hthrew [VNum 1] [VNum 3] [Ok (VArr [VNum 1])] VNull Sample.noKey);
      reflexivity.
  - destruct (batched_failure "v2.posts.byAuthor" Sample.byAuthor
                (VObj [("id", VNum 1)]) (VObj []) Sample.failing "id"
                eq_refl eq_refl eq_refl)
      as (_ & _ & Hsingle).
    apply (Hsingle Sample.noLoader); [reflexivity | discriminate |].
    right. reflexivity.
Defined.

(** ** The two sides of the resolver of a subscription *)

Section SubscriptionSides.



End SubscriptionSides.



(** ** What a pass leaves as it was *)

Section Frame.

Context {host : Host}.

Implicit Types (r : ResolverMap) (type field : string).

Lemma fieldAt_assign_other type type' field
    (fields : list (string * Resolver)) r :
  type <> type' ->
  fieldAt type' field (assign type fields r) = fieldAt type' field r.
Proof.
  intros Hne. unfold fieldAt. now rewrite assoc_assign_ne.
Qed.

Lemma fieldAt_assign_same type field (fields : list (string * Resolver)) r :
  fieldAt type field (assign type fields r) = assoc field fields.
Proof. unfold fieldAt. now rewrite assoc_assign_eq. Qed.

Lemma fieldAt_fields type field r :
  fieldAt type field r
  = assoc field match assoc type r with Some f => f | None => [] end.
Proof. unfold fieldAt. now destruct (assoc type r). Qed.

Lemma mergeFields_other (dest src : list (string * Resolver)) field :
  ~ In field (map fst src) ->
  assoc field (mergeFields dest src) = assoc field dest.
Proof.
  unfold mergeFields. revert dest.
  induction src as [|[k v] src IH]; intros dest Hnot; [reflexivity |].
  cbn [map fst In] in Hnot. cbn [fold_left]. rewrite IH by tauto.
  destruct (assoc k dest); apply assoc_assign_ne; tauto.
Qed.

Lemma mergeType_frame (acc : ResolverMap) (name : string)
    (fields : list (string * Resolver)) type field :
  (name = type -> ~ In field (map fst fields)) ->
  fieldAt type field (mergeType acc name fields) = fieldAt type field acc.
Proof.
  intros Hnot. unfold mergeType.
  destruct (String.eqb_spec name type) as [->|Hne].
  - rewrite fieldAt_assign_same, mergeFields_other by auto.
    now rewrite fieldAt_fields.
  - now apply fieldAt_assign_other.
Qed.

Lemma createServiceResolvers_only (serviceName : string)
    (decls : list (string * ResolverDecl)) field :
  In field (map fst (createServiceResolvers serviceName decls)) ->
  In field (map fst decls).
Proof.
  unfold createServiceResolvers.
  assert (forall acc : list (string * Resolver),
            In field
              (map fst
                 (fold_left
                    (fun acc '(name, r) =>
                       match r with
                       | DeclObject (Some action) def =>
                           assign name
                             (createActionResolver
                                (getResolverActionName serviceName action) def)
                             acc
                       | _ => assign name (Passthrough r) acc
                       end)
                    decls acc)) ->
            In field (map fst acc) \/ In field (map fst decls)) as H.
  { induction decls as [|[name d] decls IH]; intros acc Hin.
    - now left.
    - cbn [fold_left] in Hin. apply IH in Hin. cbn [map fst In].
      assert (forall x : Resolver,
                In field (map fst (assign name x acc))
                \/ In field (map fst decls) ->
                In field (map fst acc)
                \/ name = field \/ In field (map fst decls)) as Hx.
      { intros x. rewrite keys_assign. intuition congruence. }
      destruct d as [[action|] def|value]; now apply Hx in Hin. }
  intros Hin. apply H in Hin as [[] | Hin]. exact Hin.
Qed.

Lemma globalResolvers_frame (serviceName : string)
    (declared : list (string * list (string * ResolverDecl))) type field :
  forall r,
    ~ In (type, field)
         (flat_map
            (fun entry => map (fun f => (fst entry, fst f)) (snd entry))
            declared) ->
    fieldAt type field
      (fold_left
         (fun acc '(name, resolver) =>
            mergeType acc name (createServiceResolvers serviceName resolver))
         declared r)
    = fieldAt type field r.
Proof.
  induction declared as [|[name fs] declared IH]; intros r Hnot;
    [reflexivity |].
  cbn [flat_map fst snd] in Hnot. rewrite in_app_iff in Hnot.
  cbn [fold_left]. rewrite IH by tauto.
  apply mergeType_frame. intros -> Hin.
  apply createServiceResolvers_only in Hin.
  apply Hnot. left. apply in_map_iff in Hin as ([f x] & <- & Hin).
  apply in_map_iff. now exists (f, x).
Qed.

Lemma setField_frame (type' name : string) (x : Resolver) r type field :
  (type', name) <> (type, field) ->
  fieldAt type field (setField type' name x r) = fieldAt type field r.
Proof.
  intros Hne. unfold setField.
  destruct (String.eqb_spec type' type) as [->|Ht].
  - rewrite fieldAt_assign_same, fieldAt_fields.
    apply assoc_assign_ne. congruence.
  - now apply fieldAt_assign_other.
Qed.

Lemma ensureType_frame (type' : string) r type field :
  fieldAt type field (ensureType type' r) = fieldAt type field r.
Proof.
  unfold ensureType. destruct (assoc type' r) eqn:E; [reflexivity |].
  destruct (String.eqb_spec type' type) as [->|Ht].
  - rewrite fieldAt_assign_same. unfold fieldAt. now rewrite E.
  - now apply fieldAt_assign_other.
Qed.

Lemma NoDup_setField (type name : string) (x : Resolver) r :
  List.NoDup (map fst r) -> List.NoDup (map fst (setField type name x r)).
Proof. apply NoDup_keys_assign. Qed.

Lemma NoDup_ensureType (type : string) r :
  List.NoDup (map fst r) -> List.NoDup (map fst (ensureType type r)).
Proof.
  unfold ensureType. destruct (assoc type r); [auto |].
  apply NoDup_keys_assign.
Qed.

Lemma compileCall_fold_frame (which : ListName) (type' actionName : string)
    (ds : list string) type field :
  forall (st : Lists * ResolverMap),
    ~ In (type, field) (fieldsOf type' ds) ->
    fieldAt type field
      (snd (fold_left (compileCall which type' actionName) ds st))
    = fieldAt type field (snd st)
    /\ (List.NoDup (map fst (snd st)) ->
        List.NoDup
          (map fst
             (snd (fold_left (compileCall which type' actionName) ds st)))).
Proof.
  induction ds as [|d ds IH]; intros st Hnot; [now split |].
  cbn [fieldsOf map In] in Hnot. cbn [fold_left].
  destruct (IH (compileCall which type' actionName st d)) as [Hat Hnd];
    [unfold fieldsOf; tauto |].
  split.
  - rewrite Hat. unfold compileCall. cbn [snd].
    apply setField_frame. intros H. apply Hnot. left. exact H.
  - intros H. apply Hnd. unfold compileCall. cbn [snd].
    now apply NoDup_setField.
Qed.

Lemma compileCalls_frame (which : ListName) (type' actionName : string)
    (declarations : Fragments) (st : Lists * ResolverMap) type field :
  ~ In (type, field)
       (fieldsOf type'
          (if given declarations then castArray declarations else [])) ->
  fieldAt type field
    (snd (compileCalls which type' actionName declarations st))
  = fieldAt type field (snd st)
  /\ (List.NoDup (map fst (snd st)) ->
      List.NoDup
        (map fst (snd (compileCalls which type' actionName declarations st)))).
Proof.
  unfold compileCalls. destruct (given declarations); [|now split].
  intros Hnot.
  destruct (compileCall_fold_frame which type' actionName
              (castArray declarations) type field
              (fst st, ensureType type' (snd st)) Hnot) as [Hat Hnd].
  cbn [snd] in Hat, Hnd. split.
  - now rewrite Hat, ensureType_frame.
  - intros H. now apply Hnd, NoDup_ensureType.
Qed.

Lemma compileSubscription_frame (actionName : string) (def : GraphqlDef.t)
    (st st' : Lists * ResolverMap) (subscription : string) type field :
  compileSubscription actionName def st subscription = Ok st' ->
  ("Subscription", getFieldName subscription) <> (type, field) ->
  fieldAt type field (snd st') = fieldAt type field (snd st)
  /\ (List.NoDup (map fst (snd st)) -> List.NoDup (map fst (snd st'))).
Proof.
  unfold compileSubscription.
  destruct (createAsyncIteratorResolver _ _ _) as [x|e]; [|discriminate].
  cbn [bind]. intros H Hne. injection H as <-. cbn [snd]. split.
  - now apply setField_frame.
  - apply NoDup_setField.
Qed.

Lemma subscriptions_fold_frame (actionName : string) (def : GraphqlDef.t)
    (ds : list string) type field :
  forall (st st' : Lists * ResolverMap),
    reduce (compileSubscription actionName def) ds (Ok st) = Ok st' ->
    ~ In (type, field) (fieldsOf "Subscription" ds) ->
    fieldAt type field (snd st') = fieldAt type field (snd st)
    /\ (List.NoDup (map fst (snd st)) -> List.NoDup (map fst (snd st'))).
Proof.
  induction ds as [|d ds IH]; intros st st' H Hnot.
  - injection H as <-. now split.
  - rewrite reduce_cons in H. cbn [fieldsOf map In] in Hnot.
    destruct (compileSubscription actionName def st d) as [st1|e] eqn:E;
      [|rewrite reduce_err in H; discriminate H].
    destruct (compileSubscription_frame _ _ _ _ _ type field E) as [Hat Hnd];
      [tauto |].
    destruct (IH st1 st' H) as [Hat' Hnd']; [unfold fieldsOf; tauto |].
    split; [congruence | auto].
Qed.

Lemma compileSubscriptions_frame (actionName : string) (def : GraphqlDef.t)
    (st st' : Lists * ResolverMap) type field :
  compileSubscriptions actionName def st = Ok st' ->
  ~ In (type, field) (fieldsOf "Subscription" (declared Subscriptions def)) ->
  fieldAt type field (snd st') = fieldAt type field (snd st)
  /\ (List.NoDup (map fst (snd st)) -> List.NoDup (map fst (snd st'))).
Proof.
  unfold compileSubscriptions, declared. cbn [fragmentOf].
  destruct (given (GraphqlDef.subscription def)).
  - intros H Hnot.
    destruct (subscriptions_fold_frame _ _ _ type field _ _ H Hnot)
      as [Hat Hnd].
    cbn [snd] in Hat, Hnd. split.
    + now rewrite Hat, ensureType_frame.
    + intros Hs. now apply Hnd, NoDup_ensureType.
  - intros H _. injection H as <-. now split.
Qed.

(** The fields for which an action declares a resolver. *)
Lemma compileAction_frame (st st' : Lists * ResolverMap) (action : Action.t)
    type field :
  compileAction st action = Ok st' ->
  ~ In (type, field)
       match Action.graphql action with
       | Some def =>
           fieldsOf "Query" (declared Queries def)
           ++ fieldsOf "Mutation" (declared Mutations def)
           ++ fieldsOf "Subscription" (declared Subscriptions def)
       | None => []
       end ->
  fieldAt type field (snd st') = fieldAt type field (snd st)
  /\ (List.NoDup (map fst (snd st)) -> List.NoDup (map fst (snd st'))).
Proof.
  unfold compileAction. destruct (Action.graphql action) as [def|].
  - intros H Hnot. rewrite !in_app_iff in Hnot.
    destruct (compileCalls_frame Queries "Query" (Action.name action)
                (GraphqlDef.query def) st type field) as [Hq Hqn];
      [unfold declared in Hnot; cbn [fragmentOf] in Hnot; tauto |].
    set (st1 := compileCalls Queries "Query" (Action.name action)
                  (GraphqlDef.query def) st) in *.
    destruct (compileCalls_frame Mutations "Mutation" (Action.name action)
                (GraphqlDef.mutation def) st1 type field) as [Hm Hmn];
      [unfold declared in Hnot; cbn [fragmentOf] in Hnot; tauto |].
    set (st2 := compileCalls Mutations "Mutation" (Action.name action)
                  (GraphqlDef.mutation def) st1) in *.
    destruct (compileSubscriptions (Action.name action) def st2)
      as [[l3 r3]|e] eqn:E; [|discriminate H].
    destruct (compileSubscriptions_frame _ _ _ _ type field E) as [Hs Hsn];
      [tauto |].
    cbn [bind] in H. injection H as <-. cbn [snd] in *.
    split; [congruence | auto].
  - intros H _. injection H as <-. now split.
Qed.

Lemma actions_frame (actions : list Action.t) type field :
  forall (st st' : Lists * ResolverMap),
    reduce compileAction actions (Ok st) = Ok st' ->
    ~ In (type, field)
         (flat_map
            (fun action =>
               match Action.graphql action with
               | Some def =>
                   fieldsOf "Query" (declared Queries def)
                   ++ fieldsOf "Mutation" (declared Mutations def)
                   ++ fieldsOf "Subscription" (declared Subscriptions def)
               | None => []
               end)
            actions) ->
    fieldAt type field (snd st') = fieldAt type field (snd st)
    /\ (List.NoDup (map fst (snd st)) -> List.NoDup (map fst (snd st'))).
Proof.
  induction actions as [|a actions IH]; intros st st' H Hnot.
  - injection H as <-. now split.
  - rewrite reduce_cons in H. cbn [flat_map] in Hnot.
    rewrite in_app_iff in Hnot.
    destruct (compileAction st a) as [st1|e] eqn:E;
      [|rewrite reduce_err in H; discriminate H].
    destruct (compileAction_frame _ _ _ type field E) as [Hat Hnd];
      [tauto |].
    destruct (IH st1 st' H) as [Hat' Hnd']; [tauto |].
    split; [congruence | auto].
Qed.

Lemma In_assoc_NoDup {A : Type} (k : string) (v : A)
    (ps : list (string * A)) :
  List.NoDup (map fst ps) -> In (k, v) ps -> assoc k ps = Some v.
Proof.
  induction ps as [|[k' v'] ps IH]; intros Hnd Hin; [destruct Hin |].
  cbn [map fst] in Hnd. apply NoDup_cons_iff in Hnd as [Hnew Hnd].
  cbn [assoc]. destruct Hin as [E | Hin].
  - injection E as -> ->. now rewrite String.eqb_refl.
  - destruct (String.eqb_spec k k') as [->|Hne]; [|now apply IH].
    exfalso. apply Hnew. apply in_map_iff. now exists (k', v).
Qed.

Lemma mergeResolvers_frame (src : ResolverMap) type field :
  forall dest : ResolverMap,
    (forall name fields,
       In (name, fields) src -> name = type -> ~ In field (map fst fields)) ->
    fieldAt type field (mergeResolvers dest src) = fieldAt type field dest.
Proof.
  unfold mergeResolvers.
  induction src as [|[name fields] src IH]; intros dest Hnot; [reflexivity |].
  cbn [fold_left]. rewrite IH.
  - apply mergeType_frame. apply (Hnot name fields). now left.
  - intros n fs Hin. apply Hnot. now right.
Qed.

Lemma compileService_frame (service : Service.t) (l l' : Lists)
    (r r' : ResolverMap) type field :
  compileService service l r = Ok (l', r') ->
  ~ In (type, field) (declaredFields service) ->
  fieldAt type field r' = fieldAt type field r.
Proof.
  unfold compileService, declaredFields. cbv zeta.
  intros H Hnot. rewrite in_app_iff in Hnot.
  assert (fieldAt type field
            (snd match Service.graphql service with
                 | Some globalDef =>
                     compileGlobal (getServiceName service) globalDef l r
                 | None => (l, r)
                 end)
          = fieldAt type field r) as Hglobal.
  { destruct (Service.graphql service) as [globalDef|]; [|reflexivity].
    unfold compileGlobal.
    destruct (GraphqlDef.resolvers globalDef) as [declared|];
      [|reflexivity].
    cbn [snd]. apply globalResolvers_frame. tauto. }
  destruct (match Service.graphql service with
            | Some globalDef =>
                compileGlobal (getServiceName service) globalDef l r
            | None => (l, r)
            end) as [l1 r1].
  cbn [snd] in Hglobal. cbn beta iota in H.
  match type of H with
  | bind ?loop _ = _ => destruct loop as [[l2 r2]|e] eqn:E
  end; [|discriminate H].
  cbn [bind] in H.
  destruct (actions_frame (Service.actions service) type field _ _ E)
    as [Hat Hnd]; [tauto |].
  cbn [snd] in Hat, Hnd. specialize (Hnd (List.NoDup_nil _)).
  destruct (nonEmpty r2); injection H as <- <-; [|exact Hglobal].
  rewrite mergeResolvers_frame; [exact Hglobal |].
  intros name fields Hin -> Hfield.
  pose proof (In_assoc_NoDup _ _ _ Hnd Hin) as Hsome.
  unfold fieldAt in Hat. rewrite Hsome in Hat. cbn [assoc] in Hat.
  apply assoc_None_keys in Hat. contradiction.
Qed.

Lemma eachService_frame (pass pass' : Pass) (service : Service.t)
    type field :
  eachService pass service = Ok pass' ->
  ~ In (type, field) (declaredFields service) ->
  fieldAt type field (resolvers pass') = fieldAt type field (resolvers pass).
Proof.
  unfold eachService. case_bool_decide as Hseen.
  - intros H _. now injection H as <-.
  - destruct (compileService service (lists pass) (resolvers pass))
      as [[l r]|e] eqn:E; [|discriminate].
    cbn [bind]. intros H Hnot. injection H as <-. cbn [resolvers].
    now apply (compileService_frame _ _ _ _ _ type field E).
Qed.

Lemma collectFrom_frame (services : list Service.t) type field :
  forall pass pass' : Pass,
    collectFrom (Ok pass) services = Ok pass' ->
    (forall service,
       In service services -> ~ In (type, field) (declaredFields service)) ->
    fieldAt type field (resolvers pass') = fieldAt type field (resolvers pass).
Proof.
  induction services as [|s services IH]; intros pass pass' H Hnot.
  - now injection H as <-.
  - unfold collectFrom in H. rewrite reduce_cons in H.
    destruct (eachService pass s) as [pass1|e] eqn:E;
      [|rewrite reduce_err in H; discriminate H].
    rewrite (IH pass1 pass' H) by (intros x Hx; apply Hnot; now right).
    apply (eachService_frame _ _ _ type field E). apply Hnot. now left.
Qed.

(** X17. A pass changes the resolver map only where a service declares a
    resolver. Under a type and a field that no service of the list
    declares, neither in the resolvers of its settings nor by a query, a
    mutation or a subscription of one of its actions, the map of the pass
    holds at its end what the resolvers of the mixin options hold there,
    and nothing when the options have none. *)
Theorem composition_frame :
  forall (services : list Service.t) (pass : Pass) (type field : string),
    collect services = Ok pass ->
    (forall service : Service.t,
       In service services -> ~ In (type, field) (declaredFields service)) ->
    fieldAt type field (resolvers pass)
    = fieldAt type field
        match MixinOptions.resolvers mixinOptions with
        | Some given => given
        | None => []
        end.
Proof.
  intros services pass type field H Hnot.
  now rewrite (collectFrom_frame services type field startOfPass pass H Hnot).
Qed.

End Frame.

Lemma composition_frame_witness :
  exists pass : Pass,
    collect (host := Scenario.gateway) Sample.services = Ok pass
    /\ fieldAt "Date" "serialize" (resolvers pass)
       = Some (Passthrough (DeclOther (VForeign 9))).
Proof.
  destruct (collect (host := Scenario.gateway) Sample.services)
    as [pass|err] eqn:H; [|vm_compute in H; discriminate H].
  exists pass. split; [reflexivity |].
  apply (composition_frame (host := Scenario.gateway) Sample.services pass
           "Date" "serialize" H).
  intros service [<- | [<- | [<- | []]]]; vm_compute; intuition discriminate.
Defined.

(** ** The resolver of a field that is declared once *)

Section DeclaredOnce.

Context {host : Host}.

Implicit Types (r : ResolverMap) (type field : string).

Lemma mergeFields_adds_value (src : list (string * Resolver)) field
    (x : Resolver) :
  forall dest : list (string * Resolver),
    List.NoDup (map fst src) ->
    assoc field dest = None ->
    assoc field src = Some x ->
    assoc field (mergeFields dest src) = Some x.
Proof.
  unfold mergeFields.
  induction src as [|[k v] src IH]; intros dest Hnd Hdest Hsrc;
    [discriminate Hsrc |].
  cbn [map fst] in Hnd. apply NoDup_cons_iff in Hnd as [Hnew Hnd].
  cbn [fold_left]. cbn [assoc] in Hsrc.
  destruct (String.eqb_spec field k) as [->|Hne].
  - injection Hsrc as ->. rewrite Hdest.
    pose proof (mergeFields_other (assign k x dest) src k Hnew) as Hkeep.
    unfold mergeFields in Hkeep. rewrite Hkeep. apply assoc_assign_eq.
  - apply IH; [exact Hnd | | exact Hsrc].
    destruct (assoc k dest); rewrite assoc_assign_ne by congruence;
      exact Hdest.
Qed.

Lemma mergeType_adds_value (acc : ResolverMap) type
    (fields : list (string * Resolver)) field (x : Resolver) :
  List.NoDup (map fst fields) ->
  fieldAt type field acc = None ->
  assoc field fields = Some x ->
  fieldAt type field (mergeType acc type fields) = Some x.
Proof.
  intros Hnd Hacc Hsrc. unfold mergeType.
  rewrite fieldAt_assign_same. apply mergeFields_adds_value; try assumption.
  now rewrite <- fieldAt_fields.
Qed.

Lemma createServiceResolvers_value (serviceName : string)
    (fs : list (string * ResolverDecl)) field (decl : ResolverDecl) :
  List.NoDup (map fst fs) ->
  In (field, decl) fs ->
  List.NoDup (map fst (createServiceResolvers serviceName fs))
  /\ assoc field (createServiceResolvers serviceName fs)
     = Some (resolverOf serviceName decl).
Proof.
  intros Hnd Hin. unfold createServiceResolvers.
  rewrite (createServiceResolvers_step serviceName fs []) by exact Hnd.
  cbn [app]. split.
  - rewrite map_map. cbn [fst]. exact Hnd.
  - apply In_assoc_NoDup.
    + rewrite map_map. cbn [fst]. exact Hnd.
    + apply in_map_iff. now exists (field, decl).
Qed.

Lemma globalResolvers_value (serviceName : string)
    (declared : list (string * list (string * ResolverDecl)))
    (fs : list (string * ResolverDecl)) type field (decl : ResolverDecl) :
  forall r,
    List.NoDup (map fst declared) ->
    In (type, fs) declared ->
    List.NoDup (map fst fs) ->
    In (field, decl) fs ->
    fieldAt type field r = None ->
    fieldAt type field
      (fold_left
         (fun acc '(name, resolver) =>
            mergeType acc name (createServiceResolvers serviceName resolver))
         declared r)
    = Some (resolverOf serviceName decl).
Proof.
  induction declared as [|[name fs0] declared IH];
    intros r Hnd Hin Hfs Hdecl Hr; [destruct Hin |].
  cbn [map fst] in Hnd. apply NoDup_cons_iff in Hnd as [Hnew Hnd].
  cbn [fold_left]. destruct Hin as [E | Hin].
  - injection E as -> ->.
    destruct (createServiceResolvers_value serviceName fs field decl Hfs Hdecl)
      as [Hkeys Hvalue].
    rewrite globalResolvers_frame.
    + now apply mergeType_adds_value.
    + intros Hbad. apply in_flat_map in Hbad as ([n fs'] & Hentry & Hbad).
      apply in_map_iff in Hbad as (f & E & _). cbn [fst] in E.
      injection E as -> _. apply Hnew. apply in_map_iff.
      now exists (type, fs').
  - apply IH; try assumption.
    rewrite mergeType_frame; [exact Hr |].
    intros ->. exfalso. apply Hnew. apply in_map_iff. now exists (type, fs).
Qed.

(** The fields for which the actions of a service declare a resolver. *)
Lemma compileService_settings (service : Service.t) (l l' : Lists)
    (r r' : ResolverMap) (globalDef : GraphqlDef.t)
    (byType : list (string * list (string * ResolverDecl)))
    (fs : list (string * ResolverDecl)) type field (decl : ResolverDecl) :
  compileService service l r = Ok (l', r') ->
  Service.graphql service = Some globalDef ->
  GraphqlDef.resolvers globalDef = Some byType ->
  List.NoDup (map fst byType) ->
  In (type, fs) byType ->
  List.NoDup (map fst fs) ->
  In (field, decl) fs ->
  ~ In (type, field)
       (flat_map
          (fun action =>
             match Action.graphql action with
             | Some def =>
                 fieldsOf "Query" (declared Queries def)
                 ++ fieldsOf "Mutation" (declared Mutations def)
                 ++ fieldsOf "Subscription" (declared Subscriptions def)
             | None => []
             end)
          (Service.actions service)) ->
  fieldAt type field r = None ->
  fieldAt type field r' = Some (resolverOf (getServiceName service) decl).
Proof.
  unfold compileService. cbv zeta. intros H Hg Hres Hnd Hin Hfs Hdecl Hacts Hr.
  rewrite Hg in H. unfold compileGlobal in H. cbv zeta in H.
  rewrite Hres in H. cbn beta iota in H.
  match type of H with
  | bind ?loop _ = _ => destruct loop as [[l2 r2]|e] eqn:E
  end; [|discriminate H].
  cbn [bind] in H.
  destruct (actions_frame (Service.actions service) type field _ _ E Hacts)
    as [Hat Hkeys].
  cbn [snd] in Hat, Hkeys. specialize (Hkeys (List.NoDup_nil _)).
  pose proof (globalResolvers_value (getServiceName service) byType fs type
                field decl r Hnd Hin Hfs Hdecl Hr) as Hvalue.
  destruct (nonEmpty r2); injection H as <- <-; [|exact Hvalue].
  rewrite mergeResolvers_frame; [exact Hvalue |].
  intros name fields Hentry -> Hfield.
  pose proof (In_assoc_NoDup _ _ _ Hkeys Hentry) as Hsome.
  unfold fieldAt in Hat. rewrite Hsome in Hat. cbn [assoc] in Hat.
  apply assoc_None_keys in Hat. contradiction.
Qed.

(** *** The fields of the actions *)

Lemma Forall_assign {A : Type} (P : string * A -> Prop) (k : string) (v : A)
    (ps : list (string * A)) :
  Forall P ps -> P (k, v) -> Forall P (assign k v ps).
Proof.
  intros Hall Hv. induction ps as [|[k' v'] ps IH]; cbn [assign].
  - now constructor.
  - apply List.Forall_cons_iff in Hall as [Hhead Hall].
    destruct (String.eqb k k'); constructor; auto.
Qed.

Lemma fields_NoDup r type (fields : list (string * Resolver)) :
  Forall (fun entry => List.NoDup (map fst (snd entry))) r ->
  assoc type r = Some fields ->
  List.NoDup (map fst fields).
Proof.
  intros Hall Hsome. apply assoc_Some_In in Hsome.
  rewrite List.Forall_forall in Hall. exact (Hall _ Hsome).
Qed.

Lemma setField_tidy (type name : string) (x : Resolver) r :
  Forall (fun entry => List.NoDup (map fst (snd entry))) r ->
  Forall (fun entry => List.NoDup (map fst (snd entry)))
    (setField type name x r).
Proof.
  intros Hall. unfold setField. apply Forall_assign; [exact Hall |].
  cbn [snd]. apply NoDup_keys_assign.
  destruct (assoc type r) as [fields|] eqn:E; [|constructor].
  exact (fields_NoDup r type fields Hall E).
Qed.

Lemma ensureType_tidy (type : string) r :
  Forall (fun entry => List.NoDup (map fst (snd entry))) r ->
  Forall (fun entry => List.NoDup (map fst (snd entry))) (ensureType type r).
Proof.
  intros Hall. unfold ensureType. destruct (assoc type r); [exact Hall |].
  apply Forall_assign; [exact Hall | constructor].
Qed.

Lemma compileCall_fold_tidy (which : ListName) (type actionName : string)
    (ds : list string) :
  forall st : Lists * ResolverMap,
    Forall (fun entry => List.NoDup (map fst (snd entry))) (snd st) ->
    Forall (fun entry => List.NoDup (map fst (snd entry)))
      (snd (fold_left (compileCall which type actionName) ds st)).
Proof.
  induction ds as [|d ds IH]; intros st Hall; [exact Hall |].
  cbn [fold_left]. apply IH. unfold compileCall. cbn [snd].
  now apply setField_tidy.
Qed.

Lemma compileCalls_tidy (which : ListName) (type actionName : string)
    (declarations : Fragments) (st : Lists * ResolverMap) :
  Forall (fun entry => List.NoDup (map fst (snd entry))) (snd st) ->
  Forall (fun entry => List.NoDup (map fst (snd entry)))
    (snd (compileCalls which type actionName declarations st)).
Proof.
  intros Hall. unfold compileCalls. destruct (given declarations);
    [|exact Hall].
  apply compileCall_fold_tidy. cbn [snd]. now apply ensureType_tidy.
Qed.

Lemma compileSubscriptions_tidy (actionName : string) (def : GraphqlDef.t)
    (st st' : Lists * ResolverMap) :
  compileSubscriptions actionName def st = Ok st' ->
  Forall (fun entry => List.NoDup (map fst (snd entry))) (snd st) ->
  Forall (fun entry => List.NoDup (map fst (snd entry))) (snd st').
Proof.
  unfold compileSubscriptions.
  destruct (given (GraphqlDef.subscription def));
    [|intros H; now injection H as <-].
  intros H Hall.
  apply (reduce_invariant (compileSubscription actionName def)
           (fun _ s =>
              Forall (fun entry => List.NoDup (map fst (snd entry))) (snd s))
           (castArray (GraphqlDef.subscription def)) []
           (fst st, ensureType "Subscription" (snd st)) st');
    [| |exact H].
  - cbn [snd]. now apply ensureType_tidy.
  - intros seen x s s' Hs E. unfold compileSubscription in E.
    destruct (createAsyncIteratorResolver _ _ _); [|discriminate E].
    cbn [bind] in E. injection E as <-. cbn [snd]. now apply setField_tidy.
Qed.

Lemma compileAction_tidy (st st' : Lists * ResolverMap) (action : Action.t) :
  compileAction st action = Ok st' ->
  Forall (fun entry => List.NoDup (map fst (snd entry))) (snd st) ->
  Forall (fun entry => List.NoDup (map fst (snd entry))) (snd st').
Proof.
  unfold compileAction. destruct (Action.graphql action) as [def|];
    [|intros H; now injection H as <-].
  intros H Hall.
  destruct (compileSubscriptions _ def _) as [[l3 r3]|e] eqn:E;
    [|discriminate H].
  cbn [bind] in H. injection H as <-. cbn [snd].
  apply (compileSubscriptions_tidy _ _ _ _ E).
  now apply compileCalls_tidy, compileCalls_tidy.
Qed.

Lemma actions_tidy (actions : list Action.t) (st st' : Lists * ResolverMap) :
  reduce compileAction actions (Ok st) = Ok st' ->
  Forall (fun entry => List.NoDup (map fst (snd entry))) (snd st) ->
  Forall (fun entry => List.NoDup (map fst (snd entry))) (snd st').
Proof.
  intros H Hall.
  apply (reduce_invariant compileAction
           (fun _ s =>
              Forall (fun entry => List.NoDup (map fst (snd entry))) (snd s))
           actions [] st st'); [exact Hall | | exact H].
  intros seen a s s' Hs E. now apply (compileAction_tidy _ _ _ E).
Qed.

Lemma compileCall_fold_value (which : ListName) (type actionName : string)
    (earlier later : list string) (declaration : string)
    (st : Lists * ResolverMap) :
  ~ In (getFieldName declaration) (map getFieldName later) ->
  fieldAt type (getFieldName declaration)
    (snd (fold_left (compileCall which type actionName)
            (earlier ++ declaration :: later) st))
  = Some (createActionResolver actionName emptyDef).
Proof.
  intros Hlater. rewrite fold_left_app. cbn [fold_left].
  destruct (compileCall_fold_frame which type actionName later type
              (getFieldName declaration)
              (compileCall which type actionName
                 (fold_left (compileCall which type actionName) earlier st)
                 declaration)) as [-> _].
  - intros Hin. apply Hlater. unfold fieldsOf in Hin.
    apply in_map_iff in Hin as (d & E & Hd). injection E as E.
    apply in_map_iff. now exists d.
  - unfold compileCall. cbn [snd]. apply setField_fieldAt.
Qed.

Lemma compileAction_value (st st' : Lists * ResolverMap) (action : Action.t)
    (def : GraphqlDef.t) (which : ListName) (type : string)
    (earlier later : list string) (declaration : string) :
  compileAction st action = Ok st' ->
  Action.graphql action = Some def ->
  (which = Queries /\ type = "Query")
  \/ (which = Mutations /\ type = "Mutation") ->
  declared which def = earlier ++ declaration :: later ->
  ~ In (getFieldName declaration) (map getFieldName later) ->
  fieldAt type (getFieldName declaration) (snd st')
  = Some (createActionResolver (Action.name action) emptyDef).
Proof.
  unfold compileAction. intros H Hdef Hkind Hdecl Hlater. rewrite Hdef in H.
  destruct (compileSubscriptions _ def _) as [[l3 r3]|e] eqn:E;
    [|discriminate H].
  cbn [bind] in H. injection H as <-. cbn [snd].
  destruct (compileSubscriptions_frame _ _ _ _ type (getFieldName declaration)
              E) as [Hsub _].
  { intros Hin. unfold fieldsOf in Hin.
    apply in_map_iff in Hin as (d & Hd & _).
    destruct Hkind as [[_ ->] | [_ ->]]; discriminate Hd. }
  cbn [snd] in Hsub. rewrite Hsub. clear Hsub.
  unfold declared in Hdecl.
  destruct Hkind as [[-> ->] | [-> ->]]; cbn [fragmentOf] in Hdecl.
  - destruct (compileCalls_frame Mutations "Mutation" (Action.name action)
                (GraphqlDef.mutation def)
                (compileCalls Queries "Query" (Action.name action)
                   (GraphqlDef.query def) st)
                "Query" (getFieldName declaration)) as [-> _].
    { intros Hin. unfold fieldsOf in Hin.
      apply in_map_iff in Hin as (d & Hd & _). discriminate Hd. }
    unfold compileCalls.
    destruct (given (GraphqlDef.query def));
      [|destruct earlier; discriminate Hdecl].
    rewrite Hdecl. now apply compileCall_fold_value.
  - unfold compileCalls at 1.
    destruct (given (GraphqlDef.mutation def));
      [|destruct earlier; discriminate Hdecl].
    rewrite Hdecl. now apply compileCall_fold_value.
Qed.

Lemma mergeResolvers_adds_value (src : ResolverMap) type field
    (x : Resolver) :
  forall dest : ResolverMap,
    List.NoDup (map fst src) ->
    Forall (fun entry => List.NoDup (map fst (snd entry))) src ->
    fieldAt type field dest = None ->
    fieldAt type field src = Some x ->
    fieldAt type field (mergeResolvers dest src) = Some x.
Proof.
  unfold mergeResolvers.
  induction src as [|[name fields] src IH]; intros dest Hnd Hall Hdest Hsrc;
    [discriminate Hsrc |].
  cbn [map fst] in Hnd. apply NoDup_cons_iff in Hnd as [Hnew Hnd].
  apply List.Forall_cons_iff in Hall as [Hfields Hall]. cbn [snd] in Hfields.
  cbn [fold_left]. unfold fieldAt in Hsrc. cbn [assoc] in Hsrc.
  destruct (String.eqb_spec type name) as [->|Hne].
  - pose proof (mergeResolvers_frame src name field
                  (mergeType dest name fields)) as Hkeep.
    unfold mergeResolvers in Hkeep. rewrite Hkeep.
    + now apply mergeType_adds_value.
    + intros n fs Hin -> _. apply Hnew. apply in_map_iff. now exists (name, fs).
  - apply IH; try assumption.
    rewrite mergeType_frame; [exact Hdest | congruence].
Qed.

Lemma compileService_action (service : Service.t) (l l' : Lists)
    (r r' : ResolverMap) (before after : list Action.t) (action : Action.t)
    (def : GraphqlDef.t) (which : ListName) (type : string)
    (earlier later : list string) (declaration : string) :
  compileService service l r = Ok (l', r') ->
  Service.actions service = before ++ action :: after ->
  Action.graphql action = Some def ->
  (which = Queries /\ type = "Query")
  \/ (which = Mutations /\ type = "Mutation") ->
  declared which def = earlier ++ declaration :: later ->
  ~ In (getFieldName declaration) (map getFieldName later) ->
  ~ In (type, getFieldName declaration)
       (flat_map
          (fun action =>
             match Action.graphql action with
             | Some def =>
                 fieldsOf "Query" (declared Queries def)
                 ++ fieldsOf "Mutation" (declared Mutations def)
                 ++ fieldsOf "Subscription" (declared Subscriptions def)
             | None => []
             end)
          after) ->
  ~ In (type, getFieldName declaration)
       match Service.graphql service with
       | Some globalDef =>
           match GraphqlDef.resolvers globalDef with
           | Some resolvers =>
               flat_map
                 (fun entry => map (fun f => (fst entry, fst f)) (snd entry))
                 resolvers
           | None => []
           end
       | None => []
       end ->
  fieldAt type (getFieldName declaration) r = None ->
  fieldAt type (getFieldName declaration) r'
  = Some (createActionResolver (Action.name action) emptyDef).
Proof.
  unfold compileService. cbv zeta.
  intros H Hacts Hdef Hkind Hdecl Hlater Hafter Hsettings Hr.
  assert (fieldAt type (getFieldName declaration)
            (snd match Service.graphql service with
                 | Some globalDef =>
                     compileGlobal (getServiceName service) globalDef l r
                 | None => (l, r)
                 end) = None) as Hglobal.
  { destruct (Service.graphql service) as [globalDef|]; [|exact Hr].
    unfold compileGlobal.
    destruct (GraphqlDef.resolvers globalDef) as [byType|]; [|exact Hr].
    cbn [snd]. now rewrite globalResolvers_frame. }
  destruct (match Service.graphql service with
            | Some globalDef =>
                compileGlobal (getServiceName service) globalDef l r
            | None => (l, r)
            end) as [l1 r1].
  cbn [snd] in Hglobal. cbn beta iota in H.
  match type of H with
  | bind ?loop _ = _ => destruct loop as [[l2 r2]|e] eqn:E
  end; [|discriminate H].
  cbn [bind] in H.
  assert (List.NoDup (map fst r2)
          /\ Forall (fun entry => List.NoDup (map fst (snd entry))) r2
          /\ fieldAt type (getFieldName declaration) r2
             = Some (createActionResolver (Action.name action) emptyDef))
    as (Hkeys & Htidy & Hvalue).
  { rewrite Hacts, reduce_app in E.
    match type of E with
    | reduce _ _ ?mid = _ => destruct mid as [stb|e] eqn:Eb
    end; [|rewrite reduce_err in E; discriminate E].
    rewrite reduce_cons in E.
    destruct (compileAction stb action) as [sta|e] eqn:Ea;
      [|rewrite reduce_err in E; discriminate E].
    destruct (actions_frame before "" "" _ _ Eb) as [_ Hkb];
      [intros Hin; apply in_flat_map in Hin as (a & _ & Hin);
       destruct (Action.graphql a); [|destruct Hin];
       unfold fieldsOf in Hin; rewrite !in_app_iff, !in_map_iff in Hin;
       destruct Hin as [(d & Hd & _) | [(d & Hd & _) | (d & Hd & _)]];
       discriminate Hd |].
    pose proof (actions_tidy before _ _ Eb) as Htb.
    cbn [snd] in Hkb, Htb.
    specialize (Hkb (List.NoDup_nil _)). specialize (Htb (List.Forall_nil _)).
    destruct (compileAction_frame _ _ _ "" "" Ea) as [_ Hka];
      [destruct (Action.graphql action); [|intros []];
       unfold fieldsOf; rewrite !in_app_iff, !in_map_iff;
       intros [(d & Hd & _) | [(d & Hd & _) | (d & Hd & _)]];
       discriminate Hd |].
    pose proof (compileAction_tidy _ _ _ Ea Htb) as Hta.
    specialize (Hka Hkb).
    pose proof (compileAction_value _ _ _ def which type earlier later
                  declaration Ea Hdef Hkind Hdecl Hlater) as Hv.
    destruct (actions_frame after type (getFieldName declaration) _ _ E Hafter)
      as [Hframe Hk2].
    cbn [snd] in Hframe, Hk2.
    pose proof (actions_tidy after _ _ E Hta) as Ht2. cbn [snd] in Ht2.
    split; [now apply Hk2 | split; [exact Ht2 | congruence]]. }
  assert (nonEmpty r2 = true) as Hne.
  { destruct r2; [discriminate Hvalue | reflexivity]. }
  rewrite Hne in H. injection H as <- <-.
  now apply mergeResolvers_adds_value.
Qed.

Lemma collect_through (a b : list Service.t) (s : Service.t) (pass : Pass)
    type field (x : Resolver) :
  collect (a ++ s :: b) = Ok pass ->
  ~ In (getServiceName s) (map getServiceName a) ->
  (forall other,
     In other (a ++ b) -> ~ In (type, field) (declaredFields other)) ->
  fieldAt type field (resolvers startOfPass) = None ->
  (forall (l l' : Lists) (r r' : ResolverMap),
     compileService s l r = Ok (l', r') ->
     fieldAt type field r = None ->
     fieldAt type field r' = Some x) ->
  fieldAt type field (resolvers pass) = Some x.
Proof.
  intros H Hnew Hothers Hstart Hservice.
  unfold collect, collectFrom in H. rewrite reduce_app in H.
  destruct (reduce eachService a (Ok startOfPass)) as [pa|e] eqn:Ea;
    [|rewrite reduce_err in H; discriminate H].
  rewrite reduce_cons in H.
  destruct (eachService pa s) as [ps|e] eqn:Es;
    [|rewrite reduce_err in H; discriminate H].
  rewrite (collectFrom_frame b type field ps pass H)
    by (intros other Hin; apply Hothers, in_or_app; now right).
  pose proof (collectFrom_frame a type field startOfPass pa Ea) as Hpa.
  rewrite Hstart in Hpa.
  unfold eachService in Es. rewrite bool_decide_eq_false_2 in Es.
  - destruct (compileService s (lists pa) (resolvers pa)) as [[l r]|e] eqn:E;
      [|discriminate Es].
    cbn [bind] in Es. injection Es as <-. cbn [resolvers].
    apply (Hservice _ _ _ _ E). apply Hpa.
    intros other Hin. apply Hothers, in_or_app. now left.
  - intros Hin. apply Hnew. now apply (collect_processed a pa Ea).
Qed.

(** X23. The resolver of a field that is declared once. In a pass that
    reaches its end, take a service that is not skipped and a type and a
    field that no other service of the list declares and that the
    resolvers of the mixin options do not hold. If the settings of the
    service declare a resolver for that field, and its actions do not,
    the map of the pass holds under that field the resolver made of the
    declaration: the resolver of the action it names, with the
    declaration as its definition, or the declared value as it is. If an
    action of the service declares the field by a query or a mutation, no
    later declaration of the service has that field name and the
    settings do not declare it, the map holds the resolver of that action
    with no definition. *)
Theorem declared_once_resolver :
  forall (a b : list Service.t) (s : Service.t) (pass : Pass)
         (type field : string),
    collect (a ++ s :: b) = Ok pass ->
    ~ In (getServiceName s) (map getServiceName a) ->
    (forall other : Service.t,
       In other (a ++ b) -> ~ In (type, field) (declaredFields other)) ->
    fieldAt type field
      match MixinOptions.resolvers mixinOptions with
      | Some given => given
      | None => []
      end = None ->
    (forall (globalDef : GraphqlDef.t)
            (byType : list (string * list (string * ResolverDecl)))
            (fs : list (string * ResolverDecl)) (decl : ResolverDecl),
       Service.graphql s = Some globalDef ->
       GraphqlDef.resolvers globalDef = Some byType ->
       List.NoDup (map fst byType) ->
       In (type, fs) byType ->
       List.NoDup (map fst fs) ->
       In (field, decl) fs ->
       ~ In (type, field) (actionFields (Service.actions s)) ->
       fieldAt type field (resolvers pass)
       = Some (resolverOf (getServiceName s) decl))
    /\ (forall (before after : list Action.t) (action : Action.t)
               (def : GraphqlDef.t) (which : ListName)
               (earlier later : list string) (declaration : string),
          Service.actions s = before ++ action :: after ->
          Action.graphql action = Some def ->
          (which = Queries /\ type = "Query")
          \/ (which = Mutations /\ type = "Mutation") ->
          declared which def = earlier ++ declaration :: later ->
          field = getFieldName declaration ->
          ~ In field (map getFieldName later) ->
          ~ In (type, field) (actionFields after) ->
          ~ In (type, field) (settingsFields s) ->
          fieldAt type field (resolvers pass)
          = Some (ActionResolver (Action.name action) emptyDef)).
Proof.
  intros a b s pass type field H Hnew Hothers Hstart. split.
  - intros globalDef byType fs decl Hg Hres Hnd Hin Hfs Hdecl Hacts.
    apply (collect_through a b s pass type field _ H Hnew Hothers Hstart).
    intros l l' r r' E Hr.
    exact (compileService_settings s l l' r r' globalDef byType fs type field
             decl E Hg Hres Hnd Hin Hfs Hdecl Hacts Hr).
  - intros before after action def which earlier later declaration
      Hacts Hdef Hkind Hdecl -> Hlater Hafter Hsettings.
    apply (collect_through a b s pass type _ _ H Hnew Hothers Hstart).
    intros l l' r r' E Hr.
    exact (compileService_action s l l' r r' before after action def which
             type earlier later declaration E Hacts Hdef Hkind Hdecl Hlater
             Hafter Hsettings Hr).
Qed.

End DeclaredOnce.

Section DeclaredOnceExamples.

Import Sample.

Lemma declared_once_resolver_witness :
  exists pass : Pass,
    collect ([greeter] ++ posts :: []) = Ok pass
    /\ fieldAt "Author" "posts" (resolvers pass)
       = Some (ActionResolver "v2.posts.byAuthor" byAuthor)
    /\ fieldAt "Query" "posts" (resolvers pass)
       = Some (ActionResolver "v2.posts.find" emptyDef).
Proof.
  destruct (collect ([greeter] ++ posts :: [])) as [pass|err] eqn:H;
    [|vm_compute in H; discriminate H].
  exists pass. split; [reflexivity |]. split.
  - assert (forall other : Service.t,
              In other ([greeter] ++ []) ->
              ~ In ("Author", "posts") (declaredFields other)) as Hothers.
    { intros other [<- | []]. vm_compute. intuition discriminate. }
    destruct (declared_once_resolver [greeter] [] posts pass "Author" "posts"
                H) as (Hsettings & _);
      [vm_compute; intuition discriminate | exact Hothers | reflexivity |].
    apply (Hsettings _ _
             [("posts", DeclObject (Some "byAuthor") byAuthor);
              ("count", DeclObject (Some "count") countAll)]
             (DeclObject (Some "byAuthor") byAuthor) eq_refl eq_refl).
    + repeat (constructor; [cbn [In]; intuition discriminate |]). constructor.
    + left. reflexivity.
    + repeat (constructor; [cbn [In]; intuition discriminate |]). constructor.
    + left. reflexivity.
    + vm_compute. intuition discriminate.
  - assert (forall other : Service.t,
              In other ([greeter] ++ []) ->
              ~ In ("Query", "posts") (declaredFields other)) as Hothers.
    { intros other [<- | []]. vm_compute. intuition discriminate. }
    destruct (declared_once_resolver [greeter] [] posts pass "Query" "posts"
                H) as (_ & Haction);
      [vm_compute; intuition discriminate | exact Hothers | reflexivity |].
    apply (Haction [] [] _ (queryDef "posts(limit: Int): [String]") Queries
             [] [] "posts(limit: Int): [String]" eq_refl eq_refl).
    + left. now split.
    + reflexivity.
    + reflexivity.
    + intros [].
    + intros [].
    + vm_compute. intuition discriminate.
Defined.

End DeclaredOnceExamples.

(** ** What a pass collects *)

Section CollectedLists.

Context {host : Host}.

Implicit Types (l : Lists) (which : ListName).

Lemma listOf_concatTo_same which (more : list string) l :
  listOf which (concatTo which more l) = listOf which l ++ more.
Proof. destruct which; reflexivity. Qed.

Lemma listOf_concatTo_other which which' (more : list string) l :
  which <> which' ->
  listOf which' (concatTo which more l) = listOf which' l.
Proof. destruct which, which'; intros H; try reflexivity; congruence. Qed.

Lemma listOf_concatGiven_same which (f : Fragments) l :
  listOf which (concatGiven which f l)
  = listOf which l ++ (if given f then castArray f else []).
Proof.
  unfold concatGiven. destruct (given f);
    [apply listOf_concatTo_same | now rewrite app_nil_r].
Qed.

Lemma listOf_concatGiven_other which which' (f : Fragments) l :
  which <> which' ->
  listOf which' (concatGiven which f l) = listOf which' l.
Proof.
  intros H. unfold concatGiven. destruct (given f);
    [now apply listOf_concatTo_other | reflexivity].
Qed.

Ltac peel :=
  repeat first
    [ rewrite listOf_concatGiven_other by discriminate
    | rewrite listOf_concatGiven_same ].

Lemma compileGlobal_lists (serviceName : string) (globalDef : GraphqlDef.t)
    l (r : ResolverMap) which :
  listOf which (fst (compileGlobal serviceName globalDef l r))
  = listOf which l ++ declared which globalDef.
Proof.
  unfold compileGlobal, declared. cbv zeta.
  destruct (GraphqlDef.resolvers globalDef); cbn [fst];
    destruct which; cbn [fragmentOf]; peel; reflexivity.
Qed.

Lemma compileCall_fold_lists (which' : ListName) (type actionName : string)
    (ds : list string) which :
  forall st : Lists * ResolverMap,
    listOf which (fst (fold_left (compileCall which' type actionName) ds st))
    = listOf which (fst st)
      ++ match which, which' with
         | Queries, Queries | Mutations, Mutations => ds
         | _, _ => []
         end
    \/ (which' <> Queries /\ which' <> Mutations).
Proof.
  induction ds as [|d ds IH]; intros st.
  - left. cbn [fold_left]. destruct which, which'; now rewrite app_nil_r.
  - destruct which';
      try (right; split; discriminate).
    + left. cbn [fold_left].
      destruct (IH (compileCall Queries type actionName st d))
        as [-> | [H _]]; [|congruence].
      unfold compileCall. cbn [fst].
      destruct which; cbn [listOf concatTo queries mutations subscriptions
        types interfaces unions enums inputs];
        rewrite <- ?app_assoc; reflexivity.
    + left. cbn [fold_left].
      destruct (IH (compileCall Mutations type actionName st d))
        as [-> | [_ H]]; [|congruence].
      unfold compileCall. cbn [fst].
      destruct which; cbn [listOf concatTo queries mutations subscriptions
        types interfaces unions enums inputs];
        rewrite <- ?app_assoc; reflexivity.
Qed.

Lemma compileCalls_queries (actionName : string) (def : GraphqlDef.t)
    (st : Lists * ResolverMap) which :
  listOf which
    (fst (compileCalls Queries "Query" actionName (GraphqlDef.query def) st))
  = listOf which (fst st)
    ++ match which with Queries => declared Queries def | _ => [] end.
Proof.
  unfold compileCalls, declared. cbn [fragmentOf].
  destruct (given (GraphqlDef.query def)).
  - destruct (compileCall_fold_lists Queries "Query" actionName
                (castArray (GraphqlDef.query def)) which
                (fst st, ensureType "Query" (snd st))) as [-> | [H _]];
      [|congruence].
    cbn [fst]. now destruct which.
  - destruct which; now rewrite app_nil_r.
Qed.

Lemma compileCalls_mutations (actionName : string) (def : GraphqlDef.t)
    (st : Lists * ResolverMap) which :
  listOf which
    (fst (compileCalls Mutations "Mutation" actionName
            (GraphqlDef.mutation def) st))
  = listOf which (fst st)
    ++ match which with Mutations => declared Mutations def | _ => [] end.
Proof.
  unfold compileCalls, declared. cbn [fragmentOf].
  destruct (given (GraphqlDef.mutation def)).
  - destruct (compileCall_fold_lists Mutations "Mutation" actionName
                (castArray (GraphqlDef.mutation def)) which
                (fst st, ensureType "Mutation" (snd st))) as [-> | [_ H]];
      [|congruence].
    cbn [fst]. now destruct which.
  - destruct which; now rewrite app_nil_r.
Qed.

Lemma subscriptions_fold_lists (actionName : string) (def : GraphqlDef.t)
    (ds : list string) which :
  forall st st' : Lists * ResolverMap,
    reduce (compileSubscription actionName def) ds (Ok st) = Ok st' ->
    listOf which (fst st')
    = listOf which (fst st)
      ++ match which with Subscriptions => ds | _ => [] end.
Proof.
  induction ds as [|d ds IH]; intros st st' H.
  - injection H as <-. destruct which; now rewrite app_nil_r.
  - rewrite reduce_cons in H.
    destruct (compileSubscription actionName def st d) as [st1|e] eqn:E;
      [|rewrite reduce_err in H; discriminate H].
    rewrite (IH st1 st' H). unfold compileSubscription in E.
    destruct (createAsyncIteratorResolver _ _ _); [|discriminate E].
    cbn [bind] in E. injection E as <-. cbn [fst].
    destruct which; cbn [listOf concatTo queries mutations subscriptions
      types interfaces unions enums inputs];
      rewrite <- ?app_assoc; reflexivity.
Qed.

Lemma compileSubscriptions_lists (actionName : string) (def : GraphqlDef.t)
    (st st' : Lists * ResolverMap) which :
  compileSubscriptions actionName def st = Ok st' ->
  listOf which (fst st')
  = listOf which (fst st)
    ++ match which with
       | Subscriptions => declared Subscriptions def
       | _ => []
       end.
Proof.
  unfold compileSubscriptions, declared. cbn [fragmentOf].
  destruct (given (GraphqlDef.subscription def)).
  - intros H. rewrite (subscriptions_fold_lists _ _ _ which _ _ H).
    reflexivity.
  - intros H. injection H as <-. destruct which; now rewrite app_nil_r.
Qed.

Lemma compileAction_lists (st st' : Lists * ResolverMap) (action : Action.t)
    which :
  compileAction st action = Ok st' ->
  listOf which (fst st')
  = listOf which (fst st)
    ++ match Action.graphql action with
       | Some def => declared which def
       | None => []
       end.
Proof.
  unfold compileAction. destruct (Action.graphql action) as [def|].
  - intros H.
    pose proof (compileCalls_queries (Action.name action) def st which) as Hq.
    set (st1 := compileCalls Queries "Query" (Action.name action)
                  (GraphqlDef.query def) st) in *.
    pose proof (compileCalls_mutations (Action.name action) def st1 which)
      as Hm.
    set (st2 := compileCalls Mutations "Mutation" (Action.name action)
                  (GraphqlDef.mutation def) st1) in *.
    destruct (compileSubscriptions (Action.name action) def st2)
      as [[l3 r3]|e] eqn:E; [|discriminate H].
    pose proof (compileSubscriptions_lists _ _ _ _ which E) as Hs.
    cbn [bind] in H. injection H as <-. cbn [fst] in *.
    unfold declared in *.
    destruct which; cbn [fragmentOf] in *; peel;
      rewrite Hs, Hm, Hq, ?app_nil_r; reflexivity.
  - intros H. injection H as <-. now rewrite app_nil_r.
Qed.

Lemma actions_lists (actions : list Action.t) which :
  forall st st' : Lists * ResolverMap,
    reduce compileAction actions (Ok st) = Ok st' ->
    listOf which (fst st')
    = listOf which (fst st)
      ++ flat_map
           (fun action =>
              match Action.graphql action with
              | Some def => declared which def
              | None => []
              end)
           actions.
Proof.
  induction actions as [|a actions IH]; intros st st' H.
  - injection H as <-. cbn [flat_map]. now rewrite app_nil_r.
  - rewrite reduce_cons in H.
    destruct (compileAction st a) as [st1|e] eqn:E;
      [|rewrite reduce_err in H; discriminate H].
    rewrite (IH st1 st' H), (compileAction_lists _ _ _ which E).
    cbn [flat_map]. now rewrite <- app_assoc.
Qed.

Lemma compileService_lists (service : Service.t) (l l' : Lists)
    (r r' : ResolverMap) which :
  compileService service l r = Ok (l', r') ->
  listOf which l' = listOf which l ++ declaredFragments which service.
Proof.
  unfold compileService, declaredFragments. cbv zeta. intros H.
  assert (listOf which
            (fst match Service.graphql service with
                 | Some globalDef =>
                     compileGlobal (getServiceName service) globalDef l r
                 | None => (l, r)
                 end)
          = listOf which l
            ++ match Service.graphql service with
               | Some globalDef => declared which globalDef
               | None => []
               end) as Hglobal.
  { destruct (Service.graphql service) as [globalDef|];
      [apply compileGlobal_lists | now rewrite app_nil_r]. }
  destruct (match Service.graphql service with
            | Some globalDef =>
                compileGlobal (getServiceName service) globalDef l r
            | None => (l, r)
            end) as [l1 r1].
  cbn [fst] in Hglobal. cbn beta iota in H.
  match type of H with
  | bind ?loop _ = _ => destruct loop as [[l2 r2]|e] eqn:E
  end; [|discriminate H].
  cbn [bind] in H.
  pose proof (actions_lists (Service.actions service) which _ _ E) as Ha.
  cbn [fst] in Ha.
  destruct (nonEmpty r2); injection H as <- <-;
    now rewrite Ha, Hglobal, <- app_assoc.
Qed.

Lemma collectFrom_lists (services : list Service.t) which :
  forall (pass pass' : Pass) (seen : list string),
    (forall n, n ∈ processedServices pass <-> In n seen) ->
    collectFrom (Ok pass) services = Ok pass' ->
    listOf which (lists pass')
    = listOf which (lists pass)
      ++ flat_map (declaredFragments which) (compiled seen services).
Proof.
  induction services as [|s services IH]; intros pass pass' seen Hseen H.
  - injection H as <-. cbn [compiled flat_map]. now rewrite app_nil_r.
  - unfold collectFrom in H. rewrite reduce_cons in H. fold collectFrom in H.
    unfold eachService in H. rewrite (seen_decide pass seen _ Hseen) in H.
    cbn [compiled].
    destruct (existsb (String.eqb (getServiceName s)) seen).
    + exact (IH pass pass' seen Hseen H).
    + destruct (compileService s (lists pass) (resolvers pass))
        as [[l r]|e] eqn:E;
        [|cbn [bind] in H; rewrite reduce_err in H; discriminate H].
      cbn [bind] in H.
      rewrite (IH _ pass' (getServiceName s :: seen)) with (2 := H).
      * cbn [lists flat_map].
        rewrite (compileService_lists _ _ _ _ _ which E).
        now rewrite <- app_assoc.
      * intros n. cbn [processedServices In].
        rewrite elem_of_union, elem_of_singleton, (Hseen n).
        intuition congruence.
Qed.

Lemma compiled_distinct (services : list Service.t) (seen : list string) :
  List.NoDup (seen ++ map getServiceName services) ->
  compiled seen services = services.
Proof.
  revert seen. induction services as [|s services IH]; intros seen Hnd;
    [reflexivity |].
  cbn [compiled map] in *.
  assert (existsb (String.eqb (getServiceName s)) seen = false) as ->.
  { apply not_true_is_false. intros H.
    apply existsb_exists in H as (n & Hn & E). apply String.eqb_eq in E.
    subst n. apply NoDup_remove_2 in Hnd. apply Hnd, in_or_app. now left. }
  f_equal. apply IH.
  apply (Permutation.Permutation_NoDup (l := seen ++ getServiceName s
                                               :: map getServiceName services));
    [|exact Hnd].
  symmetry. apply Permutation.Permutation_middle.
Qed.

(** X21. The lists of a pass hold exactly what the services that it
    compiles declare, in the order of the declarations: for each kind of
    fragment, the list at the end of the pass is, service after service in
    the order of the registry and skipping every service whose name came
    before, the fragments of that kind in the settings of the service and
    then those of its actions, action after action. Nothing is dropped,
    nothing is added and a repeated declaration is repeated. When the
    names of the services are distinct no service is skipped. *)
Theorem collected_lists :
  forall (services : list Service.t) (pass : Pass),
    collect services = Ok pass ->
    (forall which : ListName,
       listOf which (lists pass)
       = flat_map (declaredFragments which) (compiled [] services))
    /\ (List.NoDup (map getServiceName services) ->
        forall which : ListName,
          listOf which (lists pass)
          = flat_map (declaredFragments which) services).
Proof.
  intros services pass H.
  assert (forall which,
            listOf which (lists pass)
            = flat_map (declaredFragments which) (compiled [] services))
    as Hlists.
  { intros which.
    rewrite (collectFrom_lists services which startOfPass pass [])
      with (2 := H).
    - now destruct which.
    - intros n. cbn [startOfPass processedServices In].
      rewrite elem_of_empty. tauto. }
  split; [exact Hlists |].
  intros Hnd which. rewrite Hlists.
  now rewrite (compiled_distinct services []).
Qed.

End CollectedLists.

Section ListExamples.

Import Sample.

Lemma collected_lists_witness :
  exists pass : Pass,
    collect services = Ok pass
    /\ listOf Queries (lists pass)
       = ["hello: String"; "posts(limit: Int): [String]"].
Proof.
  destruct (collect services) as [pass|err] eqn:H;
    [|vm_compute in H; discriminate H].
  exists pass. split; [reflexivity |].
  destruct (collected_lists services pass H) as [Hlists _].
  rewrite (Hlists Queries). reflexivity.
Defined.

End ListExamples.

(** ** The configuration of the Apollo server *)

Section ServerConfig.

Import Lodash Options.

Implicit Types (props ps so : list (string * JsVal)) (x key : string).

Lemma defaultsAt_shape key (v : JsVal) (f : JsVal -> JsVal) props :
  exists props1,
    defaultsAt key v f (VObj props) = VObj props1
    /\ (List.NoDup (map fst props) -> List.NoDup (map fst props1))
    /\ forall x, x <> key -> assoc x props1 = assoc x props.
Proof.
  unfold defaultsAt. cbn [assignProp].
  repeat match goal with |- context [if ?b then _ else _] => destruct b end;
    eexists; (split; [reflexivity |]); split; auto;
    try apply NoDup_keys_assign;
    intros x Hne; apply assoc_assign_ne; congruence.
Qed.

Lemma baseMerge_shape ps props :
  exists props',
    baseMerge (VObj ps) (VObj props) = VObj props'
    /\ (List.NoDup (map fst props) -> List.NoDup (map fst props'))
    /\ forall x, ~ In x (map fst ps) -> assoc x props' = assoc x props.
Proof.
  rewrite baseMerge_object. revert props.
  induction ps as [|[k v] ps IH]; intros props.
  - exists props. cbn [fold_left]. auto.
  - cbn [fold_left].
    destruct (defaultsAt_shape k v (baseMerge v) props)
      as (props1 & -> & Hnd1 & Hother1).
    destruct (IH props1) as (props' & -> & Hnd' & Hother').
    exists props'. split; [reflexivity | split; [auto |]].
    intros x Hnot. cbn [map fst In] in Hnot.
    rewrite Hother' by tauto. apply Hother1. intros ->. tauto.
Qed.

(** [_.defaultsDeep({}, source)] copies an object. *)
Lemma baseMerge_fresh so (acc : list (string * JsVal)) :
  List.NoDup (map fst acc ++ map fst so) ->
  baseMerge (VObj so) (VObj acc) = VObj (acc ++ so).
Proof.
  rewrite baseMerge_object. revert acc.
  induction so as [|[k v] so IH]; intros acc Hnd.
  - cbn [fold_left]. now rewrite app_nil_r.
  - cbn [fold_left map fst] in *.
    assert (~ In k (map fst acc)) as Hfresh.
    { apply NoDup_remove_2 in Hnd. intros Hin. apply Hnd, in_or_app.
      now left. }
    assert (defaultsAt k v (baseMerge v) (VObj acc)
            = VObj (acc ++ [(k, v)])) as ->.
    { apply assoc_None_keys in Hfresh. unfold defaultsAt.
      cbn [getProp hasKey assignProp]. rewrite Hfresh.
      cbn [isUndefined]. rewrite andb_false_r.
      apply assoc_None_keys in Hfresh. now rewrite assign_fresh. }
    rewrite IH.
    + now rewrite <- app_assoc.
    + rewrite map_app, <- app_assoc. exact Hnd.
Qed.

Lemma NoDup_serverDefaults :
  List.NoDup
    (map fst
       [("context", contextFunction);
        ("subscriptions", VObj [("onConnect", onConnect)])]).
Proof.
  cbn [map fst].
  repeat (constructor; [cbn [In]; intuition discriminate |]).
  constructor.
Qed.

(** The settings that are spread after the schema, key by key. *)
Lemma serverSettings_keys so :
  List.NoDup (map fst so) ->
  exists settings : list (string * JsVal),
    serverSettings (VObj so) = VObj settings
    /\ List.NoDup (map fst settings)
    /\ (forall key,
          getProp (VObj settings) key
          = defaulted (getProp (VObj so) key)
              (assoc key
                 [("context", contextFunction);
                  ("subscriptions", VObj [("onConnect", onConnect)])]))
    /\ (forall x,
          ~ In x ["context"; "subscriptions"] ->
          assoc x settings = assoc x so).
Proof.
  intros Hnd. unfold serverSettings, serverDefaults.
  unfold defaultsDeep, toObject. cbn [nullish fold_left truthy].
  rewrite (baseMerge_fresh so []) by exact Hnd. cbn [app].
  destruct (baseMerge_shape
              [("context", contextFunction);
               ("subscriptions", VObj [("onConnect", onConnect)])]
              so) as (settings & Es & Hsnd & Hother).
  exists settings. split; [exact Es | split; [now apply Hsnd | split]].
  - intros key. rewrite <- Es. apply baseMerge_key, NoDup_serverDefaults.
  - exact Hother.
Qed.

(** The context function of the settings is the one of the caller
    when the caller has one, and the one of the module otherwise. *)
Lemma serverSettings_context so :
  List.NoDup (map fst so) ->
  getProp (serverSettings (VObj so)) "context"
  = firstDefined [getProp (VObj so) "context"; contextFunction].
Proof.
  intros Hnd.
  destruct (serverSettings_keys so Hnd) as (settings & -> & _ & Hkey & _).
  rewrite Hkey, firstDefined_pair.
  cbn [assoc String.eqb Ascii.eqb Bool.eqb defaulted contextFunction
         isObject baseMerge].
  destruct (isUndefined _); [reflexivity |].
  rewrite andb_comm. cbn [andb]. now destruct (isObject _).
Qed.

End ServerConfig.

(** X18. What [new ApolloServer] is given, for server options of the
    caller that are a tidy object, one in which no key is a name that
    objects inherit: the properties of the caller, the context function
    and the subscription settings of the module where the caller has
    none, and the generated schema. A [context] of the caller stays in
    place of the context function of the module, which builds the
    loaders; and since the options are spread after the schema, a
    [schema] among the server options takes the place of the generated
    schema. Every other server option passes as it is. (A key of the
    caller that objects inherit, such as [toString], is outside of this
    statement: [_.defaultsDeep] does not copy it.) *)
Theorem server_config :
  forall (schema mixinOptions : JsVal) (so : list (string * JsVal)),
    Lodash.getProp mixinOptions "serverOptions" = VObj so ->
    List.NoDup (map fst so) ->
    Lodash.tidy (VObj so) = true ->
    exists config : list (string * JsVal),
      Options.serverConfig schema mixinOptions = VObj config
      /\ Lodash.getProp (VObj config) "context"
         = firstDefined [Lodash.getProp (VObj so) "context";
                         Options.contextFunction]
      /\ Lodash.getProp (VObj config) "schema"
         = match assoc "schema" so with
           | Some given => given
           | None => schema
           end
      /\ (forall key : string,
            ~ In key ["schema"; "context"; "subscriptions"] ->
            Lodash.getProp (VObj config) key = Lodash.getProp (VObj so) key).
Proof.
  intros schema mixinOptions so Hso Hnd _.
  pose proof (serverSettings_context so Hnd) as Hcontext.
  destruct (serverSettings_keys so Hnd) as (settings & Es & Hsnd & Hkey & Hother).
  unfold Options.serverConfig. rewrite Hso, Es. rewrite Es in Hcontext.
  eexists. split; [reflexivity |].
  assert (forall key,
            Lodash.getProp (VObj (spread [("schema", schema)] settings)) key
            = match assoc key settings with
              | Some v => v
              | None => if String.eqb key "schema" then schema else VUndefined
              end) as Hspread.
  { intros key. cbn [Lodash.getProp].
    rewrite (assoc_spread _ settings key Hsnd). cbn [assoc].
    destruct (assoc key settings); [reflexivity |].
    now destruct (String.eqb key "schema"). }
  split; [|split].
  - rewrite Hspread, <- Hcontext. cbn [Lodash.getProp String.eqb Ascii.eqb
      Bool.eqb].
    now destruct (assoc "context" settings).
  - rewrite Hspread. cbn [String.eqb Ascii.eqb Bool.eqb].
    rewrite Hother; [reflexivity |].
    cbn [In]. intuition discriminate.
  - intros key Hnot. cbn [In] in Hnot. rewrite Hspread.
    pose proof (Hkey key) as Hk. cbn [Lodash.getProp assoc] in Hk.
    destruct (String.eqb_spec key "context"); [subst; intuition |].
    destruct (String.eqb_spec key "subscriptions"); [subst; intuition |].
    destruct (String.eqb_spec key "schema"); [subst; intuition |].
    cbn [Options.defaulted] in Hk. cbn [Lodash.getProp].
    destruct (assoc key settings); exact Hk.
Qed.

Lemma server_config_witness :
  exists config : list (string * JsVal),
    Options.serverConfig (VForeign 1)
      (VObj [("serverOptions",
              VObj [("tracing", VBool true); ("schema", VForeign 2)])])
    = VObj config
    /\ Lodash.getProp (VObj config) "context" = Options.contextFunction
    /\ Lodash.getProp (VObj config) "schema" = VForeign 2.
Proof.
  destruct (server_config (VForeign 1)
              (VObj [("serverOptions",
                      VObj [("tracing", VBool true);
                            ("schema", VForeign 2)])])
              [("tracing", VBool true); ("schema", VForeign 2)] eq_refl)
    as (config & Hconfig & Hcontext & Hschema & _).
  - repeat (constructor; [cbn [In]; intuition discriminate |]). constructor.
  - reflexivity.
  - exists config. split; [exact Hconfig | split; assumption].
Defined.

(** ** The services of a pass *)

Section CurrentService.

Context {host : Host}.

Lemma filter_middle (p : Service.t -> bool) (a b : list Service.t)
    (s : Service.t) :
  p s = false -> List.filter p (a ++ s :: b) = List.filter p (a ++ b).
Proof.
  intros H. rewrite !List.filter_app. cbn [List.filter]. now rewrite H.
Qed.

(** X19. The services of a pass. Without [onlyIncludeCurrentService] they
    are the services of the registry. With it they are those whose name
    is the name of the service that hosts the mixin, in the order of the
    registry and whatever their version; a service of another name
    changes neither the services of a pass nor what a demand that runs
    alone ends with. *)
Theorem only_current_service :
  (MixinOptions.onlyIncludeCurrentService mixinOptions = false ->
   forall w : World, snapshot w = registry w)
  /\ (MixinOptions.onlyIncludeCurrentService mixinOptions = true ->
      forall w : World,
        (forall service : Service.t,
           In service (snapshot w) <->
           In service (registry w) /\ Service.name service = thisName)
        /\ forall (a b : list Service.t) (other : Service.t),
             registry w = a ++ b ->
             Service.name other <> thisName ->
             snapshot (withRegistry (a ++ other :: b) w) = snapshot w
             /\ snd (prepareGraphQLSchema (withRegistry (a ++ other :: b) w))
                = snd (prepareGraphQLSchema w)).
Proof.
  split.
  - intros Hoff w. unfold snapshot. now rewrite Hoff.
  - intros Hon w. split.
    + intros service. unfold snapshot. rewrite Hon, List.filter_In.
      now rewrite String.eqb_eq.
    + intros a b other Hreg Hname.
      assert (snapshot (withRegistry (a ++ other :: b) w) = snapshot w)
        as Hsnap.
      { unfold snapshot. rewrite Hon, Hreg. cbn [withRegistry registry].
        apply filter_middle. now apply String.eqb_neq. }
      split; [exact Hsnap |].
      set (w' := withRegistry (a ++ other :: b) w) in *.
      destruct (stale w) eqn:Hs.
      * assert (stale w' = true) as Hs' by exact Hs.
        destruct (prepare_stale w Hs) as (w1 & -> & Hsnap1 & _).
        destruct (prepare_stale w' Hs') as (w1' & -> & Hsnap1' & _).
        unfold rebuild. rewrite Hsnap1, Hsnap1', Hsnap.
        now destruct (generateGraphQLSchema (snapshot w)).
      * assert (stale w' = false) as Hs' by exact Hs.
        now rewrite (prepare_ready w Hs), (prepare_ready w' Hs').
Qed.

End CurrentService.

Section ServiceExamples.

Import Sample.

Lemma only_current_service_witness :
  snapshot (host := Scenario.gateway)
    (withRegistry ([greeter] ++ notifier :: [posts]) (created [greeter; posts]))
  = [posts]
  /\ snapshot (created services) = services.
Proof.
  destruct (only_current_service (host := Scenario.gateway)) as (_ & Hon).
  destruct (only_current_service (host := Sample.host)) as (Hoff & _).
  split.
  - destruct (Hon eq_refl (created [greeter; posts])) as (_ & Hother).
    destruct (Hother [greeter] [posts] notifier eq_refl) as (Hsnap & _).
    + discriminate.
    + rewrite Hsnap. reflexivity.
  - apply (Hoff eq_refl).
Defined.

End ServiceExamples.

(** ** The effects of one demand *)

Section DemandEffects.

Context {host : Host}.

Lemma prepare_stale_log (w : World) :
  stale w = true ->
  exists w1,
    prepareGraphQLSchema w = rebuild w1
    /\ snapshot w1 = snapshot w
    /\ log w1
       = log w
         ++ match apolloServer w with
            | Some server => [Stopped server]
            | None => []
            end.
Proof.
  intros Hs. unfold prepareGraphQLSchema, enter.
  assert (negb (shouldUpdateGraphqlSchema w)
          && isSome (graphqlHandler w) = false) as ->.
  { unfold stale in Hs. destruct (shouldUpdateGraphqlSchema w);
      [reflexivity |].
    cbn [orb] in Hs. apply negb_true_iff in Hs. now rewrite Hs. }
  destruct (apolloServer w) as [server|] eqn:E.
  - eexists. split; [reflexivity |]. cbn [log]. now split.
  - exists w. split.
    + destruct (rebuild w) as [w' d] eqn:Er.
      unfold rebuild in Er.
      destruct (generateGraphQLSchema (snapshot w));
        injection Er as <- <-; reflexivity.
    + split; [reflexivity | now rewrite app_nil_r].
Qed.

(** X22. What a call of [prepareGraphQLSchema] that runs alone does, in
    order. When the schema is not stale it does nothing. When it is stale
    it first stops the server that is installed, if there is one, then
    generates the schema from the services of the pass, then broadcasts
    the schema or, when the generation failed, logs the error. A failed
    rebuild leaves installed the server that it stopped, and leaves the
    schema stale, so the next call stops that server again before it
    generates. *)
Theorem demand_effects :
  forall w : World,
    (stale w = false -> log (fst (prepareGraphQLSchema w)) = log w)
    /\ (stale w = true ->
        log (fst (prepareGraphQLSchema w))
        = log w
          ++ match apolloServer w with
             | Some server => [Stopped server]
             | None => []
             end
          ++ [Generated (snapshot w);
              match generateGraphQLSchema (snapshot w) with
              | Ok schema => Broadcast schema
              | Err err => LoggedError err
              end])
    /\ (forall err : JsVal,
          stale w = true ->
          generateGraphQLSchema (snapshot w) = Err err ->
          apolloServer (fst (prepareGraphQLSchema w)) = apolloServer w
          /\ stale (fst (prepareGraphQLSchema w)) = true
          /\ snapshot (fst (prepareGraphQLSchema w)) = snapshot w
          /\ log (fst (prepareGraphQLSchema (fst (prepareGraphQLSchema w))))
             = log (fst (prepareGraphQLSchema w))
               ++ match apolloServer w with
                  | Some server => [Stopped server]
                  | None => []
                  end
               ++ [Generated (snapshot w); LoggedError err]).
Proof.
  intros w.
  assert (forall v : World,
            stale v = true ->
            log (fst (prepareGraphQLSchema v))
            = log v
              ++ match apolloServer v with
                 | Some server => [Stopped server]
                 | None => []
                 end
              ++ [Generated (snapshot v);
                  match generateGraphQLSchema (snapshot v) with
                  | Ok schema => Broadcast schema
                  | Err err => LoggedError err
                  end]) as Hlog.
  { intros v Hs.
    destruct (prepare_stale_log v Hs) as (v1 & -> & Hsnap & Hl).
    unfold rebuild. rewrite Hsnap.
    destruct (generateGraphQLSchema (snapshot v)); cbn [fst log];
      now rewrite Hl, <- app_assoc. }
  split; [intros Hs; now rewrite (prepare_ready w Hs) |].
  split; [apply Hlog |].
  intros err Hs Hg.
  destruct (prepare_stale w Hs)
    as (w1 & Hp & Hsnap & Hserver & Hh & _ & Hf & _).
  rewrite <- Hsnap in Hg.
  assert (apolloServer (fst (prepareGraphQLSchema w)) = apolloServer w)
    as Hsame.
  { rewrite Hp, (rebuild_failure w1 err Hg). exact Hserver. }
  assert (stale (fst (prepareGraphQLSchema w)) = true) as Hstale.
  { rewrite Hp, (rebuild_failure w1 err Hg). unfold stale in *.
    cbn [fst shouldUpdateGraphqlSchema graphqlHandler]. now rewrite Hf, Hh. }
  assert (snapshot (fst (prepareGraphQLSchema w)) = snapshot w) as Hsnap'.
  { rewrite Hp, (rebuild_failure w1 err Hg), <- Hsnap. reflexivity. }
  repeat split; try assumption.
  rewrite (Hlog _ Hstale), Hsame, Hsnap', <- Hsnap, Hg. reflexivity.
Qed.

End DemandEffects.

Section EffectExamples.

Import Sample.

Lemma demand_effects_witness :
  apolloServer
    (fst (prepareGraphQLSchema (withRegistry [notifier] staleWorld)))
  = apolloServer (withRegistry [notifier] staleWorld)
  /\ stale (fst (prepareGraphQLSchema (withRegistry [notifier] staleWorld)))
     = true.
Proof.
  assert (generateGraphQLSchema (snapshot (withRegistry [notifier] staleWorld))
          = Err (compositionError (referenceError "params is not defined")))
    as Hfails by reflexivity.
  destruct (demand_effects (withRegistry [notifier] staleWorld))
    as (_ & _ & Hfailed).
  destruct (Hfailed _ eq_refl Hfails) as (Hserver & Hstale & _).
  split; [exact Hserver | exact Hstale].
Defined.

End EffectExamples.

(** ** What the installed server serves *)

Section Served.

Context {host : Host}.

Implicit Types (w : World) (so : list (string * JsVal)).

(** The server executes its requests on the schema of the pass, unless the
    server options hold a schema. *)
Lemma servedSchema_cases so (server : ApolloServer) :
  MixinOptions.serverOptions mixinOptions = VObj so ->
  List.NoDup (map fst so) ->
  servedSchema server
  = match assoc "schema" so with
    | Some given => inr given
    | None => inl (serverSchema server)
    end.
Proof.
  intros Hso Hnd. unfold servedSchema, serverSettings. rewrite Hso.
  destruct (serverSettings_keys so Hnd) as (settings & -> & _ & _ & Hother).
  rewrite Hother; [reflexivity |].
  cbn [In]. intuition discriminate.
Qed.

Lemma ownContext_default so :
  MixinOptions.serverOptions mixinOptions = VObj so ->
  List.NoDup (map fst so) ->
  Lodash.isUndefined (Lodash.getProp (VObj so) "context") = true ->
  ownContext = true.
Proof.
  intros Hso Hnd Hu. unfold ownContext, serverSettings. rewrite Hso.
  rewrite (serverSettings_context so Hnd), firstDefined_pair, Hu.
  reflexivity.
Qed.

Lemma ownContext_replaced so :
  MixinOptions.serverOptions mixinOptions = VObj so ->
  List.NoDup (map fst so) ->
  Lodash.isUndefined (Lodash.getProp (VObj so) "context") = false ->
  Lodash.getProp (VObj so) "context" <> Options.contextFunction ->
  ownContext = false.
Proof.
  intros Hso Hnd Hu Hne. unfold ownContext, serverSettings. rewrite Hso.
  rewrite (serverSettings_context so Hnd), firstDefined_pair, Hu.
  destruct (Lodash.getProp (VObj so) "context") as [| | | | | | |id];
    try reflexivity.
  cbn [Options.contextFunction].
  destruct (Nat.eqb_spec id 104) as [->|]; [|reflexivity].
  now destruct Hne.
Qed.

(** X3. The server, its handler and the schema are installed together
    and are never taken away: there is none of them, or there is a server,
    the handler that it created and the schema that the pass of that server
    generated. It is so in the world that [created] leaves; an
    invalidation, a change of the registry and [stopped] keep it so; and
    however the demands interleave, a world where it is so leads to worlds
    where it is so, an installed handler stays installed, and every demand
    that has returned without an error finds a handler installed. The
    server executes its requests on that schema when the server options of
    the mixin hold no schema; when they hold one, the spread puts it over
    the generated schema, and the server serves a schema that is not the
    one installed in [graphqlSchema]. *)
Theorem installed_together :
  (forall registry : list Service.t, installed (created registry))
  /\ (forall (w : World) (services : list Service.t),
        installed w ->
        installed (invalidateGraphQLSchema w)
        /\ installed (withRegistry services w)
        /\ installed (stopped w))
  /\ (forall c c' : World * list Demand,
        steps c c' ->
        (installed (fst c) -> installed (fst c'))
        /\ (isSome (graphqlHandler (fst c)) = true ->
            isSome (graphqlHandler (fst c')) = true)
        /\ ((forall d, In d (snd c) -> returned d = true ->
                       isSome (graphqlHandler (fst c)) = true) ->
            forall d, In d (snd c') -> returned d = true ->
                      isSome (graphqlHandler (fst c')) = true))
  /\ (forall (so : list (string * JsVal)) (w : World)
             (server : ApolloServer) (schema : Schema),
        MixinOptions.serverOptions mixinOptions = VObj so ->
        List.NoDup (map fst so) ->
        Lodash.tidy (VObj so) = true ->
        installed w ->
        graphqlHandler w = Some server ->
        graphqlSchema w = Some schema ->
        servedSchema server
        = match assoc "schema" so with
          | Some given => inr given
          | None => inl schema
          end).
Proof.
  split; [intros registry; exact I |].
  split; [|split; [exact steps_installed |]].
  - intros w services H. split; [exact H | split; [exact H |]].
    unfold stopped. destruct (apolloServer w) eqn:E; [|exact H].
    unfold installed in *. cbn [apolloServer graphqlHandler graphqlSchema].
    now rewrite E in *.
  - intros so w server schema Hso Hnd _ Hinst Hh Hg.
    rewrite (servedSchema_cases so server Hso Hnd).
    unfold installed in Hinst. rewrite Hh, Hg in Hinst.
    destruct (apolloServer w) as [server'|]; [|contradiction].
    destruct Hinst as [-> ->]. reflexivity.
Qed.

(** X5. The action [graphql], for a call that runs alone in a world where
    the server, the handler and the schema are installed together: it
    executes the query on the schema that is installed in [graphqlSchema]
    once the preparation has returned, which is the schema that the pass
    of the installed server generated, with the query and the variables
    of its parameters; it fails only with the composition error of a
    failed rebuild, and then nothing is executed. The schema of the action
    is the generated one also when the server options hold a schema, which
    the server then serves to the requests of the route: the action and
    the route do not execute on the same schema in that case. *)
Theorem graphql_action :
  forall (w : World) (params : JsVal),
    installed w ->
    match snd (graphqlAction w params) with
    | Executed schema query variables =>
        exists server : ApolloServer,
          apolloServer (fst (graphqlAction w params)) = Some server
          /\ graphqlHandler (fst (graphqlAction w params)) = Some server
          /\ schema = Some (serverSchema server)
          /\ schema = graphqlSchema (fst (graphqlAction w params))
          /\ (stale w = true ->
              generateGraphQLSchema (snapshot w) = Ok (serverSchema server))
          /\ (stale w = false -> schema = graphqlSchema w)
          /\ query = Lodash.getProp params "query"
          /\ variables = Lodash.getProp params "variables"
          /\ (forall (so : list (string * JsVal)) (given : JsVal),
                MixinOptions.serverOptions mixinOptions = VObj so ->
                List.NoDup (map fst so) ->
                Lodash.tidy (VObj so) = true ->
                assoc "schema" so = Some given ->
                servedSchema server = inr given)
    | Rejected err =>
        stale w = true
        /\ exists cause : JsVal,
             compose (snapshot w) = Err cause
             /\ err = compositionError cause
    end.
Proof.
  intros w params Hinst. unfold graphqlAction.
  assert (forall server so given,
            MixinOptions.serverOptions mixinOptions = VObj so ->
            List.NoDup (map fst so) ->
            Lodash.tidy (VObj so) = true ->
            assoc "schema" so = Some given ->
            servedSchema server = inr given) as Hserved.
  { intros server so given Hso Hnd _ Hgiven.
    now rewrite (servedSchema_cases so server Hso Hnd), Hgiven. }
  destruct (stale w) eqn:Hs.
  - destruct (prepare_stale w Hs) as (w1 & -> & Hsnap & _).
    destruct (generate_cases (snapshot w)) as [[schema Hg] | (cause & Hc & Hg)];
      rewrite <- Hsnap in Hg.
    + rewrite (rebuild_server w1 schema Hg).
      cbn [fst snd apolloServer graphqlHandler graphqlSchema].
      eexists. repeat split; try discriminate; try apply Hserved.
      cbn [serverSchema]. now rewrite <- Hsnap.
    + rewrite (rebuild_failure w1 _ Hg). cbn [fst snd].
      split; [reflexivity | eauto].
  - rewrite (prepare_ready w Hs). cbn [fst snd].
    destruct (stale_handler w Hs) as [handler Hh].
    unfold installed in Hinst. rewrite Hh in Hinst.
    destruct (apolloServer w) as [server|]; [|contradiction].
    destruct (graphqlSchema w) as [schema|]; [|contradiction].
    destruct Hinst as [-> ->]. exists server.
    repeat split; try discriminate; try apply Hserved. exact Hh.
Qed.

(** X20. The loaders of a request, for server options that are a tidy
    object. After a demand that rebuilds, the handler that is installed
    belongs to a server whose context function closes over the services of
    that pass, and it stays installed when the registry changes and the
    schema is invalidated, until a later demand rebuilds. When the server
    options hold no context, the context of a request is made by the
    function of the module, which builds the loaders from the services of
    the pass: every resolver that a service of the pass declares in its
    settings with an action, with [dataLoader] and with a non-empty first
    root parameter has a loader there, under the action name that the
    resolver made of the declaration asks for. When the server options
    hold a context of the caller, that context is used in place of the
    function of the module, and the module builds no loaders. *)
Theorem request_loaders :
  forall (w : World) (schema : Schema) (so : list (string * JsVal)),
    MixinOptions.serverOptions mixinOptions = VObj so ->
    List.NoDup (map fst so) ->
    Lodash.tidy (VObj so) = true ->
    stale w = true ->
    generateGraphQLSchema (snapshot w) = Ok schema ->
    exists server : ApolloServer,
      graphqlHandler (fst (prepareGraphQLSchema w)) = Some server
      /\ serverServices server = snapshot w
      /\ (forall services : list Service.t,
            graphqlHandler
              (servicesChanged
                 (withRegistry services (fst (prepareGraphQLSchema w))))
            = Some server
            /\ stale
                 (servicesChanged
                    (withRegistry services (fst (prepareGraphQLSchema w))))
               = true)
      /\ (Lodash.isUndefined (Lodash.getProp (VObj so) "context") = true ->
          requestLoaders server = Some (createLoaders (snapshot w))
          /\ forall (registry : list (string * Loader)) (service : Service.t)
                    (action : string) (def : ResolverDef),
               createLoaders (snapshot w) = Ok registry ->
               In service (snapshot w) ->
               In (DeclObject (Some action) def) (declaredResolvers service) ->
               asksLoader def = true ->
               resolverOf (getServiceName service)
                 (DeclObject (Some action) def)
               = ActionResolver
                   (getResolverActionName (getServiceName service) action) def
               /\ exists loader : Loader,
                    assoc
                      (getResolverActionName (getServiceName service) action)
                      registry
                    = Some loader
                    /\ loaderAction loader
                       = getResolverActionName (getServiceName service)
                           action)
      /\ (Lodash.isUndefined (Lodash.getProp (VObj so) "context") = false ->
          Lodash.getProp (VObj so) "context" <> Options.contextFunction ->
          requestLoaders server = None).
Proof.
  intros w schema so Hso Hnd _ Hs Hg.
  destruct (aliases_rebuilt w schema Hs Hg) as (_ & _ & _ & _ & Hh).
  eexists. split; [exact Hh |]. split; [reflexivity |].
  split; [intros services; split; [exact Hh | reflexivity] |].
  split.
  - intros Hu. unfold requestLoaders.
    rewrite (ownContext_default so Hso Hnd Hu). split; [reflexivity |].
    intros registry service action def Hreg Hin Hdecl Hasks.
    split; [reflexivity |].
    destruct (createLoaders_keys _ _ Hreg) as (Hkeys & _ & Hkeyed).
    assert (In (getResolverActionName (getServiceName service) action)
              (map fst registry)) as Hkey.
    { apply Hkeys. unfold loaderTargets. apply in_flat_map.
      exists service. split; [exact Hin |].
      unfold targetsOf. apply in_flat_map.
      exists (DeclObject (Some action) def). split; [exact Hdecl |].
      unfold targetOf, loaderTarget. rewrite Hasks. now left. }
    destruct (assoc (getResolverActionName (getServiceName service) action)
                registry) as [loader|] eqn:E.
    + exists loader. split; [reflexivity |].
      apply Hkeyed. now apply assoc_Some_In.
    + apply assoc_None_keys in E. contradiction.
  - intros Hu Hne. unfold requestLoaders.
    now rewrite (ownContext_replaced so Hso Hnd Hu Hne).
Qed.

End Served.

Section ServedExamples.

Import Sample.

Lemma installed_together_witness :
  installed
    (fst (run [0; 1; 0; 1]%nat (staleWorld, repeat Entering 2)))
  /\ installed (stopped (invalidateGraphQLSchema staleWorld))
  /\ (exists schema : Schema,
        graphqlSchema staleWorld = Some schema
        /\ forall server : ApolloServer,
             graphqlHandler staleWorld = Some server ->
             servedSchema server = inl schema)
  /\ exists (schema : Schema) (server : ApolloServer),
       graphqlSchema (host := Scenario.gateway)
         (fst (prepareGraphQLSchema (created services)))
       = Some schema
       /\ graphqlHandler (host := Scenario.gateway)
            (fst (prepareGraphQLSchema (created services)))
          = Some server
       /\ servedSchema (host := Scenario.gateway) server = inr (VForeign 7).
Proof.
  destruct (installed_together (host := Sample.host))
    as (_ & Hkeeps & Hsteps & Hserved).
  destruct (installed_together (host := Scenario.gateway))
    as (_ & _ & _ & Hgiven).
  assert (installed staleWorld) as Hstart
    by (vm_compute; split; reflexivity).
  split; [|split; [|split]].
  - apply (proj1 (Hsteps _ _ (run_steps [0; 1; 0; 1]%nat
                               (staleWorld, repeat Entering 2)))).
    exact Hstart.
  - apply (Hkeeps _ []). apply (Hkeeps _ []). exact Hstart.
  - destruct (graphqlSchema staleWorld) as [schema|] eqn:Es;
      [|vm_compute in Es; discriminate Es].
    exists schema. split; [reflexivity |].
    intros server Hh.
    apply (Hserved [] staleWorld server schema eq_refl);
      [constructor | reflexivity | exact Hstart | exact Hh | exact Es].
  - destruct (graphqlSchema (host := Scenario.gateway)
                (fst (prepareGraphQLSchema (created services))))
      as [schema|] eqn:Es; [|vm_compute in Es; discriminate Es].
    destruct (graphqlHandler (host := Scenario.gateway)
                (fst (prepareGraphQLSchema (created services))))
      as [server|] eqn:Eh; [|vm_compute in Eh; discriminate Eh].
    exists schema, server. split; [reflexivity | split; [reflexivity |]].
    apply (Hgiven _ (fst (prepareGraphQLSchema (created services)))
             server schema eq_refl).
    + repeat (constructor; [cbn [In]; intuition discriminate |]).
      constructor.
    + reflexivity.
    + vm_compute. split; reflexivity.
    + exact Eh.
    + exact Es.
Defined.

Lemma graphql_action_witness :
  match
    snd (graphqlAction (created services)
           (VObj [("query", VStr "{ hello }")]))
  with
  | Executed schema query variables =>
      schema
      = graphqlSchema
          (fst (graphqlAction (created services)
                  (VObj [("query", VStr "{ hello }")])))
      /\ query = VStr "{ hello }"
      /\ variables = VUndefined
  | Rejected err => False
  end.
Proof.
  pose proof (graphql_action (created services)
                (VObj [("query", VStr "{ hello }")]) I) as H.
  destruct (snd (graphqlAction (created services)
                   (VObj [("query", VStr "{ hello }")])))
    as [schema query variables|err] eqn:E.
  - destruct H as (server & _ & _ & _ & Hs & _ & _ & Hq & Hv & _).
    split; [exact Hs | split; [exact Hq | exact Hv]].
  - vm_compute in E. discriminate E.
Defined.

Lemma request_loaders_witness :
  (exists server : ApolloServer,
     graphqlHandler (fst (prepareGraphQLSchema (created services)))
     = Some server
     /\ requestLoaders server = Some (createLoaders services)
     /\ forall registry : list (string * Loader),
          createLoaders services = Ok registry ->
          exists loader : Loader,
            assoc (getResolverActionName (getServiceName posts) "byAuthor")
              registry
            = Some loader
            /\ loaderAction loader
               = getResolverActionName (getServiceName posts) "byAuthor")
  /\ exists server : ApolloServer,
       graphqlHandler (host := Scenario.gateway)
         (fst (prepareGraphQLSchema (created services)))
       = Some server
       /\ requestLoaders (host := Scenario.gateway) server = None.
Proof.
  split.
  - destruct (generateGraphQLSchema (snapshot (created services)))
      as [schema|err] eqn:Hg; [|vm_compute in Hg; discriminate Hg].
    destruct (request_loaders (created services) schema [] eq_refl)
      as (server & Hh & _ & _ & Hown & _);
      [constructor | reflexivity | reflexivity | exact Hg |].
    destruct (Hown eq_refl) as (Hl & Hfound).
    exists server. split; [exact Hh | split; [exact Hl |]].
    intros registry Hreg.
    apply (Hfound registry posts "byAuthor" byAuthor Hreg).
    + right. right. left. reflexivity.
    + left. reflexivity.
    + reflexivity.
  - destruct (generateGraphQLSchema (host := Scenario.gateway)
                (snapshot (host := Scenario.gateway) (created services)))
      as [schema|err] eqn:Hg; [|vm_compute in Hg; discriminate Hg].
    destruct (request_loaders (host := Scenario.gateway) (created services)
                schema
                [("tracing", VBool true); ("schema", VForeign 7);
                 ("context", VForeign 8)] eq_refl)
      as (server & Hh & _ & _ & _ & Hreplaced);
      [|reflexivity | reflexivity | exact Hg |].
    + repeat (constructor; [cbn [In]; intuition discriminate |]).
      constructor.
    + exists server. split; [exact Hh |].
      apply Hreplaced; [reflexivity | discriminate].
Defined.

End ServedExamples.

